(** * Poke orchestrator: session engine, session manager and webhook delivery

    A shallow embedding of the TypeScript sources
    ([claude/session.ts], [claude/session-manager.ts],
    [poke/webhook-sender.ts], [core/errors.ts], [claude/utils.ts]) and the
    properties of the specification checked against it.

    Conventions of the embedding:
    - a JavaScript [Map] whose iteration order is observable (the session
      registry, serialised into the lock file) is an insertion-ordered
      association list; maps that are only looked up are [gmap]s;
    - [setTimeout]/[clearTimeout] are a table of armed timers, each with a
      handle, a deadline in milliseconds and the callback it stands for;
      time only moves through [advance], which fires the due callbacks;
    - the outside world (HTTP responses, file-system failures, liveness of
      a process id, [randomUUID]) is an explicit argument or a field of the
      state, never a hidden choice;
    - a method that throws returns [inl err]; the state a caller can observe
      after the throw is returned next to it where it matters;
    - an [async] method is taken from its start to its completion, what an
      awaited call answers being an argument; the methods of the manager
      that still change it after an [await] are also given in two steps
      ([Overlap]), so that calls can overlap. *)

From Stdlib Require Import ZArith Lia Bool Ascii String.
From stdpp Require Import gmap strings list fin_maps pretty.

Open Scope string_scope.
Open Scope list_scope.

(** ** core/errors.ts: the error classes the modelled methods throw *)

Inductive AppError : Type :=
| SessionNotFoundError (sessionId : string)
| SessionLimitError (maxSessions : nat)
| SessionStateError (message : string)
| WorkspaceNotFoundError (sessionId : string)
| FileAccessError (message : string).

(** The [code] field set by each constructor of errors.ts. *)
Definition errorCode (e : AppError) : string :=
  match e with
  | SessionNotFoundError _ => "SESSION_NOT_FOUND"
  | SessionLimitError _ => "SESSION_LIMIT_REACHED"
  | SessionStateError _ => "SESSION_STATE_ERROR"
  | WorkspaceNotFoundError _ => "WORKSPACE_NOT_FOUND"
  | FileAccessError _ => "FILE_ACCESS_ERROR"
  end.

(** The [message] passed to [super] by each constructor. *)
Definition errorMessage (e : AppError) : string :=
  match e with
  | SessionNotFoundError sid => "Session not found: " +:+ sid
  | SessionLimitError maxSessions =>
      "Maximum number of sessions (" +:+ pretty maxSessions +:+ ") reached"
  | SessionStateError msg => msg
  | WorkspaceNotFoundError sid => "Workspace not found for session: " +:+ sid
  | FileAccessError msg => msg
  end.

(** ** node:path (POSIX flavour), as used by the session manager *)

Module NodePath.

(** Splits at every ["/"]; [cur] is the segment read so far. *)
Fixpoint splitSlash (cur s : string) : list string :=
  match s with
  | EmptyString => [cur]
  | String c rest =>
      if Ascii.eqb c "/"%char then cur :: splitSlash "" rest
      else splitSlash (cur +:+ String c "") rest
  end.

Definition isAbsolute (p : string) : bool :=
  match p with
  | String c _ => Ascii.eqb c "/"%char
  | EmptyString => false
  end.

(** One step of [normalizeString]: [acc] is the stack of kept segments,
    innermost first. *)
Definition normalizeStep (allowAboveRoot : bool) (acc : list string) (seg : string)
  : list string :=
  if String.eqb seg "" then acc
  else if String.eqb seg "." then acc
  else if String.eqb seg ".." then
    match acc with
    | top :: below => if String.eqb top ".." then seg :: acc else below
    | [] => if allowAboveRoot then [seg] else []
    end
  else seg :: acc.

(** [normalizeString(path, allowAboveRoot)] as the list of remaining
    segments, outermost first. *)
Definition normalizeSegments (allowAboveRoot : bool) (p : string) : list string :=
  rev (fold_left (normalizeStep allowAboveRoot) (splitSlash "" p) []).

Definition joinSegments (segs : list string) : string := String.concat "/" segs.

(** [path.resolve(a, b)] with the process working directory [cwd]
    (always absolute): arguments are prepended right to left until the
    path is absolute; empty arguments are skipped. *)
Definition resolve (cwd a b : string) : string :=
  let step (acc : string * bool) (p : string) : string * bool :=
    if snd acc then acc
    else if String.eqb p "" then acc
    else (p +:+ "/" +:+ fst acc, isAbsolute p) in
  let '(resolvedPath, resolvedAbsolute) := fold_left step [b; a; cwd] ("", false) in
  let normal := joinSegments (normalizeSegments (negb resolvedAbsolute) resolvedPath) in
  if resolvedAbsolute then "/" +:+ normal
  else if String.eqb normal "" then "." else normal.

Definition endsWithSlash (p : string) : bool :=
  match rev (splitSlash "" p) with
  | last :: _ :: _ => String.eqb last ""
  | _ => false
  end.

(** [path.normalize(p)]. *)
Definition normalize (p : string) : string :=
  if String.eqb p "" then "."
  else
    let absolute := isAbsolute p in
    let trailing := endsWithSlash p in
    let normal := joinSegments (normalizeSegments (negb absolute) p) in
    if String.eqb normal "" then
      (if absolute then "/" else if trailing then "./" else ".")
    else
      let withSep := if trailing then normal +:+ "/" else normal in
      if absolute then "/" +:+ withSep else withSep.

(** [path.join(a, b)]: non-empty arguments glued with ["/"], then
    normalised. *)
Definition join (a b : string) : string :=
  let joined :=
    if String.eqb a "" then b
    else if String.eqb b "" then a
    else a +:+ "/" +:+ b in
  normalize joined.

(** [full.startsWith(root)]: a test on characters, not on segments. *)
Definition startsWith (full root : string) : bool := String.prefix root full.

(** Containment of one location in another, segment by segment: the
    notion of lying inside a directory. *)
Fixpoint segmentPrefix (root full : list string) : bool :=
  match root, full with
  | [], _ => true
  | r :: root', f :: full' => String.eqb r f && segmentPrefix root' full'
  | _ :: _, [] => false
  end.

Definition pathSegments (p : string) : list string :=
  filter (λ seg, seg ≠ "") (splitSlash "" p).

Definition isInside (root full : string) : bool :=
  segmentPrefix (pathSegments root) (pathSegments full).

End NodePath.


(** ** claude/types.ts: the event vocabulary *)

Inductive SessionStatus : Type := active | idle | terminated.

Inductive PermissionMode : Type := bypassPermissions | plan.

(** The [reason] of a [session_ended] event: ['completed'], ['cancelled'],
    ['error']. *)
Inductive EndReason : Type := reason_completed | reason_cancelled | reason_error.

(** Values typed [unknown] in the source (tool inputs and results) are
    carried as their JSON text. *)
Inductive SessionEvent : Type :=
| message_chunk (content : string)
| thinking (content : string)
| tool_call (toolCallId toolName toolInput : string)
| tool_result (toolCallId toolName result : string) (isError : bool)
| plan_update (entries : list (string * string))
| plan_mode_change (inPlanMode : bool)
| question (questionId questionText : string) (options : list (string * string))
    (multiSelect : bool)
| permission_request (permissionId toolName toolInput : string)
    (options : list (string * string))
| session_ended (reason : EndReason)
| error_event (message : string).

(** ** setTimeout / clearTimeout

    The table of armed timers of the event loop.  A timer is identified by
    its handle; [setTimeout] hands out handles in increasing order, and the
    callbacks of timers that are due run in order of deadline, timers with
    the same deadline in the order they were armed. *)

Module Timers.

Section Table.

Context {C : Type}.

Record Timer : Type := mkTimer { handle : nat; deadline : Z; callback : C }.

Record Table : Type := mkTable { armed : list Timer; nextHandle : nat }.

Definition empty : Table := mkTable [] 0.

Definition setTimeout (cb : C) (now delay : Z) (tbl : Table) : nat * Table :=
  (nextHandle tbl,
   mkTable (armed tbl ++ [mkTimer (nextHandle tbl) (now + delay) cb]) (S (nextHandle tbl))).

Definition clearTimeout (h : nat) (tbl : Table) : Table :=
  mkTable (filter (λ tm, handle tm ≠ h) (armed tbl)) (nextHandle tbl).

(** The armed timer with handle [h], if it has not fired or been cleared. *)
Definition lookup (h : nat) (tbl : Table) : option Timer :=
  head (filter (λ tm, handle tm = h) (armed tbl)).

Fixpoint insertByDeadline (tm : Timer) (l : list Timer) : list Timer :=
  match l with
  | [] => [tm]
  | x :: rest =>
      if (deadline tm <? deadline x)%Z then tm :: l
      else x :: insertByDeadline tm rest
  end.

(** Stable: [foldr] inserts the later-armed timers first, and an insertion
    stops in front of the first strictly later deadline. *)
Definition sortByDeadline (l : list Timer) : list Timer :=
  foldr insertByDeadline [] l.

(** The timers whose deadline has passed at time [t], in firing order. *)
Definition due (t : Z) (tbl : Table) : list Timer :=
  sortByDeadline (filter (λ tm, (deadline tm ≤ t)%Z) (armed tbl)).

End Table.

Arguments Timer : clear implicits.
Arguments Table : clear implicits.

End Timers.

Arguments Timers.setTimeout : simpl never.
Arguments Timers.clearTimeout : simpl never.
Arguments Timers.lookup : simpl never.
Arguments Timers.due : simpl never.

(** ** poke/webhook-sender.ts *)

Module WebhookSender.

(** What one [pool.request] comes back with: a status code, or a thrown
    transport exception. *)
Inductive Response : Type :=
| Status (statusCode : Z)
| TransportException.

(** The observable actions of [sendToPoke]. *)
Inductive Effect : Type :=
| Request (attempt : nat) (updates : list (string * SessionEvent))
| Sleep (ms : Z).

Inductive Outcome : Type :=
| Delivered
| DroppedClientError (statusCode : Z)
| DroppedAfterAllRetries.

Definition is2xx (code : Z) : bool := (200 <=? code)%Z && (code <? 300)%Z.
Definition is4xx (code : Z) : bool := (400 <=? code)%Z && (code <? 500)%Z.

(** The sleep guarded by [attempt < maxRetries - 1], of [2 ** attempt * 100]
    milliseconds. *)
Definition backoff (maxRetries attempt : nat) : list Effect :=
  if (attempt <? maxRetries - 1)%nat then [Sleep (2 ^ Z.of_nat attempt * 100)%Z] else [].

(** The [for (let attempt = 0; attempt < maxRetries; attempt++)] loop, from
    the iteration numbered [attempt] with [remaining = maxRetries - attempt]
    iterations to go.  [respond n] is how the endpoint answers the request
    of iteration [n]. *)
Fixpoint sendLoop (respond : nat → Response) (updates : list (string * SessionEvent))
    (maxRetries remaining attempt : nat) : list Effect * Outcome :=
  match remaining with
  | O => ([], DroppedAfterAllRetries)
  | S remaining' =>
      let retry :=
        let '(effects, outcome) :=
          sendLoop respond updates maxRetries remaining' (S attempt) in
        (Request attempt updates :: backoff maxRetries attempt ++ effects, outcome) in
      match respond attempt with
      | Status code =>
          if is2xx code then ([Request attempt updates], Delivered)
          else if is4xx code then ([Request attempt updates], DroppedClientError code)
          else retry
      | TransportException => retry
      end
  end.

Definition sendToPoke (respond : nat → Response) (updates : list (string * SessionEvent))
    (maxRetries : nat) : list Effect * Outcome :=
  sendLoop respond updates maxRetries maxRetries 0.

(** The default value of the [maxRetries] parameter. *)
Definition defaultMaxRetries : nat := 3.

Definition isRelevantForPoke (event : SessionEvent) : bool :=
  match event with
  | question _ _ _ _ | permission_request _ _ _ _ => true
  | plan_mode_change _ => true
  | session_ended _ | error_event _ => true
  | message_chunk _ | tool_call _ _ _ | tool_result _ _ _ _ | thinking _
  | plan_update _ => false
  end.

(** The sender: the queue of payloads and the deadline of the batch timer
    when one is armed. *)
Record Sender : Type := mkSender {
  queue : list (string * SessionEvent);
  timer : option Z;
  batchIntervalMs : Z
}.

Definition queueEvent (now : Z) (sessionId : string) (event : SessionEvent)
    (s : Sender) : Sender :=
  if negb (isRelevantForPoke event) then s
  else
    mkSender (queue s ++ [(sessionId, event)])
      (match timer s with
       | Some d => Some d
       | None => Some (now + batchIntervalMs s)%Z
       end)
      (batchIntervalMs s).

(** [flush]: disarm the timer, take the whole queue as one batch and send
    it with the default number of attempts. *)
Definition flush (respond : nat → Response) (s : Sender)
  : Sender * list Effect * option Outcome :=
  let s1 := mkSender (queue s) None (batchIntervalMs s) in
  match queue s with
  | [] => (s1, [], None)
  | batch =>
      let '(effects, outcome) := sendToPoke respond batch defaultMaxRetries in
      (mkSender [] None (batchIntervalMs s), effects, Some outcome)
  end.

(** How many requests a run issued, and how many of them were retries
    (every request after the first). *)
Definition requestAttempts (effects : list Effect) : list nat :=
  omap (λ e, match e with Request attempt _ => Some attempt | Sleep _ => None end) effects.

Definition requests (effects : list Effect) : nat := length (requestAttempts effects).

Definition retries (effects : list Effect) : nat := pred (requests effects).

Definition sleeps (effects : list Effect) : list Z :=
  omap (λ e, match e with Sleep ms => Some ms | Request _ _ => None end) effects.

End WebhookSender.


(** ** Sequencing

    [runAll f l s] runs [f a] for each [a] of [l] in turn, threading the
    state and collecting what is emitted: the shape of every loop below
    that emits events. *)

Definition runAll {A S E : Type} (f : A → S → S * list E) (l : list A) (s : S)
  : S * list E :=
  fold_left (λ acc a, let '(s1, evs) := f a acc.1 in (s1, acc.2 ++ evs)) l (s, []).

(** ** claude/utils.ts and claude/session.ts *)

Module Session.

(** The two callbacks a session hands to [setTimeout]. *)
Inductive TimerCallback : Type :=
| FlushText
| EvictToolCall (toolCallId : string).

(** [createPushable]: the values pushed so far and the [ended] flag.  The
    consumer side belongs to the agent runtime. *)
Record Pushable : Type := mkPushable { pushed : list string; ended : bool }.

Definition push (value : string) (p : Pushable) : Pushable :=
  if ended p then p else mkPushable (pushed p ++ [value]) false.

Definition endInput (p : Pushable) : Pushable := mkPushable (pushed p) true.

(** [createUserMessage] keeps the text; [createSlashCommandMessage] builds
    it, [args] being used when it is a non-empty string. *)
Definition createUserMessage (text : string) : string := text.

Definition createSlashCommandMessage (command : string) (args : option string) : string :=
  match args with
  | Some a => if String.eqb a "" then "/" +:+ command else "/" +:+ command +:+ " " +:+ a
  | None => "/" +:+ command
  end.

Record t : Type := mkSession {
  id : string;
  status : SessionStatus;
  permissionMode : PermissionMode;
  cwd : string;
  createdAt : Z;
  lastActivityAt : Z;
  inPlanMode : bool;
  cancelled : bool;
  loopRunning : bool;
  textBuffer : string;
  textFlushTimeout : option nat;
  toolCallNames : gmap string string;
  toolCallTimers : gmap string nat;
  input : Pushable;
  timers : Timers.Table TimerCallback
}.

(** Field updates ([this.f = v]). *)

Definition set_status (v : SessionStatus) (s : t) : t :=
  mkSession (id s) (v) (permissionMode s) (cwd s) (createdAt s) (lastActivityAt s)
    (inPlanMode s) (cancelled s) (loopRunning s) (textBuffer s) (textFlushTimeout s)
    (toolCallNames s) (toolCallTimers s) (input s) (timers s).

Definition set_permissionMode (v : PermissionMode) (s : t) : t :=
  mkSession (id s) (status s) (v) (cwd s) (createdAt s) (lastActivityAt s) (inPlanMode
    s) (cancelled s) (loopRunning s) (textBuffer s) (textFlushTimeout s)
    (toolCallNames s) (toolCallTimers s) (input s) (timers s).

Definition set_lastActivityAt (v : Z) (s : t) : t :=
  mkSession (id s) (status s) (permissionMode s) (cwd s) (createdAt s) (v) (inPlanMode
    s) (cancelled s) (loopRunning s) (textBuffer s) (textFlushTimeout s)
    (toolCallNames s) (toolCallTimers s) (input s) (timers s).

Definition set_inPlanMode (v : bool) (s : t) : t :=
  mkSession (id s) (status s) (permissionMode s) (cwd s) (createdAt s) (lastActivityAt
    s) (v) (cancelled s) (loopRunning s) (textBuffer s) (textFlushTimeout s)
    (toolCallNames s) (toolCallTimers s) (input s) (timers s).

Definition set_cancelled (v : bool) (s : t) : t :=
  mkSession (id s) (status s) (permissionMode s) (cwd s) (createdAt s) (lastActivityAt
    s) (inPlanMode s) (v) (loopRunning s) (textBuffer s) (textFlushTimeout s)
    (toolCallNames s) (toolCallTimers s) (input s) (timers s).

Definition set_loopRunning (v : bool) (s : t) : t :=
  mkSession (id s) (status s) (permissionMode s) (cwd s) (createdAt s) (lastActivityAt
    s) (inPlanMode s) (cancelled s) (v) (textBuffer s) (textFlushTimeout s)
    (toolCallNames s) (toolCallTimers s) (input s) (timers s).

Definition set_textBuffer (v : string) (s : t) : t :=
  mkSession (id s) (status s) (permissionMode s) (cwd s) (createdAt s) (lastActivityAt
    s) (inPlanMode s) (cancelled s) (loopRunning s) (v) (textFlushTimeout s)
    (toolCallNames s) (toolCallTimers s) (input s) (timers s).

Definition set_textFlushTimeout (v : option nat) (s : t) : t :=
  mkSession (id s) (status s) (permissionMode s) (cwd s) (createdAt s) (lastActivityAt
    s) (inPlanMode s) (cancelled s) (loopRunning s) (textBuffer s) (v) (toolCallNames
    s) (toolCallTimers s) (input s) (timers s).

Definition set_toolCallNames (v : gmap string string) (s : t) : t :=
  mkSession (id s) (status s) (permissionMode s) (cwd s) (createdAt s) (lastActivityAt
    s) (inPlanMode s) (cancelled s) (loopRunning s) (textBuffer s) (textFlushTimeout
    s) (v) (toolCallTimers s) (input s) (timers s).

Definition set_toolCallTimers (v : gmap string nat) (s : t) : t :=
  mkSession (id s) (status s) (permissionMode s) (cwd s) (createdAt s) (lastActivityAt
    s) (inPlanMode s) (cancelled s) (loopRunning s) (textBuffer s) (textFlushTimeout
    s) (toolCallNames s) (v) (input s) (timers s).

Definition set_input (v : Pushable) (s : t) : t :=
  mkSession (id s) (status s) (permissionMode s) (cwd s) (createdAt s) (lastActivityAt
    s) (inPlanMode s) (cancelled s) (loopRunning s) (textBuffer s) (textFlushTimeout
    s) (toolCallNames s) (toolCallTimers s) (v) (timers s).

Definition set_timers (v : Timers.Table TimerCallback) (s : t) : t :=
  mkSession (id s) (status s) (permissionMode s) (cwd s) (createdAt s) (lastActivityAt
    s) (inPlanMode s) (cancelled s) (loopRunning s) (textBuffer s) (textFlushTimeout
    s) (toolCallNames s) (toolCallTimers s) (input s) (v).

Definition textFlushIntervalMs : Z := 50.

Definition TOOL_CALL_TTL_MS : Z := 10 * 60 * 1000.

(** The state the constructor leaves: status idle, empty buffers, the
    message loop started. *)
Definition new (sessionId workingDir : string) (mode : option PermissionMode) (now : Z) : t :=
  mkSession sessionId idle (default bypassPermissions mode) workingDir now now false
    false true "" None ∅ ∅ (mkPushable [] false) Timers.empty.

(** [emitEvent] hands the event to the [onEvent] callback at once; the
    events a method emits are returned in order. *)

Definition bufferTextChunk (now : Z) (text : string) (s : t) : t :=
  let s1 := set_textBuffer (textBuffer s +:+ text) s in
  match textFlushTimeout s1 with
  | Some _ => s1
  | None =>
      let '(h, tbl) := Timers.setTimeout FlushText now textFlushIntervalMs (timers s1) in
      set_textFlushTimeout (Some h) (set_timers tbl s1)
  end.

Definition flushTextBuffer (s : t) : t * list SessionEvent :=
  let s1 :=
    match textFlushTimeout s with
    | Some h => set_textFlushTimeout None (set_timers (Timers.clearTimeout h (timers s)) s)
    | None => s
    end in
  if String.eqb (textBuffer s1) "" then (s1, [])
  else (set_textBuffer "" s1, [message_chunk (textBuffer s1)]).

Definition trackToolCall (now : Z) (toolCallId toolName : string) (s : t) : t :=
  let s1 := set_toolCallNames (<[toolCallId := toolName]> (toolCallNames s)) s in
  let '(h, tbl) :=
    Timers.setTimeout (EvictToolCall toolCallId) now TOOL_CALL_TTL_MS (timers s1) in
  set_toolCallTimers (<[toolCallId := h]> (toolCallTimers s1)) (set_timers tbl s1).

Definition getToolName (toolCallId : string) (s : t) : string * t :=
  let name := default "unknown" (toolCallNames s !! toolCallId) in
  let s1 := set_toolCallNames (delete toolCallId (toolCallNames s)) s in
  match toolCallTimers s1 !! toolCallId with
  | Some h =>
      (name, set_toolCallTimers (delete toolCallId (toolCallTimers s1))
               (set_timers (Timers.clearTimeout h (timers s1)) s1))
  | None => (name, s1)
  end.

(** The bodies of the two timer callbacks. *)
Definition runCallback (cb : TimerCallback) (s : t) : t * list SessionEvent :=
  match cb with
  | FlushText => flushTextBuffer (set_textFlushTimeout None s)
  | EvictToolCall toolCallId =>
      (set_toolCallTimers (delete toolCallId (toolCallTimers s))
         (set_toolCallNames (delete toolCallId (toolCallNames s)) s), [])
  end.

(** A due timer fires unless it was cleared in the meantime; firing
    disarms it. *)
Definition fireTimer (h : nat) (s : t) : t * list SessionEvent :=
  match Timers.lookup h (timers s) with
  | Some tm =>
      runCallback (Timers.callback tm) (set_timers (Timers.clearTimeout h (timers s)) s)
  | None => (s, [])
  end.

Definition fireAll (handles : list nat) (s : t) : t * list SessionEvent :=
  runAll fireTimer handles s.

(** Time passes until [time] with nothing else happening: the callbacks of
    the timers due by then run. *)
Definition advance (time : Z) (s : t) : t * list SessionEvent :=
  fireAll (Timers.handle <$> Timers.due time (timers s)) s.

(** Whether an awaited call into the agent runtime ([query.interrupt],
    [query.setPermissionMode]) resolves or rejects. *)
Inductive SdkCall : Type := resolves | rejects.

(** How a method of the session settles. *)
Inductive Settled : Type := fulfilled | rejected.

Definition sendPrompt (now : Z) (prompt : string) (s : t) : t :=
  let s1 := set_status active s in
  let s2 := set_lastActivityAt now s1 in
  let s3 := set_cancelled false s2 in
  set_input (push (createUserMessage prompt) (input s3)) s3.

Definition sendSlashCommand (now : Z) (command : string) (args : option string) (s : t)
  : t * list SessionEvent :=
  let s1 := set_status active s in
  let s2 := set_lastActivityAt now s1 in
  let s3 := set_cancelled false s2 in
  let '(s4, evs) :=
    if String.eqb command "plan" then (set_inPlanMode true s3, [plan_mode_change true])
    else (s3, []) in
  (set_input (push (createSlashCommandMessage command args) (input s4)) s4, evs).

Definition cancel (interrupt : SdkCall) (s : t) : t * list SessionEvent * Settled :=
  let s1 := set_cancelled true s in
  match interrupt with
  | rejects => (s1, [], rejected)
  | resolves => (set_status idle s1, [session_ended reason_cancelled], fulfilled)
  end.

(** [for (const timer of this.toolCallTimers.values()) clearTimeout(timer)]. *)
Definition clearToolCallTimers (s : t) : t :=
  set_timers
    (map_fold (λ _ h tbl, Timers.clearTimeout h tbl) (timers s) (toolCallTimers s)) s.

(** The message stream throws: the handler installed by [startMessageLoop]. *)
Definition messageLoopError (message : string) (s : t) : t * list SessionEvent :=
  if negb (loopRunning s) then (s, [])
  else
    let s1 := set_status terminated s in
    (set_loopRunning false (set_input (endInput (input s1)) s1), [error_event message]).

(** How the message loop ends while [terminate] awaits it: either
    [processMessages] returns (the stream is done, or the next message
    meets the [cancelled] flag and the loop breaks), or the stream throws
    and the handler installed by [startMessageLoop] runs. *)
Inductive LoopEnd : Type :=
| loop_returns
| loop_throws (message : string).

(** [await this.messageLoop.catch(() => {})]: there is nothing to wait
    for once the loop has ended. *)
Definition awaitMessageLoop (loopEnd : LoopEnd) (s : t) : t * list SessionEvent :=
  if negb (loopRunning s) then (s, [])
  else
    match loopEnd with
    | loop_returns => (set_loopRunning false s, [])
    | loop_throws message => messageLoopError message s
    end.

(** [terminate] up to its [await]. *)
Definition terminateStart (s : t) : t * list SessionEvent :=
  let s1 := set_cancelled true s in
  let s2 := set_status terminated s1 in
  let '(s3, evs) := flushTextBuffer s2 in
  let s4 := clearToolCallTimers s3 in
  let s5 := set_toolCallNames ∅ s4 in
  let s6 := set_toolCallTimers ∅ s5 in
  (set_input (endInput (input s6)) s6, evs).

(** [terminate], for a call that returns: [loopEnd] says how the message
    loop ends during the wait, no other method being called on the session
    meanwhile. *)
Definition terminate (loopEnd : LoopEnd) (s : t) : t * list SessionEvent :=
  let '(s1, evs) := terminateStart s in
  let '(s2, evs') := awaitMessageLoop loopEnd s1 in
  (s2, evs ++ evs').

Definition isPlan (mode : PermissionMode) : bool :=
  match mode with plan => true | bypassPermissions => false end.

Definition setPermissionMode (sdk : SdkCall) (mode : PermissionMode) (s : t)
  : t * list SessionEvent * Settled :=
  let s1 := set_permissionMode mode s in
  let '(s2, evs) :=
    if inPlanMode s1 && negb (isPlan mode)
    then (set_inPlanMode false s1, [plan_mode_change false])
    else (s1, []) in
  (s2, evs, match sdk with resolves => fulfilled | rejects => rejected end).

(** *** The messages of the agent runtime, as far as [processMessages]
    looks at them *)

(** A content block or delta: [text] and [thinking] are the properties the
    loop tests with [in]. *)
Record ContentBlock : Type := mkBlock {
  text : option string;
  thinkingText : option string
}.

Inductive StreamEvent : Type :=
| content_block_start (content_block : ContentBlock)
| content_block_delta (delta : ContentBlock)
| other_stream_event.

(** A tool input: its JSON text, and the [todos] array when it has one. *)
Record ToolInput : Type := mkToolInput {
  json : string;
  todos : option (list (string * string))
}.

(** [tool_use_block] stands for the three block types [tool_use],
    [server_tool_use] and [mcp_tool_use], which the loop treats alike. *)
Inductive AssistantBlock : Type :=
| tool_use_block (blockId name : string) (blockInput : ToolInput)
| tool_result_block (tool_use_id content : string) (is_error : option bool)
| other_block.

Inductive SDKMessage : Type :=
| sdk_stream_event (event : StreamEvent)
| sdk_assistant (content : option (list AssistantBlock))
| sdk_result (success : bool)
| sdk_system
| sdk_other.

Definition handleStreamBlock (now : Z) (block : ContentBlock) (s : t)
  : t * list SessionEvent :=
  match text block with
  | Some txt => (bufferTextChunk now txt s, [])
  | None =>
      match thinkingText block with
      | Some th => (s, [thinking th])
      | None => (s, [])
      end
  end.

Definition handleAssistantBlock (now : Z) (block : AssistantBlock) (s : t)
  : t * list SessionEvent :=
  match block with
  | tool_use_block blockId name blockInput =>
      let s1 := trackToolCall now blockId name s in
      match (if String.eqb name "TodoWrite" then todos blockInput else None) with
      | Some entries => (s1, [plan_update entries])
      | None => (s1, [tool_call blockId name (json blockInput)])
      end
  | tool_result_block tool_use_id content is_error =>
      let '(toolName, s1) := getToolName tool_use_id s in
      (s1, [tool_result tool_use_id toolName content (default false is_error)])
  | other_block => (s, [])
  end.

Definition handleAssistantBlocks (now : Z) (blocks : list AssistantBlock) (s : t)
  : t * list SessionEvent :=
  runAll (handleAssistantBlock now) blocks s.

(** One iteration of the [for await] loop of [processMessages] on the
    message [message].  Once the loop has ended nothing is processed; with
    [cancelled] set the iteration breaks out of the loop. *)
Definition processMessage (now : Z) (message : SDKMessage) (s : t)
  : t * list SessionEvent :=
  if negb (loopRunning s) then (s, [])
  else if cancelled s then (set_loopRunning false s, [])
  else
    let s1 := set_lastActivityAt now s in
    match message with
    | sdk_stream_event (content_block_start block)
    | sdk_stream_event (content_block_delta block) => handleStreamBlock now block s1
    | sdk_stream_event other_stream_event => (s1, [])
    | sdk_assistant content =>
        let '(s2, evs) := flushTextBuffer s1 in
        match content with
        | Some blocks =>
            let '(s3, evs') := handleAssistantBlocks now blocks s2 in (s3, evs ++ evs')
        | None => (s2, evs)
        end
    | sdk_result success =>
        (set_status idle s1, [session_ended (if success then reason_completed else reason_error)])
    | sdk_system | sdk_other => (s1, [])
    end.

(** The operations of the state machine of a session. *)
Inductive Op : Type :=
| OpSendPrompt (now : Z) (prompt : string)
| OpSendSlashCommand (now : Z) (command : string) (args : option string)
| OpCancel (interrupt : SdkCall)
| OpSetPermissionMode (sdk : SdkCall) (mode : PermissionMode)
| OpTerminate (loopEnd : LoopEnd)
| OpMessage (now : Z) (message : SDKMessage)
| OpMessageLoopError (message : string)
| OpAdvance (time : Z).

Definition step (op : Op) (s : t) : t * list SessionEvent :=
  match op with
  | OpSendPrompt now prompt => (sendPrompt now prompt s, [])
  | OpSendSlashCommand now command args => sendSlashCommand now command args s
  | OpCancel interrupt => fst (cancel interrupt s)
  | OpSetPermissionMode sdk mode => fst (setPermissionMode sdk mode s)
  | OpTerminate loopEnd => terminate loopEnd s
  | OpMessage now message => processMessage now message s
  | OpMessageLoopError message => messageLoopError message s
  | OpAdvance time => advance time s
  end.

Definition run (ops : list Op) (s : t) : t * list SessionEvent := runAll step ops s.

End Session.


(** ** A JavaScript [Map] with string keys: insertion-ordered, one entry
    per key *)

Module JsMap.

Section JsMap.

Context {V : Type}.

Fixpoint get (k : string) (m : list (string * V)) : option V :=
  match m with
  | [] => None
  | (k', v) :: rest => if decide (k' = k) then Some v else get k rest
  end.

(** [set] keeps the position of a key that is already present. *)
Fixpoint set (k : string) (v : V) (m : list (string * V)) : list (string * V) :=
  match m with
  | [] => [(k, v)]
  | (k', v') :: rest =>
      if decide (k' = k) then (k, v) :: rest else (k', v') :: set k v rest
  end.

Fixpoint delete (k : string) (m : list (string * V)) : list (string * V) :=
  match m with
  | [] => []
  | (k', v') :: rest =>
      if decide (k' = k) then delete k rest else (k', v') :: delete k rest
  end.

Definition has (k : string) (m : list (string * V)) : bool :=
  match get k m with Some _ => true | None => false end.

Definition keys (m : list (string * V)) : list string := m.*1.

Definition size (m : list (string * V)) : nat := length m.

End JsMap.

End JsMap.

(** ** claude/session-manager.ts *)

Module SessionManager.

(** Outcome of a file-system call that the manager wraps in [try]. *)
Inductive IO : Type := succeeds | fails.

Record LockFileContent : Type := mkLock {
  pid : nat;
  startedAt : Z;
  sessionIds : list string
}.

(** What is at the lock-file path: nothing, text that does not parse to a
    lock record, or a record. *)
Inductive LockFile : Type :=
| lock_absent
| lock_invalid
| lock_record (content : LockFileContent).

Record Dirent : Type := mkDirent { name : string; isDirectory : bool }.

#[global] Instance Dirent_eq_dec : EqDecision Dirent.
Proof. solve_decision. Defined.

(** The part of the disk the manager changes: the children of the
    workspace root (the lock file apart) and the lock file. *)
Record Disk : Type := mkDisk { entries : list Dirent; lockFile : LockFile }.

(** The file-system calls that change the disk, in the order issued. *)
Inductive FsEffect : Type :=
| FsMkdir (path : string)
| FsRm (path : string) (outcome : IO)
| FsWriteLock (content : LockFileContent) (outcome : IO)
| FsUnlinkLock.

Inductive Decision : Type := allow | allow_always | deny.

Record PendingQuestion : Type := mkQuestion {
  questionId : string;
  q_sessionId : string;
  q_question : string;
  q_options : list (string * string);
  q_multiSelect : bool;
  q_timeoutId : nat
}.

Record PendingPermission : Type := mkPermission {
  permissionId : string;
  p_sessionId : string;
  p_toolName : string;
  p_toolInput : string;
  p_options : list (string * string);
  p_timeoutId : nat
}.

(** The expiry callbacks the manager arms. *)
Inductive TimerCallback : Type :=
| QuestionTimeout (questionId : string)
| PermissionTimeout (permissionId : string).

(** Every call of the [resolve] or [reject] function of a pending entry. *)
Inductive Settlement : Type :=
| QuestionResolved (questionId answer : string)
| QuestionRejected (questionId reason : string)
| PermissionResolved (permissionId : string) (decision : Decision)
| PermissionRejected (permissionId reason : string).

(** The manager.  [completedFlags] holds the [completed] variable each
    question or permission closure captures, under the handle of the
    expiry timer armed with it; [uuidSource] and [uuidsTaken] stand for
    [randomUUID]; [forwarded] lists the calls of [config.onEvent]. *)
Record t : Type := mkManager {
  maxSessions : nat;
  workspacesDir : string;
  sessions : list (string * Session.t);
  pendingQuestions : list (string * PendingQuestion);
  pendingPermissions : list (string * PendingPermission);
  messageChunks : list (string * list string);
  timers : Timers.Table TimerCallback;
  completedFlags : gmap nat bool;
  settlements : list Settlement;
  forwarded : list (string * SessionEvent);
  disk : Disk;
  fsLog : list FsEffect;
  uuidSource : nat → string;
  uuidsTaken : nat
}.

Definition set_sessions (v : list (string * Session.t)) (m : t) : t :=
  mkManager (maxSessions m) (workspacesDir m) (v) (pendingQuestions m)
    (pendingPermissions m) (messageChunks m) (timers m) (completedFlags m)
    (settlements m) (forwarded m) (disk m) (fsLog m) (uuidSource m) (uuidsTaken m).

Definition set_pendingQuestions (v : list (string * PendingQuestion)) (m : t) : t :=
  mkManager (maxSessions m) (workspacesDir m) (sessions m) (v) (pendingPermissions m)
    (messageChunks m) (timers m) (completedFlags m) (settlements m) (forwarded m)
    (disk m) (fsLog m) (uuidSource m) (uuidsTaken m).

Definition set_pendingPermissions (v : list (string * PendingPermission)) (m : t) : t :=
  mkManager (maxSessions m) (workspacesDir m) (sessions m) (pendingQuestions m) (v)
    (messageChunks m) (timers m) (completedFlags m) (settlements m) (forwarded m)
    (disk m) (fsLog m) (uuidSource m) (uuidsTaken m).

Definition set_messageChunks (v : list (string * list string)) (m : t) : t :=
  mkManager (maxSessions m) (workspacesDir m) (sessions m) (pendingQuestions m)
    (pendingPermissions m) (v) (timers m) (completedFlags m) (settlements m)
    (forwarded m) (disk m) (fsLog m) (uuidSource m) (uuidsTaken m).

Definition set_timers (v : Timers.Table TimerCallback) (m : t) : t :=
  mkManager (maxSessions m) (workspacesDir m) (sessions m) (pendingQuestions m)
    (pendingPermissions m) (messageChunks m) (v) (completedFlags m) (settlements m)
    (forwarded m) (disk m) (fsLog m) (uuidSource m) (uuidsTaken m).

Definition set_completedFlags (v : gmap nat bool) (m : t) : t :=
  mkManager (maxSessions m) (workspacesDir m) (sessions m) (pendingQuestions m)
    (pendingPermissions m) (messageChunks m) (timers m) (v) (settlements m) (forwarded
    m) (disk m) (fsLog m) (uuidSource m) (uuidsTaken m).

Definition set_settlements (v : list Settlement) (m : t) : t :=
  mkManager (maxSessions m) (workspacesDir m) (sessions m) (pendingQuestions m)
    (pendingPermissions m) (messageChunks m) (timers m) (completedFlags m) (v)
    (forwarded m) (disk m) (fsLog m) (uuidSource m) (uuidsTaken m).

Definition set_forwarded (v : list (string * SessionEvent)) (m : t) : t :=
  mkManager (maxSessions m) (workspacesDir m) (sessions m) (pendingQuestions m)
    (pendingPermissions m) (messageChunks m) (timers m) (completedFlags m)
    (settlements m) (v) (disk m) (fsLog m) (uuidSource m) (uuidsTaken m).

Definition set_disk (v : Disk) (m : t) : t :=
  mkManager (maxSessions m) (workspacesDir m) (sessions m) (pendingQuestions m)
    (pendingPermissions m) (messageChunks m) (timers m) (completedFlags m)
    (settlements m) (forwarded m) (v) (fsLog m) (uuidSource m) (uuidsTaken m).

Definition set_fsLog (v : list FsEffect) (m : t) : t :=
  mkManager (maxSessions m) (workspacesDir m) (sessions m) (pendingQuestions m)
    (pendingPermissions m) (messageChunks m) (timers m) (completedFlags m)
    (settlements m) (forwarded m) (disk m) (v) (uuidSource m) (uuidsTaken m).

Definition set_uuidsTaken (v : nat) (m : t) : t :=
  mkManager (maxSessions m) (workspacesDir m) (sessions m) (pendingQuestions m)
    (pendingPermissions m) (messageChunks m) (timers m) (completedFlags m)
    (settlements m) (forwarded m) (disk m) (fsLog m) (uuidSource m) (v).

Definition lockFilePath (m : t) : string := NodePath.join (workspacesDir m) ".orchestrator.lock".

Definition randomUUID (m : t) : string * t :=
  (uuidSource m (uuidsTaken m), set_uuidsTaken (S (uuidsTaken m)) m).

Definition QUESTION_TIMEOUT_MS : Z := 300000.

(** [writeLockFile]: the content is taken from the registry; a failing
    write or rename is logged and swallowed, the lock file staying as it
    was. *)
Definition writeLockFile (processId : nat) (now : Z) (write : IO) (m : t) : t :=
  let content := mkLock processId now (JsMap.keys (sessions m)) in
  let m1 := set_fsLog (fsLog m ++ [FsWriteLock content write]) m in
  match write with
  | succeeds => set_disk (mkDisk (entries (disk m1)) (lock_record content)) m1
  | fails => m1
  end.

Definition updateLockFile := writeLockFile.

(** [rm(path, { recursive: true, force: true })] on the modelled part of
    the disk: everything at or below [path] goes. *)
Definition rmRecursive (root path : string) (d : Disk) : Disk :=
  mkDisk
    (filter (λ e, NodePath.isInside path (NodePath.join root (name e)) = false) (entries d))
    (if NodePath.isInside path (NodePath.join root ".orchestrator.lock")
     then lock_absent else lockFile d).

(** One guarded [rm] of the cleanup loops. *)
Definition tryRm (rm : string → IO) (path : string) (m : t) : t :=
  let m1 := set_fsLog (fsLog m ++ [FsRm path (rm path)]) m in
  match rm path with
  | succeeds => set_disk (rmRecursive (workspacesDir m1) path (disk m1)) m1
  | fails => m1
  end.

Definition isHidden (entryName : string) : bool := NodePath.startsWith entryName ".".

(** [cleanupOrphanedSessions].  [alive] is [isProcessRunning]; [rm] and
    [readdir] say which calls fail. *)
Definition cleanupOrphanedSessions (alive : nat → bool) (rm : string → IO) (readdir : IO)
    (m : t) : t :=
  match lockFile (disk m) with
  | lock_absent | lock_invalid => m
  | lock_record lockData =>
      if alive (pid lockData) then m
      else
        let m1 :=
          fold_left (λ acc sessionId, tryRm rm (NodePath.join (workspacesDir acc) sessionId) acc)
            (sessionIds lockData) m in
        match readdir with
        | fails => m1
        | succeeds =>
            fold_left
              (λ acc entry,
                 if isDirectory entry && negb (isHidden (name entry))
                 then tryRm rm (NodePath.join (workspacesDir acc) (name entry)) acc
                 else acc)
              (entries (disk m1)) m1
        end
  end.

(** [initialize]: [ensureWorkspacesDir] leaves the modelled disk as it is. *)
Definition initialize (processId : nat) (now : Z) (alive : nat → bool) (rm : string → IO)
    (readdir write : IO) (m : t) : t :=
  writeLockFile processId now write (cleanupOrphanedSessions alive rm readdir m).

(** [createSessionWorkspace]: [mkdir(path, { recursive: true })]. *)
Definition createSessionWorkspace (sessionId : string) (m : t) : string * t :=
  let workspacePath := NodePath.join (workspacesDir m) sessionId in
  let m1 := set_fsLog (fsLog m ++ [FsMkdir workspacePath]) m in
  let present :=
    bool_decide
      (workspacePath
         ∈ (λ e, NodePath.join (workspacesDir m) (name e)) <$> entries (disk m)) in
  (workspacePath,
   if present then m1
   else set_disk (mkDisk (entries (disk m1) ++ [mkDirent sessionId true]) (lockFile (disk m1))) m1).

(** [handleSessionEvent]. *)
Definition forward (sessionId : string) (event : SessionEvent) (m : t) : t :=
  set_forwarded (forwarded m ++ [(sessionId, event)]) m.

Definition handleSessionEvent (now : Z) (sessionId : string) (event : SessionEvent) (m : t)
  : t :=
  let m1 :=
    match event with
    | message_chunk content =>
        let chunks := default [] (JsMap.get sessionId (messageChunks m)) in
        set_messageChunks (JsMap.set sessionId (chunks ++ [content]) (messageChunks m)) m
    | _ => m
    end in
  match event with
  | question _ questionText options multiSelect =>
      let '(qid, m2) := randomUUID m1 in
      let '(h, tbl) :=
        Timers.setTimeout (QuestionTimeout qid) now QUESTION_TIMEOUT_MS (timers m2) in
      let m3 := set_completedFlags (<[h := false]> (completedFlags m2)) (set_timers tbl m2) in
      let m4 :=
        set_pendingQuestions
          (JsMap.set qid (mkQuestion qid sessionId questionText options multiSelect h)
             (pendingQuestions m3)) m3 in
      forward sessionId (question qid questionText options multiSelect) m4
  | permission_request _ toolName toolInput options =>
      let '(pid, m2) := randomUUID m1 in
      let '(h, tbl) :=
        Timers.setTimeout (PermissionTimeout pid) now QUESTION_TIMEOUT_MS (timers m2) in
      let m3 := set_completedFlags (<[h := false]> (completedFlags m2)) (set_timers tbl m2) in
      let m4 :=
        set_pendingPermissions
          (JsMap.set pid (mkPermission pid sessionId toolName toolInput options h)
             (pendingPermissions m3)) m3 in
      forward sessionId (permission_request pid toolName toolInput options) m4
  | _ => forward sessionId event m1
  end.

Definition isCompleted (h : nat) (m : t) : bool := default false (completedFlags m !! h).

(** The callback handed to [setTimeout] for the timer with handle [h]. *)
Definition runCallback (h : nat) (cb : TimerCallback) (m : t) : t :=
  if isCompleted h m then m
  else
    let m1 := set_completedFlags (<[h := true]> (completedFlags m)) m in
    match cb with
    | QuestionTimeout qid =>
        match JsMap.get qid (pendingQuestions m1) with
        | Some _ =>
            set_pendingQuestions (JsMap.delete qid (pendingQuestions m1))
              (set_settlements (settlements m1 ++ [QuestionRejected qid "Question timeout"]) m1)
        | None => m1
        end
    | PermissionTimeout pid =>
        match JsMap.get pid (pendingPermissions m1) with
        | Some _ =>
            set_pendingPermissions (JsMap.delete pid (pendingPermissions m1))
              (set_settlements
                 (settlements m1 ++ [PermissionRejected pid "Permission request timeout"]) m1)
        | None => m1
        end
    end.

Definition fireTimer (h : nat) (m : t) : t :=
  match Timers.lookup h (timers m) with
  | Some tm =>
      runCallback h (Timers.callback tm)
        (set_timers (Timers.clearTimeout h (timers m)) m)
  | None => m
  end.

Definition fireAll (handles : list nat) (m : t) : t :=
  fold_left (λ acc h, fireTimer h acc) handles m.

(** Time passes until [time] with no call into the manager. *)
Definition advance (time : Z) (m : t) : t :=
  fireAll (Timers.handle <$> Timers.due time (timers m)) m.

(** The [resolve] closure of a pending entry armed with timer [h]. *)
Definition resolveClosure (h : nat) (m : t) : t :=
  if isCompleted h m then m
  else
    set_timers (Timers.clearTimeout h (timers m))
      (set_completedFlags (<[h := true]> (completedFlags m)) m).

Definition answerQuestion (qid answer : string) (m : t) : t * (AppError + unit) :=
  match JsMap.get qid (pendingQuestions m) with
  | None => (m, inl (SessionStateError ("Question not found: " +:+ qid)))
  | Some pending =>
      let m1 := set_timers (Timers.clearTimeout (q_timeoutId pending) (timers m)) m in
      let m2 := set_settlements (settlements m1 ++ [QuestionResolved qid answer]) m1 in
      let m3 := resolveClosure (q_timeoutId pending) m2 in
      (set_pendingQuestions (JsMap.delete qid (pendingQuestions m3)) m3, inr ())
  end.

Definition respondToPermission (pid : string) (decision : Decision) (m : t)
  : t * (AppError + unit) :=
  match JsMap.get pid (pendingPermissions m) with
  | None => (m, inl (SessionStateError ("Permission request not found: " +:+ pid)))
  | Some pending =>
      let m1 := set_timers (Timers.clearTimeout (p_timeoutId pending) (timers m)) m in
      let m2 := set_settlements (settlements m1 ++ [PermissionResolved pid decision]) m1 in
      let m3 := resolveClosure (p_timeoutId pending) m2 in
      (set_pendingPermissions (JsMap.delete pid (pendingPermissions m3)) m3, inr ())
  end.

(** What a method of the manager throws: one of the classes of errors.ts,
    or an exception of the Node runtime it does not catch. *)
Inductive Thrown : Type :=
| app_error (e : AppError)
| node_error (syscall : string).

Record CreateSessionOptions : Type := mkOptions {
  o_cwd : string;
  o_permissionMode : option PermissionMode
}.

(** The events a session emits reach the manager through the [onEvent]
    callback given to its constructor. *)
Definition deliver (now : Z) (sessionId : string) (events : list SessionEvent) (m : t) : t :=
  fold_left (λ acc event, handleSessionEvent now sessionId event acc) events m.

(** [createSession]. *)
Definition createSession (processId : nat) (now : Z) (mkdir write : IO)
    (options : CreateSessionOptions) (m : t) : t * (Thrown + string) :=
  if (maxSessions m <=? JsMap.size (sessions m))%nat then
    (m, inl (app_error (SessionLimitError (maxSessions m))))
  else
    let '(sessionId, m1) := randomUUID m in
    match mkdir with
    | fails => (m1, inl (node_error "mkdir"))
    | succeeds =>
        let '(workspacePath, m2) := createSessionWorkspace sessionId m1 in
        let session := Session.new sessionId workspacePath (o_permissionMode options) now in
        let m3 := set_sessions (JsMap.set (Session.id session) session (sessions m2)) m2 in
        (updateLockFile processId now write m3, inr (Session.id session))
    end.

Definition requireSession (sessionId : string) (m : t) : AppError + Session.t :=
  match JsMap.get sessionId (sessions m) with
  | Some session => inr session
  | None => inl (SessionNotFoundError sessionId)
  end.

(** [this.sessions.get(id)] returns the session object itself: a method
    called on it changes the entry of the registry. *)
Definition withSession (now : Z) (sessionId : string)
    (method : Session.t → Session.t * list SessionEvent) (m : t) : t * (Thrown + unit) :=
  match requireSession sessionId m with
  | inl e => (m, inl (app_error e))
  | inr session =>
      let '(session', events) := method session in
      (deliver now sessionId events
         (set_sessions (JsMap.set sessionId session' (sessions m)) m), inr ())
  end.

Definition sendPrompt (now : Z) (sessionId prompt : string) (m : t) : t * (Thrown + unit) :=
  withSession now sessionId (λ s, (Session.sendPrompt now prompt s, [])) m.

Definition sendSlashCommand (now : Z) (sessionId command : string) (args : option string)
    (m : t) : t * (Thrown + unit) :=
  withSession now sessionId (Session.sendSlashCommand now command args) m.

(** The clean-up loops of [terminateSession] over the pending entries. *)
Definition rejectQuestion (sessionId : string) (acc : t) (entry : string * PendingQuestion)
  : t :=
  if decide (q_sessionId entry.2 = sessionId) then
    set_pendingQuestions (JsMap.delete entry.1 (pendingQuestions acc))
      (set_settlements (settlements acc ++ [QuestionRejected entry.1 "Session terminated"])
         (set_timers (Timers.clearTimeout (q_timeoutId entry.2) (timers acc)) acc))
  else acc.

Definition rejectPermission (sessionId : string) (acc : t)
    (entry : string * PendingPermission) : t :=
  if decide (p_sessionId entry.2 = sessionId) then
    set_pendingPermissions (JsMap.delete entry.1 (pendingPermissions acc))
      (set_settlements (settlements acc ++ [PermissionRejected entry.1 "Session terminated"])
         (set_timers (Timers.clearTimeout (p_timeoutId entry.2) (timers acc)) acc))
  else acc.

(** [terminateSession]. *)
Definition terminateSession (processId : nat) (now : Z) (write : IO)
    (loopEnd : Session.LoopEnd) (sessionId : string) (m : t) : t * (Thrown + unit) :=
  match JsMap.get sessionId (sessions m) with
  | None => (m, inl (app_error (SessionNotFoundError sessionId)))
  | Some session =>
      let '(session', events) := Session.terminate loopEnd session in
      let m1 :=
        deliver now sessionId events
          (set_sessions (JsMap.set sessionId session' (sessions m)) m) in
      let m2 := set_sessions (JsMap.delete sessionId (sessions m1)) m1 in
      let m3 := fold_left (rejectQuestion sessionId) (pendingQuestions m2) m2 in
      let m4 := fold_left (rejectPermission sessionId) (pendingPermissions m3) m3 in
      let m5 := set_messageChunks (JsMap.delete sessionId (messageChunks m4)) m4 in
      (updateLockFile processId now write m5, inr ())
  end.

(** [readMessageHistory]. *)
Definition readMessageHistory (sessionId : string) (m : t) : t * (Thrown + list string) :=
  if negb (JsMap.has sessionId (sessions m)) then
    (m, inl (app_error (SessionNotFoundError sessionId)))
  else
    let chunks := default [] (JsMap.get sessionId (messageChunks m)) in
    (set_messageChunks (JsMap.delete sessionId (messageChunks m)) m, inr chunks).

(** *** Workspace files

    These methods only read.  What is on disk below the workspaces is given
    by [World]; the calls made are returned next to the result. *)

Inductive FsRead (A : Type) : Type :=
| fs_ok (a : A)
| fs_enoent
| fs_failure.

Arguments fs_ok {A} a.
Arguments fs_enoent {A}.
Arguments fs_failure {A}.

Record FileStats : Type := mkStats {
  st_size : nat;
  st_isDirectory : bool;
  st_mtime : string
}.

Record World : Type := mkWorld {
  processCwd : string;
  statAt : string → FsRead FileStats;
  readFileAt : string → FsRead string;
  readdirAt : string → FsRead (list Dirent)
}.

Inductive FsAccess : Type :=
| AccessStat (path : string)
| AccessReadFile (path : string)
| AccessReaddir (path : string).

Record FileInfo : Type := mkInfo {
  i_path : string;
  i_size : nat;
  i_isDirectory : bool;
  i_modifiedAt : string
}.

Definition accessDenied : AppError :=
  FileAccessError "Access denied: Path is outside session workspace".

(** [resolveWorkspacePath]: the working directory of a registered session,
    or else the directory named after the id when [stat] finds it. *)
Definition resolveWorkspacePath (w : World) (sessionId : string) (m : t)
  : list FsAccess * (AppError + string) :=
  match JsMap.get sessionId (sessions m) with
  | Some session => ([], inr (Session.cwd session))
  | None =>
      let workspacePath := NodePath.join (workspacesDir m) sessionId in
      ([AccessStat workspacePath],
       match statAt w workspacePath with
       | fs_ok _ => inr workspacePath
       | _ => inl (WorkspaceNotFoundError sessionId)
       end)
  end.

Definition readSessionFile (w : World) (sessionId relativePath : string) (m : t)
  : list FsAccess * (AppError + string) :=
  match resolveWorkspacePath w sessionId m with
  | (calls, inl e) => (calls, inl e)
  | (calls, inr workspacePath) =>
      let fullPath := NodePath.resolve (processCwd w) workspacePath relativePath in
      if negb (NodePath.startsWith fullPath workspacePath) then (calls, inl accessDenied)
      else
        (calls ++ [AccessReadFile fullPath],
         match readFileAt w fullPath with
         | fs_ok data => inr data
         | fs_enoent => inl (FileAccessError ("File not found: " +:+ relativePath))
         | fs_failure => inl (FileAccessError ("Failed to read file: " +:+ relativePath))
         end)
  end.

Definition listedName (relativePath : string) (entry : Dirent) : string :=
  let entryPath :=
    if String.eqb relativePath "" then name entry
    else relativePath +:+ "/" +:+ name entry in
  if isDirectory entry then entryPath +:+ "/" else entryPath.

Definition rootIfEmpty (relativePath : string) : string :=
  if String.eqb relativePath "" then "/" else relativePath.

Definition listSessionFiles (w : World) (sessionId relativePath : string) (m : t)
  : list FsAccess * (AppError + list string) :=
  match resolveWorkspacePath w sessionId m with
  | (calls, inl e) => (calls, inl e)
  | (calls, inr workspacePath) =>
      let fullPath := NodePath.resolve (processCwd w) workspacePath relativePath in
      if negb (NodePath.startsWith fullPath workspacePath) then (calls, inl accessDenied)
      else
        (calls ++ [AccessReaddir fullPath],
         match readdirAt w fullPath with
         | fs_ok dirents => inr (listedName relativePath <$> dirents)
         | fs_enoent =>
             inl (FileAccessError ("Directory not found: " +:+ rootIfEmpty relativePath))
         | fs_failure =>
             inl (FileAccessError ("Failed to list directory: " +:+ rootIfEmpty relativePath))
         end)
  end.

Definition getSessionFileInfo (w : World) (sessionId relativePath : string) (m : t)
  : list FsAccess * (AppError + FileInfo) :=
  match resolveWorkspacePath w sessionId m with
  | (calls, inl e) => (calls, inl e)
  | (calls, inr workspacePath) =>
      let fullPath := NodePath.resolve (processCwd w) workspacePath relativePath in
      if negb (NodePath.startsWith fullPath workspacePath) then (calls, inl accessDenied)
      else
        (calls ++ [AccessStat fullPath],
         match statAt w fullPath with
         | fs_ok stats =>
             inr (mkInfo relativePath (st_size stats) (st_isDirectory stats) (st_mtime stats))
         | fs_enoent => inl (FileAccessError ("File not found: " +:+ relativePath))
         | fs_failure => inl (FileAccessError ("Failed to stat file: " +:+ relativePath))
         end)
  end.

(** A manager right after construction, before [initialize] has run. *)
Definition new (max : nat) (dir : string) (onDisk : Disk) (uuids : nat → string) : t :=
  mkManager max dir [] [] [] [] Timers.empty ∅ [] [] onDisk [] uuids 0.

End SessionManager.

(** ** Fixtures: concrete managers, sessions and worlds used by the
    examples below *)

Module Fixtures.

Import SessionManager.

Definition uuid1 : string := "1b4e28ba-2fa1-41d2-883f-0016d3cca427".

Definition workspaces : string := "/tmp/poke-orchestrator/workspaces".

(** A manager right after construction on an empty disk. *)
Definition freshManager (max : nat) : SessionManager.t :=
  SessionManager.new max workspaces (mkDisk [] lock_absent) (λ _, uuid1).

(** A manager holding one session, created through [createSession]. *)
Definition oneSessionManager (max : nat) (write : IO) : SessionManager.t :=
  fst (createSession 4242 1000 succeeds write (mkOptions "/home/dev" None) (freshManager max)).

(** A disk on which every path can be read. *)
Definition readableWorld : World :=
  mkWorld "/srv/orchestrator"
    (λ _, fs_ok (mkStats 6 false "2026-01-01T00:00:00.000Z"))
    (λ _, fs_ok "secret")
    (λ _, fs_ok [mkDirent "secret.txt" false]).

(** A directory next to the workspace of [uuid1] whose name extends it. *)
Definition siblingDir : string := "../" +:+ uuid1 +:+ "-old".

Definition siblingFile : string := siblingDir +:+ "/secret.txt".

Definition freshSession : Session.t := Session.new uuid1 (workspaces +:+ "/" +:+ uuid1) None 0.

End Fixtures.

(** ** Vocabulary of the properties *)

Module Observations.

Import SessionManager.

(** The [sessionIds] array of the lock file, when the file holds a record. *)
Definition persistedSessionIds (m : SessionManager.t) : option (list string) :=
  match lockFile (disk m) with
  | lock_record content => Some (sessionIds content)
  | lock_absent | lock_invalid => None
  end.

(** The ids of the registry, in the order [this.sessions.keys()] yields. *)
Definition registeredSessionIds (m : SessionManager.t) : list string :=
  JsMap.keys (sessions m).

(** Events reaching the manager, each with the time and the session it
    comes from. *)
Definition handleEvents (events : list (Z * string * SessionEvent)) (m : SessionManager.t)
  : SessionManager.t :=
  fold_left (λ acc ev, handleSessionEvent ev.1.1 ev.1.2 ev.2 acc) events m.

(** The contents of the [message_chunk] events of one session, in order of
    arrival. *)
Definition chunksFor (sessionId : string) (events : list (Z * string * SessionEvent))
  : list string :=
  omap (λ ev, match ev.2 with
              | message_chunk content =>
                  if decide (ev.1.2 = sessionId) then Some content else None
              | _ => None
              end) events.

End Observations.

Module MoreFixtures.

Import SessionManager Fixtures.

(** A manager whose [initialize] has run on an empty disk. *)
Definition initializedManager (max : nat) : SessionManager.t :=
  initialize 4242 500 (λ _, false) (λ _, succeeds) succeeds succeeds (freshManager max).

End MoreFixtures.

Module Orphans.

Import SessionManager Fixtures.

Definition isRm (effect : FsEffect) : Prop :=
  match effect with FsRm _ _ => True | _ => False end.

(** What a crashed orchestrator with process id 999 left behind: its lock
    file naming one session, the workspace of that session and a workspace
    the lock file does not list. *)
Definition orphanDisk : Disk :=
  mkDisk [mkDirent uuid1 true; mkDirent "stray-workspace" true; mkDirent "notes.txt" false]
    (lock_record (mkLock 999 100 [uuid1])).

Definition crashedManager : SessionManager.t :=
  SessionManager.new 5 workspaces orphanDisk (λ _, uuid1).

(** Removing the workspace of [uuid1] fails (say, for lack of permission);
    every other removal succeeds. *)
Definition rmFailsOnUuid1 (path : string) : IO :=
  if String.eqb path (NodePath.join workspaces uuid1) then fails else succeeds.

End Orphans.

(** ** Well-formed timer tables

    Handles are handed out once: the armed timers have distinct handles,
    all below the next one. *)

Module TimerInvariant.

Definition wfTable {C : Type} (tbl : Timers.Table C) : Prop :=
  NoDup (Timers.handle <$> Timers.armed tbl)
  ∧ ∀ tm, tm ∈ Timers.armed tbl → (Timers.handle tm < Timers.nextHandle tbl)%nat.

End TimerInvariant.

(** ** Vocabulary for the text aggregation window and the tool tracking *)

Module SessionInvariant.

Import Session.

(** The timers of a session are well formed; the only armed flush timer
    is the one [textFlushTimeout] holds, and it is armed; the handle
    [toolCallTimers] holds for a call id is that of an armed eviction timer
    of this id. *)
Definition wf (s : Session.t) : Prop :=
  TimerInvariant.wfTable (timers s)
  ∧ (∀ tm, tm ∈ Timers.armed (timers s) → Timers.callback tm = FlushText →
           textFlushTimeout s = Some (Timers.handle tm))
  ∧ (∀ h, textFlushTimeout s = Some h →
          ∃ tm, Timers.lookup h (timers s) = Some tm ∧ Timers.callback tm = FlushText)
  ∧ (∀ toolCallId h, toolCallTimers s !! toolCallId = Some h →
          ∃ tm, Timers.lookup h (timers s) = Some tm
                ∧ Timers.callback tm = EvictToolCall toolCallId).

(** What happens during an aggregation window: a text fragment arrives in
    a [content_block_start] or a [content_block_delta], or time passes. *)
Inductive WindowItem : Type :=
| Fragment (now : Z) (isStart : bool) (fragment : string)
| Wait (time : Z).

Definition itemOp (item : WindowItem) : Op :=
  match item with
  | Fragment now isStart fragment =>
      OpMessage now
        (sdk_stream_event
           ((if isStart then content_block_start else content_block_delta)
              (mkBlock (Some fragment) None)))
  | Wait time => OpAdvance time
  end.

Definition fragmentsOf (items : list WindowItem) : list string :=
  omap (λ item, match item with
                | Fragment _ _ fragment => Some fragment
                | Wait _ => None
                end) items.

(** Time that passes inside the window stays short of the flush deadline. *)
Definition withinWindow (flushDeadline : Z) (item : WindowItem) : Prop :=
  match item with
  | Wait time => (time < flushDeadline)%Z
  | Fragment _ _ _ => True
  end.

(** The fragments one after the other. *)
Definition concatenation (fragments : list string) : string :=
  foldr String.append "" fragments.

(** The [message_chunk] events a flush of [content] emits. *)
Definition chunk (content : string) : list SessionEvent :=
  if String.eqb content "" then [] else [message_chunk content].

(** A session at the start of a window: nothing buffered, no flush timer,
    the message loop running. *)
Definition windowStart (s : Session.t) : Prop :=
  wf s ∧ textBuffer s = "" ∧ textFlushTimeout s = None
  ∧ loopRunning s = true ∧ cancelled s = false.

(** A window: a first fragment at [start], what follows it, and the time
    [flushed] at which the flush timer has fired. *)
Definition windowOps (start : Z) (isStart : bool) (first : string)
    (rest : list WindowItem) (flushed : Z) : list Op :=
  itemOp (Fragment start isStart first) :: (itemOp <$> rest) ++ [OpAdvance flushed].

End SessionInvariant.

Module WindowInvariant.

Import Session SessionInvariant.

(** A window is open: [buffered] is held back, and the flush timer [h],
    due at [flushDeadline], is the one armed for it. *)
Definition windowOpen (h : nat) (flushDeadline : Z) (buffered : string) (s : Session.t)
  : Prop :=
  wf s ∧ textFlushTimeout s = Some h
  ∧ Timers.lookup h (timers s) = Some (Timers.mkTimer h flushDeadline FlushText)
  ∧ textBuffer s = buffered ∧ loopRunning s = true ∧ cancelled s = false.

End WindowInvariant.

Module ToolInvariant.

Import Session SessionInvariant.

(** The call [toolCallId] is tracked under [toolName]: the name is
    recorded, and the eviction timer [h], due at [evictionDeadline], is
    the only armed eviction timer of this id. *)
Definition tracked (toolCallId toolName : string) (h : nat) (evictionDeadline : Z)
    (s : Session.t) : Prop :=
  wf s
  ∧ toolCallNames s !! toolCallId = Some toolName
  ∧ toolCallTimers s !! toolCallId = Some h
  ∧ Timers.lookup h (timers s)
    = Some (Timers.mkTimer h evictionDeadline (EvictToolCall toolCallId))
  ∧ ∀ tm, tm ∈ Timers.armed (timers s) →
          Timers.callback tm = EvictToolCall toolCallId → Timers.handle tm = h.

(** No eviction timer of [toolCallId] is armed. *)
Definition untimed (toolCallId : string) (s : Session.t) : Prop :=
  ∀ tm, tm ∈ Timers.armed (timers s) → Timers.callback tm ≠ EvictToolCall toolCallId.

(** The message loop is running and [cancelled] is not set: the next
    message of the agent runtime is processed. *)
Definition listening (s : Session.t) : Prop :=
  loopRunning s = true ∧ cancelled s = false.

(** The assistant messages that carry one tool call and one tool result. *)
Definition toolUse (toolCallId toolName : string) (blockInput : ToolInput) : SDKMessage :=
  sdk_assistant (Some [tool_use_block toolCallId toolName blockInput]).

Definition toolResult (toolCallId content : string) (is_error : option bool) : SDKMessage :=
  sdk_assistant (Some [tool_result_block toolCallId content is_error]).

Definition mentions (toolCallId : string) (block : AssistantBlock) : Prop :=
  match block with
  | tool_use_block blockId _ _ => blockId = toolCallId
  | tool_result_block tool_use_id _ _ => tool_use_id = toolCallId
  | other_block => False
  end.

(** What may happen between a tool call and its result without touching
    the tracking of the call: anything but [terminate], a message about the
    same call id, or time reaching the eviction deadline. *)
Definition unrelated (toolCallId : string) (evictionDeadline : Z) (op : Op) : Prop :=
  match op with
  | OpTerminate _ => False
  | OpAdvance time => (time < evictionDeadline)%Z
  | OpMessage _ (sdk_assistant (Some blocks)) =>
      Forall (λ block, ¬ mentions toolCallId block) blocks
  | _ => True
  end.

End ToolInvariant.

(** ** Vocabulary for the pending-request broker *)

Module BrokerInvariant.

Import SessionManager.

(** The question a settlement is about. *)
Definition questionOf (settlement : Settlement) : option string :=
  match settlement with
  | QuestionResolved q _ | QuestionRejected q _ => Some q
  | PermissionResolved _ _ | PermissionRejected _ _ => None
  end.

(** The calls of [resolve] and [reject] made for question [q], in order. *)
Definition settlementsOf (q : string) (m : SessionManager.t) : list Settlement :=
  filter (λ settlement, questionOf settlement = Some q) (settlements m).

(** The parts of the invariant of the broker.  Every pending entry holds
    the handle of an armed expiry timer for its own id, whose closure has
    not completed; every armed expiry timer belongs to the pending entry of
    its id; the ids in use were all drawn from [randomUUID]. *)
Definition questionsArmed (m : SessionManager.t) : Prop :=
  ∀ q pending, (q, pending) ∈ pendingQuestions m →
    ∃ tm, Timers.lookup (q_timeoutId pending) (timers m) = Some tm
          ∧ Timers.callback tm = QuestionTimeout q
          ∧ isCompleted (q_timeoutId pending) m = false.

Definition questionTimersOwned (m : SessionManager.t) : Prop :=
  ∀ tm q, tm ∈ Timers.armed (timers m) → Timers.callback tm = QuestionTimeout q →
    ∃ pending, JsMap.get q (pendingQuestions m) = Some pending
               ∧ q_timeoutId pending = Timers.handle tm.

Definition permissionsArmed (m : SessionManager.t) : Prop :=
  ∀ p pending, (p, pending) ∈ pendingPermissions m →
    ∃ tm, Timers.lookup (p_timeoutId pending) (timers m) = Some tm
          ∧ Timers.callback tm = PermissionTimeout p
          ∧ isCompleted (p_timeoutId pending) m = false.

Definition permissionTimersOwned (m : SessionManager.t) : Prop :=
  ∀ tm p, tm ∈ Timers.armed (timers m) → Timers.callback tm = PermissionTimeout p →
    ∃ pending, JsMap.get p (pendingPermissions m) = Some pending
               ∧ p_timeoutId pending = Timers.handle tm.

Definition idsDrawn (m : SessionManager.t) : Prop :=
  ∀ k, k ∈ JsMap.keys (pendingQuestions m) ∨ k ∈ JsMap.keys (pendingPermissions m) →
    ∃ n, (n < uuidsTaken m)%nat ∧ k = uuidSource m n.

(** The invariant of the broker: the timers are well formed, a pending map
    has one entry per id, the parts above hold, and [randomUUID] does not
    repeat. *)
Definition wf (m : SessionManager.t) : Prop :=
  TimerInvariant.wfTable (timers m)
  ∧ NoDup (JsMap.keys (pendingQuestions m))
  ∧ NoDup (JsMap.keys (pendingPermissions m))
  ∧ questionsArmed m ∧ questionTimersOwned m
  ∧ permissionsArmed m ∧ permissionTimersOwned m
  ∧ idsDrawn m
  ∧ Inj (=) (=) (uuidSource m).

(** Question [q] is pending with the expiry timer [h], due at [deadline]. *)
Definition awaiting (q : string) (pending : PendingQuestion) (deadline : Z)
    (m : SessionManager.t) : Prop :=
  JsMap.get q (pendingQuestions m) = Some pending
  ∧ Timers.lookup (q_timeoutId pending) (timers m)
    = Some (Timers.mkTimer (q_timeoutId pending) deadline (QuestionTimeout q))
  ∧ isCompleted (q_timeoutId pending) m = false
  ∧ ∀ tm, tm ∈ Timers.armed (timers m) → Timers.callback tm = QuestionTimeout q →
          Timers.handle tm = q_timeoutId pending.

(** No expiry timer of question [q] is armed and [q] is not pending. *)
Definition settled (q : string) (m : SessionManager.t) : Prop :=
  JsMap.get q (pendingQuestions m) = None
  ∧ ∀ tm, tm ∈ Timers.armed (timers m) → Timers.callback tm ≠ QuestionTimeout q.

Definition questionNotFound (q : string) : AppError :=
  SessionStateError ("Question not found: " +:+ q).

End BrokerInvariant.

(** ** Calls into the pending-request broker *)

Module BrokerOps.

Import SessionManager.

(** What happens to the broker: a session raises an event, a caller answers
    a question or responds to a permission request, or time passes. *)
Inductive Op : Type :=
| Event (now : Z) (sessionId : string) (event : SessionEvent)
| AnswerQuestion (questionId answer : string)
| RespondToPermission (permissionId : string) (decision : Decision)
| Advance (time : Z).

Definition step (op : Op) (m : SessionManager.t) : SessionManager.t :=
  match op with
  | Event now sessionId event => handleSessionEvent now sessionId event m
  | AnswerQuestion questionId answer => (answerQuestion questionId answer m).1
  | RespondToPermission permissionId decision =>
      (respondToPermission permissionId decision m).1
  | Advance time => advance time m
  end.

Definition run (ops : list Op) (m : SessionManager.t) : SessionManager.t :=
  fold_left (λ acc op, step op acc) ops m.

(** [op] neither answers question [q] nor lets time reach [deadline]. *)
Definition leaves (q : string) (deadline : Z) (op : Op) : Prop :=
  match op with
  | AnswerQuestion questionId _ => questionId ≠ q
  | Advance time => (time < deadline)%Z
  | Event _ _ _ | RespondToPermission _ _ => True
  end.

(** [randomUUID] has returned [q]. *)
Definition drawn (q : string) (m : SessionManager.t) : Prop :=
  ∃ n, (n < uuidsTaken m)%nat ∧ q = uuidSource m n.

(** A source of ids that never repeats, and a manager drawing from it. *)
Fixpoint tally (n : nat) : string :=
  match n with
  | O => EmptyString
  | S n' => String "i" (tally n')
  end.

Definition numberedUuid (n : nat) : string := "request-" +:+ tally n.

Definition numberedManager : SessionManager.t :=
  SessionManager.new 4 Fixtures.workspaces (mkDisk [] lock_absent) numberedUuid.

End BrokerOps.

(** ** Further vocabulary of the properties *)

Module DeliveryScenarios.

Import WebhookSender.

(** The endpoint answers every request of a delivery with a 5xx status. *)
Definition alwaysServerError (respond : nat → Response) : Prop :=
  ∀ n, ∃ code, respond n = Status code ∧ (500 ≤ code < 600)%Z.

(** A batch of one update, as [flush] takes it off the queue. *)
Definition sampleBatch : list (string * SessionEvent) :=
  [("1b4e28ba-2fa1-41d2-883f-0016d3cca427", session_ended reason_completed)].

End DeliveryScenarios.

Module StatusInvariant.

Import Session.

(** The operations that can move a session out of a status: the two sends
    and a cancel whose interrupt resolves.  All the others are [quiet]. *)
Definition quiet (op : Op) : Prop :=
  match op with
  | OpSendPrompt _ _ | OpSendSlashCommand _ _ _ | OpCancel resolves => False
  | _ => True
  end.

(** Whenever the status is terminated the message loop has ended: true of
    a new session and kept by every operation. *)
Definition loopEndedWhenTerminated (s : Session.t) : Prop :=
  status s = terminated → loopRunning s = false.

End StatusInvariant.

Module RegistryFrame.

Import SessionManager.

(** What event handling and the clean-up of pending entries leave alone. *)
Definition sameRegistry (m m' : SessionManager.t) : Prop :=
  sessions m' = sessions m ∧ disk m' = disk m ∧ fsLog m' = fsLog m
  ∧ maxSessions m' = maxSessions m ∧ workspacesDir m' = workspacesDir m.

End RegistryFrame.

Module OrphanLoops.

Import SessionManager.

(** The two loops of [cleanupOrphanedSessions] as loops of guarded
    removals. *)
Definition listedTarget (acc : SessionManager.t) (sessionId : string) : option string :=
  Some (NodePath.join (workspacesDir acc) sessionId).

Definition scannedTarget (acc : SessionManager.t) (entry : Dirent) : option string :=
  if isDirectory entry && negb (isHidden (name entry))
  then Some (NodePath.join (workspacesDir acc) (name entry)) else None.

End OrphanLoops.

(** ** Proof automation *)

(** Reduces the field updates of a session, and nothing else. *)
Ltac session_simpl :=
  cbn [fst snd Session.id Session.status Session.permissionMode Session.cwd
       Session.createdAt Session.lastActivityAt Session.inPlanMode
       Session.cancelled Session.loopRunning Session.textBuffer
       Session.textFlushTimeout Session.toolCallNames Session.toolCallTimers
       Session.input Session.timers Session.set_status
       Session.set_permissionMode Session.set_lastActivityAt
       Session.set_inPlanMode Session.set_cancelled Session.set_loopRunning
       Session.set_textBuffer Session.set_textFlushTimeout
       Session.set_toolCallNames Session.set_toolCallTimers Session.set_input
       Session.set_timers] in *.

(** Reduces the field updates of a manager, and nothing else. *)
Ltac manager_simpl :=
  cbn [fst snd SessionManager.maxSessions SessionManager.workspacesDir
       SessionManager.sessions SessionManager.pendingQuestions
       SessionManager.pendingPermissions SessionManager.messageChunks
       SessionManager.timers SessionManager.completedFlags
       SessionManager.settlements SessionManager.forwarded SessionManager.disk
       SessionManager.fsLog SessionManager.uuidSource SessionManager.uuidsTaken
       SessionManager.set_sessions SessionManager.set_pendingQuestions
       SessionManager.set_pendingPermissions SessionManager.set_messageChunks
       SessionManager.set_timers SessionManager.set_completedFlags
       SessionManager.set_settlements SessionManager.set_forwarded
       SessionManager.set_disk SessionManager.set_fsLog
       SessionManager.set_uuidsTaken] in *.

(** ** Webhook delivery: what is queued and how a delivery ends *)

Module WebhookRuns.

Import WebhookSender.

(** Events handed to [queueEvent] one after the other, each at its time. *)
Definition queueEvents (events : list (Z * string * SessionEvent)) (s : Sender) : Sender :=
  fold_left (λ acc ev, queueEvent ev.1.1 ev.1.2 ev.2 acc) events s.

(** The events [queueEvent] lets through. *)
Definition relevantEvents (events : list (Z * string * SessionEvent))
  : list (Z * string * SessionEvent) :=
  filter (λ ev, isRelevantForPoke ev.2 = true) events.

(** A response after which the loop of [sendToPoke] goes on: a status
    outside 200-299 and 400-499, or an exception thrown by the request. *)
Definition retryable (r : Response) : bool :=
  match r with
  | Status code => negb (is2xx code) && negb (is4xx code)
  | TransportException => true
  end.

(** [2 ** attempt * 100]. *)
Definition backoffMs (attempt : nat) : Z := 2 ^ Z.of_nat attempt * 100.

(** Failed attempts [first], ..., [first + n - 1], each followed by its
    sleep. *)
Definition failedAttempts (updates : list (string * SessionEvent)) (first n : nat)
  : list Effect :=
  flat_map (λ i, [Request i updates; Sleep (backoffMs i)]) (seq first n).

End WebhookRuns.

(** ** A session after [terminate] or [cancel] *)

Module Aftermath.

Import Session.

(** What reaches a session without a call of its owner: messages of the
    agent runtime, a failure of the message stream, timers; and a repeated
    [terminate]. *)
Definition passive (op : Op) : Prop :=
  match op with
  | OpMessage _ _ | OpMessageLoopError _ | OpAdvance _ | OpTerminate _ => True
  | _ => False
  end.

(** Nothing is buffered, the message loop has ended and no flush timer is
    armed. *)
Definition silent (s : Session.t) : Prop :=
  loopRunning s = false ∧ textBuffer s = "" ∧ textFlushTimeout s = None
  ∧ ∀ tm, tm ∈ Timers.armed (timers s) → Timers.callback tm ≠ FlushText.

Definition isMessage (op : Op) : Prop :=
  match op with
  | OpMessage _ _ => True
  | _ => False
  end.

(** What the handler of [startMessageLoop] emits when the stream throws
    while [terminate] awaits a loop that is still running. *)
Definition loopFailure (loopEnd : LoopEnd) (s : Session.t) : list SessionEvent :=
  match loopEnd with
  | loop_throws message => if loopRunning s then [error_event message] else []
  | loop_returns => []
  end.

End Aftermath.

(** ** claude/utils.ts: [createPushable], producer and consumer side *)

Module PushableStream.

Section Stream.

Context {T : Type}.

(** What a [next()] promise settles with. *)
Inductive IteratorResult : Type :=
| yielded (value : T)
| finished.

(** The variables the closures of [createPushable] share: [queue], the
    [resolve] function of the pending [next()] promise, if any, and
    [ended].  Promises are told apart by the number of the [next()] call
    that made them; [calls] counts these calls. *)
Record State : Type := mkState {
  queue : list T;
  resolve : option nat;
  ended : bool;
  calls : nat
}.

Definition empty : State := mkState [] None false 0.

(** A method returns the new state and the promises it settles. *)
Definition push (value : T) (st : State) : State * list (nat * IteratorResult) :=
  if ended st then (st, [])
  else
    match resolve st with
    | Some promise =>
        (mkState (queue st) None (ended st) (calls st), [(promise, yielded value)])
    | None => (mkState (queue st ++ [value]) None (ended st) (calls st), [])
    end.

Definition endStream (st : State) : State * list (nat * IteratorResult) :=
  match resolve st with
  | Some promise => (mkState (queue st) None true (calls st), [(promise, finished)])
  | None => (mkState (queue st) None true (calls st), [])
  end.

(** [next()]: the promise it returns is numbered [calls st]; it is settled
    at once when a value is queued or the stream has ended, and is left
    pending in [resolve] otherwise. *)
Definition next (st : State) : State * list (nat * IteratorResult) :=
  match queue st with
  | value :: rest =>
      (mkState rest (resolve st) (ended st) (S (calls st)), [(calls st, yielded value)])
  | [] =>
      if ended st then
        (mkState [] (resolve st) true (S (calls st)), [(calls st, finished)])
      else (mkState [] (Some (calls st)) false (S (calls st)), [])
  end.

Inductive Op : Type :=
| Push (value : T)
| End
| Next.

Definition step (op : Op) (st : State) : State * list (nat * IteratorResult) :=
  match op with
  | Push value => push value st
  | End => endStream st
  | Next => next st
  end.

Definition run (ops : list Op) (st : State) : State * list (nat * IteratorResult) :=
  runAll step ops st.





End Stream.

Arguments IteratorResult : clear implicits.
Arguments State : clear implicits.
Arguments Op : clear implicits.

End PushableStream.

(** ** claude/session-manager.ts: the remaining methods *)

Module ManagerMethods.

Import SessionManager.

(** [Session.getInfo]. *)
Record SessionInfo : Type := mkSessionInfo {
  info_id : string;
  info_status : SessionStatus;
  info_permissionMode : PermissionMode;
  info_cwd : string;
  info_createdAt : Z;
  info_lastActivityAt : Z;
  info_inPlanMode : bool
}.

Definition getInfo (s : Session.t) : SessionInfo :=
  mkSessionInfo (Session.id s) (Session.status s) (Session.permissionMode s)
    (Session.cwd s) (Session.createdAt s) (Session.lastActivityAt s)
    (Session.inPlanMode s).

Definition getSessionInfo (sessionId : string) (m : t) : option SessionInfo :=
  getInfo <$> JsMap.get sessionId (sessions m).

(** A method of the session that awaits the agent runtime.  What it did to
    the session before the [await] stays and the events it emitted are
    delivered; when the awaited call rejects the rejection is thrown on. *)
Definition withSessionSettling (now : Z) (sessionId : string)
    (method : Session.t → Session.t * list SessionEvent * Session.Settled) (m : t)
  : t * (Thrown + unit) :=
  match requireSession sessionId m with
  | inl e => (m, inl (app_error e))
  | inr session =>
      let '(session', events, settled) := method session in
      (deliver now sessionId events
         (set_sessions (JsMap.set sessionId session' (sessions m)) m),
       match settled with
       | Session.fulfilled => inr ()
       | Session.rejected => inl (node_error "query")
       end)
  end.

Definition addMcpServer (sessionId : string) (m : t) : t * (Thrown + unit) :=
  match requireSession sessionId m with
  | inl e => (m, inl (app_error e))
  | inr _ => (m, inr ())
  end.

Definition cancelPrompt (interrupt : Session.SdkCall) (now : Z) (sessionId : string) (m : t)
  : t * (Thrown + unit) :=
  withSessionSettling now sessionId (Session.cancel interrupt) m.

Definition enterPlanMode (now : Z) (sessionId : string) (m : t) : t * (Thrown + unit) :=
  withSession now sessionId (Session.sendSlashCommand now "plan" None) m.

Definition approvePlan (sdk : Session.SdkCall) (now : Z) (sessionId : string) (m : t)
  : t * (Thrown + unit) :=
  withSessionSettling now sessionId (Session.setPermissionMode sdk bypassPermissions) m.

Definition notInPlanMode : AppError := SessionStateError "Session is not in plan mode".

Definition modifyPlan (now : Z) (sessionId feedback : string) (m : t)
  : t * (Thrown + unit) :=
  match requireSession sessionId m with
  | inl e => (m, inl (app_error e))
  | inr session =>
      if negb (Session.inPlanMode session) then (m, inl (app_error notInPlanMode))
      else sendPrompt now sessionId feedback m
  end.

Definition setSessionMode (sdk : Session.SdkCall) (now : Z) (sessionId : string)
    (mode : PermissionMode) (m : t) : t * (Thrown + unit) :=
  withSessionSettling now sessionId (Session.setPermissionMode sdk mode) m.

Definition activeSessionWorkspace (sessionId : string) : AppError :=
  SessionStateError
    ("Cannot delete workspace for active session: " +:+ sessionId
     +:+ ". Terminate it first.").

(** [deleteWorkspace]: [stat] is answered by [w]; [rm] says whether the
    removal throws. *)
Definition deleteWorkspace (w : World) (rm : IO) (sessionId : string) (m : t)
  : t * (Thrown + unit) :=
  if JsMap.has sessionId (sessions m) then
    (m, inl (app_error (activeSessionWorkspace sessionId)))
  else
    let workspacePath := NodePath.join (workspacesDir m) sessionId in
    match statAt w workspacePath with
    | fs_ok _ =>
        let m1 := set_fsLog (fsLog m ++ [FsRm workspacePath rm]) m in
        match rm with
        | succeeds =>
            (set_disk (rmRecursive (workspacesDir m1) workspacePath (disk m1)) m1, inr ())
        | fails => (m1, inl (node_error "rm"))
        end
    | _ => (m, inl (app_error (WorkspaceNotFoundError sessionId)))
    end.

Record StaleWorkspace : Type := mkStale {
  stale_sessionId : string;
  stale_path : string;
  stale_modifiedAt : string;
  stale_sizeEntries : nat
}.

(** One iteration of the loop of [listStaleWorkspaces]. *)
Definition staleEntry (w : World) (m : t) (entry : Dirent) : option StaleWorkspace :=
  if negb (isDirectory entry) then None
  else if isHidden (name entry) then None
  else if JsMap.has (name entry) (sessions m) then None
  else
    let workspacePath := NodePath.join (workspacesDir m) (name entry) in
    match statAt w workspacePath, readdirAt w workspacePath with
    | fs_ok stats, fs_ok contents =>
        Some (mkStale (name entry) workspacePath (st_mtime stats) (length contents))
    | _, _ => None
    end.

Definition listStaleWorkspaces (w : World) (m : t) : Thrown + list StaleWorkspace :=
  match readdirAt w (workspacesDir m) with
  | fs_ok dirents => inr (omap (staleEntry w m) dirents)
  | _ => inl (node_error "readdir")
  end.

(** The test of [cleanupStaleSessions]: idle for longer than the timeout,
    and with status idle. *)
Definition isStale (now sessionTimeoutMs : Z) (s : Session.t) : bool :=
  (sessionTimeoutMs <? now - Session.lastActivityAt s)%Z
  && match Session.status s with idle => true | _ => false end.

End ManagerMethods.

(** ** What happens to a session manager *)

Module ManagerOps.

Import SessionManager ManagerMethods.

(** The calls of the public methods, each taken from its start to its
    completion with nothing in between, and what happens without a call: a
    message of the agent runtime reaches the loop of a session, the message
    stream of a session fails, timers of a session or of the manager fire.
    Calls that overlap are in [Overlap]. *)
Inductive Op : Type :=
| CreateSession (processId : nat) (now : Z) (mkdir write : IO)
    (options : CreateSessionOptions)
| TerminateSession (processId : nat) (now : Z) (write : IO) (loopEnd : Session.LoopEnd)
    (sessionId : string)
| SendPrompt (now : Z) (sessionId prompt : string)
| SendSlashCommand (now : Z) (sessionId command : string) (args : option string)
| CancelPrompt (interrupt : Session.SdkCall) (now : Z) (sessionId : string)
| EnterPlanMode (now : Z) (sessionId : string)
| ApprovePlan (sdk : Session.SdkCall) (now : Z) (sessionId : string)
| ModifyPlan (now : Z) (sessionId feedback : string)
| SetSessionMode (sdk : Session.SdkCall) (now : Z) (sessionId : string)
    (mode : PermissionMode)
| AddMcpServer (sessionId : string)
| ReadMessageHistory (sessionId : string)
| AnswerQuestion (questionId answer : string)
| RespondToPermission (permissionId : string) (decision : Decision)
| DeleteWorkspace (w : World) (rm : IO) (sessionId : string)
| RuntimeMessage (now : Z) (sessionId : string) (message : Session.SDKMessage)
| MessageStreamFails (now : Z) (sessionId message : string)
| SessionTimers (time : Z) (sessionId : string)
| Advance (time : Z).

Definition step (op : Op) (m : SessionManager.t) : SessionManager.t :=
  match op with
  | CreateSession processId now mkdir write options =>
      (createSession processId now mkdir write options m).1
  | TerminateSession processId now write loopEnd sessionId =>
      (terminateSession processId now write loopEnd sessionId m).1
  | SendPrompt now sessionId prompt => (sendPrompt now sessionId prompt m).1
  | SendSlashCommand now sessionId command args =>
      (sendSlashCommand now sessionId command args m).1
  | CancelPrompt interrupt now sessionId => (cancelPrompt interrupt now sessionId m).1
  | EnterPlanMode now sessionId => (enterPlanMode now sessionId m).1
  | ApprovePlan sdk now sessionId => (approvePlan sdk now sessionId m).1
  | ModifyPlan now sessionId feedback => (modifyPlan now sessionId feedback m).1
  | SetSessionMode sdk now sessionId mode => (setSessionMode sdk now sessionId mode m).1
  | AddMcpServer sessionId => (addMcpServer sessionId m).1
  | ReadMessageHistory sessionId => (readMessageHistory sessionId m).1
  | AnswerQuestion questionId answer => (answerQuestion questionId answer m).1
  | RespondToPermission permissionId decision =>
      (respondToPermission permissionId decision m).1
  | DeleteWorkspace w rm sessionId => (deleteWorkspace w rm sessionId m).1
  | RuntimeMessage now sessionId message =>
      (withSession now sessionId (Session.processMessage now message) m).1
  | MessageStreamFails now sessionId message =>
      (withSession now sessionId (Session.messageLoopError message) m).1
  | SessionTimers time sessionId =>
      (withSession time sessionId (Session.advance time) m).1
  | Advance time => advance time m
  end.

Definition run (ops : list Op) (m : SessionManager.t) : SessionManager.t :=
  fold_left (λ acc op, step op acc) ops m.

(** The two kinds of event that make the manager register a pending
    request. *)
Definition asks (event : SessionEvent) : bool :=
  match event with
  | question _ _ _ _ | permission_request _ _ _ _ => true
  | _ => false
  end.

(** No request is pending and no expiry timer armed. *)
Definition nothingPending (m : SessionManager.t) : Prop :=
  pendingQuestions m = [] ∧ pendingPermissions m = []
  ∧ Timers.armed (timers m) = [] ∧ settlements m = [].

(** The calls of [config.onEvent] a list of handled events leads to: every
    event is passed on under the id of its session, a question or a
    permission request with the id drawn for it in place of its own. *)
Fixpoint annotated (uuids : nat → string) (taken : nat)
    (events : list (Z * string * SessionEvent)) : list (string * SessionEvent) :=
  match events with
  | [] => []
  | (_, sessionId, question _ questionText options multiSelect) :: rest =>
      (sessionId, question (uuids taken) questionText options multiSelect)
      :: annotated uuids (S taken) rest
  | (_, sessionId, permission_request _ toolName toolInput options) :: rest =>
      (sessionId, permission_request (uuids taken) toolName toolInput options)
      :: annotated uuids (S taken) rest
  | (_, sessionId, event) :: rest => (sessionId, event) :: annotated uuids taken rest
  end.

(** What an event that does not ask, and a method that is not about a
    pending request, leave alone. *)
Definition brokerUntouched (m m' : SessionManager.t) : Prop :=
  pendingQuestions m' = pendingQuestions m
  ∧ pendingPermissions m' = pendingPermissions m
  ∧ timers m' = timers m ∧ settlements m' = settlements m
  ∧ completedFlags m' = completedFlags m.

End ManagerOps.

(** ** Calls of the manager that overlap

    A method of the manager runs without interruption up to its next
    [await]; while it waits, other calls, events and timers run.  The
    methods below still change the manager after an [await]; they are
    taken in two steps, with anything in between.  The write of the lock
    file that ends [createSession] and [terminateSession] is shown where it
    is issued; nothing follows it in either method. *)

Module Overlap.

Import SessionManager ManagerMethods.

(** A call suspended at an [await]: [createSession] at the [mkdir] of its
    workspace, with the size test passed and its id drawn;
    [terminateSession] at [session.terminate()], which has done everything
    but wait for the message loop; [cancelPrompt] at [query.interrupt()],
    with the [cancelled] flag set; [deleteWorkspace] at [stat], with the
    registry test passed. *)
Inductive Suspended : Type :=
| creating (sessionId : string) (options : CreateSessionOptions)
| terminating (sessionId : string)
| cancelling (sessionId : string)
| deleting (sessionId : string).

Record State : Type := mkState {
  manager : SessionManager.t;
  suspended : list Suspended
}.

(** What the outside world answers when a suspended call goes on. *)
Record Environment : Type := mkEnvironment {
  env_processId : nat;
  env_now : Z;
  env_mkdir : IO;
  env_write : IO;
  env_rm : IO;
  env_loopEnd : Session.LoopEnd;
  env_interrupt : Session.SdkCall;
  env_world : World
}.

Definition suspend (call : Suspended) (m : SessionManager.t) (st : State) : State :=
  mkState m (suspended st ++ [call]).

(** [createSession] up to [await mkdir]: the size test and [randomUUID].
    A call that throws leaves the state as it is. *)
Definition createSessionStart (options : CreateSessionOptions) (st : State) : State :=
  let m := manager st in
  if (maxSessions m <=? JsMap.size (sessions m))%nat then st
  else
    let '(sessionId, m1) := randomUUID m in
    suspend (creating sessionId options) m1 st.

(** [createSession] from the point where [mkdir] settles. *)
Definition createSessionResume (env : Environment) (sessionId : string)
    (options : CreateSessionOptions) (m : SessionManager.t) : SessionManager.t :=
  match env_mkdir env with
  | fails => m
  | succeeds =>
      let '(workspacePath, m2) := createSessionWorkspace sessionId m in
      let session :=
        Session.new sessionId workspacePath (o_permissionMode options) (env_now env) in
      let m3 := set_sessions (JsMap.set (Session.id session) session (sessions m2)) m2 in
      updateLockFile (env_processId env) (env_now env) (env_write env) m3
  end.

(** [terminateSession] up to [await session.terminate()], that is up to
    the [await] of [terminate] itself. *)
Definition terminateSessionStart (now : Z) (sessionId : string) (st : State) : State :=
  let m := manager st in
  match JsMap.get sessionId (sessions m) with
  | None => st
  | Some session =>
      let '(session', events) := Session.terminateStart session in
      suspend (terminating sessionId)
        (deliver now sessionId events
           (set_sessions (JsMap.set sessionId session' (sessions m)) m)) st
  end.

(** What [terminateSession] does once [session.terminate()] has
    returned. *)
Definition terminateSessionFinish (processId : nat) (now : Z) (write : IO)
    (sessionId : string) (m1 : SessionManager.t) : SessionManager.t :=
  let m2 := set_sessions (JsMap.delete sessionId (sessions m1)) m1 in
  let m3 := fold_left (rejectQuestion sessionId) (pendingQuestions m2) m2 in
  let m4 := fold_left (rejectPermission sessionId) (pendingPermissions m3) m3 in
  let m5 := set_messageChunks (JsMap.delete sessionId (messageChunks m4)) m4 in
  updateLockFile processId now write m5.

(** [terminateSession] from the point where the message loop ends.  A
    session that is no longer registered was removed by another
    [terminateSession], which waited for the same loop. *)
Definition terminateSessionResume (env : Environment) (sessionId : string)
    (m : SessionManager.t) : SessionManager.t :=
  let m1 :=
    match JsMap.get sessionId (sessions m) with
    | Some session =>
        let '(session', events) := Session.awaitMessageLoop (env_loopEnd env) session in
        deliver (env_now env) sessionId events
          (set_sessions (JsMap.set sessionId session' (sessions m)) m)
    | None => m
    end in
  terminateSessionFinish (env_processId env) (env_now env) (env_write env) sessionId m1.

(** [cancelPrompt] up to [await this.query.interrupt()]. *)
Definition cancelPromptStart (sessionId : string) (st : State) : State :=
  let m := manager st in
  match JsMap.get sessionId (sessions m) with
  | None => st
  | Some session =>
      suspend (cancelling sessionId)
        (set_sessions
           (JsMap.set sessionId (Session.set_cancelled true session) (sessions m)) m) st
  end.

(** [cancelPrompt] from the point where the interrupt settles.  The event
    reaches the manager whether or not the session is still registered. *)
Definition cancelPromptResume (env : Environment) (sessionId : string)
    (m : SessionManager.t) : SessionManager.t :=
  match env_interrupt env with
  | Session.rejects => m
  | Session.resolves =>
      let m1 :=
        match JsMap.get sessionId (sessions m) with
        | Some session =>
            set_sessions
              (JsMap.set sessionId (Session.set_status idle session) (sessions m)) m
        | None => m
        end in
      deliver (env_now env) sessionId [session_ended reason_cancelled] m1
  end.

(** [deleteWorkspace] up to [await stat]: the registry test. *)
Definition deleteWorkspaceStart (sessionId : string) (st : State) : State :=
  if JsMap.has sessionId (sessions (manager st)) then st
  else suspend (deleting sessionId) (manager st) st.

(** [deleteWorkspace] from the point where [stat] settles. *)
Definition deleteWorkspaceResume (env : Environment) (sessionId : string)
    (m : SessionManager.t) : SessionManager.t :=
  let workspacePath := NodePath.join (workspacesDir m) sessionId in
  match statAt (env_world env) workspacePath with
  | fs_ok _ =>
      let m1 := set_fsLog (fsLog m ++ [FsRm workspacePath (env_rm env)]) m in
      match env_rm env with
      | succeeds => set_disk (rmRecursive (workspacesDir m1) workspacePath (disk m1)) m1
      | fails => m1
      end
  | _ => m
  end.

Definition resume (env : Environment) (call : Suspended) (m : SessionManager.t)
  : SessionManager.t :=
  match call with
  | creating sessionId options => createSessionResume env sessionId options m
  | terminating sessionId => terminateSessionResume env sessionId m
  | cancelling sessionId => cancelPromptResume env sessionId m
  | deleting sessionId => deleteWorkspaceResume env sessionId m
  end.

(** What happens to a manager whose calls may overlap: a call or event of
    [ManagerOps] taken whole, with nothing in between; the start of one of
    the four methods above; or the suspended call number [index] going
    on. *)
Inductive Op : Type :=
| Call (op : ManagerOps.Op)
| CreateSessionStart (options : CreateSessionOptions)
| TerminateSessionStart (now : Z) (sessionId : string)
| CancelPromptStart (sessionId : string)
| DeleteWorkspaceStart (sessionId : string)
| Resume (index : nat) (env : Environment).

Definition step (op : Op) (st : State) : State :=
  match op with
  | Call op' => mkState (ManagerOps.step op' (manager st)) (suspended st)
  | CreateSessionStart options => createSessionStart options st
  | TerminateSessionStart now sessionId => terminateSessionStart now sessionId st
  | CancelPromptStart sessionId => cancelPromptStart sessionId st
  | DeleteWorkspaceStart sessionId => deleteWorkspaceStart sessionId st
  | Resume index env =>
      match suspended st !! index with
      | Some call => mkState (resume env call (manager st)) (delete index (suspended st))
      | None => st
      end
  end.

Definition run (ops : list Op) (st : State) : State :=
  fold_left (λ acc op, step op acc) ops st.

Definition isCreating (call : Suspended) : bool :=
  match call with
  | creating _ _ => true
  | _ => false
  end.

(** The [createSession] calls that have passed the size test and not yet
    registered their session. *)
Definition creations (st : State) : nat :=
  length (filter (λ call, isCreating call = true) (suspended st)).

Definition registered (st : State) : nat := JsMap.size (sessions (manager st)).

(** 1 when [op] is a [createSession] that passes the size test while
    another [createSession] is suspended, 0 otherwise. *)
Definition overlapsAt (op : Op) (st : State) : nat :=
  match op with
  | CreateSessionStart _ | Call (ManagerOps.CreateSession _ _ _ _ _) =>
      if (registered st <? maxSessions (manager st))%nat && (0 <? creations st)%nat
      then 1%nat else 0%nat
  | _ => 0%nat
  end.

(** The number of such calls in a run. *)
Fixpoint overlaps (ops : list Op) (st : State) : nat :=
  match ops with
  | [] => 0
  | op :: rest => overlapsAt op st + overlaps rest (step op st)
  end.

End Overlap.

(** ** mcp/handlers.ts: the batch handlers *)

Module ToolHandlers.

Import SessionManager ManagerMethods.

(** [error.message] of what a method of the manager throws. *)
Definition thrownMessage (e : Thrown) : string :=
  match e with
  | app_error err => errorMessage err
  | node_error syscall => syscall
  end.

Inductive SendStatus : Type :=
| prompt_sent
| send_error (message : string).

Definition isSent (status : SendStatus) : bool :=
  match status with prompt_sent => true | send_error _ => false end.

Record BatchSummary : Type := mkSummary {
  successful : nat;
  failed : nat;
  total : nat
}.

(** One element of the [map] of [batch_send_prompts]; the time is that of
    the [sendPrompt] it makes. *)
Definition sendOne (prompt : Z * string * string) (m : t) : t * list (string * SendStatus) :=
  let '(m1, outcome) := sendPrompt prompt.1.1 prompt.1.2 prompt.2 m in
  (m1, [(prompt.1.2,
         match outcome with
         | inr _ => prompt_sent
         | inl e => send_error (thrownMessage e)
         end)]).

(** [batch_send_prompts]: the results, one per prompt, and the summary. *)
Definition batchSendPrompts (prompts : list (Z * string * string)) (m : t)
  : t * (list (string * SendStatus) * BatchSummary) :=
  let '(m1, results) := runAll sendOne prompts m in
  (m1, (results,
        mkSummary (length (filter (λ r, isSent r.2 = true) results))
          (length (filter (λ r, isSent r.2 = false) results))
          (length prompts))).

(** The prompts of a batch addressed to [sessionId], in order. *)
Definition promptsFor (sessionId : string) (prompts : list (Z * string * string))
  : list (Z * string) :=
  omap (λ p, if decide (p.1.2 = sessionId) then Some (p.1.1, p.2) else None) prompts.

End ToolHandlers.

(** ** Pending permission requests *)

Module PermissionInvariant.

Import SessionManager.

(** The permission request a call of [resolve] or [reject] settles. *)
Definition permissionOf (settlement : Settlement) : option string :=
  match settlement with
  | PermissionResolved p _ | PermissionRejected p _ => Some p
  | QuestionResolved _ _ | QuestionRejected _ _ => None
  end.

(** The calls of [resolve] and [reject] made for permission request [p],
    in order. *)
Definition decisionsOf (p : string) (m : SessionManager.t) : list Settlement :=
  filter (λ settlement, permissionOf settlement = Some p) (settlements m).

(** Permission request [p] is pending with its expiry timer, due at
    [deadline]. *)
Definition undecided (p : string) (pending : PendingPermission) (deadline : Z)
    (m : SessionManager.t) : Prop :=
  JsMap.get p (pendingPermissions m) = Some pending
  ∧ Timers.lookup (p_timeoutId pending) (timers m)
    = Some (Timers.mkTimer (p_timeoutId pending) deadline (PermissionTimeout p))
  ∧ isCompleted (p_timeoutId pending) m = false
  ∧ ∀ tm, tm ∈ Timers.armed (timers m) → Timers.callback tm = PermissionTimeout p →
          Timers.handle tm = p_timeoutId pending.

(** No expiry timer of permission request [p] is armed and [p] is not
    pending. *)
Definition decided (p : string) (m : SessionManager.t) : Prop :=
  JsMap.get p (pendingPermissions m) = None
  ∧ ∀ tm, tm ∈ Timers.armed (timers m) → Timers.callback tm ≠ PermissionTimeout p.

Definition permissionNotFound (p : string) : AppError :=
  SessionStateError ("Permission request not found: " +:+ p).

End PermissionInvariant.

(** * Properties *)

(** ** Workspace file access *)

Section WorkspaceFiles.

Import SessionManager Fixtures.

(** The three methods share one guard: once the workspace is resolved, the
    target is touched exactly when [startsWith] holds of the resolved
    strings. *)
Lemma readSessionFile_guard (w : World) (sid rel : string) (m : SessionManager.t)
    (calls : list FsAccess) (root : string) :
  resolveWorkspacePath w sid m = (calls, inr root) →
  (readSessionFile w sid rel m).1 =
    if NodePath.startsWith (NodePath.resolve (processCwd w) root rel) root
    then calls ++ [AccessReadFile (NodePath.resolve (processCwd w) root rel)]
    else calls.
Proof.
  intros Hroot. unfold readSessionFile. rewrite Hroot.
  destruct (NodePath.startsWith _ root); reflexivity.
Qed.

(** C1.  The guard of [readSessionFile], [listSessionFiles] and
    [getSessionFileInfo] compares strings, not path segments: for the
    session [uuid1], whose workspace is [workspaces/uuid1], a relative path
    into the sibling directory [workspaces/uuid1-old] resolves outside the
    workspace root and is nevertheless read, listed and stat-ed instead of
    being rejected with a file-access error. *)
Theorem workspace_guard_admits_sibling_sharing_prefix :
  let m := oneSessionManager 5 succeeds in
  let root := workspaces +:+ "/" +:+ uuid1 in
  let outsideDir := workspaces +:+ "/" +:+ uuid1 +:+ "-old" in
  let outsideFile := outsideDir +:+ "/secret.txt" in
  resolveWorkspacePath readableWorld uuid1 m = ([], inr root)
  ∧ NodePath.resolve (processCwd readableWorld) root siblingFile = outsideFile
  ∧ NodePath.isInside root outsideFile = false
  ∧ NodePath.isInside root outsideDir = false
  ∧ readSessionFile readableWorld uuid1 siblingFile m
    = ([AccessReadFile outsideFile], inr "secret")
  ∧ listSessionFiles readableWorld uuid1 siblingDir m
    = ([AccessReaddir outsideDir], inr [siblingDir +:+ "/secret.txt"])
  ∧ getSessionFileInfo readableWorld uuid1 siblingFile m
    = ([AccessStat outsideFile],
       inr (mkInfo siblingFile 6 false "2026-01-01T00:00:00.000Z")).
Proof. vm_compute. repeat split; reflexivity. Qed.

(** A path that leaves the workspace without sharing its name as a prefix
    is rejected, and nothing is read. *)
Example readSessionFile_rejects_parent :
  readSessionFile readableWorld uuid1 "../other/secret.txt" (oneSessionManager 5 succeeds)
  = ([], inl accessDenied).
Proof. vm_compute. reflexivity. Qed.

End WorkspaceFiles.

(** ** Webhook delivery *)

Section WebhookDelivery.

Import WebhookSender DeliveryScenarios.

Lemma server_error_not_2xx (code : Z) : (500 ≤ code < 600)%Z → is2xx code = false.
Proof. unfold is2xx. intros H. apply andb_false_iff. right. apply Z.ltb_ge. lia. Qed.

Lemma server_error_not_4xx (code : Z) : (500 ≤ code < 600)%Z → is4xx code = false.
Proof. unfold is4xx. intros H. apply andb_false_iff. right. apply Z.ltb_ge. lia. Qed.

Lemma client_error_not_2xx (code : Z) : (400 ≤ code < 500)%Z → is2xx code = false.
Proof. unfold is2xx. intros H. apply andb_false_iff. right. apply Z.ltb_ge. lia. Qed.

Lemma client_error_is_4xx (code : Z) : (400 ≤ code < 500)%Z → is4xx code = true.
Proof.
  unfold is4xx. intros H. apply andb_true_iff.
  split; [apply Z.leb_le | apply Z.ltb_lt]; lia.
Qed.

(** One failed iteration followed by the rest of the loop. *)
Lemma sendLoop_server_error respond updates maxRetries remaining attempt :
  alwaysServerError respond →
  sendLoop respond updates maxRetries (S remaining) attempt =
    (Request attempt updates :: backoff maxRetries attempt
       ++ (sendLoop respond updates maxRetries remaining (S attempt)).1,
     (sendLoop respond updates maxRetries remaining (S attempt)).2).
Proof.
  intros Hall. destruct (Hall attempt) as (code & Hr & Hc). simpl. rewrite Hr.
  rewrite (server_error_not_2xx _ Hc), (server_error_not_4xx _ Hc).
  destruct (sendLoop respond updates maxRetries remaining (S attempt)); reflexivity.
Qed.

(** Against a failing endpoint the loop issues one request per iteration,
    whatever the bound. *)
Lemma sendLoop_server_error_requests respond updates maxRetries remaining attempt :
  alwaysServerError respond →
  requests (sendLoop respond updates maxRetries remaining attempt).1 = remaining
  ∧ (sendLoop respond updates maxRetries remaining attempt).2 = DroppedAfterAllRetries.
Proof.
  intros Hall. revert attempt.
  induction remaining as [|remaining IH]; intros attempt; [done|].
  rewrite sendLoop_server_error by done. simpl.
  destruct (IH (S attempt)) as [IHn IHo]. split; [|done].
  unfold requests, requestAttempts in *. simpl. f_equal.
  rewrite omap_app. rewrite length_app. rewrite IHn.
  unfold backoff. destruct (attempt <? maxRetries - 1)%nat; reflexivity.
Qed.

(** C2 (amended).  A queued batch answered with 5xx statuses is sent three
    times in all, the first attempt and two retries, with sleeps of 100 ms
    and 200 ms in between, and is then dropped; a batch answered with a 4xx
    status is sent once, never retried, and dropped at once. *)
Theorem flush_retry_policy (s : Sender) (respond : nat → Response)
    (first : string * SessionEvent) (rest : list (string * SessionEvent)) :
  queue s = first :: rest →
  (alwaysServerError respond →
     flush respond s
     = (mkSender [] None (batchIntervalMs s),
        [Request 0 (queue s); Sleep 100; Request 1 (queue s); Sleep 200;
         Request 2 (queue s)],
        Some DroppedAfterAllRetries)
     ∧ requests (flush respond s).1.2 = 3
     ∧ retries (flush respond s).1.2 = 2
     ∧ sleeps (flush respond s).1.2 = [100; 200]%Z)
  ∧ (∀ code, respond 0 = Status code → (400 ≤ code < 500)%Z →
     flush respond s
     = (mkSender [] None (batchIntervalMs s), [Request 0 (queue s)],
        Some (DroppedClientError code))
     ∧ retries (flush respond s).1.2 = 0
     ∧ sleeps (flush respond s).1.2 = []).
Proof.
  intros Hq. split.
  - intros Hall.
    assert (flush respond s
            = (mkSender [] None (batchIntervalMs s),
               [Request 0 (queue s); Sleep 100; Request 1 (queue s); Sleep 200;
                Request 2 (queue s)],
               Some DroppedAfterAllRetries)) as ->.
    { unfold flush. rewrite Hq. unfold sendToPoke, defaultMaxRetries.
      rewrite !sendLoop_server_error by done. reflexivity. }
    repeat split; reflexivity.
  - intros code Hr Hc.
    assert (flush respond s
            = (mkSender [] None (batchIntervalMs s), [Request 0 (queue s)],
               Some (DroppedClientError code))) as ->.
    { unfold flush. rewrite Hq. unfold sendToPoke, defaultMaxRetries. simpl.
      rewrite Hr, (client_error_not_2xx _ Hc), (client_error_is_4xx _ Hc).
      reflexivity. }
    repeat split; reflexivity.
Qed.

Lemma flush_retry_policy_witness :
  (flush (λ _, Status 500) (mkSender sampleBatch (Some 200%Z) 200)).1.2
  = [Request 0 sampleBatch; Sleep 100; Request 1 sampleBatch; Sleep 200;
     Request 2 sampleBatch]
  ∧ (flush (λ _, Status 400) (mkSender sampleBatch (Some 200%Z) 200)).1.2
    = [Request 0 sampleBatch].
Proof.
  split.
  - destruct (flush_retry_policy (mkSender sampleBatch (Some 200%Z) 200)
                (λ _, Status 500) _ _ eq_refl) as [H5 _].
    destruct H5 as [-> _]; [|reflexivity].
    intros n. exists 500%Z. split; [reflexivity | lia].
  - destruct (flush_retry_policy (mkSender sampleBatch (Some 200%Z) 200)
                (λ _, Status 400) _ _ eq_refl) as [_ H4].
    destruct (H4 400%Z eq_refl ltac:(lia)) as [-> _]. reflexivity.
Defined.

(** C2 as stated does not hold: against an endpoint that always answers
    500 the batch is re-sent twice, not three times, before it is dropped. *)
Lemma server_error_is_retried_twice :
  let run := sendToPoke (λ _, Status 500) sampleBatch defaultMaxRetries in
  retries run.1 = 2 ∧ retries run.1 ≠ 3 ∧ sleeps run.1 = [100; 200]%Z
  ∧ run.2 = DroppedAfterAllRetries.
Proof. vm_compute. repeat split; congruence. Qed.

End WebhookDelivery.

(** ** Sequencing lemmas *)

Section RunAll.

Context {A S E : Type} (f : A → S → S * list E).

Lemma runAll_from (l : list A) (s : S) (evs : list E) :
  fold_left (λ acc a, let '(s1, evs1) := f a acc.1 in (s1, acc.2 ++ evs1)) l (s, evs)
  = ((runAll f l s).1, evs ++ (runAll f l s).2).
Proof.
  unfold runAll. revert s evs.
  induction l as [|a l IH]; intros s evs; simpl.
  - by rewrite app_nil_r.
  - destruct (f a s) as [s1 evs1] eqn:Hf. simpl.
    rewrite (IH s1 (evs ++ evs1)), (IH s1 evs1). simpl. by rewrite app_assoc.
Qed.

Lemma runAll_nil (s : S) : runAll f [] s = (s, []).
Proof. reflexivity. Qed.

Lemma runAll_cons (a : A) (l : list A) (s : S) :
  runAll f (a :: l) s
  = ((runAll f l (f a s).1).1, (f a s).2 ++ (runAll f l (f a s).1).2).
Proof.
  unfold runAll at 1. simpl. destruct (f a s) as [s1 evs1]. simpl.
  apply runAll_from.
Qed.

Lemma runAll_app (l1 l2 : list A) (s : S) :
  runAll f (l1 ++ l2) s
  = ((runAll f l2 (runAll f l1 s).1).1,
     (runAll f l1 s).2 ++ (runAll f l2 (runAll f l1 s).1).2).
Proof.
  revert s. induction l1 as [|a l1 IH]; intros s.
  - change (runAll f [] s) with (s, @nil E). simpl. by destruct (runAll f l2 s).
  - rewrite <- app_comm_cons, !runAll_cons, IH. simpl. by rewrite app_assoc.
Qed.

(** A property kept by every step is kept by the run. *)
Lemma runAll_invariant (P : S → Prop) (l : list A) (s : S) :
  (∀ a s', a ∈ l → P s' → P (f a s').1) → P s → P (runAll f l s).1.
Proof.
  revert s. induction l as [|a l IH]; intros s Hstep Hs; [done|].
  rewrite runAll_cons. simpl. apply IH.
  - intros a' s' Hin. apply Hstep. by right.
  - apply Hstep; [by left | done].
Qed.

(** Steps that emit nothing make a silent run. *)
Lemma runAll_silent (P : S → Prop) (l : list A) (s : S) :
  (∀ a s', a ∈ l → P s' → P (f a s').1 ∧ (f a s').2 = []) → P s →
  (runAll f l s).2 = [].
Proof.
  revert s. induction l as [|a l IH]; intros s Hstep Hs; [done|].
  rewrite runAll_cons. simpl.
  destruct (Hstep a s ltac:(by left) Hs) as [HP ->]. simpl.
  apply IH; [|done]. intros a' s' Hin. apply Hstep. by right.
Qed.

End RunAll.

(** ** The status of a session *)

Section SessionStatus.

Import Session StatusInvariant.

Lemma flushTextBuffer_status (s : Session.t) :
  status (flushTextBuffer s).1 = status s
  ∧ loopRunning (flushTextBuffer s).1 = loopRunning s.
Proof.
  unfold flushTextBuffer.
  destruct (textFlushTimeout s); simpl;
    match goal with |- context [String.eqb ?a ?b] => destruct (String.eqb a b) end;
    done.
Qed.

Lemma runCallback_status (cb : TimerCallback) (s : Session.t) :
  status (runCallback cb s).1 = status s
  ∧ loopRunning (runCallback cb s).1 = loopRunning s.
Proof.
  destruct cb; simpl; [|done].
  apply (flushTextBuffer_status (set_textFlushTimeout None s)).
Qed.

Lemma fireTimer_status (h : nat) (s : Session.t) :
  status (fireTimer h s).1 = status s
  ∧ loopRunning (fireTimer h s).1 = loopRunning s.
Proof.
  unfold fireTimer. destruct (Timers.lookup h (timers s)); [|done].
  apply (runCallback_status _ (set_timers _ s)).
Qed.

Lemma advance_status (time : Z) (s : Session.t) :
  status (advance time s).1 = status s
  ∧ loopRunning (advance time s).1 = loopRunning s.
Proof.
  unfold advance, fireAll.
  apply (runAll_invariant fireTimer
           (λ s', status s' = status s ∧ loopRunning s' = loopRunning s));
    [|done].
  intros h s' _ [Hs Hl]. destruct (fireTimer_status h s') as [-> ->]. done.
Qed.

Lemma bufferTextChunk_status (now : Z) (txt : string) (s : Session.t) :
  status (bufferTextChunk now txt s) = status s.
Proof. unfold bufferTextChunk. simpl. by destruct (textFlushTimeout s). Qed.

Lemma getToolName_status (toolCallId : string) (s : Session.t) :
  status (getToolName toolCallId s).2 = status s.
Proof.
  unfold getToolName. simpl. by destruct (toolCallTimers s !! toolCallId).
Qed.

Lemma handleAssistantBlock_status (now : Z) (block : AssistantBlock) (s : Session.t) :
  status (handleAssistantBlock now block s).1 = status s.
Proof.
  destruct block as [blockId blockName blockInput | tool_use_id content is_error |];
    simpl; [| |done].
  - by destruct (if String.eqb blockName "TodoWrite" then todos blockInput else None).
  - pose proof (getToolName_status tool_use_id s) as H.
    by destruct (getToolName tool_use_id s).
Qed.

Lemma handleAssistantBlocks_status (now : Z) (blocks : list AssistantBlock)
    (s : Session.t) :
  status (handleAssistantBlocks now blocks s).1 = status s.
Proof.
  unfold handleAssistantBlocks.
  apply (runAll_invariant (handleAssistantBlock now) (λ s', status s' = status s));
    [|done].
  intros block s' _ Hs. by rewrite handleAssistantBlock_status.
Qed.

(** A message other than a result leaves the status alone. *)
Lemma processMessage_status_other (now : Z) (message : SDKMessage) (s : Session.t) :
  (∀ success, message ≠ sdk_result success) →
  status (processMessage now message s).1 = status s.
Proof.
  intros Hne. unfold processMessage.
  destruct (loopRunning s); [|done]. destruct (cancelled s); [done|]. simpl.
  destruct message as [[block|block|] | content | success | |]; simpl; try done.
  - unfold handleStreamBlock. destruct (text block) as [txt|].
    + apply (bufferTextChunk_status now txt (set_lastActivityAt now s)).
    + by destruct (thinkingText block).
  - unfold handleStreamBlock. destruct (text block) as [txt|].
    + apply (bufferTextChunk_status now txt (set_lastActivityAt now s)).
    + by destruct (thinkingText block).
  - pose proof (flushTextBuffer_status (set_lastActivityAt now s)) as [Hf _].
    destruct (flushTextBuffer (set_lastActivityAt now s)) as [s2 evs]. simpl in Hf.
    destruct content as [blocks|]; [|done].
    pose proof (handleAssistantBlocks_status now blocks s2) as Hb.
    destruct (handleAssistantBlocks now blocks s2) as [s3 evs']. simpl in *. congruence.
  - by destruct (Hne success).
Qed.

Lemma terminateStart_status (s : Session.t) :
  status (terminateStart s).1 = terminated
  ∧ loopRunning (terminateStart s).1 = loopRunning s.
Proof.
  unfold terminateStart.
  pose proof (flushTextBuffer_status (set_status terminated (set_cancelled true s)))
    as [Hf Hl].
  destruct (flushTextBuffer (set_status terminated (set_cancelled true s))) as [s3 evs].
  simpl in *. done.
Qed.

(** However the awaited loop ends, it has ended, and a terminated session
    is still terminated. *)
Lemma awaitMessageLoop_status (loopEnd : LoopEnd) (s : Session.t) :
  loopRunning (awaitMessageLoop loopEnd s).1 = false
  ∧ (status s = terminated → status (awaitMessageLoop loopEnd s).1 = terminated).
Proof.
  unfold awaitMessageLoop, messageLoopError.
  destruct (loopRunning s) eqn:Hl; simpl; [|done]. by destruct loopEnd.
Qed.

(** The three ways the wait for the loop ends: there was nothing to wait
    for, the loop returned, or it threw and the handler ran. *)
Lemma awaitMessageLoop_cases (loopEnd : LoopEnd) (s : Session.t) :
  (loopRunning s = false ∧ awaitMessageLoop loopEnd s = (s, []))
  ∨ (loopRunning s = true ∧ loopEnd = loop_returns
     ∧ awaitMessageLoop loopEnd s = (set_loopRunning false s, []))
  ∨ ∃ message,
      loopRunning s = true ∧ loopEnd = loop_throws message
      ∧ awaitMessageLoop loopEnd s
        = (set_loopRunning false
             (set_input (endInput (input s)) (set_status terminated s)),
           [error_event message]).
Proof.
  unfold awaitMessageLoop, messageLoopError.
  destruct (loopRunning s) eqn:Hl; simpl; [|by left].
  destruct loopEnd as [|message]; [right; by left|].
  right. right. by exists message.
Qed.

Lemma terminate_status (loopEnd : LoopEnd) (s : Session.t) :
  status (terminate loopEnd s).1 = terminated
  ∧ loopRunning (terminate loopEnd s).1 = false.
Proof.
  unfold terminate. pose proof (terminateStart_status s) as [Hs _].
  destruct (terminateStart s) as [s1 evs]. simpl in Hs.
  pose proof (awaitMessageLoop_status loopEnd s1) as [Hl Hs'].
  destruct (awaitMessageLoop loopEnd s1) as [s2 evs']. simpl in *. by split; [apply Hs'|].
Qed.

Lemma setPermissionMode_status (sdk : SdkCall) (mode : PermissionMode) (s : Session.t) :
  status (setPermissionMode sdk mode s).1.1 = status s
  ∧ loopRunning (setPermissionMode sdk mode s).1.1 = loopRunning s.
Proof.
  unfold setPermissionMode. simpl. by destruct (inPlanMode s && negb (isPlan mode)).
Qed.

(** A terminated session whose loop has ended stays so under a quiet
    operation. *)
Lemma quiet_step_keeps_terminated (op : Op) (s : Session.t) :
  quiet op → status s = terminated → loopRunning s = false →
  status (step op s).1 = terminated ∧ loopRunning (step op s).1 = false.
Proof.
  intros Hq Hs Hl. destruct op as [| |[|]| | | | |]; simpl in *; try done.
  - destruct (setPermissionMode_status sdk mode s) as [-> ->]. done.
  - apply terminate_status.
  - unfold processMessage. rewrite Hl. done.
  - unfold messageLoopError. rewrite Hl. done.
  - destruct (advance_status time s) as [-> ->]. done.
Qed.

Lemma new_loopEndedWhenTerminated sessionId workingDir mode now :
  loopEndedWhenTerminated (Session.new sessionId workingDir mode now).
Proof. intros H. discriminate H. Qed.

Lemma step_loopEndedWhenTerminated (op : Op) (s : Session.t) :
  loopEndedWhenTerminated s → loopEndedWhenTerminated (step op s).1.
Proof.
  unfold loopEndedWhenTerminated. intros Hinv.
  destruct op as [now prompt | now command args | interrupt | sdk mode | loopEnd |
                  now message | message | time]; simpl.
  - intros H. discriminate H.
  - unfold sendSlashCommand.
    destruct (String.eqb command "plan"); simpl; intros H; discriminate H.
  - destruct interrupt; simpl; [intros H; discriminate H | exact Hinv].
  - destruct (setPermissionMode_status sdk mode s) as [-> ->]. done.
  - intros _. apply terminate_status.
  - intros Hterm.
    assert ((∃ success, message = sdk_result success)
            ∨ ∀ success, message ≠ sdk_result success) as [[success ->]|Hne].
    { destruct message; eauto. }
    + unfold processMessage in *. destruct (loopRunning s) eqn:Hl; [|done].
      destruct (cancelled s); [done|]. discriminate Hterm.
    + rewrite processMessage_status_other in Hterm by done.
      specialize (Hinv Hterm). unfold processMessage. by rewrite Hinv.
  - unfold messageLoopError. destruct (loopRunning s) eqn:Hl; simpl; [done|].
    intros Hterm. by rewrite Hl.
  - destruct (advance_status time s) as [-> ->]. done.
Qed.

(** C3 (amended).  From every status, [sendPrompt] and [sendSlashCommand]
    lead to active, a result message handled by the loop and a [cancel]
    whose interrupt resolves lead to idle, [terminate] and a failure of the
    message loop lead to terminated.  A terminated session stays terminated
    through every sequence of operations free of [sendPrompt],
    [sendSlashCommand] and resolved [cancel]: [setPermissionMode], timers,
    late messages, [terminate] and a [cancel] that rejects do not move
    it. *)
Theorem session_status_machine (s : Session.t) :
  (∀ now prompt, status (sendPrompt now prompt s) = active)
  ∧ (∀ now command args, status (sendSlashCommand now command args s).1 = active)
  ∧ (∀ now success, loopRunning s = true → cancelled s = false →
       status (processMessage now (sdk_result success) s).1 = idle)
  ∧ status (cancel resolves s).1.1 = idle
  ∧ (∀ loopEnd, status (terminate loopEnd s).1 = terminated)
  ∧ (∀ message, loopRunning s = true →
       status (messageLoopError message s).1 = terminated)
  ∧ (∀ ops, Forall quiet ops → status s = terminated → loopRunning s = false →
       status (run ops s).1 = terminated).
Proof.
  repeat split.
  - intros now command args. unfold sendSlashCommand. simpl.
    by destruct (String.eqb command "plan").
  - intros now success Hl Hc. unfold processMessage. rewrite Hl, Hc. done.
  - intros loopEnd. apply terminate_status.
  - intros message Hl. unfold messageLoopError. rewrite Hl. done.
  - intros ops Hq Hs Hl. unfold run.
    refine (proj1 (runAll_invariant step
              (λ s', status s' = terminated ∧ loopRunning s' = false) ops s _ _));
      [|done].
    intros op s' Hin [Hs' Hl']. apply quiet_step_keeps_terminated; [|done..].
    by apply (proj1 (Forall_forall _ _) Hq).
Qed.

Lemma session_status_machine_witness :
  let s := Session.terminate loop_returns Fixtures.freshSession in
  status (processMessage 7 (sdk_result true) Fixtures.freshSession).1 = idle
  ∧ status (messageLoopError "stream closed" Fixtures.freshSession).1 = terminated
  ∧ status (run [OpSetPermissionMode resolves plan; OpCancel rejects; OpAdvance 9;
                  OpMessage 10 (sdk_result true); OpTerminate (loop_throws "stream closed")]
              s.1).1 = terminated.
Proof.
  pose proof (session_status_machine Fixtures.freshSession)
    as (_ & _ & Hresult & _ & _ & Hfatal & _).
  pose proof (session_status_machine
                (Session.terminate loop_returns Fixtures.freshSession).1)
    as (_ & _ & _ & _ & _ & _ & Hkeep).
  split; [|split].
  - apply Hresult; reflexivity.
  - apply Hfatal; reflexivity.
  - apply Hkeep; [|reflexivity|reflexivity].
    repeat constructor.
Defined.

(** C3 as stated does not hold: after the message loop has failed, the
    session is terminated, and a [sendPrompt] makes it active again; a
    resolved [cancel] makes a terminated session idle. *)
Lemma terminated_session_becomes_active :
  status (run [OpMessageLoopError "stream closed"] Fixtures.freshSession).1 = terminated
  ∧ status (run [OpMessageLoopError "stream closed"; OpSendPrompt 5 "continue"]
              Fixtures.freshSession).1 = active
  ∧ status (run [OpTerminate loop_returns; OpSendSlashCommand 5 "compact" None]
              Fixtures.freshSession).1 = active
  ∧ status (run [OpTerminate loop_returns; OpCancel resolves] Fixtures.freshSession).1
    = idle.
Proof. vm_compute. repeat split; reflexivity. Qed.

End SessionStatus.

(** ** JavaScript maps *)

Section JsMapFacts.

Context {V : Type}.

Implicit Types (m : list (string * V)) (k : string) (v : V).

Lemma get_set_eq k v m : JsMap.get k (JsMap.set k v m) = Some v.
Proof.
  induction m as [|[k' v'] m IH]; simpl.
  - by rewrite decide_True.
  - destruct (decide (k' = k)) as [->|Hne]; simpl.
    + by rewrite decide_True.
    + by rewrite decide_False.
Qed.

Lemma get_set_ne k k' v m : k ≠ k' → JsMap.get k' (JsMap.set k v m) = JsMap.get k' m.
Proof.
  intros Hne. induction m as [|[k0 v0] m IH]; simpl.
  - by rewrite decide_False.
  - destruct (decide (k0 = k)) as [->|Hne0]; simpl.
    + by rewrite !decide_False.
    + destruct (decide (k0 = k')); done.
Qed.

Lemma get_delete_eq k m : JsMap.get k (JsMap.delete k m) = None.
Proof.
  induction m as [|[k' v'] m IH]; simpl; [done|].
  destruct (decide (k' = k)); simpl; [done|]. by rewrite decide_False.
Qed.

Lemma get_delete_ne k k' m : k ≠ k' → JsMap.get k' (JsMap.delete k m) = JsMap.get k' m.
Proof.
  intros Hne. induction m as [|[k0 v0] m IH]; simpl; [done|].
  destruct (decide (k0 = k)) as [->|Hne0]; simpl.
  - by rewrite decide_False.
  - by destruct (decide (k0 = k')).
Qed.

Lemma delete_absent k m : JsMap.get k m = None → JsMap.delete k m = m.
Proof.
  induction m as [|[k' v'] m IH]; simpl; [done|].
  destruct (decide (k' = k)); [done|]. intros H. by rewrite IH.
Qed.

Lemma delete_delete k m : JsMap.delete k (JsMap.delete k m) = JsMap.delete k m.
Proof. apply delete_absent, get_delete_eq. Qed.

Lemma has_true k m : JsMap.has k m = true ↔ ∃ v, JsMap.get k m = Some v.
Proof.
  unfold JsMap.has. destruct (JsMap.get k m); split; intros H; eauto; try done.
  by destruct H.
Qed.

Lemma has_false k m : JsMap.has k m = false ↔ JsMap.get k m = None.
Proof. unfold JsMap.has. by destruct (JsMap.get k m). Qed.

Lemma get_Some_in_keys k v m : JsMap.get k m = Some v → k ∈ JsMap.keys m.
Proof.
  induction m as [|[k' v'] m IH]; simpl; [done|].
  destruct (decide (k' = k)) as [->|Hne]; intros H.
  - by left.
  - right. by apply IH.
Qed.

Lemma in_keys_get k m : k ∈ JsMap.keys m → ∃ v, JsMap.get k m = Some v.
Proof.
  induction m as [|[k' v'] m IH]; simpl; intros H.
  - by apply elem_of_nil in H.
  - destruct (decide (k' = k)) as [->|Hne]; [eauto|].
    apply elem_of_cons in H as [->|H]; [done|]. by apply IH.
Qed.

Lemma get_Some_elem k v m : JsMap.get k m = Some v → (k, v) ∈ m.
Proof.
  induction m as [|[k' v'] m IH]; simpl; [done|].
  destruct (decide (k' = k)) as [->|Hne]; intros H.
  - injection H as ->. by left.
  - right. by apply IH.
Qed.

Lemma elem_of_keys k v m : (k, v) ∈ m → k ∈ JsMap.keys m.
Proof. intros Hin. unfold JsMap.keys. by apply (list_elem_of_fmap_2 fst m (k, v)). Qed.

Lemma get_None_not_key k m : JsMap.get k m = None ↔ k ∉ JsMap.keys m.
Proof.
  split.
  - intros Hnone Hin. apply in_keys_get in Hin as [v Hv]. congruence.
  - intros Hout. destruct (JsMap.get k m) as [v|] eqn:Hget; [|done].
    destruct Hout. by apply get_Some_in_keys with v.
Qed.

Lemma elem_of_set k v k' v' m :
  (k', v') ∈ JsMap.set k v m → (k' = k ∧ v' = v) ∨ (k', v') ∈ m.
Proof.
  induction m as [|[k0 v0] m IH]; simpl; intros Hin.
  - apply list_elem_of_singleton in Hin. injection Hin as -> ->. by left.
  - destruct (decide (k0 = k)) as [->|Hne].
    + apply elem_of_cons in Hin as [Hin|Hin].
      * injection Hin as -> ->. by left.
      * right. by right.
    + apply elem_of_cons in Hin as [Hin|Hin].
      * injection Hin as -> ->. right. by left.
      * destruct (IH Hin) as [?|?]; [by left|]. right. by right.
Qed.

Lemma elem_of_delete k k' v' m :
  (k', v') ∈ JsMap.delete k m ↔ (k', v') ∈ m ∧ k' ≠ k.
Proof.
  induction m as [|[k0 v0] m IH]; simpl.
  - rewrite elem_of_nil. tauto.
  - destruct (decide (k0 = k)) as [->|Hne].
    + rewrite IH, elem_of_cons. split; [tauto|].
      intros [[Heq|Hin] Hne]; [|done]. injection Heq as -> ->. done.
    + rewrite !elem_of_cons, IH. split; [|tauto].
      intros [Heq|[Hin Hne']]; [|tauto]. injection Heq as -> ->. tauto.
Qed.

Lemma keys_set k v k' m : k' ∈ JsMap.keys (JsMap.set k v m) → k' = k ∨ k' ∈ JsMap.keys m.
Proof.
  intros Hin. apply in_keys_get in Hin as [v' Hget].
  destruct (decide (k' = k)) as [->|Hne]; [by left|]. right.
  rewrite get_set_ne in Hget by done. by apply get_Some_in_keys with v'.
Qed.

Lemma keys_set_absent k v m :
  JsMap.get k m = None → JsMap.set k v m = m ++ [(k, v)].
Proof.
  induction m as [|[k0 v0] m IH]; simpl; [done|].
  destruct (decide (k0 = k)); [done|]. intros H. by rewrite IH.
Qed.

Lemma keys_set_present k v v0 m :
  JsMap.get k m = Some v0 → JsMap.keys (JsMap.set k v m) = JsMap.keys m.
Proof.
  unfold JsMap.keys. induction m as [|[k1 v1] m IH]; simpl; [done|].
  destruct (decide (k1 = k)) as [->|Hne]; [done|]. intros H.
  rewrite !fmap_cons. f_equal. by apply IH.
Qed.

Lemma NoDup_keys_set k v m : NoDup (JsMap.keys m) → NoDup (JsMap.keys (JsMap.set k v m)).
Proof.
  intros Hnd. destruct (JsMap.get k m) as [v0|] eqn:Hget.
  - by rewrite (keys_set_present k v v0 m Hget).
  - rewrite (keys_set_absent k v m Hget). unfold JsMap.keys. rewrite fmap_app. simpl.
    apply NoDup_app. split; [done|]. split; [|apply NoDup_singleton].
    intros k' Hin Hk'. apply list_elem_of_singleton in Hk' as ->.
    by apply get_None_not_key in Hget.
Qed.

Lemma keys_delete_filter k m :
  JsMap.keys (JsMap.delete k m) = filter (λ k', k' ≠ k) (JsMap.keys m).
Proof.
  unfold JsMap.keys. induction m as [|[k0 v0] m IH]; simpl; [done|].
  rewrite filter_cons. destruct (decide (k0 = k)) as [->|Hne].
  - by rewrite decide_False by (intros H; by apply H).
  - rewrite decide_True by done. rewrite fmap_cons. f_equal. by apply IH.
Qed.

Lemma NoDup_keys_delete k m :
  NoDup (JsMap.keys m) → NoDup (JsMap.keys (JsMap.delete k m)).
Proof. intros Hnd. rewrite keys_delete_filter. by apply NoDup_filter. Qed.

Lemma elem_NoDup_get k v m : NoDup (JsMap.keys m) → (k, v) ∈ m → JsMap.get k m = Some v.
Proof.
  unfold JsMap.keys. induction m as [|[k0 v0] m IH]; simpl; intros Hnd Hin.
  - by apply elem_of_nil in Hin.
  - apply NoDup_cons in Hnd as [Hk0 Hnd].
    apply elem_of_cons in Hin as [Heq|Hin].
    + injection Heq as -> ->. by rewrite decide_True.
    + destruct (decide (k0 = k)) as [->|Hne]; [|by apply IH].
      destruct Hk0. by apply (list_elem_of_fmap_2 fst m (k, v)).
Qed.

Lemma keys_delete k k' m : k' ∈ JsMap.keys (JsMap.delete k m) → k' ∈ JsMap.keys m.
Proof.
  intros Hin. apply in_keys_get in Hin as [v' Hget].
  destruct (decide (k = k')) as [->|Hne].
  - by rewrite get_delete_eq in Hget.
  - rewrite get_delete_ne in Hget by done. by apply get_Some_in_keys with v'.
Qed.

End JsMapFacts.

Lemma fold_left_pointwise {A B : Type} (f g : B → A → B) (l : list A) (b : B) :
  (∀ b' a, f b' a = g b' a) → fold_left f l b = fold_left g l b.
Proof.
  intros Hfg. revert b. induction l as [|a l IH]; intros b; [done|].
  simpl. by rewrite Hfg, IH.
Qed.

Lemma fold_left_preserves {A B : Type} (f : B → A → B) (P : B → Prop) (l : list A) (b : B) :
  (∀ b' a, a ∈ l → P b' → P (f b' a)) → P b → P (fold_left f l b).
Proof.
  revert b. induction l as [|a l IH]; intros b Hstep Hb; [done|].
  simpl. apply IH.
  - intros b' a' Hin. apply Hstep. by right.
  - apply Hstep; [by left | done].
Qed.

(** ** The session manager: registry, capacity and message history *)

Section Registry.

Import SessionManager Observations RegistryFrame.

Lemma sameRegistry_refl m : sameRegistry m m.
Proof. by repeat split. Qed.

Lemma sameRegistry_trans m1 m2 m3 :
  sameRegistry m1 m2 → sameRegistry m2 m3 → sameRegistry m1 m3.
Proof.
  intros (?&?&?&?&?) (?&?&?&?&?). repeat split; congruence.
Qed.

Lemma handleSessionEvent_sameRegistry now sid event m :
  sameRegistry m (handleSessionEvent now sid event m).
Proof. destruct event; by repeat split. Qed.

Lemma deliver_sameRegistry now sid events m : sameRegistry m (deliver now sid events m).
Proof.
  unfold deliver. apply (fold_left_preserves _ (sameRegistry m)).
  - intros m' event _ H. eapply sameRegistry_trans; [exact H|].
    apply handleSessionEvent_sameRegistry.
  - apply sameRegistry_refl.
Qed.

Lemma handleEvents_sameRegistry events m : sameRegistry m (handleEvents events m).
Proof.
  unfold handleEvents. apply (fold_left_preserves _ (sameRegistry m)).
  - intros m' event _ H. eapply sameRegistry_trans; [exact H|].
    apply handleSessionEvent_sameRegistry.
  - apply sameRegistry_refl.
Qed.

Lemma rejectQuestion_sameRegistry sid m entry :
  sameRegistry m (rejectQuestion sid m entry)
  ∧ messageChunks (rejectQuestion sid m entry) = messageChunks m.
Proof.
  unfold rejectQuestion. destruct (decide _); by repeat split.
Qed.

Lemma rejectPermission_sameRegistry sid m entry :
  sameRegistry m (rejectPermission sid m entry)
  ∧ messageChunks (rejectPermission sid m entry) = messageChunks m.
Proof.
  unfold rejectPermission. destruct (decide _); by repeat split.
Qed.

Lemma rejectQuestions_sameRegistry sid l m :
  sameRegistry m (fold_left (rejectQuestion sid) l m).
Proof.
  apply (fold_left_preserves _ (sameRegistry m)).
  - intros m' entry _ H. eapply sameRegistry_trans; [exact H|].
    apply rejectQuestion_sameRegistry.
  - apply sameRegistry_refl.
Qed.

Lemma rejectPermissions_sameRegistry sid l m :
  sameRegistry m (fold_left (rejectPermission sid) l m).
Proof.
  apply (fold_left_preserves _ (sameRegistry m)).
  - intros m' entry _ H. eapply sameRegistry_trans; [exact H|].
    apply rejectPermission_sameRegistry.
  - apply sameRegistry_refl.
Qed.

(** The registry and the disk a completed [terminateSession] leaves. *)
Lemma terminateSession_completed processId now write loopEnd sid m m' :
  terminateSession processId now write loopEnd sid m = (m', inr ()) →
  sessions m' = JsMap.delete sid (sessions m)
  ∧ lockFile (disk m')
    = match write with
      | succeeds => lock_record (mkLock processId now (JsMap.keys (sessions m')))
      | fails => lockFile (disk m)
      end.
Proof.
  unfold terminateSession.
  destruct (JsMap.get sid (sessions m)) as [session|] eqn:Hget; [|done].
  destruct (Session.terminate loopEnd session) as [session' events].
  set (m0 := set_sessions (JsMap.set sid session' (sessions m)) m).
  set (m1 := deliver now sid events m0).
  set (m2 := set_sessions (JsMap.delete sid (sessions m1)) m1).
  set (m3 := fold_left (rejectQuestion sid) (pendingQuestions m2) m2).
  set (m4 := fold_left (rejectPermission sid) (pendingPermissions m3) m3).
  set (m5 := set_messageChunks (JsMap.delete sid (messageChunks m4)) m4).
  intros [= <-].
  destruct (deliver_sameRegistry now sid events m0) as (Hs1 & Hd1 & _).
  destruct (rejectQuestions_sameRegistry sid (pendingQuestions m2) m2) as (Hs3 & Hd3 & _).
  destruct (rejectPermissions_sameRegistry sid (pendingPermissions m3) m3)
    as (Hs4 & Hd4 & _).
  fold m1 in Hs1, Hd1. fold m3 in Hs3, Hd3. fold m4 in Hs4, Hd4.
  assert (sessions m5 = JsMap.delete sid (sessions m)) as Hs5.
  { change (sessions m5) with (sessions m4). rewrite Hs4, Hs3.
    change (sessions m2) with (JsMap.delete sid (sessions m1)). rewrite Hs1.
    change (sessions m0) with (JsMap.set sid session' (sessions m)).
    clear -Hget. induction (sessions m) as [|[k v] l IH]; simpl in *; [done|].
    destruct (decide (k = sid)) as [->|Hne]; simpl.
    - by rewrite decide_True.
    - rewrite decide_False by done. f_equal. by apply IH. }
  assert (disk m5 = disk m) as Hd5.
  { change (disk m5) with (disk m4). rewrite Hd4, Hd3.
    change (disk m2) with (disk m1). by rewrite Hd1. }
  unfold updateLockFile, writeLockFile.
  change (sessions m5) with (sessions m4) in Hs5.
  change (disk m5) with (disk m4) in Hd5.
  destruct write; simpl; (split; [exact Hs5|]); [done | by rewrite Hd5].
Qed.

(** The registry and the disk a completed [createSession] leaves. *)
Lemma createSession_completed processId now mkdir write options m m' sid :
  createSession processId now mkdir write options m = (m', inr sid) →
  sid = uuidSource m (uuidsTaken m)
  ∧ (∃ session, sessions m' = JsMap.set sid session (sessions m))
  ∧ lockFile (disk m')
    = match write with
      | succeeds => lock_record (mkLock processId now (JsMap.keys (sessions m')))
      | fails => lockFile (disk m)
      end.
Proof.
  unfold createSession.
  destruct (maxSessions m <=? JsMap.size (sessions m))%nat; [done|].
  simpl. destruct mkdir; [|done].
  unfold createSessionWorkspace. simpl.
  destruct (bool_decide _); simpl; intros [= <- <-];
    (split; [done|]); unfold updateLockFile, writeLockFile;
    destruct write; simpl; eauto.
Qed.

(** C6.  With as many sessions registered as [maxSessions] allows,
    [createSession] throws the capacity error [SessionLimitError] (code
    SESSION_LIMIT_REACHED) and returns the manager exactly as it was: the
    registry, the pending entries, the timers, the disk (no workspace
    directory, no lock write) and the source of ids are all unchanged. *)
Theorem createSession_at_capacity (processId : nat) (now : Z) (mkdir write : IO)
    (options : CreateSessionOptions) (m : SessionManager.t) :
  (maxSessions m ≤ JsMap.size (sessions m))%nat →
  createSession processId now mkdir write options m
  = (m, inl (app_error (SessionLimitError (maxSessions m))))
  ∧ errorCode (SessionLimitError (maxSessions m)) = "SESSION_LIMIT_REACHED".
Proof.
  intros Hfull. unfold createSession.
  by rewrite (proj2 (Nat.leb_le _ _) Hfull).
Qed.

Lemma createSession_at_capacity_witness :
  let m := Fixtures.oneSessionManager 1 succeeds in
  JsMap.size (sessions m) = 1%nat
  ∧ createSession 4242 2000 succeeds succeeds (mkOptions "/home/dev" None) m
    = (m, inl (app_error (SessionLimitError 1))).
Proof.
  split; [reflexivity|].
  apply (createSession_at_capacity 4242 2000 succeeds succeeds
           (mkOptions "/home/dev" None) (Fixtures.oneSessionManager 1 succeeds)).
  vm_compute. lia.
Defined.

End Registry.

Section LockFileAndHistory.

Import SessionManager Observations RegistryFrame.

(** C4 (amended).  After a completed [createSession] or [terminateSession]
    whose lock-file write succeeds, the [sessionIds] of the lock file are
    the ids of the registry, in registry order, under the current process
    id.  When the write or the rename fails the method still completes (the
    failure is logged and swallowed) and the lock file is left as it
    was. *)
Theorem lock_file_mirrors_registry_when_written (processId : nat) (now : Z) (write : IO)
    (m m' : SessionManager.t) :
  ((∃ mkdir options sid,
      createSession processId now mkdir write options m = (m', inr sid))
   ∨ (∃ loopEnd sid, terminateSession processId now write loopEnd sid m = (m', inr ()))) →
  (write = succeeds →
     persistedSessionIds m' = Some (registeredSessionIds m')
     ∧ lockFile (disk m')
       = lock_record (mkLock processId now (registeredSessionIds m')))
  ∧ (write = fails → lockFile (disk m') = lockFile (disk m)).
Proof.
  intros Hdone.
  assert (lockFile (disk m')
          = match write with
            | succeeds => lock_record (mkLock processId now (JsMap.keys (sessions m')))
            | fails => lockFile (disk m)
            end) as Hlock.
  { destruct Hdone as [(mkdir & options & sid & Hc) | (loopEnd & sid & Ht)].
    - by destruct (createSession_completed _ _ _ _ _ _ _ _ Hc) as (_ & _ & ?).
    - by destruct (terminateSession_completed _ _ _ _ _ _ _ Ht) as (_ & ?). }
  split; intros ->.
  - unfold persistedSessionIds, registeredSessionIds. rewrite Hlock. done.
  - exact Hlock.
Qed.

Lemma lock_file_mirrors_registry_when_written_witness :
  let m := MoreFixtures.initializedManager 5 in
  let m' := (createSession 4242 1000 succeeds succeeds (mkOptions "/home/dev" None) m).1 in
  let m'' := (terminateSession 4242 2000 succeeds Session.loop_returns Fixtures.uuid1 m').1 in
  persistedSessionIds m' = Some [Fixtures.uuid1]
  ∧ registeredSessionIds m' = [Fixtures.uuid1]
  ∧ persistedSessionIds m'' = Some (registeredSessionIds m'').
Proof.
  split; [|split].
  - refine (proj1 (proj1 (lock_file_mirrors_registry_when_written 4242 1000 succeeds
                             (MoreFixtures.initializedManager 5) _ _) eq_refl)).
    left. exists succeeds, (mkOptions "/home/dev" None), Fixtures.uuid1.
    vm_compute. reflexivity.
  - vm_compute. reflexivity.
  - refine (proj1 (proj1 (lock_file_mirrors_registry_when_written 4242 2000 succeeds
                             (createSession 4242 1000 succeeds succeeds
                                (mkOptions "/home/dev" None)
                                (MoreFixtures.initializedManager 5)).1 _ _) eq_refl)).
    right. exists Session.loop_returns, Fixtures.uuid1. vm_compute. reflexivity.
Defined.

(** C4 as stated does not hold: when the lock-file write fails,
    [createSession] completes with the new id in the registry while the
    lock file still lists no session; likewise [terminateSession] completes
    with an empty registry while the lock file still lists the session. *)
Lemma lock_file_stale_after_failed_write :
  let m := MoreFixtures.initializedManager 5 in
  let created := createSession 4242 1000 succeeds fails (mkOptions "/home/dev" None) m in
  let m1 := (createSession 4242 1000 succeeds succeeds (mkOptions "/home/dev" None) m).1 in
  let ended := terminateSession 4242 2000 fails Session.loop_returns Fixtures.uuid1 m1 in
  created.2 = inr Fixtures.uuid1
  ∧ registeredSessionIds created.1 = [Fixtures.uuid1]
  ∧ persistedSessionIds created.1 = Some []
  ∧ persistedSessionIds created.1 ≠ Some (registeredSessionIds created.1)
  ∧ ended.2 = inr ()
  ∧ registeredSessionIds ended.1 = []
  ∧ persistedSessionIds ended.1 = Some [Fixtures.uuid1]
  ∧ persistedSessionIds ended.1 ≠ Some (registeredSessionIds ended.1).
Proof. vm_compute. repeat split; congruence. Qed.

(** *** Message history *)

Lemma handleSessionEvent_messageChunks now sid event m :
  messageChunks (handleSessionEvent now sid event m)
  = match event with
    | message_chunk content =>
        JsMap.set sid (default [] (JsMap.get sid (messageChunks m)) ++ [content])
          (messageChunks m)
    | _ => messageChunks m
    end.
Proof. by destruct event. Qed.

(** Chunks are appended to the cache of their session in order of
    arrival. *)
Lemma handleEvents_chunks sid events m :
  default [] (JsMap.get sid (messageChunks (handleEvents events m)))
  = default [] (JsMap.get sid (messageChunks m)) ++ chunksFor sid events.
Proof.
  unfold handleEvents, chunksFor. revert m.
  induction events as [|[[now sid'] event] events IH]; intros m; simpl.
  - by rewrite app_nil_r.
  - rewrite IH, handleSessionEvent_messageChunks.
    destruct event; simpl; try done.
    destruct (decide (sid' = sid)) as [->|Hne].
    + rewrite get_set_eq. simpl. by rewrite <- app_assoc.
    + by rewrite get_set_ne.
Qed.

(** C10.  [readMessageHistory] consumes the cache.  For a registered
    session it returns the chunks cached so far and empties the cache, so
    that a second call right after it returns the empty list and changes
    nothing; the chunks of the [message_chunk] events that arrive for the
    session after a call are returned by the next call in order of arrival,
    whatever other events arrive in between.  For a session that is not in
    the registry, in particular one that [terminateSession] has removed, it
    throws [SessionNotFoundError]. *)
Theorem readMessageHistory_consumes (sid : string) (m : SessionManager.t) :
  (JsMap.has sid (sessions m) = true →
     ∃ m1,
       readMessageHistory sid m
       = (m1, inr (default [] (JsMap.get sid (messageChunks m))))
       ∧ readMessageHistory sid m1 = (m1, inr [])
       ∧ ∀ events,
           (readMessageHistory sid (handleEvents events m1)).2
           = inr (chunksFor sid events))
  ∧ (JsMap.has sid (sessions m) = false →
       readMessageHistory sid m = (m, inl (app_error (SessionNotFoundError sid)))
       ∧ errorCode (SessionNotFoundError sid) = "SESSION_NOT_FOUND")
  ∧ (∀ processId now write loopEnd m',
       terminateSession processId now write loopEnd sid m = (m', inr ()) →
       readMessageHistory sid m' = (m', inl (app_error (SessionNotFoundError sid)))).
Proof.
  split; [|split].
  - intros Hhas. unfold readMessageHistory at 1. rewrite Hhas. simpl.
    eexists. split; [reflexivity|]. split.
    + unfold readMessageHistory. simpl. rewrite Hhas. simpl.
      rewrite get_delete_eq, delete_delete. done.
    + intros events. unfold readMessageHistory.
      destruct (handleEvents_sameRegistry events
                  (set_messageChunks (JsMap.delete sid (messageChunks m)) m))
        as (-> & _).
      simpl. rewrite Hhas. simpl.
      rewrite handleEvents_chunks. simpl. by rewrite get_delete_eq.
  - intros Hhas. unfold readMessageHistory. by rewrite Hhas.
  - intros processId now write loopEnd m' Ht.
    destruct (terminateSession_completed _ _ _ _ _ _ _ Ht) as (Hs & _).
    unfold readMessageHistory, JsMap.has. by rewrite Hs, get_delete_eq.
Qed.

Lemma readMessageHistory_consumes_witness :
  let m := Fixtures.oneSessionManager 5 succeeds in
  let events :=
    [(1100%Z, Fixtures.uuid1, message_chunk "Hello");
     (1200%Z, Fixtures.uuid1, tool_call "toolu_1" "Read" "{}");
     (1300%Z, Fixtures.uuid1, message_chunk ", world")] in
  (readMessageHistory Fixtures.uuid1 (handleEvents events m)).2
  = inr ["Hello"; ", world"]
  ∧ (readMessageHistory Fixtures.uuid1
       (readMessageHistory Fixtures.uuid1 (handleEvents events m)).1).2 = inr []
  ∧ (readMessageHistory "no-such-session" m).2
    = inl (app_error (SessionNotFoundError "no-such-session"))
  ∧ (readMessageHistory Fixtures.uuid1
       (terminateSession 4242 2000 succeeds Session.loop_returns Fixtures.uuid1 m).1).2
    = inl (app_error (SessionNotFoundError Fixtures.uuid1)).
Proof.
  split; [|split; [|split]].
  - vm_compute. reflexivity.
  - destruct (readMessageHistory_consumes Fixtures.uuid1
                (handleEvents
                   [(1100%Z, Fixtures.uuid1, message_chunk "Hello");
                    (1200%Z, Fixtures.uuid1, tool_call "toolu_1" "Read" "{}");
                    (1300%Z, Fixtures.uuid1, message_chunk ", world")]
                   (Fixtures.oneSessionManager 5 succeeds)))
      as (Hread & _ & _).
    destruct (Hread eq_refl) as (m1 & H1 & H2 & _).
    rewrite H1. simpl. rewrite H2. reflexivity.
  - destruct (readMessageHistory_consumes "no-such-session"
                (Fixtures.oneSessionManager 5 succeeds)) as (_ & Hmissing & _).
    destruct (Hmissing eq_refl) as [-> _]. reflexivity.
  - destruct (readMessageHistory_consumes Fixtures.uuid1
                (Fixtures.oneSessionManager 5 succeeds)) as (_ & _ & Hended).
    rewrite (Hended 4242 2000%Z succeeds Session.loop_returns
               (terminateSession 4242 2000 succeeds Session.loop_returns Fixtures.uuid1
                  (Fixtures.oneSessionManager 5 succeeds)).1); [reflexivity|].
    vm_compute. reflexivity.
Defined.

End LockFileAndHistory.

(** ** Orphan recovery at startup *)

Section OrphanRecovery.

Import SessionManager Orphans OrphanLoops.

Lemma segmentPrefix_refl (l : list string) : NodePath.segmentPrefix l l = true.
Proof. induction l as [|x l IH]; simpl; [done|]. by rewrite String.eqb_refl, IH. Qed.

Lemma isInside_refl (p : string) : NodePath.isInside p p = true.
Proof. apply segmentPrefix_refl. Qed.

(** The effect of one guarded removal. *)
Lemma tryRm_effect (rm : string → IO) (path : string) (m : SessionManager.t) :
  workspacesDir (tryRm rm path m) = workspacesDir m
  ∧ sessions (tryRm rm path m) = sessions m
  ∧ fsLog (tryRm rm path m) = fsLog m ++ [FsRm path (rm path)]
  ∧ (∀ e, e ∈ entries (disk (tryRm rm path m)) → e ∈ entries (disk m))
  ∧ (rm path = succeeds →
       ∀ e, NodePath.isInside path (NodePath.join (workspacesDir m) (name e)) = true →
            e ∉ entries (disk (tryRm rm path m)))
  ∧ (lockFile (disk (tryRm rm path m)) = lockFile (disk m)
     ∨ lockFile (disk (tryRm rm path m)) = lock_absent).
Proof.
  unfold tryRm. destruct (rm path) eqn:Hrm; simpl.
  - repeat split; try done.
    + intros e He. by apply list_elem_of_filter in He as [_ He].
    + intros _ e Hin He. apply list_elem_of_filter in He as [Hout _]. congruence.
    + destruct (NodePath.isInside path _); eauto.
  - repeat split; try done. eauto.
Qed.

(** A loop of guarded removals: it only removes, it removes what one of
    its iterations removes, and it logs nothing but removals. *)
Lemma tryRm_loop {A : Type} (rm : string → IO) (target : SessionManager.t → A → option string)
    (l : list A) (m : SessionManager.t) :
  (∀ acc a, workspacesDir acc = workspacesDir m → target acc a = target m a) →
  let step := λ acc a,
    match target acc a with Some path => tryRm rm path acc | None => acc end in
  workspacesDir (fold_left step l m) = workspacesDir m
  ∧ sessions (fold_left step l m) = sessions m
  ∧ (∃ rms, fsLog (fold_left step l m) = fsLog m ++ rms ∧ Forall isRm rms)
  ∧ (∀ e, e ∈ entries (disk (fold_left step l m)) → e ∈ entries (disk m))
  ∧ (∀ a path e, a ∈ l → target m a = Some path → rm path = succeeds →
       NodePath.isInside path (NodePath.join (workspacesDir m) (name e)) = true →
       e ∉ entries (disk (fold_left step l m))).
Proof.
  intros Htarget step. revert m Htarget.
  induction l as [|a l IH]; intros m Htarget.
  - simpl. repeat split; try done.
    + exists []. by rewrite app_nil_r.
    + intros a path e Ha. by apply elem_of_nil in Ha.
  - simpl.
    assert (workspacesDir (step m a) = workspacesDir m
            ∧ sessions (step m a) = sessions m
            ∧ (∃ rms, fsLog (step m a) = fsLog m ++ rms ∧ Forall isRm rms)
            ∧ (∀ e, e ∈ entries (disk (step m a)) → e ∈ entries (disk m))
            ∧ (∀ path e, target m a = Some path → rm path = succeeds →
                 NodePath.isInside path (NodePath.join (workspacesDir m) (name e)) = true →
                 e ∉ entries (disk (step m a))))
      as (Hdir & Hses & (rms1 & Hlog1 & Hrms1) & Hsub1 & Hgone1).
    { unfold step. destruct (target m a) as [path|] eqn:Htgt.
      - destruct (tryRm_effect rm path m) as (Hd & Hs & Hl & Hsub & Hgone & _).
        repeat split; try done.
        + exists [FsRm path (rm path)]. split; [done|]. by repeat constructor.
        + intros path' e [= <-] Hrm. by apply Hgone.
      - repeat split; try done. exists []. by rewrite app_nil_r. }
    destruct (IH (step m a)) as (Hdir2 & Hses2 & (rms2 & Hlog2 & Hrms2) & Hsub2 & Hgone2).
    { intros acc a' Hacc. rewrite (Htarget acc a') by congruence.
      by rewrite (Htarget (step m a) a'). }
    repeat split.
    + congruence.
    + congruence.
    + exists (rms1 ++ rms2). rewrite Hlog2, Hlog1, app_assoc. split; [done|].
      by apply Forall_app.
    + eauto.
    + intros a' path e Ha' Htgt Hrm Hin.
      apply elem_of_cons in Ha' as [->|Ha'].
      * intros He. by apply (Hgone1 path e Htgt Hrm Hin), Hsub2.
      * apply (Hgone2 a' path e Ha'); [|done|by rewrite Hdir].
        by rewrite (Htarget (step m a) a').
Qed.

Lemma cleanup_unfold alive rm readdir m lockData :
  lockFile (disk m) = lock_record lockData → alive (pid lockData) = false →
  cleanupOrphanedSessions alive rm readdir m
  = let step1 := λ acc a,
      match listedTarget acc a with Some path => tryRm rm path acc | None => acc end in
    let step2 := λ acc a,
      match scannedTarget acc a with Some path => tryRm rm path acc | None => acc end in
    let m1 := fold_left step1 (sessionIds lockData) m in
    match readdir with
    | fails => m1
    | succeeds => fold_left step2 (entries (disk m1)) m1
    end.
Proof.
  intros Hlock Hdead. unfold cleanupOrphanedSessions. rewrite Hlock, Hdead. simpl.
  destruct readdir; [|done].
  apply fold_left_pointwise. intros acc entry. unfold scannedTarget.
  by destruct (isDirectory entry && negb (isHidden (name entry))).
Qed.

End OrphanRecovery.

Section OrphanRecoveryClaim.

Import SessionManager Orphans OrphanLoops.

(** C9 (amended).  At startup with a lock file that names a process id:
    if the process is dead, every entry of the workspace root that the lock
    file lists, and (when the root can be read) every non-hidden directory
    it does not list, is removed provided its [rm] succeeds; a failing [rm]
    is logged and skipped; nothing is created, and all the removals are
    issued before the lock file of the current process is written.  If the
    process is alive nothing is removed and the only disk operation is the
    write of the lock file. *)
Theorem orphan_cleanup_before_lock (processId : nat) (now : Z) (alive : nat → bool)
    (rm : string → IO) (readdir write : IO) (m : SessionManager.t)
    (lockData : LockFileContent) :
  lockFile (disk m) = lock_record lockData →
  let cleaned := cleanupOrphanedSessions alive rm readdir m in
  let started := initialize processId now alive rm readdir write m in
  let fresh := FsWriteLock (mkLock processId now (JsMap.keys (sessions m))) write in
  (alive (pid lockData) = false →
     (∀ e, e ∈ entries (disk m) → name e ∈ sessionIds lockData →
           rm (NodePath.join (workspacesDir m) (name e)) = succeeds →
           e ∉ entries (disk started))
     ∧ (readdir = succeeds →
        ∀ e, e ∈ entries (disk m) → isDirectory e = true → isHidden (name e) = false →
             rm (NodePath.join (workspacesDir m) (name e)) = succeeds →
             e ∉ entries (disk started))
     ∧ (∀ e, e ∈ entries (disk started) → e ∈ entries (disk m))
     ∧ entries (disk started) = entries (disk cleaned)
     ∧ ∃ rms, Forall isRm rms ∧ fsLog started = fsLog m ++ rms ++ [fresh])
  ∧ (alive (pid lockData) = true →
     cleaned = m
     ∧ entries (disk started) = entries (disk m)
     ∧ fsLog started = fsLog m ++ [fresh]).
Proof.
  intros Hlock cleaned started fresh.
  assert (entries (disk started) = entries (disk cleaned)) as Hentries.
  { unfold started, initialize, writeLockFile. by destruct write. }
  assert (fsLog started
          = fsLog cleaned
            ++ [FsWriteLock (mkLock processId now (JsMap.keys (sessions cleaned))) write])
    as Hlog.
  { unfold started, initialize, writeLockFile. by destruct write. }
  split.
  - intros Hdead. rewrite Hentries.
    pose proof (cleanup_unfold alive rm readdir m lockData Hlock Hdead) as Hunfold.
    cbv zeta in Hunfold. fold cleaned in Hunfold.
    set (step1 := λ acc a,
           match listedTarget acc a with Some path => tryRm rm path acc | None => acc end)
      in Hunfold.
    set (step2 := λ acc a,
           match scannedTarget acc a with Some path => tryRm rm path acc | None => acc end)
      in Hunfold.
    set (m1 := fold_left step1 (sessionIds lockData) m) in Hunfold.
    destruct (tryRm_loop rm listedTarget (sessionIds lockData) m)
      as (Hdir1 & Hses1 & (rms1 & Hlog1 & Hrms1) & Hsub1 & Hgone1).
    { intros acc a Hacc. unfold listedTarget. by rewrite Hacc. }
    fold step1 in Hdir1, Hses1, Hlog1, Hsub1, Hgone1.
    fold m1 in Hdir1, Hses1, Hlog1, Hsub1, Hgone1.
    destruct (tryRm_loop rm scannedTarget (entries (disk m1)) m1)
      as (Hdir2 & Hses2 & (rms2 & Hlog2 & Hrms2) & Hsub2 & Hgone2).
    { intros acc a Hacc. unfold scannedTarget. by rewrite Hacc. }
    fold step2 in Hdir2, Hses2, Hlog2, Hsub2, Hgone2.
    assert (∀ e, e ∈ entries (disk cleaned) → e ∈ entries (disk m1)) as Hsub.
    { rewrite Hunfold. destruct readdir; [exact Hsub2 | done]. }
    repeat split.
    + intros e He Hlisted Hrm Hstill. apply Hsub in Hstill. revert Hstill.
      apply (Hgone1 (name e) _ e Hlisted eq_refl Hrm), isInside_refl.
    + intros -> e He Hisdir Hshown Hrm. rewrite Hunfold.
      destruct (decide (e ∈ entries (disk m1))) as [Hin|Hout].
      * apply (Hgone2 e (NodePath.join (workspacesDir m) (name e)) e Hin).
        -- unfold scannedTarget. by rewrite Hisdir, Hshown, Hdir1.
        -- done.
        -- rewrite Hdir1. apply isInside_refl.
      * intros Hstill. by apply Hout, Hsub2.
    + intros e He. by apply Hsub1, Hsub.
    + exists (match readdir with succeeds => rms1 ++ rms2 | fails => rms1 end).
      rewrite Hlog, Hunfold. unfold fresh.
      destruct readdir.
      * rewrite Hlog2, Hlog1, Hses2, Hses1. split; [by apply Forall_app|].
        by rewrite <- !app_assoc.
      * rewrite Hlog1, Hses1. split; [done|]. by rewrite <- !app_assoc.
  - intros Halive.
    assert (cleaned = m) as Hsame.
    { unfold cleaned, cleanupOrphanedSessions. by rewrite Hlock, Halive. }
    rewrite Hentries, Hlog, Hsame. done.
Qed.

Lemma orphan_cleanup_before_lock_witness :
  let started := initialize 4242 500 (λ _, false) (λ _, succeeds) succeeds succeeds
                   crashedManager in
  let undisturbed := initialize 4242 500 (λ _, true) (λ _, succeeds) succeeds succeeds
                       crashedManager in
  (mkDirent Fixtures.uuid1 true ∉ entries (disk started))
  ∧ (mkDirent "stray-workspace" true ∉ entries (disk started))
  ∧ entries (disk undisturbed) = entries orphanDisk.
Proof.
  pose proof (orphan_cleanup_before_lock 4242 500 (λ _, false) (λ _, succeeds)
                succeeds succeeds crashedManager (mkLock 999 100 [Fixtures.uuid1])
                eq_refl) as [Hdead _].
  pose proof (orphan_cleanup_before_lock 4242 500 (λ _, true) (λ _, succeeds)
                succeeds succeeds crashedManager (mkLock 999 100 [Fixtures.uuid1])
                eq_refl) as [_ Halive].
  destruct (Hdead eq_refl) as (Hlisted & Hscan & _).
  destruct (Halive eq_refl) as (_ & Hkept & _).
  split; [|split].
  - apply Hlisted; [| |reflexivity].
    + apply list_elem_of_here.
    + apply list_elem_of_here.
  - apply (Hscan eq_refl); [|reflexivity..].
    apply list_elem_of_further, list_elem_of_here.
  - exact Hkept.
Defined.

(** C9 as stated does not hold: when the removal of the listed workspace
    fails, the failure is swallowed, the directory is still there after
    startup, and the lock file of the current process is written all the
    same. *)
Lemma orphan_survives_failed_rm :
  let started := initialize 4242 500 (λ _, false) rmFailsOnUuid1 succeeds succeeds
                   crashedManager in
  lockFile (disk crashedManager) = lock_record (mkLock 999 100 [Fixtures.uuid1])
  ∧ entries (disk started)
    = [mkDirent Fixtures.uuid1 true; mkDirent "notes.txt" false]
  ∧ lockFile (disk started) = lock_record (mkLock 4242 500 []).
Proof. vm_compute. repeat split; reflexivity. Qed.

End OrphanRecoveryClaim.

(** ** Timers *)

Section TimerFacts.

Import Timers TimerInvariant.

Context {C : Type}.

Implicit Types (tbl : Table C) (tm : Timer C) (h : nat).

Lemma elem_of_insertByDeadline tm x (l : list (Timer C)) :
  x ∈ insertByDeadline tm l ↔ x = tm ∨ x ∈ l.
Proof.
  induction l as [|y l IH]; simpl.
  - rewrite list_elem_of_singleton. rewrite elem_of_nil. tauto.
  - destruct (deadline tm <? deadline y)%Z.
    + by rewrite elem_of_cons.
    + rewrite !elem_of_cons, IH. tauto.
Qed.

Lemma insertByDeadline_perm tm (l : list (Timer C)) : insertByDeadline tm l ≡ₚ tm :: l.
Proof.
  induction l as [|y l IH]; simpl; [done|].
  destruct (deadline tm <? deadline y)%Z; [done|].
  rewrite IH. apply Permutation_swap.
Qed.

Lemma sortByDeadline_perm (l : list (Timer C)) : sortByDeadline l ≡ₚ l.
Proof.
  induction l as [|x l IH]; simpl; [done|].
  by rewrite insertByDeadline_perm, IH.
Qed.

Lemma elem_of_due tm (time : Z) tbl :
  tm ∈ due time tbl ↔ tm ∈ armed tbl ∧ (deadline tm ≤ time)%Z.
Proof.
  unfold due. rewrite sortByDeadline_perm, list_elem_of_filter. tauto.
Qed.

Lemma due_handles_NoDup (time : Z) tbl :
  wfTable tbl → NoDup (handle <$> due time tbl).
Proof.
  intros [Hnd _]. unfold due. rewrite sortByDeadline_perm.
  induction (armed tbl) as [|x l IH]; simpl; [constructor|].
  apply NoDup_cons in Hnd as [Hx Hl]. rewrite filter_cons.
  destruct (decide (deadline x ≤ time)%Z); simpl; [|by apply IH].
  apply NoDup_cons. split; [|by apply IH].
  intros Hin. apply Hx. apply list_elem_of_fmap in Hin as (y & Hy & Hyin).
  apply list_elem_of_filter in Hyin as [_ Hyin].
  apply list_elem_of_fmap. eauto.
Qed.

Lemma timer_lookup_Some h tbl tm : lookup h tbl = Some tm → tm ∈ armed tbl ∧ handle tm = h.
Proof.
  unfold lookup. intros Hhead.
  assert (tm ∈ filter (λ tm0 : Timer C, handle tm0 = h) (armed tbl)) as Hin.
  { destruct (filter _ (armed tbl)) as [|y l]; simplify_eq/=. by left. }
  apply list_elem_of_filter in Hin. tauto.
Qed.

Lemma timer_lookup_None h tbl :
  lookup h tbl = None ↔ ∀ tm, tm ∈ armed tbl → handle tm ≠ h.
Proof.
  unfold lookup. rewrite head_None. split.
  - intros Hnil tm Hin Heq.
    assert (tm ∈ filter (λ tm0 : Timer C, handle tm0 = h) (armed tbl)) as Hf
      by by apply list_elem_of_filter.
    rewrite Hnil in Hf. by apply elem_of_nil in Hf.
  - intros Hall. destruct (filter _ (armed tbl)) as [|y l] eqn:Hf; [done|].
    assert (y ∈ filter (λ tm0 : Timer C, handle tm0 = h) (armed tbl)) as Hy
      by (rewrite Hf; by left).
    apply list_elem_of_filter in Hy as [Hh Hy]. by destruct (Hall y Hy).
Qed.

(** In a well-formed table a handle names one timer. *)
Lemma handle_inj tbl tm tm' :
  wfTable tbl → tm ∈ armed tbl → tm' ∈ armed tbl → handle tm = handle tm' → tm = tm'.
Proof.
  intros [Hnd _]. induction (armed tbl) as [|x l IH]; intros Hin Hin' Heq.
  - by apply elem_of_nil in Hin.
  - simpl in Hnd. apply NoDup_cons in Hnd as [Hx Hl].
    apply elem_of_cons in Hin as [->|Hin]; apply elem_of_cons in Hin' as [->|Hin'].
    + done.
    + destruct Hx. rewrite Heq. by apply list_elem_of_fmap_2.
    + destruct Hx. rewrite <- Heq. by apply list_elem_of_fmap_2.
    + by apply IH.
Qed.

Lemma timer_lookup_armed tbl tm :
  wfTable tbl → tm ∈ armed tbl → lookup (handle tm) tbl = Some tm.
Proof.
  intros Hwf Hin. destruct (lookup (handle tm) tbl) as [tm'|] eqn:Hl.
  - apply timer_lookup_Some in Hl as [Hin' Heq]. f_equal. by apply (handle_inj tbl).
  - by destruct (proj1 (timer_lookup_None _ _) Hl tm Hin).
Qed.

Lemma elem_of_clearTimeout h tbl tm :
  tm ∈ armed (clearTimeout h tbl) ↔ tm ∈ armed tbl ∧ handle tm ≠ h.
Proof. unfold clearTimeout. simpl. rewrite list_elem_of_filter. tauto. Qed.

Lemma timer_lookup_clearTimeout_eq h tbl : lookup h (clearTimeout h tbl) = None.
Proof. apply timer_lookup_None. intros tm Hin. by apply elem_of_clearTimeout in Hin as [_ ?]. Qed.

Lemma timer_lookup_clearTimeout_ne h h' tbl :
  h ≠ h' → lookup h' (clearTimeout h tbl) = lookup h' tbl.
Proof.
  intros Hne. unfold lookup, clearTimeout. simpl. f_equal.
  induction (armed tbl) as [|x l IH]; [done|].
  rewrite !filter_cons. destruct (decide (handle x ≠ h)) as [Hx|Hx].
  - rewrite filter_cons. destruct (decide (handle x = h')); by rewrite IH.
  - rewrite decide_False; [done|]. apply dec_stable in Hx. congruence.
Qed.

Lemma wfTable_empty : wfTable (@Timers.empty C).
Proof. split; [constructor|]. intros tm Hin. by apply elem_of_nil in Hin. Qed.

Lemma wfTable_clearTimeout h tbl : wfTable tbl → wfTable (clearTimeout h tbl).
Proof.
  intros [Hnd Hlt]. split.
  - unfold clearTimeout. simpl. clear Hlt.
    induction (armed tbl) as [|x l IH]; [constructor|].
    simpl in Hnd. apply NoDup_cons in Hnd as [Hx Hl]. rewrite filter_cons.
    destruct (decide (handle x ≠ h)); simpl; [|by apply IH].
    apply NoDup_cons. split; [|by apply IH].
    intros Hin. apply Hx. apply list_elem_of_fmap in Hin as (y & Hy & Hyin).
    apply list_elem_of_filter in Hyin as [_ Hyin]. apply list_elem_of_fmap. eauto.
  - intros tm Hin. apply elem_of_clearTimeout in Hin as [Hin _]. by apply Hlt.
Qed.

Lemma elem_of_setTimeout cb (now delay : Z) tbl tm :
  tm ∈ armed (setTimeout cb now delay tbl).2
  ↔ tm ∈ armed tbl ∨ tm = mkTimer (nextHandle tbl) (now + delay) cb.
Proof. unfold setTimeout. simpl. by rewrite elem_of_app, list_elem_of_singleton. Qed.

Lemma wfTable_setTimeout cb (now delay : Z) tbl :
  wfTable tbl → wfTable (setTimeout cb now delay tbl).2.
Proof.
  intros [Hnd Hlt]. split.
  - unfold setTimeout. simpl. rewrite fmap_app. simpl.
    apply NoDup_app. split; [done|]. split; [|apply NoDup_singleton].
    intros x Hx Hnew. apply list_elem_of_singleton in Hnew as ->.
    apply list_elem_of_fmap in Hx as (y & Hy & Hyin). specialize (Hlt y Hyin). lia.
  - intros tm Hin. apply elem_of_setTimeout in Hin as [Hin| ->]; simpl.
    + specialize (Hlt tm Hin). lia.
    + lia.
Qed.

Lemma timer_lookup_setTimeout_new cb (now delay : Z) tbl :
  wfTable tbl →
  lookup (nextHandle tbl) (setTimeout cb now delay tbl).2
  = Some (mkTimer (nextHandle tbl) (now + delay) cb).
Proof.
  intros Hwf.
  apply (timer_lookup_armed (setTimeout cb now delay tbl).2
           (mkTimer (nextHandle tbl) (now + delay) cb)).
  - by apply wfTable_setTimeout.
  - apply elem_of_setTimeout. by right.
Qed.

(** Arming a timer keeps the armed ones: their handles are below the new
    one. *)
Lemma timer_lookup_setTimeout_old cb (now delay : Z) tbl h tm :
  wfTable tbl → lookup h tbl = Some tm →
  lookup h (setTimeout cb now delay tbl).2 = Some tm.
Proof.
  intros Hwf Hl. destruct (timer_lookup_Some _ _ _ Hl) as [Hin <-].
  apply timer_lookup_armed; [by apply wfTable_setTimeout|].
  apply elem_of_setTimeout. by left.
Qed.

Lemma timer_lookup_below h tbl tm :
  wfTable tbl → lookup h tbl = Some tm → (h < nextHandle tbl)%nat.
Proof.
  intros [_ Hlt] Hl. destruct (timer_lookup_Some _ _ _ Hl) as [Hin <-]. by apply Hlt.
Qed.

End TimerFacts.

(** ** Strings *)

Lemma append_empty_r (s : string) : s +:+ "" = s.
Proof.
  induction s as [|c s IH]; [done|].
  change (String c s +:+ "") with (String c (s +:+ "")). by rewrite IH.
Qed.

Lemma append_assoc (s1 s2 s3 : string) : (s1 +:+ s2) +:+ s3 = s1 +:+ (s2 +:+ s3).
Proof.
  induction s1 as [|c s1 IH]; [done|].
  change (String c ((s1 +:+ s2) +:+ s3) = String c (s1 +:+ (s2 +:+ s3))).
  by rewrite IH.
Qed.

(** ** The timers of a session *)

Section SessionTimers.

Import Session SessionInvariant TimerInvariant.

Lemma bufferTextChunk_arms now fragment (s : Session.t) :
  textFlushTimeout s = None →
  bufferTextChunk now fragment s
  = set_textFlushTimeout (Some (Timers.nextHandle (timers s)))
      (set_timers (Timers.setTimeout FlushText now textFlushIntervalMs (timers s)).2
         (set_textBuffer (textBuffer s +:+ fragment) s)).
Proof. intros Hnone. unfold bufferTextChunk. simpl. by rewrite Hnone. Qed.

Lemma bufferTextChunk_appends now fragment (s : Session.t) h :
  textFlushTimeout s = Some h →
  bufferTextChunk now fragment s = set_textBuffer (textBuffer s +:+ fragment) s.
Proof. intros Hsome. unfold bufferTextChunk. simpl. by rewrite Hsome. Qed.

Lemma new_wf sessionId workingDir mode now : wf (Session.new sessionId workingDir mode now).
Proof.
  split; [apply wfTable_empty|]. split; [|split].
  - intros tm Hin. by apply elem_of_nil in Hin.
  - intros h Hh. discriminate Hh.
  - intros toolCallId h Hh. simpl in Hh. by rewrite lookup_empty in Hh.
Qed.

(** A timer that is not the flush timer evicts a tool call: it emits
    nothing and leaves the text buffer and its timer alone. *)
Lemma fireTimer_evict (h : nat) (s : Session.t) tm toolCallId :
  Timers.lookup h (timers s) = Some tm →
  Timers.callback tm = EvictToolCall toolCallId →
  fireTimer h s
  = (set_toolCallTimers (delete toolCallId (toolCallTimers s))
       (set_toolCallNames (delete toolCallId (toolCallNames s))
          (set_timers (Timers.clearTimeout h (timers s)) s)), []).
Proof. intros Hl Hcb. unfold fireTimer. rewrite Hl, Hcb. reflexivity. Qed.

(** The flush timer firing: the buffer goes out as one chunk. *)
Lemma fireTimer_flush (h : nat) (s : Session.t) tm :
  Timers.lookup h (timers s) = Some tm →
  Timers.callback tm = FlushText →
  fireTimer h s
  = (set_textBuffer ""
       (set_textFlushTimeout None (set_timers (Timers.clearTimeout h (timers s)) s)),
     chunk (textBuffer s)).
Proof.
  intros Hl Hcb. unfold fireTimer. rewrite Hl, Hcb. simpl.
  unfold flushTextBuffer, chunk. simpl.
  destruct (String.eqb (textBuffer s) "") eqn:Hb; [|done].
  apply String.eqb_eq in Hb. f_equal. destruct s; simpl in *. by subst.
Qed.

Lemma fireTimer_unarmed (h : nat) (s : Session.t) :
  Timers.lookup h (timers s) = None → fireTimer h s = (s, []).
Proof. intros Hl. unfold fireTimer. by rewrite Hl. Qed.

(** Two looked-up timers with different callbacks have different
    handles. *)
Lemma lookup_callback_ne (s : Session.t) h h' tm tm' :
  Timers.lookup h (timers s) = Some tm → Timers.lookup h' (timers s) = Some tm' →
  Timers.callback tm ≠ Timers.callback tm' → h' ≠ h.
Proof. intros Hl Hl' Hne ->. congruence. Qed.

(** Firing a timer keeps the invariant and never arms a timer. *)
Lemma fireTimer_wf (h : nat) (s : Session.t) :
  wf s →
  wf (fireTimer h s).1
  ∧ ∀ tm, tm ∈ Timers.armed (timers (fireTimer h s).1) → tm ∈ Timers.armed (timers s).
Proof.
  intros (Hwf & Hflush & Harmed & Htools).
  destruct (Timers.lookup h (timers s)) as [tm|] eqn:Hl.
  - destruct (timer_lookup_Some _ _ _ Hl) as [Hin Hh].
    destruct (Timers.callback tm) as [|toolCallId] eqn:Hcb.
    + rewrite (fireTimer_flush h s tm Hl Hcb). session_simpl. split.
      * split; [by apply wfTable_clearTimeout|]. split; [|split]; session_simpl.
        -- intros tm' Hin' Hcb'. apply elem_of_clearTimeout in Hin' as [Hin' Hne].
           pose proof (Hflush tm Hin Hcb) as H1. pose proof (Hflush tm' Hin' Hcb') as H2.
           congruence.
        -- intros h' Hh'. discriminate Hh'.
        -- intros k h' Hk. destruct (Htools k h' Hk) as (tm' & Hl' & Hcb').
           exists tm'. split; [|done]. rewrite timer_lookup_clearTimeout_ne; [done|].
           apply (lookup_callback_ne s h' h tm' tm Hl' Hl). congruence.
      * intros tm' Hin'. by apply elem_of_clearTimeout in Hin' as [? _].
    + rewrite (fireTimer_evict h s tm toolCallId Hl Hcb). session_simpl. split.
      * split; [by apply wfTable_clearTimeout|]. split; [|split]; session_simpl.
        -- intros tm' Hin' Hcb'. apply elem_of_clearTimeout in Hin' as [Hin' Hne].
           by apply Hflush.
        -- intros h' Hh'. destruct (Harmed h' Hh') as (tm' & Hl' & Hcb').
           exists tm'. split; [|done]. rewrite timer_lookup_clearTimeout_ne; [done|].
           apply (lookup_callback_ne s h' h tm' tm Hl' Hl). congruence.
        -- intros k h' Hk. apply lookup_delete_Some in Hk as [Hne Hk].
           destruct (Htools k h' Hk) as (tm' & Hl' & Hcb').
           exists tm'. split; [|done]. rewrite timer_lookup_clearTimeout_ne; [done|].
           apply (lookup_callback_ne s h' h tm' tm Hl' Hl). congruence.
      * intros tm' Hin'. by apply elem_of_clearTimeout in Hin' as [? _].
  - rewrite (fireTimer_unarmed h s Hl). done.
Qed.

(** Arming a timer keeps the armed ones: their handles are below the new
    one. *)
Lemma lookup_after_setTimeout (cb : TimerCallback) (now delay : Z)
    (tbl : Timers.Table TimerCallback) h tm :
  wfTable tbl → Timers.lookup h tbl = Some tm →
  Timers.lookup h (Timers.setTimeout cb now delay tbl).2 = Some tm.
Proof.
  intros Hwf Hl. destruct (timer_lookup_Some _ _ _ Hl) as [Hin <-].
  apply timer_lookup_armed; [by apply wfTable_setTimeout|].
  apply elem_of_setTimeout. by left.
Qed.

Lemma bufferTextChunk_wf now fragment (s : Session.t) :
  wf s → wf (bufferTextChunk now fragment s).
Proof.
  intros (Hwf & Hflush & Harmed & Htools).
  destruct (textFlushTimeout s) as [h|] eqn:Htimeout.
  - rewrite (bufferTextChunk_appends now fragment s h Htimeout).
    split; [done|]. split; [|split]; session_simpl; rewrite ?Htimeout; done.
  - rewrite (bufferTextChunk_arms now fragment s Htimeout).
    split; [|split; [|split]]; session_simpl.
    + by apply wfTable_setTimeout.
    + intros tm Hin Hcb. apply elem_of_setTimeout in Hin as [Hin| ->]; [|done].
      specialize (Hflush tm Hin Hcb). congruence.
    + intros h [= <-]. eexists. split; [by apply timer_lookup_setTimeout_new|done].
    + intros k h Hk. destruct (Htools k h Hk) as (tm & Hl & Hcb).
      exists tm. split; [|done]. by apply lookup_after_setTimeout.
Qed.

Lemma flushTextBuffer_wf (s : Session.t) :
  wf s →
  wf (flushTextBuffer s).1
  ∧ textFlushTimeout (flushTextBuffer s).1 = None
  ∧ textBuffer (flushTextBuffer s).1 = ""
  ∧ (flushTextBuffer s).2 = chunk (textBuffer s)
  ∧ toolCallNames (flushTextBuffer s).1 = toolCallNames s
  ∧ toolCallTimers (flushTextBuffer s).1 = toolCallTimers s
  ∧ (∀ h tm, Timers.lookup h (timers s) = Some tm →
             Timers.callback tm ≠ FlushText →
             Timers.lookup h (timers (flushTextBuffer s).1) = Some tm)
  ∧ (∀ tm, tm ∈ Timers.armed (timers (flushTextBuffer s).1) →
           tm ∈ Timers.armed (timers s)).
Proof.
  intros Hwfs. pose proof Hwfs as (Hwf & Hflush & Harmed & Htools).
  assert (∃ s1, s1 = match textFlushTimeout s with
                     | Some h =>
                         set_textFlushTimeout None
                           (set_timers (Timers.clearTimeout h (timers s)) s)
                     | None => s
                     end
                ∧ flushTextBuffer s
                  = (if String.eqb (textBuffer s) "" then s1 else set_textBuffer "" s1,
                     chunk (textBuffer s))) as (s1 & Hs1 & ->).
  { eexists. split; [reflexivity|]. unfold flushTextBuffer, chunk.
    destruct (textFlushTimeout s); session_simpl;
      by destruct (String.eqb (textBuffer s) ""). }
  assert (wf s1 ∧ textFlushTimeout s1 = None ∧ textBuffer s1 = textBuffer s
          ∧ toolCallNames s1 = toolCallNames s ∧ toolCallTimers s1 = toolCallTimers s
          ∧ (∀ h tm, Timers.lookup h (timers s) = Some tm →
                     Timers.callback tm ≠ FlushText →
                     Timers.lookup h (timers s1) = Some tm)
          ∧ (∀ tm, tm ∈ Timers.armed (timers s1) → tm ∈ Timers.armed (timers s)))
    as (Hwf1 & Hnone1 & Hbuf1 & Hnames1 & Htimers1 & Hkeep1 & Hsub1).
  { destruct (textFlushTimeout s) as [h|] eqn:Htimeout; subst s1.
    - destruct (Harmed h eq_refl) as (tmf & Hlf & Hcbf).
      assert (∀ h' tm, Timers.lookup h' (timers s) = Some tm →
                       Timers.callback tm ≠ FlushText →
                       Timers.lookup h' (Timers.clearTimeout h (timers s)) = Some tm)
        as Hkeep.
      { intros h' tm Hl Hcb. rewrite timer_lookup_clearTimeout_ne; [done|].
        apply (lookup_callback_ne s h' h tm tmf Hl Hlf). congruence. }
      split; [|session_simpl; repeat split; try done].
      + split; [by apply wfTable_clearTimeout|]. split; [|split]; session_simpl.
        * intros tm Hin Hcb. apply elem_of_clearTimeout in Hin as [Hin Hne].
          specialize (Hflush tm Hin Hcb). congruence.
        * intros h' Hh'. discriminate Hh'.
        * intros k h' Hk. destruct (Htools k h' Hk) as (tm & Hl & Hcb).
          exists tm. split; [|done]. apply Hkeep; [done|]. congruence.
      + intros tm Hin. by apply elem_of_clearTimeout in Hin as [? _].
    - split; [exact Hwfs|]. by repeat split. }
  destruct (String.eqb (textBuffer s) "") eqn:Hempty; session_simpl.
  - apply String.eqb_eq in Hempty. split; [exact Hwf1|].
    repeat split; try done. congruence.
  - split; [exact Hwf1|]. by repeat split.
Qed.

End SessionTimers.

(** ** Text aggregation *)

Section TextAggregation.

Import Session SessionInvariant WindowInvariant TimerInvariant.

Lemma fireTimer_keeps_windowOpen h flushDeadline buffered h' s :
  windowOpen h flushDeadline buffered s → h' ≠ h →
  windowOpen h flushDeadline buffered (fireTimer h' s).1 ∧ (fireTimer h' s).2 = [].
Proof.
  intros (Hwf & Htimeout & Hlookup & Hbuf & Hloop & Hcancel) Hne.
  pose proof (fireTimer_wf h' s Hwf) as [Hwf' _].
  destruct (Timers.lookup h' (timers s)) as [tm|] eqn:Hl.
  - destruct (timer_lookup_Some _ _ _ Hl) as [Hin Hh].
    destruct (Timers.callback tm) as [|toolCallId] eqn:Hcb.
    + destruct Hwf as (_ & Hflush & _). specialize (Hflush tm Hin Hcb). congruence.
    + rewrite (fireTimer_evict h' s tm toolCallId Hl Hcb) in *.
      split; [|done]. split; [exact Hwf'|]. session_simpl.
      repeat split; try done. by rewrite timer_lookup_clearTimeout_ne.
  - rewrite (fireTimer_unarmed h' s Hl). by split.
Qed.

Lemma fireTimer_keeps_windowStart h' s :
  windowStart s → windowStart (fireTimer h' s).1 ∧ (fireTimer h' s).2 = [].
Proof.
  intros (Hwf & Hbuf & Htimeout & Hloop & Hcancel).
  pose proof (fireTimer_wf h' s Hwf) as [Hwf' _].
  destruct (Timers.lookup h' (timers s)) as [tm|] eqn:Hl.
  - destruct (timer_lookup_Some _ _ _ Hl) as [Hin Hh].
    destruct (Timers.callback tm) as [|toolCallId] eqn:Hcb.
    + destruct Hwf as (_ & Hflush & _). specialize (Hflush tm Hin Hcb). congruence.
    + rewrite (fireTimer_evict h' s tm toolCallId Hl Hcb) in *.
      split; [|done]. split; [exact Hwf'|]. session_simpl. by repeat split.
  - rewrite (fireTimer_unarmed h' s Hl). by split.
Qed.

(** Time passing short of the flush deadline emits nothing. *)
Lemma advance_within_window h flushDeadline buffered (time : Z) s :
  windowOpen h flushDeadline buffered s → (time < flushDeadline)%Z →
  windowOpen h flushDeadline buffered (advance time s).1 ∧ (advance time s).2 = [].
Proof.
  intros Hopen Hlt.
  assert (∀ h', h' ∈ Timers.handle <$> Timers.due time (timers s) → h' ≠ h) as Hother.
  { intros h' Hin Heq. subst h'. apply list_elem_of_fmap in Hin as (tm & Hh & Hdue).
    apply elem_of_due in Hdue as [Harmed Hdeadline].
    destruct Hopen as ((Hwf & _) & _ & Hlookup & _).
    apply timer_lookup_Some in Hlookup as [Hflush _].
    assert (tm = Timers.mkTimer h flushDeadline FlushText) as Htm.
    { apply (handle_inj (timers s)); [done..|]. simpl. congruence. }
    rewrite Htm in Hdeadline. simpl in Hdeadline. lia. }
  unfold advance, fireAll. split.
  - apply (runAll_invariant fireTimer (windowOpen h flushDeadline buffered)); [|done].
    intros h' s' Hin Hs'. by apply fireTimer_keeps_windowOpen, Hother.
  - apply (runAll_silent fireTimer (windowOpen h flushDeadline buffered)); [|done].
    intros h' s' Hin Hs'. by apply fireTimer_keeps_windowOpen, Hother.
Qed.

(** The first fragment of a window arms the flush timer. *)
Lemma first_fragment_opens_window now isStart fragment s :
  windowStart s →
  windowOpen (Timers.nextHandle (timers s)) (now + textFlushIntervalMs) fragment
    (step (itemOp (Fragment now isStart fragment)) s).1
  ∧ (step (itemOp (Fragment now isStart fragment)) s).2 = [].
Proof.
  intros (Hwf & Hbuf & Htimeout & Hloop & Hcancel).
  assert (step (itemOp (Fragment now isStart fragment)) s
          = (bufferTextChunk now fragment (set_lastActivityAt now s), [])) as ->.
  { simpl. unfold processMessage. rewrite Hloop, Hcancel. by destruct isStart. }
  pose proof (bufferTextChunk_wf now fragment (set_lastActivityAt now s) Hwf) as Hwf'.
  rewrite bufferTextChunk_arms in * by done. session_simpl. rewrite Hbuf.
  split; [|done]. split; [exact Hwf'|]. session_simpl.
  repeat split; try done.
  apply (timer_lookup_setTimeout_new FlushText now textFlushIntervalMs), Hwf.
Qed.

(** A further fragment is appended to the buffer. *)
Lemma fragment_within_window h flushDeadline buffered now isStart fragment s :
  windowOpen h flushDeadline buffered s →
  windowOpen h flushDeadline (buffered +:+ fragment)
    (step (itemOp (Fragment now isStart fragment)) s).1
  ∧ (step (itemOp (Fragment now isStart fragment)) s).2 = [].
Proof.
  intros (Hwf & Htimeout & Hlookup & Hbuf & Hloop & Hcancel).
  assert (step (itemOp (Fragment now isStart fragment)) s
          = (bufferTextChunk now fragment (set_lastActivityAt now s), [])) as ->.
  { simpl. unfold processMessage. rewrite Hloop, Hcancel. by destruct isStart. }
  rewrite (bufferTextChunk_appends now fragment _ h) by done.
  split; [|done]. split; [exact Hwf|]. session_simpl.
  repeat split; try done. by rewrite Hbuf.
Qed.

(** What follows the first fragment inside the window only fills the
    buffer. *)
Lemma items_within_window h flushDeadline (rest : list WindowItem) buffered s :
  windowOpen h flushDeadline buffered s →
  Forall (withinWindow flushDeadline) rest →
  windowOpen h flushDeadline (buffered +:+ concatenation (fragmentsOf rest))
    (run (itemOp <$> rest) s).1
  ∧ (run (itemOp <$> rest) s).2 = [].
Proof.
  unfold run. revert buffered s.
  induction rest as [|item rest IH]; intros buffered s Hopen Hwithin.
  - simpl. by rewrite append_empty_r.
  - apply Forall_cons in Hwithin as [Hitem Hrest].
    rewrite fmap_cons, runAll_cons. simpl.
    destruct item as [now isStart fragment | time].
    + destruct (fragment_within_window h flushDeadline buffered now isStart fragment s
                  Hopen) as [Hopen' ->].
      destruct (IH _ _ Hopen' Hrest) as [Hfinal ->].
      split; [|done]. simpl. by rewrite <- append_assoc.
    + destruct (advance_within_window h flushDeadline buffered time s Hopen Hitem)
        as [Hopen' Hsilent].
      simpl. rewrite Hsilent.
      destruct (IH _ _ Hopen' Hrest) as [Hfinal ->]. done.
Qed.

(** Once the flush deadline has passed the buffer has gone out as one
    chunk, and the session is at the start of a window again. *)
Lemma advance_closes_window h flushDeadline buffered (time : Z) s :
  windowOpen h flushDeadline buffered s → (flushDeadline ≤ time)%Z →
  windowStart (advance time s).1 ∧ (advance time s).2 = chunk buffered.
Proof.
  intros Hopen Hle.
  pose proof Hopen as ((Hwf & _) & Htimeout & Hlookup & Hbuf & Hloop & Hcancel).
  pose proof (due_handles_NoDup time (timers s) Hwf) as Hnodup.
  assert (h ∈ Timers.handle <$> Timers.due time (timers s)) as Hdue.
  { apply timer_lookup_Some in Hlookup as [Harmed _].
    apply list_elem_of_fmap. exists (Timers.mkTimer h flushDeadline FlushText).
    split; [done|]. by apply elem_of_due. }
  apply list_elem_of_split in Hdue as (before & after & Hsplit).
  unfold advance, fireAll. rewrite Hsplit in *.
  apply NoDup_app in Hnodup as (_ & Hbefore & Hafter).
  apply NoDup_cons in Hafter as [Hafter _].
  assert (windowOpen h flushDeadline buffered (runAll fireTimer before s).1
          ∧ (runAll fireTimer before s).2 = []) as [Hopen1 Hsilent1].
  { assert (∀ h', h' ∈ before → h' ≠ h) as Hother.
    { intros h' Hin ->. apply (Hbefore h Hin). by left. }
    split.
    - apply (runAll_invariant fireTimer (windowOpen h flushDeadline buffered)); [|done].
      intros h' s' Hin Hs'. by apply fireTimer_keeps_windowOpen, Hother.
    - apply (runAll_silent fireTimer (windowOpen h flushDeadline buffered)); [|done].
      intros h' s' Hin Hs'. by apply fireTimer_keeps_windowOpen, Hother. }
  rewrite runAll_app, runAll_cons. simpl. rewrite Hsilent1. simpl.
  set (s1 := (runAll fireTimer before s).1) in *.
  destruct Hopen1 as (Hwf1 & Htimeout1 & Hlookup1 & Hbuf1 & Hloop1 & Hcancel1).
  rewrite (fireTimer_flush h s1 _ Hlookup1 eq_refl). simpl. rewrite Hbuf1.
  set (s2 := set_textBuffer "" (set_textFlushTimeout None
                (set_timers (Timers.clearTimeout h (timers s1)) s1))).
  assert (windowStart s2) as Hstart.
  { pose proof (fireTimer_wf h s1 Hwf1) as [Hwf2 _].
    rewrite (fireTimer_flush h s1 _ Hlookup1 eq_refl) in Hwf2.
    split; [exact Hwf2|]. by repeat split. }
  split.
  - apply (runAll_invariant fireTimer windowStart); [|done].
    intros h' s' _ Hs'. by apply fireTimer_keeps_windowStart.
  - rewrite (runAll_silent fireTimer windowStart after s2); [by rewrite app_nil_r| |done].
    intros h' s' _ Hs'. by apply fireTimer_keeps_windowStart.
Qed.

End TextAggregation.

Section TextAggregationClaim.

Import Session SessionInvariant WindowInvariant.

(** One whole window, from any session at the start of a window. *)
Lemma window_run (s : Session.t) (start : Z) (isStart : bool) (first : string)
    (rest : list WindowItem) (flushed : Z) :
  windowStart s →
  Forall (withinWindow (start + textFlushIntervalMs)) rest →
  (start + textFlushIntervalMs ≤ flushed)%Z →
  windowStart (run (windowOps start isStart first rest flushed) s).1
  ∧ (run (windowOps start isStart first rest flushed) s).2
    = chunk (concatenation (first :: fragmentsOf rest)).
Proof.
  intros Hstart Hwithin Hflushed. unfold run, windowOps.
  rewrite runAll_cons, runAll_app, runAll_cons, runAll_nil.
  destruct (first_fragment_opens_window start isStart first s Hstart) as [Hopen ->].
  set (s1 := (step (itemOp (Fragment start isStart first)) s).1) in *.
  destruct (items_within_window _ _ rest first s1 Hopen Hwithin) as [Hopen' Hsilent].
  unfold run in Hopen', Hsilent. rewrite Hsilent.
  set (s2 := (runAll step (itemOp <$> rest) s1).1) in *.
  destruct (advance_closes_window _ _ _ flushed s2 Hopen' Hflushed) as [Hstart' Hchunk].
  cbn [fst snd step]. rewrite Hchunk. split; [done|].
  by rewrite app_nil_r.
Qed.

(** C7 (amended).  The fragments that arrive within one aggregation
    window (a first fragment, then fragments and idle time short of the
    flush deadline 50 ms after the first) produce no event until the flush
    timer fires, and then exactly one [message_chunk] whose content is
    their concatenation in order, provided that concatenation is not
    empty; when every fragment is the empty string nothing is emitted.
    After the flush the session is at the start of a window again, and the
    fragments of a following window go out as a [message_chunk] of their
    own. *)
Theorem text_window_emits_one_chunk (s : Session.t) (start : Z) (isStart : bool)
    (first : string) (rest : list WindowItem) (flushed : Z) :
  windowStart s →
  Forall (withinWindow (start + textFlushIntervalMs)) rest →
  (start + textFlushIntervalMs ≤ flushed)%Z →
  let content := concatenation (first :: fragmentsOf rest) in
  let window := windowOps start isStart first rest flushed in
  (content ≠ "" → (run window s).2 = [message_chunk content])
  ∧ (content = "" → (run window s).2 = [])
  ∧ windowStart (run window s).1
  ∧ ∀ start' isStart' first' rest' flushed',
      Forall (withinWindow (start' + textFlushIntervalMs)) rest' →
      (start' + textFlushIntervalMs ≤ flushed')%Z →
      (run (window ++ windowOps start' isStart' first' rest' flushed') s).2
      = chunk content ++ chunk (concatenation (first' :: fragmentsOf rest')).
Proof.
  intros Hstart Hwithin Hflushed content window.
  destruct (window_run s start isStart first rest flushed Hstart Hwithin Hflushed)
    as [Hstart' Hevents].
  fold window in Hstart', Hevents. fold content in Hevents.
  split; [|split; [|split]].
  - intros Hne. rewrite Hevents. unfold chunk.
    by rewrite (proj2 (String.eqb_neq content "") Hne).
  - intros Hempty. rewrite Hevents, Hempty. done.
  - exact Hstart'.
  - intros start' isStart' first' rest' flushed' Hwithin' Hflushed'.
    unfold run in *. rewrite runAll_app. cbn [snd]. rewrite Hevents. f_equal.
    by apply window_run.
Qed.

Lemma text_window_emits_one_chunk_witness :
  (run (windowOps 10 true "" [Fragment 20 false "Hel"; Wait 30; Fragment 40 false "lo"] 60)
     Fixtures.freshSession).2 = [message_chunk "Hello"]
  ∧ (run (windowOps 10 true "" [Fragment 20 false "Hel"; Wait 30; Fragment 40 false "lo"] 60
            ++ windowOps 70 false ", world" [] 130)
       Fixtures.freshSession).2 = [message_chunk "Hello"; message_chunk ", world"].
Proof.
  assert (windowStart Fixtures.freshSession) as Hstart.
  { split; [apply new_wf|]. repeat split; reflexivity. }
  assert (Forall (withinWindow (10 + textFlushIntervalMs))
            [Fragment 20 false "Hel"; Wait 30; Fragment 40 false "lo"]) as Hwithin.
  { repeat constructor. }
  destruct (text_window_emits_one_chunk Fixtures.freshSession 10 true ""
              [Fragment 20 false "Hel"; Wait 30; Fragment 40 false "lo"] 60
              Hstart Hwithin ltac:(unfold textFlushIntervalMs; lia))
    as (Hone & _ & _ & Hnext).
  split.
  - apply Hone. discriminate.
  - apply (Hnext 70%Z false ", world" [] 130%Z); [constructor|].
    unfold textFlushIntervalMs. lia.
Defined.

(** C7 as stated does not hold: a window whose only fragment is the empty
    text of a [content_block_start] ends without any [message_chunk]
    event. *)
Lemma empty_fragment_emits_no_chunk :
  (run (windowOps 10 true "" [] 60) Fixtures.freshSession).2 = []
  ∧ (run (windowOps 10 true "" [Fragment 20 false ""] 60) Fixtures.freshSession).2 = [].
Proof. vm_compute. split; reflexivity. Qed.

End TextAggregationClaim.

(** ** Tool call tracking *)

Section ToolTracking.

Import Session SessionInvariant TimerInvariant.

Lemma trackToolCall_eq now toolCallId toolName (s : Session.t) :
  trackToolCall now toolCallId toolName s
  = set_toolCallTimers (<[toolCallId := Timers.nextHandle (timers s)]> (toolCallTimers s))
      (set_timers
         (Timers.setTimeout (EvictToolCall toolCallId) now TOOL_CALL_TTL_MS (timers s)).2
         (set_toolCallNames (<[toolCallId := toolName]> (toolCallNames s)) s)).
Proof. reflexivity. Qed.

Lemma getToolName_eq toolCallId (s : Session.t) :
  getToolName toolCallId s
  = (default "unknown" (toolCallNames s !! toolCallId),
     match toolCallTimers s !! toolCallId with
     | Some h =>
         set_toolCallTimers (delete toolCallId (toolCallTimers s))
           (set_timers (Timers.clearTimeout h (timers s))
              (set_toolCallNames (delete toolCallId (toolCallNames s)) s))
     | None => set_toolCallNames (delete toolCallId (toolCallNames s)) s
     end).
Proof.
  unfold getToolName. session_simpl. by destruct (toolCallTimers s !! toolCallId).
Qed.

Lemma trackToolCall_wf now toolCallId toolName (s : Session.t) :
  wf s → wf (trackToolCall now toolCallId toolName s).
Proof.
  intros (Hwf & Hflush & Harmed & Htools). rewrite trackToolCall_eq.
  split; [|split; [|split]]; session_simpl.
  - by apply wfTable_setTimeout.
  - intros tm Hin Hcb. apply elem_of_setTimeout in Hin as [Hin| ->]; [|done].
    by apply Hflush.
  - intros h Hh. destruct (Harmed h Hh) as (tm & Hl & Hcb).
    exists tm. split; [|done]. by apply lookup_after_setTimeout.
  - intros k h Hk. apply lookup_insert_Some in Hk as [[<- <-]|[Hne Hk]].
    + eexists. split; [by apply timer_lookup_setTimeout_new|done].
    + destruct (Htools k h Hk) as (tm & Hl & Hcb).
      exists tm. split; [|done]. by apply lookup_after_setTimeout.
Qed.

Lemma getToolName_wf toolCallId (s : Session.t) :
  wf s → wf (getToolName toolCallId s).2.
Proof.
  intros Hwfs. pose proof Hwfs as (Hwf & Hflush & Harmed & Htools).
  rewrite getToolName_eq. session_simpl.
  destruct (toolCallTimers s !! toolCallId) as [h|] eqn:Hh.
  - destruct (Htools toolCallId h Hh) as (tmh & Hlh & Hcbh).
    split; [|split; [|split]]; session_simpl.
    + by apply wfTable_clearTimeout.
    + intros tm Hin Hcb. apply elem_of_clearTimeout in Hin as [Hin _]. by apply Hflush.
    + intros h' Hh'. destruct (Harmed h' Hh') as (tm & Hl & Hcb).
      exists tm. split; [|done]. rewrite timer_lookup_clearTimeout_ne; [done|].
      apply (lookup_callback_ne s h' h tm tmh Hl Hlh). congruence.
    + intros k h' Hk. apply lookup_delete_Some in Hk as [Hne Hk].
      destruct (Htools k h' Hk) as (tm & Hl & Hcb).
      exists tm. split; [|done]. rewrite timer_lookup_clearTimeout_ne; [done|].
      apply (lookup_callback_ne s h' h tm tmh Hl Hlh). congruence.
  - split; [done|]. split; [|split]; session_simpl; done.
Qed.

Lemma handleAssistantBlock_wf now block (s : Session.t) :
  wf s → wf (handleAssistantBlock now block s).1.
Proof.
  intros Hwf. destruct block as [blockId blockName blockInput | tool_use_id content e |].
  - simpl. pose proof (trackToolCall_wf now blockId blockName s Hwf).
    by destruct (if String.eqb blockName "TodoWrite" then todos blockInput else None).
  - unfold handleAssistantBlock. pose proof (getToolName_wf tool_use_id s Hwf).
    by destruct (getToolName tool_use_id s).
  - done.
Qed.

Lemma clearToolCallTimers_wf (s : Session.t) :
  wf s →
  wfTable (timers (clearToolCallTimers s))
  ∧ ∀ tm, tm ∈ Timers.armed (timers (clearToolCallTimers s)) →
          tm ∈ Timers.armed (timers s).
Proof.
  intros (Hwf & _). unfold clearToolCallTimers. session_simpl.
  apply (map_fold_weak_ind
           (λ tbl (_ : gmap string nat),
              wfTable tbl
              ∧ ∀ tm, tm ∈ Timers.armed tbl → tm ∈ Timers.armed (timers s))).
  - done.
  - intros k h m tbl _ [Hwf' Hsub]. split; [by apply wfTable_clearTimeout|].
    intros tm Hin. apply elem_of_clearTimeout in Hin as [Hin _]. by apply Hsub.
Qed.

Lemma terminateStart_wf (s : Session.t) : wf s → wf (terminateStart s).1.
Proof.
  intros Hwf. unfold terminateStart.
  pose proof (flushTextBuffer_wf (set_status terminated (set_cancelled true s)) Hwf)
    as (Hwf3 & Hnone3 & _).
  destruct (flushTextBuffer (set_status terminated (set_cancelled true s))) as [s3 evs].
  session_simpl.
  destruct (clearToolCallTimers_wf s3 Hwf3) as [Hwf4 Hsub4].
  destruct Hwf3 as (_ & Hflush3 & _).
  split; [|split; [|split]]; session_simpl.
  - exact Hwf4.
  - intros tm Hin Hcb. apply Hsub4 in Hin.
    specialize (Hflush3 tm Hin Hcb). congruence.
  - intros h Hh. unfold clearToolCallTimers in Hh. session_simpl. congruence.
  - intros k h Hk. by rewrite lookup_empty in Hk.
Qed.

Lemma awaitMessageLoop_wf (loopEnd : LoopEnd) (s : Session.t) :
  wf s → wf (awaitMessageLoop loopEnd s).1.
Proof.
  intros Hwf.
  by destruct (awaitMessageLoop_cases loopEnd s)
    as [[_ ->]|[(_ & _ & ->)|(message & _ & _ & ->)]].
Qed.

Lemma terminate_wf (loopEnd : LoopEnd) (s : Session.t) :
  wf s → wf (terminate loopEnd s).1.
Proof.
  intros Hwf. unfold terminate. pose proof (terminateStart_wf s Hwf) as Hwf1.
  destruct (terminateStart s) as [s1 evs].
  pose proof (awaitMessageLoop_wf loopEnd s1 Hwf1) as Hwf2.
  by destruct (awaitMessageLoop loopEnd s1) as [s2 evs'].
Qed.

Lemma advance_wf (time : Z) (s : Session.t) : wf s → wf (advance time s).1.
Proof.
  intros Hwf. unfold advance, fireAll.
  apply (runAll_invariant fireTimer wf); [|done].
  intros h s' _ Hs'. by apply fireTimer_wf.
Qed.

(** Every operation keeps the invariant, so it holds of every state a
    session can reach. *)
Lemma step_wf (op : Op) (s : Session.t) : wf s → wf (step op s).1.
Proof.
  intros Hwf.
  destruct op as [now prompt | now command args | interrupt | sdk mode | loopEnd |
                  now message | message | time]; simpl.
  - exact Hwf.
  - unfold sendSlashCommand. by destruct (String.eqb command "plan").
  - by destruct interrupt.
  - unfold setPermissionMode. session_simpl.
    by destruct (inPlanMode s && negb (isPlan mode)).
  - by apply terminate_wf.
  - unfold processMessage. destruct (loopRunning s); [|done].
    destruct (cancelled s); [done|]. session_simpl.
    destruct message as [[block|block|] | content | success | |]; try done.
    + unfold handleStreamBlock. destruct (text block) as [txt|].
      * by apply (bufferTextChunk_wf now txt (set_lastActivityAt now s)).
      * by destruct (thinkingText block).
    + unfold handleStreamBlock. destruct (text block) as [txt|].
      * by apply (bufferTextChunk_wf now txt (set_lastActivityAt now s)).
      * by destruct (thinkingText block).
    + pose proof (flushTextBuffer_wf (set_lastActivityAt now s) Hwf) as (Hwf2 & _).
      destruct (flushTextBuffer (set_lastActivityAt now s)) as [s2 evs].
      destruct content as [blocks|]; [|done].
      assert (wf (handleAssistantBlocks now blocks s2).1) as Hwf3.
      { unfold handleAssistantBlocks.
        apply (runAll_invariant (handleAssistantBlock now) wf); [|done].
        intros block s' _ Hs'. by apply handleAssistantBlock_wf. }
      by destruct (handleAssistantBlocks now blocks s2).
  - unfold messageLoopError. by destruct (loopRunning s).
  - by apply advance_wf.
Qed.

Lemma run_wf (ops : list Op) (s : Session.t) : wf s → wf (run ops s).1.
Proof.
  intros Hwf. unfold run. apply (runAll_invariant step wf); [|done].
  intros op s' _ Hs'. by apply step_wf.
Qed.

End ToolTracking.

Section ToolCorrelation.

Import Session SessionInvariant ToolInvariant TimerInvariant.

Lemma tracked_other_fields toolCallId toolName h deadline (s s' : Session.t) :
  tracked toolCallId toolName h deadline s →
  timers s' = timers s → textFlushTimeout s' = textFlushTimeout s →
  toolCallNames s' = toolCallNames s → toolCallTimers s' = toolCallTimers s →
  tracked toolCallId toolName h deadline s'.
Proof.
  unfold tracked, wf. intros H -> -> -> ->. exact H.
Qed.

Lemma bufferTextChunk_tracked toolCallId toolName h deadline now fragment s :
  tracked toolCallId toolName h deadline s →
  tracked toolCallId toolName h deadline (bufferTextChunk now fragment s).
Proof.
  intros (Hwf & Hname & Htimer & Hlookup & Honly).
  split; [by apply bufferTextChunk_wf|].
  destruct (textFlushTimeout s) as [hf|] eqn:Htimeout.
  - by rewrite (bufferTextChunk_appends now fragment s hf Htimeout).
  - rewrite (bufferTextChunk_arms now fragment s Htimeout). session_simpl.
    repeat split; try done.
    + apply lookup_after_setTimeout; [apply Hwf | done].
    + intros tm Hin Hcb. apply elem_of_setTimeout in Hin as [Hin| ->]; [|done].
      by apply Honly.
Qed.

Lemma flushTextBuffer_tracked toolCallId toolName h deadline s :
  tracked toolCallId toolName h deadline s →
  tracked toolCallId toolName h deadline (flushTextBuffer s).1.
Proof.
  intros (Hwf & Hname & Htimer & Hlookup & Honly).
  destruct (flushTextBuffer_wf s Hwf)
    as (Hwf' & _ & _ & _ & Hnames & Htimers & Hkeep & Hsub).
  split; [done|]. rewrite Hnames, Htimers. repeat split; try done.
  - by apply Hkeep.
  - intros tm Hin Hcb. apply Honly; [by apply Hsub | done].
Qed.

Lemma trackToolCall_tracked toolCallId toolName h deadline now other otherName s :
  tracked toolCallId toolName h deadline s → other ≠ toolCallId →
  tracked toolCallId toolName h deadline (trackToolCall now other otherName s).
Proof.
  intros (Hwf & Hname & Htimer & Hlookup & Honly) Hne.
  split; [by apply trackToolCall_wf|].
  rewrite trackToolCall_eq. session_simpl. rewrite !lookup_insert_ne by done.
  repeat split; try done.
  - apply lookup_after_setTimeout; [apply Hwf | done].
  - intros tm Hin Hcb. apply elem_of_setTimeout in Hin as [Hin| ->].
    + by apply Honly.
    + simpl in Hcb. congruence.
Qed.

Lemma getToolName_tracked toolCallId toolName h deadline other s :
  tracked toolCallId toolName h deadline s → other ≠ toolCallId →
  tracked toolCallId toolName h deadline (getToolName other s).2.
Proof.
  intros (Hwf & Hname & Htimer & Hlookup & Honly) Hne.
  split; [by apply getToolName_wf|].
  rewrite getToolName_eq. session_simpl.
  destruct (toolCallTimers s !! other) as [h'|] eqn:Hother; session_simpl;
    rewrite ?lookup_delete_ne by done; repeat split; try done.
  - destruct Hwf as (_ & _ & _ & Htools).
    destruct (Htools other h' Hother) as (tm' & Hl' & Hcb').
    rewrite timer_lookup_clearTimeout_ne; [done|].
    apply (lookup_callback_ne s h h' _ tm' Hlookup Hl'). simpl. congruence.
  - intros tm Hin Hcb. apply elem_of_clearTimeout in Hin as [Hin _]. by apply Honly.
Qed.

Lemma fireTimer_tracked toolCallId toolName h deadline h' s :
  tracked toolCallId toolName h deadline s → h' ≠ h →
  tracked toolCallId toolName h deadline (fireTimer h' s).1.
Proof.
  intros (Hwf & Hname & Htimer & Hlookup & Honly) Hne.
  destruct (fireTimer_wf h' s Hwf) as [Hwf' Hsub].
  split; [done|].
  destruct (Timers.lookup h' (timers s)) as [tm|] eqn:Hl.
  - destruct (timer_lookup_Some _ _ _ Hl) as [Hin Hh].
    destruct (Timers.callback tm) as [|k] eqn:Hcb.
    + rewrite (fireTimer_flush h' s tm Hl Hcb) in *. session_simpl.
      repeat split; try done.
      * by rewrite timer_lookup_clearTimeout_ne.
      * intros tm' Hin' Hcb'. apply Honly; [by apply Hsub | done].
    + assert (k ≠ toolCallId) as Hk.
      { intros ->. apply Hne. rewrite <- Hh. by apply Honly. }
      rewrite (fireTimer_evict h' s tm k Hl Hcb) in *. session_simpl.
      rewrite !lookup_delete_ne by done. repeat split; try done.
      * by rewrite timer_lookup_clearTimeout_ne.
      * intros tm' Hin' Hcb'. apply Honly; [by apply Hsub | done].
  - rewrite (fireTimer_unarmed h' s Hl). by repeat split.
Qed.

(** Short of the eviction deadline the timer of a tracked call is not due. *)
Lemma advance_tracked toolCallId toolName h deadline (time : Z) s :
  tracked toolCallId toolName h deadline s → (time < deadline)%Z →
  tracked toolCallId toolName h deadline (advance time s).1.
Proof.
  intros Htracked Hlt.
  assert (∀ h', h' ∈ Timers.handle <$> Timers.due time (timers s) → h' ≠ h) as Hother.
  { intros h' Hin Heq. subst h'. apply list_elem_of_fmap in Hin as (tm & Hh & Hdue).
    apply elem_of_due in Hdue as [Harmed Hdeadline].
    destruct Htracked as ((Hwf & _) & _ & _ & Hlookup & _).
    apply timer_lookup_Some in Hlookup as [Hmine _].
    assert (tm = Timers.mkTimer h deadline (EvictToolCall toolCallId)) as Htm.
    { apply (handle_inj (timers s)); [done..|]. simpl. congruence. }
    rewrite Htm in Hdeadline. simpl in Hdeadline. lia. }
  unfold advance, fireAll.
  apply (runAll_invariant fireTimer (tracked toolCallId toolName h deadline)); [|done].
  intros h' s' Hin Hs'. by apply fireTimer_tracked, Hother.
Qed.

Lemma handleAssistantBlock_tracked toolCallId toolName h deadline now block s :
  tracked toolCallId toolName h deadline s → ¬ mentions toolCallId block →
  tracked toolCallId toolName h deadline (handleAssistantBlock now block s).1.
Proof.
  intros Htracked Hno.
  destruct block as [blockId blockName blockInput | tool_use_id content e |];
    simpl in Hno.
  - simpl.
    pose proof (trackToolCall_tracked _ _ _ _ now blockId blockName s Htracked Hno).
    by destruct (if String.eqb blockName "TodoWrite" then todos blockInput else None).
  - unfold handleAssistantBlock.
    pose proof (getToolName_tracked _ _ _ _ tool_use_id s Htracked Hno).
    by destruct (getToolName tool_use_id s).
  - done.
Qed.

(** An unrelated operation leaves the tracking of the call as it is. *)
Lemma step_tracked toolCallId toolName h deadline op s :
  tracked toolCallId toolName h deadline s → unrelated toolCallId deadline op →
  tracked toolCallId toolName h deadline (step op s).1.
Proof.
  intros Htracked Hop.
  destruct op as [now prompt | now command args | interrupt | sdk mode | |
                  now message | message | time]; simpl in *.
  - by apply (tracked_other_fields _ _ _ _ s).
  - unfold sendSlashCommand.
    destruct (String.eqb command "plan"); by apply (tracked_other_fields _ _ _ _ s).
  - destruct interrupt; by apply (tracked_other_fields _ _ _ _ s).
  - unfold setPermissionMode. session_simpl.
    destruct (inPlanMode s && negb (isPlan mode));
      by apply (tracked_other_fields _ _ _ _ s).
  - done.
  - unfold processMessage. destruct (loopRunning s); [|done].
    destruct (cancelled s); [by apply (tracked_other_fields _ _ _ _ s)|].
    session_simpl.
    assert (tracked toolCallId toolName h deadline (set_lastActivityAt now s)) as Hs1
      by by apply (tracked_other_fields _ _ _ _ s).
    destruct message as [[block|block|] | content | success | |]; try done.
    + unfold handleStreamBlock. destruct (text block) as [txt|].
      * by apply bufferTextChunk_tracked.
      * by destruct (thinkingText block).
    + unfold handleStreamBlock. destruct (text block) as [txt|].
      * by apply bufferTextChunk_tracked.
      * by destruct (thinkingText block).
    + pose proof (flushTextBuffer_tracked _ _ _ _ _ Hs1) as Hs2.
      destruct (flushTextBuffer (set_lastActivityAt now s)) as [s2 evs].
      destruct content as [blocks|]; [|done].
      assert (tracked toolCallId toolName h deadline
                (handleAssistantBlocks now blocks s2).1) as Hs3.
      { unfold handleAssistantBlocks.
        apply (runAll_invariant (handleAssistantBlock now)
                 (tracked toolCallId toolName h deadline)); [|done].
        intros block s' Hin Hs'. apply handleAssistantBlock_tracked; [done|].
        by apply (proj1 (Forall_forall _ _) Hop). }
      by destruct (handleAssistantBlocks now blocks s2).
  - unfold messageLoopError.
    destruct (loopRunning s); [|done]. by apply (tracked_other_fields _ _ _ _ s).
  - by apply advance_tracked.
Qed.

Lemma run_tracked toolCallId toolName h deadline ops s :
  tracked toolCallId toolName h deadline s →
  Forall (unrelated toolCallId deadline) ops →
  tracked toolCallId toolName h deadline (run ops s).1.
Proof.
  intros Htracked Hops. unfold run.
  apply (runAll_invariant step (tracked toolCallId toolName h deadline)); [|done].
  intros op s' Hin Hs'. apply step_tracked; [done|].
  by apply (proj1 (Forall_forall _ _) Hops).
Qed.

End ToolCorrelation.

Section ToolCorrelationClaim.

Import Session SessionInvariant ToolInvariant TimerInvariant.

(** Recording a call whose id has no eviction timer starts its tracking. *)
Lemma record_starts_tracking now toolCallId toolName blockInput s :
  wf s → untimed toolCallId s →
  tracked toolCallId toolName (Timers.nextHandle (timers s)) (now + TOOL_CALL_TTL_MS)
    (handleAssistantBlock now (tool_use_block toolCallId toolName blockInput) s).1.
Proof.
  intros Hwf Hfresh.
  assert ((handleAssistantBlock now (tool_use_block toolCallId toolName blockInput) s).1
          = trackToolCall now toolCallId toolName s) as ->.
  { simpl.
    by destruct (if String.eqb toolName "TodoWrite" then todos blockInput else None). }
  split; [by apply trackToolCall_wf|].
  rewrite trackToolCall_eq. session_simpl. rewrite !lookup_insert_eq.
  repeat split; try done.
  - apply timer_lookup_setTimeout_new, Hwf.
  - intros tm Hin Hcb. apply elem_of_setTimeout in Hin as [Hin| ->]; [|done].
    by destruct (Hfresh tm Hin).
Qed.

(** The result of a tracked call carries its name and ends the tracking. *)
Lemma result_of_tracked_call toolCallId toolName h deadline arrival content is_error s :
  tracked toolCallId toolName h deadline s →
  let arrived :=
    handleAssistantBlock arrival (tool_result_block toolCallId content is_error) s in
  arrived.2 = [tool_result toolCallId toolName content (default false is_error)]
  ∧ toolCallNames arrived.1 !! toolCallId = None
  ∧ toolCallTimers arrived.1 !! toolCallId = None
  ∧ untimed toolCallId arrived.1.
Proof.
  intros (Hwf & Hname & Htimer & Hlookup & Honly). unfold handleAssistantBlock.
  rewrite getToolName_eq, Hname, Htimer. session_simpl.
  rewrite !lookup_delete_eq. repeat split; try done.
  intros tm Hin Hcb. apply elem_of_clearTimeout in Hin as [Hin Hne].
  by apply Hne, Honly.
Qed.

(** The result of a call that is not tracked carries the name "unknown". *)
Lemma result_of_untracked_call toolCallId arrival content is_error s :
  toolCallNames s !! toolCallId = None →
  (handleAssistantBlock arrival (tool_result_block toolCallId content is_error) s).2
  = [tool_result toolCallId "unknown" content (default false is_error)].
Proof.
  intros Hnone. unfold handleAssistantBlock. rewrite getToolName_eq, Hnone. done.
Qed.

Lemma fireTimer_keeps_untracked toolCallId h s :
  toolCallNames s !! toolCallId = None →
  toolCallNames (fireTimer h s).1 !! toolCallId = None.
Proof.
  intros Hnone. destruct (Timers.lookup h (timers s)) as [tm|] eqn:Hl.
  - destruct (Timers.callback tm) as [|k] eqn:Hcb.
    + by rewrite (fireTimer_flush h s tm Hl Hcb).
    + rewrite (fireTimer_evict h s tm k Hl Hcb). session_simpl.
      destruct (decide (k = toolCallId)) as [->|Hne].
      * apply lookup_delete_eq.
      * by rewrite lookup_delete_ne.
  - by rewrite (fireTimer_unarmed h s Hl).
Qed.

(** Once the eviction deadline has passed the name is forgotten. *)
Lemma advance_evicts toolCallId toolName h deadline (time : Z) s :
  tracked toolCallId toolName h deadline s → (deadline ≤ time)%Z →
  toolCallNames (advance time s).1 !! toolCallId = None.
Proof.
  intros Htracked Hle.
  pose proof Htracked as (Hwf & _ & _ & Hlookup & _).
  pose proof (due_handles_NoDup time (timers s) (proj1 Hwf)) as Hnodup.
  assert (h ∈ Timers.handle <$> Timers.due time (timers s)) as Hdue.
  { apply timer_lookup_Some in Hlookup as [Harmed _].
    apply list_elem_of_fmap.
    exists (Timers.mkTimer h deadline (EvictToolCall toolCallId)).
    split; [done|]. by apply elem_of_due. }
  apply list_elem_of_split in Hdue as (before & after & Hsplit).
  unfold advance, fireAll. rewrite Hsplit in *.
  apply NoDup_app in Hnodup as (_ & Hbefore & _).
  assert (tracked toolCallId toolName h deadline (runAll fireTimer before s).1)
    as (_ & _ & _ & Hlookup1 & _).
  { apply (runAll_invariant fireTimer (tracked toolCallId toolName h deadline));
      [|done].
    intros h' s' Hin Hs'. apply fireTimer_tracked; [done|].
    intros ->. apply (Hbefore h Hin). by left. }
  rewrite runAll_app, runAll_cons. cbn [fst].
  apply (runAll_invariant fireTimer (λ s', toolCallNames s' !! toolCallId = None)).
  - intros h' s' _ Hs'. by apply fireTimer_keeps_untracked.
  - rewrite (fireTimer_evict h _ _ toolCallId Hlookup1 eq_refl). session_simpl.
    apply lookup_delete_eq.
Qed.

(** A listening session handles the block of a one-block assistant
    message after flushing the text it has buffered. *)
Lemma processMessage_block now block (s : Session.t) :
  listening s →
  processMessage now (sdk_assistant (Some [block])) s
  = ((handleAssistantBlock now block (flushTextBuffer (set_lastActivityAt now s)).1).1,
     chunk (textBuffer s)
     ++ (handleAssistantBlock now block (flushTextBuffer (set_lastActivityAt now s)).1).2).
Proof.
  intros [Hloop Hcancelled]. unfold processMessage. rewrite Hloop, Hcancelled. simpl.
  assert ((flushTextBuffer (set_lastActivityAt now s)).2 = chunk (textBuffer s)) as Hevs.
  { unfold flushTextBuffer, chunk. session_simpl.
    by destruct (textFlushTimeout s); session_simpl;
      destruct (String.eqb (textBuffer s) ""). }
  destruct (flushTextBuffer (set_lastActivityAt now s)) as [s2 evs]. simpl in *.
  unfold handleAssistantBlocks. rewrite runAll_cons, runAll_nil.
  destruct (handleAssistantBlock now block s2) as [s3 evs']. simpl.
  by rewrite Hevs, app_nil_r.
Qed.

(** A message that meets a session that does not listen is dropped. *)
Lemma processMessage_not_listening now message (s : Session.t) :
  ¬ listening s → processMessage now message s = (set_loopRunning false s, []).
Proof.
  intros Hno. unfold processMessage, listening in *.
  destruct (loopRunning s) eqn:Hloop; simpl.
  - destruct (cancelled s); [done|]. by destruct Hno.
  - by destruct s; simpl in *; subst.
Qed.

Lemma handleAssistantBlock_listening now block (s : Session.t) :
  listening s → listening (handleAssistantBlock now block s).1
  ∧ textBuffer (handleAssistantBlock now block s).1 = textBuffer s.
Proof.
  intros Hs. destruct block as [blockId blockName blockInput|tool_use_id content e|];
    [| |done].
  - simpl.
    by destruct (if String.eqb blockName "TodoWrite" then todos blockInput else None).
  - unfold handleAssistantBlock. rewrite getToolName_eq.
    by destruct (toolCallTimers s !! tool_use_id).
Qed.

Lemma flushTextBuffer_listening (s : Session.t) :
  listening s → listening (flushTextBuffer s).1.
Proof.
  unfold flushTextBuffer, listening.
  by destruct (textFlushTimeout s); session_simpl; destruct (String.eqb (textBuffer s) "").
Qed.

Lemma flushTextBuffer_untimed toolCallId (s : Session.t) :
  wf s → untimed toolCallId s → untimed toolCallId (flushTextBuffer s).1.
Proof.
  intros Hwf Hfresh tm Hin.
  destruct (flushTextBuffer_wf s Hwf) as (_ & _ & _ & _ & _ & _ & _ & Hsub).
  by apply Hfresh, Hsub.
Qed.

(** X20.  In a session that processes its messages, a tool call recorded
    under an id that has no eviction timer armed is tracked for ten
    minutes.  Whatever happens in between that does not concern this id,
    short of [terminate], the message with the matching result yields,
    after the text buffered so far, exactly one [tool_result] event
    carrying the recorded tool name, and the tracking entry and its timer
    are gone, so that a further result for the id carries "unknown"; a
    result processed once the ten minutes have passed carries "unknown";
    and a result that meets a session whose loop has ended or whose
    [cancelled] flag is set yields no event at all. *)
Theorem tracked_tool_result_carries_its_name (s : Session.t) (now : Z)
    (toolCallId toolName : string) (blockInput : ToolInput) :
  wf s → untimed toolCallId s → listening s →
  let recorded :=
    (processMessage now (toolUse toolCallId toolName blockInput) s).1 in
  let deadline := (now + TOOL_CALL_TTL_MS)%Z in
  (∀ between arrival content is_error,
     Forall (unrelated toolCallId deadline) between →
     let before := (run between recorded).1 in
     listening before →
     let arrived := processMessage arrival (toolResult toolCallId content is_error) before in
     arrived.2
     = chunk (textBuffer before)
       ++ [tool_result toolCallId toolName content (default false is_error)]
     ∧ toolCallNames arrived.1 !! toolCallId = None
     ∧ toolCallTimers arrived.1 !! toolCallId = None
     ∧ untimed toolCallId arrived.1
     ∧ ∀ arrival' content' is_error',
         (processMessage arrival' (toolResult toolCallId content' is_error') arrived.1).2
         = [tool_result toolCallId "unknown" content' (default false is_error')])
  ∧ (∀ between expiry arrival content is_error,
       Forall (unrelated toolCallId deadline) between → (deadline ≤ expiry)%Z →
       let before := (advance expiry (run between recorded).1).1 in
       listening before →
       (processMessage arrival (toolResult toolCallId content is_error) before).2
       = chunk (textBuffer before)
         ++ [tool_result toolCallId "unknown" content (default false is_error)])
  ∧ (∀ between arrival content is_error,
       ¬ listening (run between recorded).1 →
       (processMessage arrival (toolResult toolCallId content is_error)
          (run between recorded).1).2 = []).
Proof.
  intros Hwf Hfresh Hlistening recorded deadline.
  assert (tracked toolCallId toolName
            (Timers.nextHandle (timers (flushTextBuffer (set_lastActivityAt now s)).1))
            deadline recorded) as Htracked.
  { subst recorded. unfold toolUse. rewrite processMessage_block by done. cbn [fst].
    apply record_starts_tracking.
    - by apply (flushTextBuffer_wf (set_lastActivityAt now s)).
    - by apply (flushTextBuffer_untimed toolCallId (set_lastActivityAt now s)). }
  split; [|split].
  - intros between arrival content is_error Hbetween before Hbefore arrived.
    pose proof (run_tracked _ _ _ _ between recorded Htracked Hbetween) as Hrun.
    fold before in Hrun.
    assert (tracked toolCallId toolName
              (Timers.nextHandle (timers (flushTextBuffer (set_lastActivityAt now s)).1))
              deadline (flushTextBuffer (set_lastActivityAt arrival before)).1) as Hflushed.
    { apply flushTextBuffer_tracked. by apply (tracked_other_fields _ _ _ _ before). }
    destruct (result_of_tracked_call _ _ _ _ arrival content is_error _ Hflushed)
      as (Hevent & Hname & Htimer & Hgone).
    subst arrived. unfold toolResult. rewrite processMessage_block by done.
    cbn [fst snd]. rewrite Hevent. repeat split; try done.
    intros arrival' content' is_error'.
    set (flushed := (flushTextBuffer (set_lastActivityAt arrival before)).1) in *.
    set (block := tool_result_block toolCallId content is_error) in *.
    assert (listening flushed) as Hflushed_listening
      by by apply (flushTextBuffer_listening (set_lastActivityAt arrival before)).
    destruct (handleAssistantBlock_listening arrival block flushed Hflushed_listening)
      as [Hstill Hbuffer].
    assert (textBuffer flushed = "") as Hempty.
    { destruct Hflushed as [Hwf' _].
      by destruct (flushTextBuffer_wf (set_lastActivityAt arrival before)
                     (proj1 (tracked_other_fields _ _ _ _ before
                               (set_lastActivityAt arrival before) Hrun
                               eq_refl eq_refl eq_refl eq_refl)))
        as (_ & _ & ? & _). }
    rewrite processMessage_block by done. cbn [snd]. rewrite Hbuffer, Hempty.
    change (chunk "") with (@nil SessionEvent). rewrite app_nil_l.
    apply result_of_untracked_call.
    assert (toolCallNames
              (flushTextBuffer
                 (set_lastActivityAt arrival' (handleAssistantBlock arrival block flushed).1)).1
            = toolCallNames (handleAssistantBlock arrival block flushed).1) as ->.
    { unfold flushTextBuffer. session_simpl.
      by destruct (textFlushTimeout _); session_simpl; destruct (String.eqb _ ""). }
    exact Hname.
  - intros between expiry arrival content is_error Hbetween Hexpired before Hbefore.
    pose proof (run_tracked _ _ _ _ between recorded Htracked Hbetween) as Hrun.
    unfold toolResult. rewrite processMessage_block by done. cbn [snd]. f_equal.
    apply result_of_untracked_call.
    assert (toolCallNames (flushTextBuffer (set_lastActivityAt arrival before)).1
            = toolCallNames before) as ->.
    { unfold flushTextBuffer. session_simpl.
      by destruct (textFlushTimeout _); session_simpl; destruct (String.eqb _ ""). }
    by apply (advance_evicts toolCallId toolName _ deadline _ _ Hrun).
  - intros between arrival content is_error Hno.
    by rewrite processMessage_not_listening.
Qed.

Lemma tracked_tool_result_carries_its_name_witness :
  let recorded :=
    (processMessage 1000 (toolUse "toolu_01" "Read" (mkToolInput "{}" None))
       Fixtures.freshSession).1 in
  let between :=
    [itemOp (Fragment 1100 false "Reading");
     OpMessage 1200 (toolUse "toolu_02" "Grep" (mkToolInput "{}" None));
     OpAdvance 5000;
     OpMessage 5100 (toolResult "toolu_02" "3 hits" None);
     OpMessage 5200 (sdk_stream_event (content_block_delta (mkBlock (Some "Done") None)))] in
  (processMessage 5210 (toolResult "toolu_01" "contents" (Some false))
     (run between recorded).1).2
  = [message_chunk "Done"; tool_result "toolu_01" "Read" "contents" false]
  ∧ (processMessage 700000 (toolResult "toolu_01" "contents" None)
       (advance 601000 (run between recorded).1).1).2
    = [tool_result "toolu_01" "unknown" "contents" false]
  ∧ (processMessage 5210 (toolResult "toolu_01" "contents" None)
       (run (between ++ [OpCancel resolves]) recorded).1).2 = [].
Proof.
  intros recorded between.
  assert (untimed "toolu_01" Fixtures.freshSession) as Hfresh.
  { intros tm Hin. by apply elem_of_nil in Hin. }
  destruct (tracked_tool_result_carries_its_name Fixtures.freshSession 1000 "toolu_01"
              "Read" (mkToolInput "{}" None) (new_wf _ _ _ _) Hfresh)
    as (Hwithin & Hexpired & Hdeaf).
  { by split. }
  fold recorded in Hwithin, Hexpired, Hdeaf.
  assert (Forall (unrelated "toolu_01" (1000 + TOOL_CALL_TTL_MS)) between) as Hbetween.
  { repeat constructor; simpl; discriminate. }
  split; [|split].
  - destruct (Hwithin between 5210%Z "contents" (Some false) Hbetween) as [Hevent _].
    { vm_compute. by split. }
    rewrite Hevent. vm_compute. reflexivity.
  - rewrite (Hexpired between 601000%Z 700000%Z "contents" None Hbetween).
    + vm_compute. reflexivity.
    + unfold TOOL_CALL_TTL_MS. lia.
    + vm_compute. by split.
  - apply Hdeaf. vm_compute. intros [_ Hcancelled]. discriminate Hcancelled.
Defined.

(** C8 does not hold of the code.  [trackToolCall] arms a new eviction
    timer without clearing the one already armed for the call id, so that
    for an id recorded twice the first timer evicts the second recording:
    the result then carries "unknown" well inside the ten minutes of the
    recording it answers.  Recorded once, at the same time, the same call
    has its result carry the tool name. *)
Lemma rerecorded_tool_call_loses_its_name :
  let call := toolUse "toolu_01" "Bash" (mkToolInput "{}" None) in
  let result := toolResult "toolu_01" "done" None in
  (run [OpMessage 0 call; OpMessage 540000 call; OpAdvance 600000;
        OpMessage 660000 result] Fixtures.freshSession).2
  = [tool_call "toolu_01" "Bash" "{}"; tool_call "toolu_01" "Bash" "{}";
     tool_result "toolu_01" "unknown" "done" false]
  ∧ (660000 < 540000 + TOOL_CALL_TTL_MS)%Z
  ∧ (run [OpMessage 540000 call; OpAdvance 600000; OpMessage 660000 result]
       Fixtures.freshSession).2
    = [tool_call "toolu_01" "Bash" "{}"; tool_result "toolu_01" "Bash" "done" false].
Proof. vm_compute. repeat split; reflexivity. Qed.

End ToolCorrelationClaim.

(** ** The pending-request broker *)

Section Broker.

Import SessionManager BrokerInvariant TimerInvariant.

Lemma settlementsOf_app q (m : SessionManager.t) extra :
  filter (λ settlement, questionOf settlement = Some q) (settlements m ++ extra)
  = settlementsOf q m ++ filter (λ settlement, questionOf settlement = Some q) extra.
Proof. unfold settlementsOf. by rewrite filter_app. Qed.

(** The three ways a timer of the manager fires. *)
Lemma broker_fireTimer_unarmed h (m : SessionManager.t) :
  Timers.lookup h (timers m) = None → fireTimer h m = m.
Proof. intros Hl. unfold fireTimer. by rewrite Hl. Qed.

Lemma broker_fireTimer_question h (m : SessionManager.t) tm q :
  Timers.lookup h (timers m) = Some tm → Timers.callback tm = QuestionTimeout q →
  fireTimer h m
  = let m0 := set_timers (Timers.clearTimeout h (timers m)) m in
    if isCompleted h m then m0
    else
      let m1 := set_completedFlags (<[h := true]> (completedFlags m0)) m0 in
      match JsMap.get q (pendingQuestions m) with
      | Some _ =>
          set_pendingQuestions (JsMap.delete q (pendingQuestions m))
            (set_settlements (settlements m ++ [QuestionRejected q "Question timeout"]) m1)
      | None => m1
      end.
Proof. intros Hl Hcb. unfold fireTimer. rewrite Hl, Hcb. reflexivity. Qed.

Lemma broker_fireTimer_permission h (m : SessionManager.t) tm p :
  Timers.lookup h (timers m) = Some tm → Timers.callback tm = PermissionTimeout p →
  fireTimer h m
  = let m0 := set_timers (Timers.clearTimeout h (timers m)) m in
    if isCompleted h m then m0
    else
      let m1 := set_completedFlags (<[h := true]> (completedFlags m0)) m0 in
      match JsMap.get p (pendingPermissions m) with
      | Some _ =>
          set_pendingPermissions (JsMap.delete p (pendingPermissions m))
            (set_settlements
               (settlements m ++ [PermissionRejected p "Permission request timeout"]) m1)
      | None => m1
      end.
Proof. intros Hl Hcb. unfold fireTimer. rewrite Hl, Hcb. reflexivity. Qed.

(** What firing a timer does to the table, whatever the callback. *)
Lemma broker_fireTimer_timers h (m : SessionManager.t) :
  timers (fireTimer h m) = timers m ∧ Timers.lookup h (timers m) = None
  ∨ timers (fireTimer h m) = Timers.clearTimeout h (timers m).
Proof.
  destruct (Timers.lookup h (timers m)) as [tm|] eqn:Hl.
  - right. destruct (Timers.callback tm) as [q|p] eqn:Hcb.
    + rewrite (broker_fireTimer_question h m tm q Hl Hcb). cbv zeta.
      destruct (isCompleted h m); [done|].
      by destruct (JsMap.get q (pendingQuestions m)).
    + rewrite (broker_fireTimer_permission h m tm p Hl Hcb). cbv zeta.
      destruct (isCompleted h m); [done|].
      by destruct (JsMap.get p (pendingPermissions m)).
  - left. by rewrite (broker_fireTimer_unarmed h m Hl).
Qed.

Lemma broker_fireTimer_armed h (m : SessionManager.t) tm :
  tm ∈ Timers.armed (timers (fireTimer h m)) → tm ∈ Timers.armed (timers m).
Proof.
  destruct (broker_fireTimer_timers h m) as [[-> _]| ->]; [done|].
  intros Hin. by apply elem_of_clearTimeout in Hin as [? _].
Qed.

Lemma broker_fireTimer_lookup_ne h h' (m : SessionManager.t) :
  h ≠ h' → Timers.lookup h' (timers (fireTimer h m)) = Timers.lookup h' (timers m).
Proof.
  intros Hne. destruct (broker_fireTimer_timers h m) as [[-> _]| ->]; [done|].
  by apply timer_lookup_clearTimeout_ne.
Qed.

Lemma broker_fireTimer_wfTable h (m : SessionManager.t) :
  wfTable (timers m) → wfTable (timers (fireTimer h m)).
Proof.
  intros Hwf. destruct (broker_fireTimer_timers h m) as [[-> _]| ->]; [done|].
  by apply wfTable_clearTimeout.
Qed.

(** A timer that is not the expiry timer of [q] leaves a pending [q]
    alone. *)
Lemma broker_fireTimer_keeps_awaiting q pending deadline h (m : SessionManager.t) :
  awaiting q pending deadline m → h ≠ q_timeoutId pending →
  awaiting q pending deadline (fireTimer h m)
  ∧ settlementsOf q (fireTimer h m) = settlementsOf q m.
Proof.
  intros (Hget & Hlookup & Hflag & Honly) Hne.
  assert (Timers.lookup (q_timeoutId pending) (timers (fireTimer h m))
          = Some (Timers.mkTimer (q_timeoutId pending) deadline (QuestionTimeout q)))
    as Hlookup' by by rewrite broker_fireTimer_lookup_ne.
  assert (∀ tm, tm ∈ Timers.armed (timers (fireTimer h m)) →
                Timers.callback tm = QuestionTimeout q →
                Timers.handle tm = q_timeoutId pending) as Honly'.
  { intros tm Hin. by apply Honly, broker_fireTimer_armed with h. }
  destruct (Timers.lookup h (timers m)) as [tm|] eqn:Hl.
  - destruct (timer_lookup_Some _ _ _ Hl) as [Hin Hh].
    destruct (Timers.callback tm) as [q'|p'] eqn:Hcb.
    + assert (q' ≠ q) as Hq.
      { intros ->. apply Hne. rewrite <- Hh. by apply Honly. }
      rewrite (broker_fireTimer_question h m tm q' Hl Hcb) in *. cbv zeta in *.
      destruct (isCompleted h m); [by repeat split|].
      destruct (JsMap.get q' (pendingQuestions m)); manager_simpl.
      * split; [split; [|split; [|split]]|]; manager_simpl; try done.
        -- by rewrite get_delete_ne.
        -- unfold isCompleted in *. manager_simpl. by rewrite lookup_insert_ne.
        -- unfold settlementsOf. manager_simpl. rewrite filter_app, filter_cons.
           rewrite decide_False; [by rewrite app_nil_r|]. simpl. congruence.
      * split; [split; [|split; [|split]]|]; manager_simpl; try done.
        unfold isCompleted in *. manager_simpl. by rewrite lookup_insert_ne.
    + rewrite (broker_fireTimer_permission h m tm p' Hl Hcb) in *. cbv zeta in *.
      destruct (isCompleted h m); [by repeat split|].
      destruct (JsMap.get p' (pendingPermissions m)); manager_simpl.
      * split; [split; [|split; [|split]]|]; manager_simpl; try done.
        -- unfold isCompleted in *. manager_simpl. by rewrite lookup_insert_ne.
        -- unfold settlementsOf. manager_simpl. rewrite filter_app, filter_cons.
           rewrite decide_False; [by rewrite app_nil_r|]. simpl. congruence.
      * split; [split; [|split; [|split]]|]; manager_simpl; try done.
        unfold isCompleted in *. manager_simpl. by rewrite lookup_insert_ne.
  - rewrite (broker_fireTimer_unarmed h m Hl) in *. by repeat split.
Qed.

(** Once a question is settled no timer brings it back or settles it
    again. *)
Lemma broker_fireTimer_keeps_settled q h (m : SessionManager.t) :
  settled q m →
  settled q (fireTimer h m) ∧ settlementsOf q (fireTimer h m) = settlementsOf q m.
Proof.
  intros (Hnone & Hno).
  assert (∀ tm, tm ∈ Timers.armed (timers (fireTimer h m)) →
                Timers.callback tm ≠ QuestionTimeout q) as Hno'.
  { intros tm Hin. by apply Hno, broker_fireTimer_armed with h. }
  destruct (Timers.lookup h (timers m)) as [tm|] eqn:Hl.
  - destruct (timer_lookup_Some _ _ _ Hl) as [Hin Hh].
    destruct (Timers.callback tm) as [q'|p'] eqn:Hcb.
    + assert (q' ≠ q) as Hq.
      { intros ->. by apply (Hno tm Hin). }
      rewrite (broker_fireTimer_question h m tm q' Hl Hcb) in *. cbv zeta in *.
      destruct (isCompleted h m); [by repeat split|].
      destruct (JsMap.get q' (pendingQuestions m)); manager_simpl.
      * split; [split|]; manager_simpl; try done.
        -- by rewrite get_delete_ne.
        -- unfold settlementsOf. manager_simpl. rewrite filter_app, filter_cons.
           rewrite decide_False; [by rewrite app_nil_r|]. simpl. congruence.
      * by repeat split.
    + rewrite (broker_fireTimer_permission h m tm p' Hl Hcb) in *. cbv zeta in *.
      destruct (isCompleted h m); [by repeat split|].
      destruct (JsMap.get p' (pendingPermissions m)); manager_simpl.
      * split; [split|]; manager_simpl; try done.
        unfold settlementsOf. manager_simpl. rewrite filter_app, filter_cons.
        rewrite decide_False; [by rewrite app_nil_r|]. simpl. congruence.
      * by repeat split.
  - rewrite (broker_fireTimer_unarmed h m Hl) in *. by repeat split.
Qed.

End Broker.

Section BrokerTime.

Import SessionManager BrokerInvariant TimerInvariant.

Lemma fireAll_keeps_awaiting q pending deadline handles (m : SessionManager.t) :
  awaiting q pending deadline m → (∀ h, h ∈ handles → h ≠ q_timeoutId pending) →
  awaiting q pending deadline (fireAll handles m)
  ∧ settlementsOf q (fireAll handles m) = settlementsOf q m.
Proof.
  intros Hawait Hother. unfold fireAll.
  apply (fold_left_preserves (λ acc h, fireTimer h acc)
           (λ acc, awaiting q pending deadline acc
                   ∧ settlementsOf q acc = settlementsOf q m)); [|done].
  intros acc h Hin [Hacc Hlog].
  destruct (broker_fireTimer_keeps_awaiting q pending deadline h acc Hacc (Hother h Hin))
    as [Hacc' Hlog'].
  split; [done|congruence].
Qed.

Lemma fireAll_keeps_settled q handles (m : SessionManager.t) :
  settled q m →
  settled q (fireAll handles m) ∧ settlementsOf q (fireAll handles m) = settlementsOf q m.
Proof.
  intros Hsettled. unfold fireAll.
  apply (fold_left_preserves (λ acc h, fireTimer h acc)
           (λ acc, settled q acc ∧ settlementsOf q acc = settlementsOf q m)); [|done].
  intros acc h _ [Hacc Hlog].
  destruct (broker_fireTimer_keeps_settled q h acc Hacc) as [Hacc' Hlog'].
  split; [done|congruence].
Qed.

(** Short of its deadline a pending question stays pending. *)
Lemma advance_keeps_awaiting q pending deadline (time : Z) (m : SessionManager.t) :
  wfTable (timers m) → awaiting q pending deadline m → (time < deadline)%Z →
  awaiting q pending deadline (advance time m)
  ∧ settlementsOf q (advance time m) = settlementsOf q m.
Proof.
  intros Hwf Hawait Hlt. unfold advance. apply fireAll_keeps_awaiting; [done|].
  intros h Hin Heq. subst h. apply list_elem_of_fmap in Hin as (tm & Hh & Hdue).
  apply elem_of_due in Hdue as [Harmed Hdeadline].
  destruct Hawait as (_ & Hlookup & _).
  apply timer_lookup_Some in Hlookup as [Hmine _].
  assert (tm = Timers.mkTimer (q_timeoutId pending) deadline (QuestionTimeout q)) as Htm.
  { apply (handle_inj (timers m)); [done..|]. simpl. congruence. }
  rewrite Htm in Hdeadline. simpl in Hdeadline. lia.
Qed.

(** The expiry timer of a pending question rejects and removes it. *)
Lemma expiry_settles q pending deadline (m : SessionManager.t) :
  awaiting q pending deadline m →
  settled q (fireTimer (q_timeoutId pending) m)
  ∧ settlementsOf q (fireTimer (q_timeoutId pending) m)
    = settlementsOf q m ++ [QuestionRejected q "Question timeout"].
Proof.
  intros (Hget & Hlookup & Hflag & Honly).
  rewrite (broker_fireTimer_question _ m _ q Hlookup eq_refl). cbv zeta.
  rewrite Hflag, Hget. split; [split|]; manager_simpl.
  - apply get_delete_eq.
  - intros tm Hin Hcb. apply elem_of_clearTimeout in Hin as [Hin Hne].
    by apply Hne, Honly.
  - unfold settlementsOf. manager_simpl. rewrite filter_app, filter_cons.
    by rewrite decide_True.
Qed.

(** Past its deadline a pending question has been rejected, once. *)
Lemma advance_expires q pending deadline (time : Z) (m : SessionManager.t) :
  wfTable (timers m) → awaiting q pending deadline m → (deadline ≤ time)%Z →
  settled q (advance time m)
  ∧ settlementsOf q (advance time m)
    = settlementsOf q m ++ [QuestionRejected q "Question timeout"].
Proof.
  intros Hwf Hawait Hle.
  pose proof Hawait as (_ & Hlookup & _).
  pose proof (due_handles_NoDup time (timers m) Hwf) as Hnodup.
  assert (q_timeoutId pending ∈ Timers.handle <$> Timers.due time (timers m)) as Hdue.
  { apply timer_lookup_Some in Hlookup as [Harmed _]. apply list_elem_of_fmap.
    exists (Timers.mkTimer (q_timeoutId pending) deadline (QuestionTimeout q)).
    split; [done|]. by apply elem_of_due. }
  apply list_elem_of_split in Hdue as (before & after & Hsplit).
  unfold advance. rewrite Hsplit in *.
  apply NoDup_app in Hnodup as (_ & Hbefore & _).
  unfold fireAll. rewrite fold_left_app. simpl.
  destruct (fireAll_keeps_awaiting q pending deadline before m Hawait)
    as [Hawait1 Hlog1].
  { intros h Hin ->. apply (Hbefore _ Hin). by left. }
  unfold fireAll in Hawait1, Hlog1.
  set (m1 := fold_left (λ acc h, fireTimer h acc) before m) in *.
  destruct (expiry_settles q pending deadline m1 Hawait1) as [Hsettled2 Hlog2].
  destruct (fireAll_keeps_settled q after _ Hsettled2) as [Hsettled3 Hlog3].
  unfold fireAll in Hsettled3, Hlog3. split; [done|]. congruence.
Qed.

(** Answering a pending question. *)
Lemma answer_pending q pending deadline answer (m : SessionManager.t) :
  awaiting q pending deadline m →
  ∃ m', answerQuestion q answer m = (m', inr ())
        ∧ settlements m' = settlements m ++ [QuestionResolved q answer]
        ∧ settled q m'
        ∧ Timers.lookup (q_timeoutId pending) (timers m') = None
        ∧ isCompleted (q_timeoutId pending) m' = true.
Proof.
  intros (Hget & Hlookup & Hflag & Honly).
  unfold answerQuestion. rewrite Hget. eexists. split; [reflexivity|].
  unfold resolveClosure, isCompleted in *. manager_simpl. rewrite Hflag. manager_simpl.
  repeat split.
  - apply get_delete_eq.
  - intros tm Hin Hcb. apply elem_of_clearTimeout in Hin as [Hin Hne].
    apply elem_of_clearTimeout in Hin as [Hin _]. by apply Hne, Honly.
  - apply timer_lookup_clearTimeout_eq.
  - by rewrite lookup_insert_eq.
Qed.

(** Answering a question that is not pending fails and changes nothing. *)
Lemma answer_settled q answer (m : SessionManager.t) :
  settled q m → answerQuestion q answer m = (m, inl (questionNotFound q)).
Proof. intros [Hnone _]. unfold answerQuestion. by rewrite Hnone. Qed.

End BrokerTime.

Section BrokerInvariance.

Import SessionManager BrokerInvariant TimerInvariant.

Lemma timer_callback_ne {C : Type} (tbl : Timers.Table C) h h' tm tm' :
  Timers.lookup h tbl = Some tm → Timers.lookup h' tbl = Some tm' →
  Timers.callback tm ≠ Timers.callback tm' → h' ≠ h.
Proof. intros Hl Hl' Hne ->. congruence. Qed.

Lemma clearTimeout_idem {C : Type} h (tbl : Timers.Table C) :
  Timers.clearTimeout h (Timers.clearTimeout h tbl) = Timers.clearTimeout h tbl.
Proof.
  unfold Timers.clearTimeout. simpl. f_equal.
  induction (Timers.armed tbl) as [|x l IH]; [done|].
  rewrite filter_cons. destruct (decide (Timers.handle x ≠ h)).
  - rewrite filter_cons, decide_True by done. by rewrite IH.
  - done.
Qed.

Lemma new_broker_wf max dir onDisk uuids :
  Inj (=) (=) uuids → wf (SessionManager.new max dir onDisk uuids).
Proof.
  intros Hinj. unfold wf. manager_simpl.
  split; [apply wfTable_empty|]. split; [constructor|]. split; [constructor|].
  split; [|split; [|split; [|split; [|split]]]]; try done.
  - intros q pending Hin. by apply elem_of_nil in Hin.
  - intros tm q Hin. by apply elem_of_nil in Hin.
  - intros p pending Hin. by apply elem_of_nil in Hin.
  - intros tm p Hin. by apply elem_of_nil in Hin.
  - intros k [Hin|Hin]; simpl in Hin; by apply elem_of_nil in Hin.
Qed.

(** States that agree on the broker's fields are well formed together. *)
Lemma wf_frame (m m' : SessionManager.t) :
  wf m → timers m' = timers m → pendingQuestions m' = pendingQuestions m →
  pendingPermissions m' = pendingPermissions m → completedFlags m' = completedFlags m →
  uuidSource m' = uuidSource m → (uuidsTaken m ≤ uuidsTaken m')%nat → wf m'.
Proof.
  unfold wf, questionsArmed, questionTimersOwned, permissionsArmed,
    permissionTimersOwned, idsDrawn, isCompleted.
  intros (Hwf & Hndq & Hndp & Hq2 & Hq3 & Hp2 & Hp3 & Hids & Hinj) -> -> -> -> -> Hle.
  split; [done|]. split; [done|]. split; [done|].
  split; [done|]. split; [done|]. split; [done|]. split; [done|]. split; [|done].
  intros k Hk. destruct (Hids k Hk) as (n & Hn & ->). exists n. split; [lia|done].
Qed.

(** In a well-formed manager a pending question awaits its timer. *)
Lemma wf_awaiting (m : SessionManager.t) q pending :
  wf m → JsMap.get q (pendingQuestions m) = Some pending →
  ∃ deadline, awaiting q pending deadline m.
Proof.
  intros (Hwf & Hndq & Hndp & Hq2 & Hq3 & Hp2 & Hp3 & Hids & Hinj) Hget.
  destruct (Hq2 q pending (get_Some_elem _ _ _ Hget)) as (tm & Hl & Hcb & Hflag).
  destruct (timer_lookup_Some _ _ _ Hl) as [Hin Hh].
  exists (Timers.deadline tm). repeat split; try done.
  - rewrite Hl. f_equal. destruct tm; simpl in *. by subst.
  - intros tm' Hin' Hcb'. destruct (Hq3 tm' q Hin' Hcb') as (pending' & Hget' & Hh').
    congruence.
Qed.

(** The id [randomUUID] hands out next is not in use. *)
Lemma next_uuid_fresh (m : SessionManager.t) :
  wf m →
  JsMap.get (uuidSource m (uuidsTaken m)) (pendingQuestions m) = None
  ∧ JsMap.get (uuidSource m (uuidsTaken m)) (pendingPermissions m) = None.
Proof.
  intros (Hwf & Hndq & Hndp & Hq2 & Hq3 & Hp2 & Hp3 & Hids & Hinj).
  split; apply get_None_not_key; intros Hin.
  - destruct (Hids _ (or_introl Hin)) as (n & Hn & Heq). apply Hinj in Heq. lia.
  - destruct (Hids _ (or_intror Hin)) as (n & Hn & Heq). apply Hinj in Heq. lia.
Qed.

(** Removing a pending question together with its timer keeps the
    invariant. *)
Lemma wf_remove_question (m m' : SessionManager.t) q pending :
  wf m → JsMap.get q (pendingQuestions m) = Some pending →
  timers m' = Timers.clearTimeout (q_timeoutId pending) (timers m) →
  pendingQuestions m' = JsMap.delete q (pendingQuestions m) →
  pendingPermissions m' = pendingPermissions m →
  (∀ h, h ≠ q_timeoutId pending → completedFlags m' !! h = completedFlags m !! h) →
  uuidSource m' = uuidSource m → uuidsTaken m' = uuidsTaken m → wf m'.
Proof.
  intros (Hwf & Hndq & Hndp & Hq2 & Hq3 & Hp2 & Hp3 & Hids & Hinj)
    Hget Htimers Hquestions Hpermissions Hflags Hsource Htaken.
  destruct (Hq2 q pending (get_Some_elem _ _ _ Hget)) as (tmq & Hlq & Hcbq & _).
  unfold wf, questionsArmed, questionTimersOwned, permissionsArmed,
    permissionTimersOwned, idsDrawn, isCompleted in *.
  rewrite Htimers, Hquestions, Hpermissions, Hsource, Htaken.
  split; [by apply wfTable_clearTimeout|]. split; [by apply NoDup_keys_delete|].
  split; [done|]. split; [|split; [|split; [|split; [|split]]]]; try done.
  - intros k pending' Hin. apply elem_of_delete in Hin as [Hin Hne].
    destruct (Hq2 k pending' Hin) as (tm & Hl & Hcb & Hflag).
    assert (q_timeoutId pending' ≠ q_timeoutId pending) as Hh.
    { apply (timer_callback_ne (timers m) _ _ tmq tm Hlq Hl). congruence. }
    exists tm. rewrite timer_lookup_clearTimeout_ne by done.
    by rewrite Hflags.
  - intros tm k Hin Hcb. apply elem_of_clearTimeout in Hin as [Hin Hne].
    destruct (Hq3 tm k Hin Hcb) as (pending' & Hget' & Hh').
    exists pending'. split; [|done]. rewrite get_delete_ne; [done|].
    intros ->. congruence.
  - intros k pending' Hin.
    destruct (Hp2 k pending' Hin) as (tm & Hl & Hcb & Hflag).
    assert (p_timeoutId pending' ≠ q_timeoutId pending) as Hh.
    { apply (timer_callback_ne (timers m) _ _ tmq tm Hlq Hl). congruence. }
    exists tm. rewrite timer_lookup_clearTimeout_ne by done.
    by rewrite Hflags.
  - intros tm k Hin Hcb. apply elem_of_clearTimeout in Hin as [Hin Hne].
    by apply Hp3.
  - intros k [Hin|Hin]; apply Hids; [left|by right]. by apply keys_delete in Hin.
Qed.

(** Likewise for a pending permission request. *)
Lemma wf_remove_permission (m m' : SessionManager.t) p pending :
  wf m → JsMap.get p (pendingPermissions m) = Some pending →
  timers m' = Timers.clearTimeout (p_timeoutId pending) (timers m) →
  pendingPermissions m' = JsMap.delete p (pendingPermissions m) →
  pendingQuestions m' = pendingQuestions m →
  (∀ h, h ≠ p_timeoutId pending → completedFlags m' !! h = completedFlags m !! h) →
  uuidSource m' = uuidSource m → uuidsTaken m' = uuidsTaken m → wf m'.
Proof.
  intros (Hwf & Hndq & Hndp & Hq2 & Hq3 & Hp2 & Hp3 & Hids & Hinj)
    Hget Htimers Hpermissions Hquestions Hflags Hsource Htaken.
  destruct (Hp2 p pending (get_Some_elem _ _ _ Hget)) as (tmp & Hlp & Hcbp & _).
  unfold wf, questionsArmed, questionTimersOwned, permissionsArmed,
    permissionTimersOwned, idsDrawn, isCompleted in *.
  rewrite Htimers, Hquestions, Hpermissions, Hsource, Htaken.
  split; [by apply wfTable_clearTimeout|]. split; [done|].
  split; [by apply NoDup_keys_delete|].
  split; [|split; [|split; [|split; [|split]]]]; try done.
  - intros k pending' Hin.
    destruct (Hq2 k pending' Hin) as (tm & Hl & Hcb & Hflag).
    assert (q_timeoutId pending' ≠ p_timeoutId pending) as Hh.
    { apply (timer_callback_ne (timers m) _ _ tmp tm Hlp Hl). congruence. }
    exists tm. rewrite timer_lookup_clearTimeout_ne by done.
    by rewrite Hflags.
  - intros tm k Hin Hcb. apply elem_of_clearTimeout in Hin as [Hin Hne].
    by apply Hq3.
  - intros k pending' Hin. apply elem_of_delete in Hin as [Hin Hne].
    destruct (Hp2 k pending' Hin) as (tm & Hl & Hcb & Hflag).
    assert (p_timeoutId pending' ≠ p_timeoutId pending) as Hh.
    { apply (timer_callback_ne (timers m) _ _ tmp tm Hlp Hl). congruence. }
    exists tm. rewrite timer_lookup_clearTimeout_ne by done.
    by rewrite Hflags.
  - intros tm k Hin Hcb. apply elem_of_clearTimeout in Hin as [Hin Hne].
    destruct (Hp3 tm k Hin Hcb) as (pending' & Hget' & Hh').
    exists pending'. split; [|done]. rewrite get_delete_ne; [done|].
    intros ->. congruence.
  - intros k [Hin|Hin]; apply Hids; [by left|right]. by apply keys_delete in Hin.
Qed.

End BrokerInvariance.

Section BrokerOperations.

Import SessionManager BrokerInvariant TimerInvariant.

Lemma handleSessionEvent_question_eq now sid x text options multi (m : SessionManager.t) :
  handleSessionEvent now sid (question x text options multi) m
  = let q := uuidSource m (uuidsTaken m) in
    let h := Timers.nextHandle (timers m) in
    set_forwarded (forwarded m ++ [(sid, question q text options multi)])
      (set_pendingQuestions
         (JsMap.set q (mkQuestion q sid text options multi h) (pendingQuestions m))
         (set_completedFlags (<[h := false]> (completedFlags m))
            (set_timers
               (Timers.setTimeout (QuestionTimeout q) now QUESTION_TIMEOUT_MS (timers m)).2
               (set_uuidsTaken (S (uuidsTaken m)) m)))).
Proof. reflexivity. Qed.

Lemma handleSessionEvent_permission_eq now sid x tool toolInput options
    (m : SessionManager.t) :
  handleSessionEvent now sid (permission_request x tool toolInput options) m
  = let p := uuidSource m (uuidsTaken m) in
    let h := Timers.nextHandle (timers m) in
    set_forwarded (forwarded m ++ [(sid, permission_request p tool toolInput options)])
      (set_pendingPermissions
         (JsMap.set p (mkPermission p sid tool toolInput options h) (pendingPermissions m))
         (set_completedFlags (<[h := false]> (completedFlags m))
            (set_timers
               (Timers.setTimeout (PermissionTimeout p) now QUESTION_TIMEOUT_MS
                  (timers m)).2
               (set_uuidsTaken (S (uuidsTaken m)) m)))).
Proof. reflexivity. Qed.

(** A question event registers a pending question under a fresh id, with
    an expiry timer due five minutes later. *)
Lemma question_registers now sid x text options multi (m : SessionManager.t) :
  wf m →
  let q := uuidSource m (uuidsTaken m) in
  let m1 := handleSessionEvent now sid (question x text options multi) m in
  wf m1
  ∧ awaiting q (mkQuestion q sid text options multi (Timers.nextHandle (timers m)))
      (now + QUESTION_TIMEOUT_MS) m1
  ∧ forwarded m1 = forwarded m ++ [(sid, question q text options multi)]
  ∧ settlements m1 = settlements m.
Proof.
  intros Hwfm q m1. pose proof (next_uuid_fresh m Hwfm) as [Hfreshq Hfreshp].
  pose proof Hwfm as (Hwf & Hndq & Hndp & Hq2 & Hq3 & Hp2 & Hp3 & Hids & Hinj).
  fold q in Hfreshq, Hfreshp.
  subst m1. rewrite handleSessionEvent_question_eq. cbv zeta. fold q.
  set (h := Timers.nextHandle (timers m)).
  set (entry := mkQuestion q sid text options multi h).
  assert (Timers.lookup h
            (Timers.setTimeout (QuestionTimeout q) now QUESTION_TIMEOUT_MS (timers m)).2
          = Some (Timers.mkTimer h (now + QUESTION_TIMEOUT_MS) (QuestionTimeout q)))
    as Hnew by by apply timer_lookup_setTimeout_new.
  assert (∀ h' tm, Timers.lookup h' (timers m) = Some tm →
            Timers.lookup h'
              (Timers.setTimeout (QuestionTimeout q) now QUESTION_TIMEOUT_MS (timers m)).2
            = Some tm ∧ h' ≠ h) as Hold.
  { intros h' tm Hl. split; [by apply timer_lookup_setTimeout_old|].
    pose proof (timer_lookup_below _ _ _ Hwf Hl). unfold h. lia. }
  split; [|split; [|done]].
  - unfold wf, questionsArmed, questionTimersOwned, permissionsArmed,
      permissionTimersOwned, idsDrawn, isCompleted in *. manager_simpl.
    split; [by apply wfTable_setTimeout|]. split; [by apply NoDup_keys_set|].
    split; [done|]. split; [|split; [|split; [|split; [|split]]]]; try done.
    + intros k pending Hin. apply elem_of_set in Hin as [[-> ->]|Hin].
      * eexists. split; [exact Hnew|]. split; [done|]. by rewrite lookup_insert_eq.
      * destruct (Hq2 k pending Hin) as (tm & Hl & Hcb & Hflag).
        destruct (Hold _ _ Hl) as [Hl' Hne].
        exists tm. split; [done|]. split; [done|]. by rewrite lookup_insert_ne.
    + intros tm k Hin Hcb. apply elem_of_setTimeout in Hin as [Hin| ->].
      * destruct (Hq3 tm k Hin Hcb) as (pending & Hget & Hh).
        exists pending. split; [|done]. rewrite get_set_ne; [done|].
        intros <-. congruence.
      * injection Hcb as <-. exists entry. split; [by rewrite get_set_eq|done].
    + intros k pending Hin.
      destruct (Hp2 k pending Hin) as (tm & Hl & Hcb & Hflag).
      destruct (Hold _ _ Hl) as [Hl' Hne].
      exists tm. split; [done|]. split; [done|]. by rewrite lookup_insert_ne.
    + intros tm k Hin Hcb. apply elem_of_setTimeout in Hin as [Hin| ->]; [|done].
      by apply Hp3.
    + intros k [Hin|Hin].
      * apply keys_set in Hin as [->|Hin].
        -- exists (uuidsTaken m). split; [lia|done].
        -- destruct (Hids k (or_introl Hin)) as (n & Hn & ->). exists n. split; [lia|done].
      * destruct (Hids k (or_intror Hin)) as (n & Hn & ->). exists n. split; [lia|done].
  - unfold awaiting, isCompleted. manager_simpl. rewrite get_set_eq.
    split; [done|]. split; [exact Hnew|]. split; [by rewrite lookup_insert_eq|].
    intros tm Hin Hcb. apply elem_of_setTimeout in Hin as [Hin| ->]; [|done].
    destruct (Hq3 tm q Hin Hcb) as (pending & Hget & _). congruence.
Qed.

Lemma permission_registers now sid x tool toolInput options (m : SessionManager.t) :
  wf m → wf (handleSessionEvent now sid (permission_request x tool toolInput options) m).
Proof.
  intros Hwfm. pose proof (next_uuid_fresh m Hwfm) as [Hfreshq Hfreshp].
  pose proof Hwfm as (Hwf & Hndq & Hndp & Hq2 & Hq3 & Hp2 & Hp3 & Hids & Hinj).
  rewrite handleSessionEvent_permission_eq. cbv zeta.
  set (p := uuidSource m (uuidsTaken m)) in *.
  set (h := Timers.nextHandle (timers m)).
  set (entry := mkPermission p sid tool toolInput options h).
  assert (Timers.lookup h
            (Timers.setTimeout (PermissionTimeout p) now QUESTION_TIMEOUT_MS (timers m)).2
          = Some (Timers.mkTimer h (now + QUESTION_TIMEOUT_MS) (PermissionTimeout p)))
    as Hnew by by apply timer_lookup_setTimeout_new.
  assert (∀ h' tm, Timers.lookup h' (timers m) = Some tm →
            Timers.lookup h'
              (Timers.setTimeout (PermissionTimeout p) now QUESTION_TIMEOUT_MS
                 (timers m)).2
            = Some tm ∧ h' ≠ h) as Hold.
  { intros h' tm Hl. split; [by apply timer_lookup_setTimeout_old|].
    pose proof (timer_lookup_below _ _ _ Hwf Hl). unfold h. lia. }
  unfold wf, questionsArmed, questionTimersOwned, permissionsArmed,
    permissionTimersOwned, idsDrawn, isCompleted in *. manager_simpl.
  split; [by apply wfTable_setTimeout|]. split; [done|].
  split; [by apply NoDup_keys_set|].
  split; [|split; [|split; [|split; [|split]]]]; try done.
  - intros k pending Hin.
    destruct (Hq2 k pending Hin) as (tm & Hl & Hcb & Hflag).
    destruct (Hold _ _ Hl) as [Hl' Hne].
    exists tm. split; [done|]. split; [done|]. by rewrite lookup_insert_ne.
  - intros tm k Hin Hcb. apply elem_of_setTimeout in Hin as [Hin| ->]; [|done].
    by apply Hq3.
  - intros k pending Hin. apply elem_of_set in Hin as [[-> ->]|Hin].
    + eexists. split; [exact Hnew|]. split; [done|]. by rewrite lookup_insert_eq.
    + destruct (Hp2 k pending Hin) as (tm & Hl & Hcb & Hflag).
      destruct (Hold _ _ Hl) as [Hl' Hne].
      exists tm. split; [done|]. split; [done|]. by rewrite lookup_insert_ne.
  - intros tm k Hin Hcb. apply elem_of_setTimeout in Hin as [Hin| ->].
    + destruct (Hp3 tm k Hin Hcb) as (pending & Hget & Hh).
      exists pending. split; [|done]. rewrite get_set_ne; [done|].
      intros <-. congruence.
    + injection Hcb as <-. exists entry. split; [by rewrite get_set_eq|done].
  - intros k [Hin|Hin].
    + destruct (Hids k (or_introl Hin)) as (n & Hn & ->). exists n. split; [lia|done].
    + apply keys_set in Hin as [->|Hin].
      * exists (uuidsTaken m). split; [lia|done].
      * destruct (Hids k (or_intror Hin)) as (n & Hn & ->). exists n. split; [lia|done].
Qed.

Lemma handleSessionEvent_wf now sid event (m : SessionManager.t) :
  wf m → wf (handleSessionEvent now sid event m).
Proof.
  intros Hwf.
  destruct event;
    try solve [apply (wf_frame m); [done|reflexivity..|simpl; lia]].
  - by apply question_registers.
  - by apply permission_registers.
Qed.

Lemma deliver_wf now sid events (m : SessionManager.t) :
  wf m → wf (deliver now sid events m).
Proof.
  intros Hwf. unfold deliver. apply (fold_left_preserves _ wf); [|done].
  intros m' event _ Hm'. by apply handleSessionEvent_wf.
Qed.

Lemma answerQuestion_wf q answer (m : SessionManager.t) :
  wf m → wf (answerQuestion q answer m).1.
Proof.
  intros Hwf. unfold answerQuestion.
  destruct (JsMap.get q (pendingQuestions m)) as [pending|] eqn:Hget; [|done].
  destruct (wf_awaiting m q pending Hwf Hget) as (deadline & _ & _ & Hflag & _).
  manager_simpl. apply (wf_remove_question m _ q pending Hwf Hget);
    unfold resolveClosure, isCompleted in *; manager_simpl; rewrite Hflag;
    manager_simpl; try done.
  - apply clearTimeout_idem.
  - intros h Hne. by rewrite lookup_insert_ne.
Qed.

Lemma respondToPermission_wf p decision (m : SessionManager.t) :
  wf m → wf (respondToPermission p decision m).1.
Proof.
  intros Hwfm. unfold respondToPermission.
  destruct (JsMap.get p (pendingPermissions m)) as [pending|] eqn:Hget; [|done].
  pose proof Hwfm as (Hwf & Hndq & Hndp & Hq2 & Hq3 & Hp2 & Hp3 & Hids & Hinj).
  destruct (Hp2 p pending (get_Some_elem _ _ _ Hget)) as (tm & _ & _ & Hflag).
  manager_simpl. apply (wf_remove_permission m _ p pending Hwfm Hget);
    unfold resolveClosure, isCompleted in *; manager_simpl; rewrite Hflag;
    manager_simpl; try done.
  - apply clearTimeout_idem.
  - intros h Hne. by rewrite lookup_insert_ne.
Qed.

Lemma broker_fireTimer_wf h (m : SessionManager.t) : wf m → wf (fireTimer h m).
Proof.
  intros Hwfm.
  pose proof Hwfm as (Hwf & Hndq & Hndp & Hq2 & Hq3 & Hp2 & Hp3 & Hids & Hinj).
  destruct (Timers.lookup h (timers m)) as [tm|] eqn:Hl.
  - destruct (timer_lookup_Some _ _ _ Hl) as [Hin Hh].
    destruct (Timers.callback tm) as [q|p] eqn:Hcb.
    + destruct (Hq3 tm q Hin Hcb) as (pending & Hget & Hpending).
      destruct (Hq2 q pending (get_Some_elem _ _ _ Hget)) as (_ & _ & _ & Hflag).
      rewrite Hpending, Hh in Hflag.
      rewrite (broker_fireTimer_question h m tm q Hl Hcb). cbv zeta.
      rewrite Hflag, Hget.
      apply (wf_remove_question m _ q pending Hwfm Hget); manager_simpl;
        rewrite ?Hpending, ?Hh; try done.
      intros h' Hne. by rewrite lookup_insert_ne.
    + destruct (Hp3 tm p Hin Hcb) as (pending & Hget & Hpending).
      destruct (Hp2 p pending (get_Some_elem _ _ _ Hget)) as (_ & _ & _ & Hflag).
      rewrite Hpending, Hh in Hflag.
      rewrite (broker_fireTimer_permission h m tm p Hl Hcb). cbv zeta.
      rewrite Hflag, Hget.
      apply (wf_remove_permission m _ p pending Hwfm Hget); manager_simpl;
        rewrite ?Hpending, ?Hh; try done.
      intros h' Hne. by rewrite lookup_insert_ne.
  - by rewrite (broker_fireTimer_unarmed h m Hl).
Qed.

Lemma broker_advance_wf (time : Z) (m : SessionManager.t) : wf m → wf (advance time m).
Proof.
  intros Hwf. unfold advance, fireAll. apply (fold_left_preserves _ wf); [|done].
  intros m' h _ Hm'. by apply broker_fireTimer_wf.
Qed.

End BrokerOperations.

Section BrokerRuns.

Import SessionManager BrokerInvariant BrokerOps TimerInvariant.

Lemma broker_step_wf op (m : SessionManager.t) : wf m → wf (step op m).
Proof.
  intros Hwf. destruct op as [now sid event|q answer|p decision|time]; simpl.
  - by apply handleSessionEvent_wf.
  - by apply answerQuestion_wf.
  - by apply respondToPermission_wf.
  - by apply broker_advance_wf.
Qed.

Lemma broker_run_wf ops (m : SessionManager.t) : wf m → wf (run ops m).
Proof.
  intros Hwf. unfold run. apply (fold_left_preserves _ wf); [|done].
  intros m' op _ Hm'. by apply broker_step_wf.
Qed.

Lemma broker_fireTimer_source h (m : SessionManager.t) :
  uuidSource (fireTimer h m) = uuidSource m ∧ uuidsTaken (fireTimer h m) = uuidsTaken m.
Proof.
  unfold fireTimer, runCallback.
  destruct (Timers.lookup h (timers m)) as [tm|]; [|done].
  destruct (isCompleted _ _); [done|].
  destruct (Timers.callback tm); manager_simpl.
  - by destruct (JsMap.get _ _).
  - by destruct (JsMap.get _ _).
Qed.

Lemma broker_step_source op (m : SessionManager.t) :
  uuidSource (step op m) = uuidSource m ∧ (uuidsTaken m ≤ uuidsTaken (step op m))%nat.
Proof.
  destruct op as [now sid event|q answer|p decision|time]; simpl.
  - destruct event; simpl; split; (done || lia).
  - unfold answerQuestion, resolveClosure.
    destruct (JsMap.get _ _); [|done]. by destruct (isCompleted _ _).
  - unfold respondToPermission, resolveClosure.
    destruct (JsMap.get _ _); [|done]. by destruct (isCompleted _ _).
  - unfold advance, fireAll.
    apply (fold_left_preserves _
             (λ acc, uuidSource acc = uuidSource m
                     ∧ (uuidsTaken m ≤ uuidsTaken acc)%nat)); [|done].
    intros acc h _ [Hsource Htaken].
    destruct (broker_fireTimer_source h acc) as [-> ->]. done.
Qed.

Lemma step_drawn q op (m : SessionManager.t) : drawn q m → drawn q (step op m).
Proof.
  intros (n & Hn & ->). destruct (broker_step_source op m) as [Hsource Htaken].
  exists n. rewrite Hsource. split; [lia|done].
Qed.

(** Whatever else happens to the broker, short of the deadline and of an
    answer to [q], question [q] stays pending and is not settled. *)
Lemma step_keeps_awaiting q pending deadline op (m : SessionManager.t) :
  wf m → awaiting q pending deadline m → leaves q deadline op →
  awaiting q pending deadline (step op m)
  ∧ settlementsOf q (step op m) = settlementsOf q m.
Proof.
  intros Hwfm Haw Hop.
  pose proof Hwfm as (Hwf & Hndq & Hndp & Hq2 & Hq3 & Hp2 & Hp3 & Hids & Hinj).
  pose proof Haw as (Hget & Hlookup & Hflag & Honly).
  destruct op as [now sid event|q' answer|p decision|time]; simpl.
  - pose proof (next_uuid_fresh m Hwfm) as [Hfresh _].
    pose proof (timer_lookup_below _ _ _ Hwf Hlookup) as Hbelow.
    destruct event;
      try solve [unfold awaiting, settlementsOf, isCompleted in *; simpl; done].
    + rewrite handleSessionEvent_question_eq. cbv zeta.
      set (q' := uuidSource m (uuidsTaken m)) in *.
      assert (q' ≠ q) as Hne by (intros ->; congruence).
      unfold awaiting, settlementsOf, isCompleted in *. manager_simpl.
      split; [|done]. split; [by rewrite get_set_ne|].
      split; [by apply timer_lookup_setTimeout_old|].
      split; [rewrite lookup_insert_ne; [done|lia]|].
      intros tm Hin Hcb. apply elem_of_setTimeout in Hin as [Hin| ->].
      * by apply Honly.
      * simpl in Hcb. congruence.
    + rewrite handleSessionEvent_permission_eq. cbv zeta.
      unfold awaiting, settlementsOf, isCompleted in *. manager_simpl.
      split; [|done]. split; [done|].
      split; [by apply timer_lookup_setTimeout_old|].
      split; [rewrite lookup_insert_ne; [done|lia]|].
      intros tm Hin Hcb. apply elem_of_setTimeout in Hin as [Hin| ->].
      * by apply Honly.
      * simpl in Hcb. congruence.
  - simpl in Hop. unfold answerQuestion.
    destruct (JsMap.get q' (pendingQuestions m)) as [pending'|] eqn:Hget'; [|done].
    destruct (Hq2 q' pending' (get_Some_elem _ _ _ Hget')) as (tm' & Hl' & Hcb' & Hflag').
    assert (q_timeoutId pending' ≠ q_timeoutId pending) as Hne.
    { intros Heq. rewrite Heq in Hl'. rewrite Hlookup in Hl'.
      injection Hl' as <-. simpl in Hcb'. congruence. }
    unfold resolveClosure, awaiting, settlementsOf, isCompleted in *. manager_simpl.
    rewrite Hflag'. manager_simpl.
    split.
    + split; [by rewrite get_delete_ne|].
      split; [by rewrite !timer_lookup_clearTimeout_ne|].
      split; [by rewrite lookup_insert_ne|].
      intros tm Hin Hcb. apply Honly; [|done].
      apply elem_of_clearTimeout in Hin as [Hin _].
      by apply elem_of_clearTimeout in Hin as [Hin _].
    + rewrite filter_app. simpl. rewrite filter_cons, decide_False; [|simpl; congruence].
      by rewrite filter_nil, app_nil_r.
  - unfold respondToPermission.
    destruct (JsMap.get p (pendingPermissions m)) as [pending'|] eqn:Hget'; [|done].
    destruct (Hp2 p pending' (get_Some_elem _ _ _ Hget')) as (tm' & Hl' & Hcb' & Hflag').
    assert (p_timeoutId pending' ≠ q_timeoutId pending) as Hne.
    { intros Heq. rewrite Heq in Hl'. rewrite Hlookup in Hl'.
      injection Hl' as <-. simpl in Hcb'. congruence. }
    unfold resolveClosure, awaiting, settlementsOf, isCompleted in *. manager_simpl.
    rewrite Hflag'. manager_simpl.
    split.
    + split; [done|].
      split; [by rewrite !timer_lookup_clearTimeout_ne|].
      split; [by rewrite lookup_insert_ne|].
      intros tm Hin Hcb. apply Honly; [|done].
      apply elem_of_clearTimeout in Hin as [Hin _].
      by apply elem_of_clearTimeout in Hin as [Hin _].
    + rewrite filter_app. simpl. rewrite filter_cons, decide_False; [|simpl; congruence].
      by rewrite filter_nil, app_nil_r.
  - by apply advance_keeps_awaiting.
Qed.

(** Once [q] is settled nothing settles it again, and no event brings it
    back: a later question draws another id. *)
Lemma step_keeps_settled q op (m : SessionManager.t) :
  wf m → drawn q m → settled q m →
  settled q (step op m) ∧ settlementsOf q (step op m) = settlementsOf q m.
Proof.
  intros Hwfm (n & Hn & Hq) Hsettled.
  pose proof Hwfm as (Hwf & Hndq & Hndp & Hq2 & Hq3 & Hp2 & Hp3 & Hids & Hinj).
  pose proof Hsettled as (Hnone & Hno).
  destruct op as [now sid event|q' answer|p decision|time]; simpl.
  - destruct event;
      try solve [unfold settled, settlementsOf in *; simpl; done].
    + rewrite handleSessionEvent_question_eq. cbv zeta.
      set (q' := uuidSource m (uuidsTaken m)) in *.
      assert (q' ≠ q) as Hne.
      { unfold q'. rewrite Hq. intros Heq. apply Hinj in Heq. lia. }
      unfold settled, settlementsOf in *. manager_simpl.
      split; [|done]. split; [by rewrite get_set_ne|].
      intros tm Hin. apply elem_of_setTimeout in Hin as [Hin| ->].
      * by apply Hno.
      * simpl. congruence.
    + rewrite handleSessionEvent_permission_eq. cbv zeta.
      unfold settled, settlementsOf in *. manager_simpl.
      split; [|done]. split; [done|].
      intros tm Hin. apply elem_of_setTimeout in Hin as [Hin| ->].
      * by apply Hno.
      * simpl. congruence.
  - unfold answerQuestion.
    destruct (JsMap.get q' (pendingQuestions m)) as [pending'|] eqn:Hget'; [|done].
    assert (q' ≠ q) as Hne by (intros ->; congruence).
    unfold resolveClosure, settled, settlementsOf, isCompleted in *. manager_simpl.
    split.
    + destruct (default false (completedFlags m !! q_timeoutId pending'));
        manager_simpl; (split; [by rewrite get_delete_ne|]);
        intros tm Hin; apply Hno;
        repeat (apply elem_of_clearTimeout in Hin as [Hin _]); done.
    + destruct (default false (completedFlags m !! q_timeoutId pending'));
        manager_simpl; rewrite filter_app; simpl;
        (rewrite filter_cons, decide_False; [|simpl; congruence]);
        by rewrite filter_nil, app_nil_r.
  - unfold respondToPermission.
    destruct (JsMap.get p (pendingPermissions m)) as [pending'|] eqn:Hget'; [|done].
    unfold resolveClosure, settled, settlementsOf, isCompleted in *. manager_simpl.
    split.
    + destruct (default false (completedFlags m !! p_timeoutId pending'));
        manager_simpl; (split; [done|]);
        intros tm Hin; apply Hno;
        repeat (apply elem_of_clearTimeout in Hin as [Hin _]); done.
    + destruct (default false (completedFlags m !! p_timeoutId pending'));
        manager_simpl; rewrite filter_app; simpl;
        (rewrite filter_cons, decide_False; [|simpl; congruence]);
        by rewrite filter_nil, app_nil_r.
  - by apply fireAll_keeps_settled.
Qed.

Lemma run_nil (m : SessionManager.t) : run [] m = m.
Proof. reflexivity. Qed.

Lemma run_cons op ops (m : SessionManager.t) : run (op :: ops) m = run ops (step op m).
Proof. reflexivity. Qed.

Lemma run_drawn q ops (m : SessionManager.t) : drawn q m → drawn q (run ops m).
Proof.
  intros Hdrawn. unfold run. apply (fold_left_preserves _ (drawn q)); [|done].
  intros m' op _ Hm'. by apply step_drawn.
Qed.

Lemma run_keeps_awaiting q pending deadline ops (m : SessionManager.t) :
  wf m → awaiting q pending deadline m → Forall (leaves q deadline) ops →
  awaiting q pending deadline (run ops m)
  ∧ settlementsOf q (run ops m) = settlementsOf q m.
Proof.
  intros Hwf Haw Hops. revert m Hwf Haw.
  induction Hops as [|op ops Hop Hops IH]; intros m Hwf Haw; [done|].
  rewrite run_cons.
  destruct (step_keeps_awaiting q pending deadline op m Hwf Haw Hop) as [Haw' Hlog'].
  destruct (IH (step op m) (broker_step_wf op m Hwf) Haw') as [Haw'' Hlog''].
  split; [done|]. by rewrite Hlog''.
Qed.

Lemma run_keeps_settled q ops (m : SessionManager.t) :
  wf m → drawn q m → settled q m →
  settled q (run ops m) ∧ settlementsOf q (run ops m) = settlementsOf q m.
Proof.
  revert m. induction ops as [|op ops IH]; intros m Hwf Hdrawn Hsettled; [done|].
  rewrite run_cons.
  destruct (step_keeps_settled q op m Hwf Hdrawn Hsettled) as [Hsettled' Hlog'].
  destruct (IH (step op m) (broker_step_wf op m Hwf) (step_drawn q op m Hdrawn) Hsettled')
    as [Hsettled'' Hlog''].
  split; [done|]. by rewrite Hlog''.
Qed.

(** After a settled question nothing more happens to it. *)
Lemma settled_for_good q later answer (m : SessionManager.t) :
  wf m → drawn q m → settled q m →
  settlementsOf q (run later m) = settlementsOf q m
  ∧ answerQuestion q answer (run later m) = (run later m, inl (questionNotFound q)).
Proof.
  intros Hwf Hdrawn Hsettled.
  destruct (run_keeps_settled q later m Hwf Hdrawn Hsettled) as [Hsettled' Hlog].
  split; [done|]. by apply answer_settled.
Qed.

Lemma numberedUuid_inj : Inj (=) (=) numberedUuid.
Proof.
  intros n n' Heq. unfold numberedUuid in Heq.
  apply (inj (String.app "request-")) in Heq.
  revert n' Heq. induction n as [|n IH]; intros [|n'] Heq; simpl in Heq; try done.
  f_equal. apply IH. by injection Heq.
Qed.

End BrokerRuns.

(** ** The pending-question broker: one settlement per question *)

Section PendingQuestions.

Import SessionManager BrokerInvariant BrokerOps TimerInvariant.

(** C5.  A question event registers a pending question under a fresh id
    [q], with an expiry timer due 5 minutes later.  Whatever else happens to
    the broker in between (other events, answers to other questions,
    responses to permission requests, time passing short of the deadline),
    the question stays pending and unsettled, and an answer then calls its
    resolver once, leaves the question not pending and no expiry timer of
    it armed.  If instead time reaches the deadline, the expiry timer
    rejects the question once with "Question timeout" and removes it.
    Either way nothing settles the question again afterwards, and a later
    answer for [q] throws the "Question not found" error and changes
    nothing. *)
Theorem pending_question_settles_once (m : SessionManager.t) (now : Z)
    (sid x text : string) (options : list (string * string)) (multi : bool) :
  wf m →
  let q := uuidSource m (uuidsTaken m) in
  let entry := mkQuestion q sid text options multi (Timers.nextHandle (timers m)) in
  let registered := handleSessionEvent now sid (question x text options multi) m in
  let deadline := (now + QUESTION_TIMEOUT_MS)%Z in
  QUESTION_TIMEOUT_MS = (5 * 60 * 1000)%Z
  ∧ ∀ between, Forall (leaves q deadline) between →
      let m1 := run between registered in
      awaiting q entry deadline m1
      ∧ settlementsOf q m1 = settlementsOf q m
      ∧ (∀ answer, ∃ m2,
           answerQuestion q answer m1 = (m2, inr ())
           ∧ settlementsOf q m2 = settlementsOf q m ++ [QuestionResolved q answer]
           ∧ settled q m2
           ∧ ∀ later answer',
               settlementsOf q (run later m2) = settlementsOf q m2
               ∧ answerQuestion q answer' (run later m2)
                 = (run later m2, inl (questionNotFound q)))
      ∧ (∀ time, (deadline ≤ time)%Z →
           let m2 := advance time m1 in
           settlementsOf q m2
           = settlementsOf q m ++ [QuestionRejected q "Question timeout"]
           ∧ settled q m2
           ∧ ∀ later answer',
               settlementsOf q (run later m2) = settlementsOf q m2
               ∧ answerQuestion q answer' (run later m2)
                 = (run later m2, inl (questionNotFound q))).
Proof.
  intros Hwf q entry registered deadline. split; [reflexivity|].
  intros between Hbetween m1.
  destruct (question_registers now sid x text options multi m Hwf)
    as (Hwf0 & Haw0 & _ & Hlog0).
  fold q entry registered deadline in Hwf0, Haw0, Hlog0.
  assert (drawn q registered) as Hdrawn0.
  { exists (uuidsTaken m). unfold registered.
    rewrite handleSessionEvent_question_eq. manager_simpl. split; [lia|done]. }
  assert (settlementsOf q registered = settlementsOf q m) as Hlog0'
    by (unfold settlementsOf; by rewrite Hlog0).
  destruct (run_keeps_awaiting q entry deadline between registered Hwf0 Haw0 Hbetween)
    as [Haw1 Hlog1].
  fold m1 in Haw1, Hlog1.
  assert (wf m1) as Hwf1 by by apply broker_run_wf.
  assert (drawn q m1) as Hdrawn1 by by apply run_drawn.
  split; [done|]. split; [by rewrite Hlog1|]. split.
  - intros answer.
    destruct (answer_pending q entry deadline answer m1 Haw1)
      as (m2 & Heq & Hlog2 & Hsettled2 & _).
    pose proof (answerQuestion_wf q answer m1 Hwf1) as Hwf2.
    pose proof (step_drawn q (AnswerQuestion q answer) m1 Hdrawn1) as Hdrawn2.
    simpl in Hdrawn2. rewrite Heq in Hwf2, Hdrawn2. simpl in Hwf2, Hdrawn2.
    exists m2. split; [done|]. split; [|split; [done|]].
    + unfold settlementsOf at 1. rewrite Hlog2, filter_app.
      fold (settlementsOf q m1). rewrite Hlog1, Hlog0'.
      by rewrite filter_cons, decide_True, filter_nil.
    + intros later answer'. by apply settled_for_good.
  - intros time Htime m2.
    destruct Hwf1 as [Htable1 Hrest1].
    destruct (advance_expires q entry deadline time m1 Htable1 Haw1 Htime)
      as [Hsettled2 Hlog2].
    fold m2 in Hsettled2, Hlog2.
    assert (wf m2) as Hwf2 by by apply broker_advance_wf.
    pose proof (step_drawn q (Advance time) m1 Hdrawn1) as Hdrawn2.
    split; [by rewrite Hlog2, Hlog1, Hlog0'|]. split; [done|].
    intros later answer'. by apply settled_for_good.
Qed.

Lemma pending_question_settles_once_witness :
  let q := numberedUuid 0 in
  let asked :=
    handleSessionEvent 0 "s1" (question "" "Which colour?" [("red", "warm")] false)
      numberedManager in
  let between :=
    [Event 20 "s2" (question "" "Which size?" [] true);
     Event 30 "s1" (message_chunk "thinking it over");
     AnswerQuestion (numberedUuid 1) "large";
     Advance 299999] in
  let waiting := run between asked in
  settlementsOf q (answerQuestion q "red" waiting).1 = [QuestionResolved q "red"]
  ∧ (answerQuestion q "blue" (answerQuestion q "red" waiting).1).2
    = inl (questionNotFound q)
  ∧ settlementsOf q (advance 300000 waiting) = [QuestionRejected q "Question timeout"]
  ∧ (answerQuestion q "red" (advance 300000 waiting)).2 = inl (questionNotFound q).
Proof.
  intros q asked between waiting.
  destruct (pending_question_settles_once numberedManager 0 "s1" "" "Which colour?"
              [("red", "warm")] false (new_broker_wf _ _ _ _ numberedUuid_inj))
    as [_ Hrun].
  change (uuidSource numberedManager (uuidsTaken numberedManager)) with q in Hrun.
  assert (Forall (leaves q (0 + QUESTION_TIMEOUT_MS)) between) as Hbetween.
  { repeat constructor; simpl; done. }
  destruct (Hrun between Hbetween) as (_ & _ & Hanswer & Hexpire).
  fold asked waiting in Hanswer, Hexpire.
  destruct (Hanswer "red") as (m2 & Heq & Hlog & _ & Hlater).
  destruct (Hlater [] "blue") as [_ Hfail].
  destruct (Hexpire 300000%Z) as (Hlog' & _ & Hlater'); [done|].
  destruct (Hlater' [] "red") as [_ Hfail'].
  rewrite Heq. cbn [fst snd]. split; [exact Hlog|].
  rewrite run_nil in Hfail, Hfail'. rewrite Hfail. split; [reflexivity|].
  split; [exact Hlog'|]. rewrite Hfail'. reflexivity.
Defined.

End PendingQuestions.

(** ** Webhook delivery: queueing, retries and their bounds *)

Section WebhookExtras.

Import WebhookSender WebhookRuns.

Lemma queueEvent_irrelevant now sid event (s : Sender) :
  isRelevantForPoke event = false → queueEvent now sid event s = s.
Proof. intros H. unfold queueEvent. by rewrite H. Qed.

Lemma queueEvent_relevant now sid event (s : Sender) :
  isRelevantForPoke event = true →
  queueEvent now sid event s
  = mkSender (queue s ++ [(sid, event)])
      (Some (default (now + batchIntervalMs s)%Z (timer s))) (batchIntervalMs s).
Proof. intros H. unfold queueEvent. rewrite H. simpl. by destruct (timer s). Qed.

(** X1.  [queueEvent] keeps the events that matter to Poke, in the order
    they arrive, and drops the others without a trace; the batch timer is
    armed by the first event let through when none is armed, for one batch
    interval, and later events do not move it. *)
Theorem queueEvents_keeps_relevant_events_in_order
    (events : list (Z * string * SessionEvent)) (s : Sender) :
  let s' := queueEvents events s in
  queue s' = queue s ++ ((λ ev, (ev.1.2, ev.2)) <$> relevantEvents events)
  ∧ batchIntervalMs s' = batchIntervalMs s
  ∧ timer s'
    = match timer s, relevantEvents events with
      | Some armed, _ => Some armed
      | None, first :: _ => Some (first.1.1 + batchIntervalMs s)%Z
      | None, [] => None
      end.
Proof.
  revert s. unfold queueEvents, relevantEvents.
  induction events as [|[[now sid] event] events IH]; intros s; simpl.
  - rewrite app_nil_r. by destruct (timer s).
  - destruct (isRelevantForPoke event) eqn:Hrel.
    + rewrite filter_cons, decide_True by done.
      rewrite queueEvent_relevant by done.
      destruct (IH (mkSender (queue s ++ [(sid, event)])
                      (Some (default (now + batchIntervalMs s)%Z (timer s)))
                      (batchIntervalMs s))) as (Hq & Hb & Ht).
      simpl in *. rewrite Hq, Hb, Ht, <- app_assoc. split; [done|]. split; [done|].
      by destruct (timer s).
    + rewrite filter_cons, decide_False by (simpl; congruence).
      rewrite queueEvent_irrelevant by done. apply IH.
Qed.

(** An attempt answered by a retryable response is followed by its sleep,
    when it is not the last one, and by the next attempt. *)
Lemma sendLoop_retry respond updates maxRetries remaining attempt :
  retryable (respond attempt) = true →
  sendLoop respond updates maxRetries (S remaining) attempt
  = (Request attempt updates :: backoff maxRetries attempt
       ++ (sendLoop respond updates maxRetries remaining (S attempt)).1,
     (sendLoop respond updates maxRetries remaining (S attempt)).2).
Proof.
  intros Hretry. simpl.
  destruct (sendLoop respond updates maxRetries remaining (S attempt)) as [effects outcome].
  destruct (respond attempt) as [code|]; [|done].
  simpl in Hretry. apply andb_true_iff in Hretry as [H2 H4].
  apply negb_true_iff in H2, H4. by rewrite H2, H4.
Qed.

Lemma sendLoop_conclusive respond updates maxRetries remaining attempt code :
  respond attempt = Status code → retryable (respond attempt) = false →
  sendLoop respond updates maxRetries (S remaining) attempt
  = ([Request attempt updates],
     if is2xx code then Delivered else DroppedClientError code).
Proof.
  intros Hr Hretry. simpl. rewrite Hr in *. simpl in Hretry.
  destruct (sendLoop respond updates maxRetries remaining (S attempt)) as [effects outcome].
  destruct (is2xx code); [done|]. by destruct (is4xx code).
Qed.

Lemma backoff_inner maxRetries attempt :
  (S attempt < maxRetries)%nat → backoff maxRetries attempt = [Sleep (backoffMs attempt)].
Proof.
  intros Hlt. unfold backoff, backoffMs.
  destruct (attempt <? maxRetries - 1)%nat eqn:H; [done|].
  apply Nat.ltb_ge in H. lia.
Qed.

Lemma backoff_last maxRetries attempt :
  (maxRetries ≤ S attempt)%nat → backoff maxRetries attempt = [].
Proof.
  intros Hle. unfold backoff.
  destruct (attempt <? maxRetries - 1)%nat eqn:H; [|done].
  apply Nat.ltb_lt in H. lia.
Qed.

(** A run of [failed] retryable responses that leaves attempts to spare. *)
Lemma sendLoop_failed_prefix respond updates maxRetries failed remaining attempt :
  (attempt + failed + S remaining = maxRetries)%nat →
  (∀ i, (i < failed)%nat → retryable (respond (attempt + i)%nat) = true) →
  sendLoop respond updates maxRetries (failed + S remaining) attempt
  = (failedAttempts updates attempt failed
       ++ (sendLoop respond updates maxRetries (S remaining) (attempt + failed)).1,
     (sendLoop respond updates maxRetries (S remaining) (attempt + failed)).2).
Proof.
  revert attempt. induction failed as [|failed IH]; intros attempt Hsum Hfail.
  - rewrite Nat.add_0_r. change (0 + S remaining)%nat with (S remaining).
    change (failedAttempts updates attempt 0) with (@nil Effect).
    rewrite app_nil_l. apply surjective_pairing.
  - change (S failed + S remaining)%nat with (S (failed + S remaining)).
    rewrite sendLoop_retry
      by (specialize (Hfail 0%nat); rewrite Nat.add_0_r in Hfail; apply Hfail; lia).
    rewrite backoff_inner by lia.
    rewrite IH; [|lia|].
    + replace (S attempt + failed)%nat with (attempt + S failed)%nat by lia. done.
    + intros i Hi. replace (S attempt + i)%nat with (attempt + S i)%nat by lia.
      apply Hfail. lia.
Qed.

(** X2.  The first response that is not retryable ends the delivery: after
    [failed] attempts answered by statuses outside 2xx and 4xx or by
    transport exceptions, each followed by its doubling sleep, a 2xx
    response delivers the batch and a 4xx response drops it, with no
    further request and no further sleep. *)
Theorem sendToPoke_stops_at_first_conclusive_response (respond : nat → Response)
    (updates : list (string * SessionEvent)) (maxRetries failed : nat) (code : Z) :
  (failed < maxRetries)%nat →
  (∀ i, (i < failed)%nat → retryable (respond i) = true) →
  respond failed = Status code → is2xx code || is4xx code = true →
  sendToPoke respond updates maxRetries
  = (failedAttempts updates 0 failed ++ [Request failed updates],
     if is2xx code then Delivered else DroppedClientError code).
Proof.
  intros Hlt Hfail Hr Hcode. unfold sendToPoke.
  replace maxRetries with (failed + S (maxRetries - S failed))%nat at 2 by lia.
  rewrite sendLoop_failed_prefix; [|lia|done].
  change (0 + failed)%nat with failed.
  rewrite (sendLoop_conclusive _ _ _ _ _ code); [done|done|].
  rewrite Hr. simpl. apply orb_true_iff in Hcode as [->| ->]; [done|].
  apply andb_false_r.
Qed.

Lemma sendToPoke_stops_at_first_conclusive_response_witness :
  let respond := λ attempt : nat,
    match attempt with
    | 0%nat => TransportException
    | 1%nat => Status 503
    | _ => Status 204
    end in
  sendToPoke respond DeliveryScenarios.sampleBatch 3
  = ([Request 0 DeliveryScenarios.sampleBatch; Sleep 100;
      Request 1 DeliveryScenarios.sampleBatch; Sleep 200;
      Request 2 DeliveryScenarios.sampleBatch], Delivered).
Proof.
  intros respond.
  apply (sendToPoke_stops_at_first_conclusive_response respond
           DeliveryScenarios.sampleBatch 3 2 204).
  - lia.
  - intros [|[|i]] Hi; [reflexivity|reflexivity|lia].
  - reflexivity.
  - reflexivity.
Defined.

End WebhookExtras.

Section WebhookBounds.

Import WebhookSender WebhookRuns.

Lemma requestAttempts_retry maxRetries attempt updates effects :
  requestAttempts (Request attempt updates :: backoff maxRetries attempt ++ effects)
  = attempt :: requestAttempts effects.
Proof.
  unfold requestAttempts, backoff. simpl.
  by destruct (attempt <? maxRetries - 1)%nat.
Qed.

Lemma sleeps_retry maxRetries attempt updates effects :
  sleeps (Request attempt updates :: backoff maxRetries attempt ++ effects)
  = sleeps (backoff maxRetries attempt) ++ sleeps effects.
Proof.
  unfold sleeps, backoff. simpl.
  by destruct (attempt <? maxRetries - 1)%nat.
Qed.

(** The shape of every run of the loop, whatever the endpoint answers. *)
Lemma sendLoop_shape respond updates maxRetries remaining attempt :
  (attempt + remaining = maxRetries)%nat →
  let run := sendLoop respond updates maxRetries remaining attempt in
  (requests run.1 ≤ remaining)%nat
  ∧ ((0 < remaining)%nat → (0 < requests run.1)%nat)
  ∧ requestAttempts run.1 = seq attempt (requests run.1)
  ∧ sleeps run.1 = backoffMs <$> seq attempt (requests run.1 - 1)
  ∧ (∀ a batch, Request a batch ∈ run.1 → batch = updates)
  ∧ (run.2 = DroppedAfterAllRetries
     ↔ ∀ i, (i < remaining)%nat → retryable (respond (attempt + i)%nat) = true).
Proof.
  revert attempt. induction remaining as [|remaining IH]; intros attempt Hsum run.
  - subst run. simpl. repeat split; try done; try lia.
    intros a batch Hin. by apply elem_of_nil in Hin.
  - destruct (retryable (respond attempt)) eqn:Hretry.
    + destruct (IH (S attempt) ltac:(lia)) as (Hle & Hpos & Hreq & Hsl & Hbatch & Hout).
      subst run. rewrite sendLoop_retry by done.
      set (rest := sendLoop respond updates maxRetries remaining (S attempt)) in *.
      cbn [fst snd]. unfold requests in *.
      rewrite requestAttempts_retry, sleeps_retry. cbn [length].
      split; [lia|]. split; [lia|]. split; [simpl; by rewrite <- Hreq|].
      split; [|split].
      * destruct remaining as [|remaining].
        -- rewrite backoff_last by lia. subst rest. done.
        -- rewrite backoff_inner by lia. specialize (Hpos ltac:(lia)).
           rewrite Hsl. cbn [sleeps omap app].
           destruct (length (requestAttempts rest.1)) as [|n]; [lia|].
           simpl. by rewrite Nat.sub_0_r.
      * intros a batch Hin. apply elem_of_cons in Hin as [Heq|Hin]; [congruence|].
        apply elem_of_app in Hin as [Hin|Hin]; [|by apply (Hbatch a)].
        unfold backoff in Hin. destruct (attempt <? maxRetries - 1)%nat.
        -- apply list_elem_of_singleton in Hin. discriminate Hin.
        -- by apply elem_of_nil in Hin.
      * rewrite Hout. split.
        -- intros Hall [|i] Hi; [by rewrite Nat.add_0_r|].
           replace (attempt + S i)%nat with (S attempt + i)%nat by lia.
           apply Hall. lia.
        -- intros Hall i Hi.
           replace (S attempt + i)%nat with (attempt + S i)%nat by lia.
           apply Hall. lia.
    + destruct (respond attempt) as [code|] eqn:Hr; [|done].
      subst run. rewrite (sendLoop_conclusive _ _ _ _ _ code) by (by rewrite ?Hr).
      cbn [fst snd]. unfold requests. simpl.
      split; [lia|]. split; [lia|]. split; [done|]. split; [done|].
      split.
      * intros a batch Hin. apply list_elem_of_singleton in Hin. congruence.
      * split.
        -- intros Hd. by destruct (is2xx code).
        -- intros Hall. specialize (Hall 0%nat ltac:(lia)).
           rewrite Nat.add_0_r, Hr in Hall. simpl in *. congruence.
Qed.

(** X3.  Whatever the endpoint answers, one delivery issues at most
    [maxRetries] requests, numbered from 0, all carrying the same batch; it
    sleeps between two consecutive requests only, [2 ** attempt * 100]
    milliseconds after the attempt numbered [attempt]; and it gives up
    exactly when every one of the [maxRetries] attempts was answered by a
    retryable response. *)
Theorem sendToPoke_attempts_are_bounded (respond : nat → Response)
    (updates : list (string * SessionEvent)) (maxRetries : nat) :
  let run := sendToPoke respond updates maxRetries in
  (requests run.1 ≤ maxRetries)%nat
  ∧ requestAttempts run.1 = seq 0 (requests run.1)
  ∧ sleeps run.1 = backoffMs <$> seq 0 (requests run.1 - 1)
  ∧ (∀ attempt batch, Request attempt batch ∈ run.1 → batch = updates)
  ∧ (run.2 = DroppedAfterAllRetries
     ↔ ∀ i, (i < maxRetries)%nat → retryable (respond i) = true).
Proof.
  destruct (sendLoop_shape respond updates maxRetries maxRetries 0 eq_refl)
    as (Hle & _ & Hreq & Hsl & Hbatch & Hout).
  split; [done|]. split; [done|]. split; [done|]. split; [done|]. exact Hout.
Qed.

(** X4.  [flush] never puts a batch back: whatever the outcome of the
    delivery, the queue is empty and the batch timer disarmed afterwards.
    With an empty queue nothing is sent; otherwise every request carries
    the whole queue, and a second [flush] right after sends nothing. *)
Theorem flush_takes_the_whole_queue (respond : nat → Response) (s : Sender) :
  let flushed := flush respond s in
  queue flushed.1.1 = [] ∧ timer flushed.1.1 = None
  ∧ batchIntervalMs flushed.1.1 = batchIntervalMs s
  ∧ (queue s = [] → flushed.1.2 = [] ∧ flushed.2 = None)
  ∧ (queue s ≠ [] →
     (flushed.1.2, flushed.2)
     = ((sendToPoke respond (queue s) defaultMaxRetries).1,
        Some (sendToPoke respond (queue s) defaultMaxRetries).2))
  ∧ (∀ attempt batch, Request attempt batch ∈ flushed.1.2 → batch = queue s)
  ∧ ∀ respond', flush respond' flushed.1.1 = (flushed.1.1, [], None).
Proof.
  unfold flush. destruct (queue s) as [|first rest] eqn:Hq.
  - simpl. repeat split; try done.
    intros a batch Hin. by apply elem_of_nil in Hin.
  - pose proof (sendLoop_shape respond (first :: rest) defaultMaxRetries
                  defaultMaxRetries 0 eq_refl) as (_ & _ & _ & _ & Hbatch & _).
    fold (sendToPoke respond (first :: rest) defaultMaxRetries) in Hbatch.
    destruct (sendToPoke respond (first :: rest) defaultMaxRetries) as [effects outcome].
    simpl in *. repeat split; try done.
Qed.

End WebhookBounds.

(** ** A session after [terminate] or [cancel] *)

Section SessionAftermath.

Import Session SessionInvariant Aftermath TimerInvariant.

Lemma clearToolCallTimers_clears (s : Session.t) toolCallId h :
  toolCallTimers s !! toolCallId = Some h →
  Timers.lookup h (timers (clearToolCallTimers s)) = None.
Proof.
  unfold clearToolCallTimers. session_simpl. revert toolCallId h.
  apply (map_fold_weak_ind
           (λ tbl (tracked : gmap string nat),
              ∀ toolCallId h, tracked !! toolCallId = Some h → Timers.lookup h tbl = None)).
  - intros toolCallId h Hl. by rewrite lookup_empty in Hl.
  - intros k h tracked tbl _ IH toolCallId h' Hl.
    destruct (decide (h = h')) as [->|Hne]; [apply timer_lookup_clearTimeout_eq|].
    rewrite timer_lookup_clearTimeout_ne by done.
    apply lookup_insert_Some in Hl as [[_ Heq]|[_ Hl]]; [done|]. by apply (IH toolCallId).
Qed.

Lemma terminateStart_fields (s : Session.t) :
  wf s →
  let s' := (terminateStart s).1 in
  (terminateStart s).2 = chunk (textBuffer s)
  ∧ status s' = terminated ∧ cancelled s' = true ∧ loopRunning s' = loopRunning s
  ∧ textBuffer s' = "" ∧ textFlushTimeout s' = None
  ∧ toolCallNames s' = ∅ ∧ toolCallTimers s' = ∅
  ∧ input s' = endInput (input s)
  ∧ (∀ toolCallId h, toolCallTimers s !! toolCallId = Some h →
       Timers.lookup h (timers s') = None)
  ∧ (∀ tm, tm ∈ Timers.armed (timers s') → tm ∈ Timers.armed (timers s)).
Proof.
  intros Hwf. unfold terminateStart.
  pose proof (flushTextBuffer_wf (set_status terminated (set_cancelled true s)) Hwf)
    as (Hwf3 & Hnone3 & Hbuf3 & Hevs3 & _ & Htimers3 & _ & Hsub3).
  pose proof (flushTextBuffer_status (set_status terminated (set_cancelled true s)))
    as [Hstatus3 Hloop3].
  assert (cancelled (flushTextBuffer (set_status terminated (set_cancelled true s))).1
          = true
          ∧ input (flushTextBuffer (set_status terminated (set_cancelled true s))).1
            = input s) as [Hcancelled3 Hinput3].
  { unfold flushTextBuffer. session_simpl.
    by destruct (textFlushTimeout s); session_simpl;
      destruct (String.eqb (textBuffer s) ""). }
  destruct (flushTextBuffer (set_status terminated (set_cancelled true s))) as [s3 evs].
  session_simpl.
  destruct (clearToolCallTimers_wf s3 Hwf3) as [_ Hsub4].
  unfold clearToolCallTimers in *. session_simpl.
  rewrite Hinput3. repeat split; try done.
  - intros toolCallId h Hl. rewrite <- Htimers3 in Hl.
    exact (clearToolCallTimers_clears s3 toolCallId h Hl).
  - intros tm Hin. by apply Hsub3, Hsub4.
Qed.

Lemma terminate_fields (loopEnd : LoopEnd) (s : Session.t) :
  wf s →
  let s' := (terminate loopEnd s).1 in
  (terminate loopEnd s).2 = chunk (textBuffer s) ++ loopFailure loopEnd s
  ∧ status s' = terminated ∧ cancelled s' = true ∧ loopRunning s' = false
  ∧ textBuffer s' = "" ∧ textFlushTimeout s' = None
  ∧ toolCallNames s' = ∅ ∧ toolCallTimers s' = ∅
  ∧ input s' = endInput (input s)
  ∧ (∀ toolCallId h, toolCallTimers s !! toolCallId = Some h →
       Timers.lookup h (timers s') = None)
  ∧ (∀ tm, tm ∈ Timers.armed (timers s') → tm ∈ Timers.armed (timers s)).
Proof.
  intros Hwf. unfold terminate.
  destruct (terminateStart_fields s Hwf)
    as (Hevs & Hstatus & Hcancelled & Hloop & Hbuf & Hnone & Hnames & Htimers & Hinput
        & Hclear & Hsub).
  destruct (terminateStart s) as [s1 evs]. simpl in *.
  unfold loopFailure. rewrite <- Hloop, Hevs.
  destruct (awaitMessageLoop_cases loopEnd s1)
    as [[Hl ->]|[(Hl & -> & ->)|(message & Hl & -> & ->)]]; session_simpl.
  - rewrite Hl. by destruct loopEnd.
  - done.
  - rewrite Hl, Hinput. done.
Qed.

Lemma fireTimer_silent (h : nat) (s : Session.t) :
  silent s → silent (fireTimer h s).1 ∧ (fireTimer h s).2 = [].
Proof.
  intros (Hloop & Hbuf & Hnone & Hflush).
  destruct (Timers.lookup h (timers s)) as [tm|] eqn:Hl.
  - destruct (timer_lookup_Some _ _ _ Hl) as [Hin _].
    destruct (Timers.callback tm) as [|toolCallId] eqn:Hcb; [by destruct (Hflush tm Hin)|].
    rewrite (fireTimer_evict h s tm toolCallId Hl Hcb). split; [|done].
    unfold silent. session_simpl. repeat split; try done.
    intros tm' Hin'. apply elem_of_clearTimeout in Hin' as [Hin' _]. by apply Hflush.
  - by rewrite (fireTimer_unarmed h s Hl).
Qed.

Lemma flushTextBuffer_silent (s : Session.t) :
  textBuffer s = "" → textFlushTimeout s = None → flushTextBuffer s = (s, []).
Proof. intros Hbuf Hnone. unfold flushTextBuffer. by rewrite Hnone, Hbuf. Qed.

Lemma passive_step_silent (op : Op) (s : Session.t) :
  passive op → silent s → silent (step op s).1 ∧ (step op s).2 = [].
Proof.
  intros Hop Hs. pose proof Hs as (Hloop & Hbuf & Hnone & Hflush).
  destruct op as [| | | |loopEnd|now message|message|time]; simpl in Hop; try done; simpl.
  - unfold terminate, terminateStart.
    rewrite (flushTextBuffer_silent (set_status terminated (set_cancelled true s)))
      by done.
    unfold awaitMessageLoop, clearToolCallTimers. session_simpl. rewrite Hloop.
    session_simpl. split; [|done].
    unfold silent. session_simpl. repeat split; try done.
    intros tm. revert tm.
    apply (map_fold_weak_ind
             (λ tbl (_ : gmap string nat),
                ∀ tm, tm ∈ Timers.armed tbl → Timers.callback tm ≠ FlushText)).
    + done.
    + intros k h tracked tbl _ IH tm Hin.
      apply elem_of_clearTimeout in Hin as [Hin _]. by apply IH.
  - unfold processMessage. by rewrite Hloop.
  - unfold messageLoopError. by rewrite Hloop.
  - unfold advance, fireAll. split.
    + apply (runAll_invariant fireTimer silent); [|done].
      intros h s' _ Hs'. by apply fireTimer_silent.
    + apply (runAll_silent fireTimer silent); [|done].
      intros h s' _ Hs'. by apply fireTimer_silent.
Qed.

(** X5.  [terminate] flushes the buffered text as one last
    [message_chunk] (none when nothing is buffered), ends the input stream,
    forgets every tracked tool call and disarms its eviction timer; when
    the stream throws while it awaits a message loop that is still running,
    the [error] event of the loop's handler follows the chunk, and nothing
    else is emitted.  Once it has returned the session is silent for good:
    late messages of the runtime, a failure of the stream, timers and a
    repeated [terminate] emit no event and leave the status terminated. *)
Theorem terminate_releases_and_silences (loopEnd : LoopEnd) (s : Session.t) :
  wf s →
  let s' := (terminate loopEnd s).1 in
  (terminate loopEnd s).2 = chunk (textBuffer s) ++ loopFailure loopEnd s
  ∧ status s' = terminated
  ∧ toolCallNames s' = ∅ ∧ toolCallTimers s' = ∅
  ∧ pushed (input s') = pushed (input s) ∧ ended (input s') = true
  ∧ (∀ toolCallId h, toolCallTimers s !! toolCallId = Some h →
       Timers.lookup h (timers s') = None)
  ∧ (∀ tm, tm ∈ Timers.armed (timers s') → Timers.callback tm ≠ FlushText)
  ∧ ∀ ops, Forall passive ops →
      (run ops s').2 = [] ∧ status (run ops s').1 = terminated.
Proof.
  intros Hwf s'.
  destruct (terminate_fields loopEnd s Hwf)
    as (Hevs & Hstatus & _ & Hloop & Hbuf & Hnone & Hnames & Htimers & Hinput & Hclear
        & Hsub).
  fold s' in Hstatus, Hloop, Hbuf, Hnone, Hnames, Htimers, Hinput, Hclear, Hsub.
  pose proof (terminate_wf loopEnd s Hwf) as (_ & Hflush & _). fold s' in Hflush.
  assert (∀ tm, tm ∈ Timers.armed (timers s') → Timers.callback tm ≠ FlushText)
    as Hnoflush.
  { intros tm Hin Hcb. specialize (Hflush tm Hin Hcb). congruence. }
  assert (silent s') as Hsilent by done.
  split; [done|]. split; [done|]. split; [done|]. split; [done|].
  split; [by rewrite Hinput|]. split; [by rewrite Hinput|].
  split; [done|]. split; [done|].
  intros ops Hops. split.
  - apply (runAll_silent step silent); [|done].
    intros op s1 Hin Hs1. apply passive_step_silent; [|done].
    by apply (proj1 (Forall_forall _ _) Hops).
  - refine (proj1 (runAll_invariant step
              (λ s1, status s1 = terminated ∧ silent s1) ops s' _ _)); [|done].
    intros op s1 Hin [Hst Hs1].
    pose proof (proj1 (Forall_forall _ _) Hops op Hin) as Hop.
    split; [|by apply passive_step_silent].
    destruct Hs1 as (Hloop1 & _).
    destruct op as [| | | | |now message|message|time]; simpl in Hop; try done; simpl.
    + apply terminate_status.
    + unfold processMessage. by rewrite Hloop1.
    + unfold messageLoopError. by rewrite Hloop1.
    + by destruct (advance_status time s1) as [-> _].
Qed.

Lemma terminate_releases_and_silences_witness :
  let s :=
    (run [OpMessage 10 (sdk_stream_event (content_block_delta (mkBlock (Some "Hel") None)));
          OpMessage 20
            (sdk_assistant
               (Some [tool_use_block "toolu_01" "Read" (mkToolInput "{}" None)]));
          OpMessage 30 (sdk_stream_event (content_block_delta (mkBlock (Some "lo") None)))]
       Fixtures.freshSession).1 in
  (terminate (loop_throws "stream closed") s).2
  = [message_chunk "lo"; error_event "stream closed"]
  ∧ (run [OpAdvance 1000000;
          OpMessage 40
            (sdk_assistant (Some [tool_result_block "toolu_01" "contents" None]));
          OpMessageLoopError "stream closed"; OpTerminate loop_returns]
       (terminate (loop_throws "stream closed") s).1).2 = [].
Proof.
  intros s.
  assert (wf s) as Hwf by apply run_wf, new_wf.
  destruct (terminate_releases_and_silences (loop_throws "stream closed") s Hwf)
    as (Hevs & _ & _ & _ & _ & _ & _ & _ & Hops).
  split; [exact Hevs|]. apply Hops. repeat constructor.
Defined.

(** X6.  A message of the runtime that arrives while [cancelled] is set
    ends the message loop, and nothing starts it again: after [cancel] and
    one such message, a later [sendPrompt] still queues its prompt and sets
    the status to active, but no message is processed any more, so no
    event is emitted and the status never leaves active. *)
Theorem cancelled_session_stops_listening (s : Session.t) (now : Z) (message : SDKMessage) :
  let interrupted := (cancel resolves s).1.1 in
  let deaf := (processMessage now message interrupted).1 in
  (cancel resolves s).1.2 = [session_ended reason_cancelled]
  ∧ status interrupted = idle
  ∧ (processMessage now message interrupted).2 = []
  ∧ loopRunning deaf = false ∧ status deaf = idle
  ∧ ∀ now' prompt ops, Forall isMessage ops →
      let prompted := sendPrompt now' prompt deaf in
      input prompted = push prompt (input s)
      ∧ (run ops prompted).2 = []
      ∧ status (run ops prompted).1 = active.
Proof.
  intros interrupted deaf.
  assert ((processMessage now message interrupted).2 = []
          ∧ loopRunning deaf = false ∧ status deaf = idle ∧ input deaf = input s)
    as (Hevs & Hloop & Hstatus & Hinput).
  { subst deaf interrupted. unfold processMessage, cancel. session_simpl.
    destruct (loopRunning s) eqn:Hl; simpl; session_simpl; by rewrite ?Hl. }
  split; [done|]. split; [done|]. split; [done|]. split; [done|]. split; [done|].
  intros now' prompt ops Hops prompted.
  split; [unfold prompted, sendPrompt; session_simpl; by rewrite Hinput|].
  assert (∀ op s1, op ∈ ops → loopRunning s1 = false ∧ status s1 = active →
            (loopRunning (step op s1).1 = false ∧ status (step op s1).1 = active)
            ∧ (step op s1).2 = []) as Hstep.
  { intros op s1 Hin [Hl Hs].
    pose proof (proj1 (Forall_forall _ _) Hops op Hin) as Hop.
    destruct op as [| | | | |now1 message1| |]; simpl in Hop; try done.
    simpl. unfold processMessage. by rewrite Hl. }
  assert (loopRunning prompted = false ∧ status prompted = active) as Hprompted.
  { unfold prompted, sendPrompt. by session_simpl. }
  split.
  - by apply (runAll_silent step (λ s1, loopRunning s1 = false ∧ status s1 = active)).
  - refine (proj2 (runAll_invariant step
              (λ s1, loopRunning s1 = false ∧ status s1 = active) ops prompted _ _));
      [|done].
    intros op s1 Hin Hs1. by apply Hstep.
Qed.

Lemma cancelled_session_stops_listening_witness :
  let deaf :=
    (processMessage 20 (sdk_result false) (cancel resolves Fixtures.freshSession).1.1).1 in
  let prompted := sendPrompt 30 "carry on" deaf in
  pushed (input prompted) = ["carry on"]
  ∧ (run [OpMessage 40 (sdk_result true)] prompted).2 = []
  ∧ status (run [OpMessage 40 (sdk_result true)] prompted).1 = active.
Proof.
  intros deaf prompted.
  destruct (cancelled_session_stops_listening Fixtures.freshSession 20 (sdk_result false))
    as (_ & _ & _ & _ & _ & Hlater).
  destruct (Hlater 30%Z "carry on" [OpMessage 40 (sdk_result true)]) as (Hin & Hevs & Hst).
  { repeat constructor. }
  fold deaf prompted in Hin, Hevs, Hst. rewrite Hin. done.
Defined.

End SessionAftermath.

(** ** The pushable input stream *)

Section PushableFacts.

Import PushableStream.

Context {T : Type}.

Implicit Types (st : State T) (ops : list (Op T)).











End PushableFacts.

(** ** The events of a session, and what they do to the manager *)

Section SessionEvents.

Import Session.

Lemma runAll_Forall {A S E : Type} (f : A → S → S * list E) (P : E → Prop)
    (l : list A) (s : S) :
  (∀ a s', Forall P (f a s').2) → Forall P (runAll f l s).2.
Proof.
  intros Hstep. revert s. induction l as [|a l IH]; intros s; [constructor|].
  rewrite runAll_cons. cbn [snd]. apply Forall_app. split; [apply Hstep|apply IH].
Qed.

Lemma flushTextBuffer_never_asks (s : Session.t) :
  Forall (λ event, ManagerOps.asks event = false) (flushTextBuffer s).2.
Proof.
  unfold flushTextBuffer.
  destruct (String.eqb _ _); cbn [snd]; by repeat constructor.
Qed.

Lemma fireTimer_never_asks (h : nat) (s : Session.t) :
  Forall (λ event, ManagerOps.asks event = false) (fireTimer h s).2.
Proof.
  unfold fireTimer. destruct (Timers.lookup h (timers s)) as [tm|]; [|constructor].
  destruct (Timers.callback tm); cbn [runCallback snd]; [|constructor].
  apply flushTextBuffer_never_asks.
Qed.

Lemma handleAssistantBlock_never_asks now block (s : Session.t) :
  Forall (λ event, ManagerOps.asks event = false) (handleAssistantBlock now block s).2.
Proof.
  destruct block as [blockId name blockInput|tool_use_id content is_error|]; simpl.
  - destruct (if String.eqb name "TodoWrite" then todos blockInput else None);
      by repeat constructor.
  - destruct (getToolName tool_use_id s). by repeat constructor.
  - constructor.
Qed.

Lemma processMessage_never_asks now message (s : Session.t) :
  Forall (λ event, ManagerOps.asks event = false) (processMessage now message s).2.
Proof.
  unfold processMessage. destruct (negb (loopRunning s)); [constructor|].
  destruct (cancelled s); [constructor|].
  destruct message as [[block|block|]|[blocks|]|success| |]; cbn [snd];
    try (by repeat constructor).
  - unfold handleStreamBlock.
    destruct (text block); [constructor|].
    destruct (thinkingText block); by repeat constructor.
  - unfold handleStreamBlock.
    destruct (text block); [constructor|].
    destruct (thinkingText block); by repeat constructor.
  - pose proof (flushTextBuffer_never_asks (set_lastActivityAt now s)) as Hflush.
    destruct (flushTextBuffer (set_lastActivityAt now s)) as [s2 evs].
    pose proof (runAll_Forall (handleAssistantBlock now) (λ event, ManagerOps.asks event = false)
                  blocks s2 (handleAssistantBlock_never_asks now)) as Hblocks.
    unfold handleAssistantBlocks.
    destruct (runAll (handleAssistantBlock now) blocks s2) as [s3 evs'].
    cbn [snd] in *. by apply Forall_app.
  - pose proof (flushTextBuffer_never_asks (set_lastActivityAt now s)) as Hflush.
    by destruct (flushTextBuffer (set_lastActivityAt now s)) as [s2 evs].
Qed.

Lemma terminateStart_never_asks (s : Session.t) :
  Forall (λ event, ManagerOps.asks event = false) (terminateStart s).2.
Proof.
  unfold terminateStart.
  pose proof (flushTextBuffer_never_asks (set_status terminated (set_cancelled true s)))
    as Hflush.
  by destruct (flushTextBuffer (set_status terminated (set_cancelled true s))).
Qed.

Lemma awaitMessageLoop_never_asks loopEnd (s : Session.t) :
  Forall (λ event, ManagerOps.asks event = false) (awaitMessageLoop loopEnd s).2.
Proof.
  destruct (awaitMessageLoop_cases loopEnd s)
    as [[_ ->]|[(_ & _ & ->)|(message & _ & _ & ->)]]; by repeat constructor.
Qed.

Lemma session_step_never_asks (op : Op) (s : Session.t) :
  Forall (λ event, ManagerOps.asks event = false) (step op s).2.
Proof.
  destruct op as [now prompt|now command args|interrupt|sdk mode|loopEnd|now message
                  |message|time]; simpl.
  - constructor.
  - unfold sendSlashCommand. destruct (String.eqb command "plan"); by repeat constructor.
  - destruct interrupt; by repeat constructor.
  - unfold setPermissionMode.
    destruct (inPlanMode (set_permissionMode mode s) && negb (isPlan mode));
      by repeat constructor.
  - unfold terminate. pose proof (terminateStart_never_asks s) as Hstart.
    destruct (terminateStart s) as [s1 evs].
    pose proof (awaitMessageLoop_never_asks loopEnd s1) as Hawait.
    destruct (awaitMessageLoop loopEnd s1) as [s2 evs']. by apply Forall_app.
  - apply processMessage_never_asks.
  - unfold messageLoopError. destruct (negb (loopRunning s)); by repeat constructor.
  - unfold advance, fireAll. apply runAll_Forall. apply fireTimer_never_asks.
Qed.

End SessionEvents.

(** ** The manager under its operations *)

Section ManagerFrames.

Import SessionManager ManagerMethods ManagerOps BrokerInvariant RegistryFrame.

Lemma brokerUntouched_refl m : brokerUntouched m m.
Proof. by repeat split. Qed.

Lemma brokerUntouched_trans m1 m2 m3 :
  brokerUntouched m1 m2 → brokerUntouched m2 m3 → brokerUntouched m1 m3.
Proof. intros (?&?&?&?&?) (?&?&?&?&?). repeat split; congruence. Qed.

Lemma handleSessionEvent_untouched now sid event m :
  asks event = false → brokerUntouched m (handleSessionEvent now sid event m).
Proof. destruct event; intros Hasks; try discriminate Hasks; by repeat split. Qed.

Lemma deliver_untouched now sid events m :
  Forall (λ event, asks event = false) events → brokerUntouched m (deliver now sid events m).
Proof.
  intros Hall. unfold deliver. revert m.
  induction Hall as [|event events Hevent _ IH]; intros m; [apply brokerUntouched_refl|].
  simpl. eapply brokerUntouched_trans; [|apply IH].
  by apply handleSessionEvent_untouched.
Qed.

(** A method called on a registered session: the registry keeps its keys
    and the pending requests are left alone, as long as the method emits
    no asking event. *)
Lemma withSession_frame now sid method m :
  (∀ s, Forall (λ event, asks event = false) (method s).2) →
  let m' := (withSession now sid method m).1 in
  brokerUntouched m m'
  ∧ maxSessions m' = maxSessions m ∧ workspacesDir m' = workspacesDir m
  ∧ ((JsMap.get sid (sessions m) = None ∧ m' = m)
     ∨ ∃ session, JsMap.get sid (sessions m) = Some session
                  ∧ sessions m' = JsMap.set sid (method session).1 (sessions m)).
Proof.
  intros Hquiet. unfold withSession, requireSession.
  destruct (JsMap.get sid (sessions m)) as [session|] eqn:Hget.
  - specialize (Hquiet session). destruct (method session) as [session' events] eqn:Hm.
    cbn [fst snd] in *.
    set (m1 := set_sessions (JsMap.set sid session' (sessions m)) m).
    pose proof (deliver_untouched now sid events m1 Hquiet) as Hb.
    pose proof (deliver_sameRegistry now sid events m1) as (Hs & _ & _ & Hmax & Hdir).
    split; [exact Hb|]. split; [by rewrite Hmax|]. split; [by rewrite Hdir|].
    right. exists session. split; [done|]. by rewrite Hm, Hs.
  - simpl. split; [apply brokerUntouched_refl|]. split; [done|]. split; [done|]. by left.
Qed.

Lemma withSessionSettling_frame now sid method m :
  (∀ s, Forall (λ event, asks event = false) (method s).1.2) →
  let m' := (withSessionSettling now sid method m).1 in
  brokerUntouched m m'
  ∧ maxSessions m' = maxSessions m ∧ workspacesDir m' = workspacesDir m
  ∧ ((JsMap.get sid (sessions m) = None ∧ m' = m)
     ∨ ∃ session, JsMap.get sid (sessions m) = Some session
                  ∧ sessions m' = JsMap.set sid (method session).1.1 (sessions m)).
Proof.
  intros Hquiet. unfold withSessionSettling, requireSession.
  destruct (JsMap.get sid (sessions m)) as [session|] eqn:Hget.
  - specialize (Hquiet session). destruct (method session) as [[session' events] settled] eqn:Hm.
    cbn [fst snd] in *.
    set (m1 := set_sessions (JsMap.set sid session' (sessions m)) m).
    pose proof (deliver_untouched now sid events m1 Hquiet) as Hb.
    pose proof (deliver_sameRegistry now sid events m1) as (Hs & _ & _ & Hmax & Hdir).
    split; [exact Hb|]. split; [by rewrite Hmax|]. split; [by rewrite Hdir|].
    right. exists session. split; [done|]. by rewrite Hm, Hs.
  - simpl. split; [apply brokerUntouched_refl|]. split; [done|]. split; [done|]. by left.
Qed.

End ManagerFrames.

Section RegistrySize.

Import SessionManager ManagerMethods ManagerOps BrokerInvariant RegistryFrame.

Lemma size_set_present {V : Type} k (v v0 : V) m :
  JsMap.get k m = Some v0 → JsMap.size (JsMap.set k v m) = JsMap.size m.
Proof.
  unfold JsMap.size. induction m as [|[k' v'] m IH]; simpl; [done|].
  destruct (decide (k' = k)); simpl; [done|]. intros Hget. by rewrite IH.
Qed.

Lemma size_set_le {V : Type} k (v : V) m :
  (JsMap.size (JsMap.set k v m) ≤ S (JsMap.size m))%nat.
Proof.
  unfold JsMap.size. induction m as [|[k' v'] m IH]; simpl; [lia|].
  destruct (decide (k' = k)); simpl; lia.
Qed.

Lemma size_delete_le {V : Type} k (m : list (string * V)) :
  (JsMap.size (JsMap.delete k m) ≤ JsMap.size m)%nat.
Proof.
  unfold JsMap.size. induction m as [|[k' v'] m IH]; simpl; [lia|].
  destruct (decide (k' = k)); simpl; lia.
Qed.

Lemma size_delete_lt {V : Type} k (v : V) m :
  JsMap.get k m = Some v → (JsMap.size (JsMap.delete k m) < JsMap.size m)%nat.
Proof.
  unfold JsMap.size. induction m as [|[k' v'] m IH]; simpl; [done|].
  destruct (decide (k' = k)); simpl.
  - intros _. pose proof (size_delete_le k m). unfold JsMap.size in *. lia.
  - intros Hget. specialize (IH Hget). lia.
Qed.

(** The two ways [terminateSession] ends. *)
Lemma terminateSession_unknown processId now write loopEnd sid m :
  JsMap.get sid (sessions m) = None →
  terminateSession processId now write loopEnd sid m
  = (m, inl (app_error (SessionNotFoundError sid))).
Proof. intros Hget. unfold terminateSession. by rewrite Hget. Qed.

Lemma terminateSession_registered processId now write loopEnd sid m session :
  JsMap.get sid (sessions m) = Some session →
  ∃ m', terminateSession processId now write loopEnd sid m = (m', inr ())
        ∧ sessions m' = JsMap.delete sid (sessions m)
        ∧ maxSessions m' = maxSessions m ∧ workspacesDir m' = workspacesDir m
        ∧ (nothingPending m → nothingPending m').
Proof.
  intros Hget.
  assert (∃ m', terminateSession processId now write loopEnd sid m = (m', inr ())) as [m' Ht].
  { unfold terminateSession. rewrite Hget. destruct (Session.terminate loopEnd session). eauto. }
  exists m'. split; [done|].
  destruct (terminateSession_completed _ _ _ _ _ _ _ Ht) as [Hs _]. split; [done|].
  unfold terminateSession in Ht. rewrite Hget in Ht.
  pose proof (session_step_never_asks (Session.OpTerminate loopEnd) session) as Hquiet.
  simpl in Hquiet.
  destruct (Session.terminate loopEnd session) as [session' events].
  set (m0 := set_sessions (JsMap.set sid session' (sessions m)) m) in *.
  set (m1 := deliver now sid events m0) in *.
  set (m2 := set_sessions (JsMap.delete sid (sessions m1)) m1) in *.
  set (m3 := fold_left (rejectQuestion sid) (pendingQuestions m2) m2) in *.
  set (m4 := fold_left (rejectPermission sid) (pendingPermissions m3) m3) in *.
  set (m5 := set_messageChunks (JsMap.delete sid (messageChunks m4)) m4) in *.
  injection Ht as <-.
  destruct (deliver_sameRegistry now sid events m0) as (_ & _ & _ & Hmax1 & Hdir1).
  destruct (rejectQuestions_sameRegistry sid (pendingQuestions m2) m2)
    as (_ & _ & _ & Hmax3 & Hdir3).
  destruct (rejectPermissions_sameRegistry sid (pendingPermissions m3) m3)
    as (_ & _ & _ & Hmax4 & Hdir4).
  fold m1 in Hmax1, Hdir1. fold m3 in Hmax3, Hdir3. fold m4 in Hmax4, Hdir4.
  assert (maxSessions (updateLockFile processId now write m5) = maxSessions m
          ∧ workspacesDir (updateLockFile processId now write m5) = workspacesDir m)
    as [Hmax Hdir].
  { unfold updateLockFile, writeLockFile. destruct write; simpl;
      rewrite Hmax4, Hmax3, Hdir4, Hdir3; simpl; by rewrite Hmax1, Hdir1. }
  split; [done|]. split; [done|].
  intros (Hq & Hp & Harmed & Hlog).
  destruct (deliver_untouched now sid events m0 Hquiet) as (Hq1 & Hp1 & Ht1 & Hl1 & _).
  fold m1 in Hq1, Hp1, Ht1, Hl1.
  assert (m3 = m2) as Hm3.
  { unfold m3. change (pendingQuestions m2) with (pendingQuestions m1).
    rewrite Hq1. simpl. by rewrite Hq. }
  assert (m4 = m2) as Hm4.
  { unfold m4. rewrite Hm3. change (pendingPermissions m2) with (pendingPermissions m1).
    rewrite Hp1. simpl. by rewrite Hp. }
  unfold nothingPending, updateLockFile, writeLockFile. destruct write; simpl;
    rewrite Hm4; simpl; rewrite Hq1, Hp1, Ht1, Hl1; done.
Qed.

Lemma createSession_full processId now mkdir write options m :
  (maxSessions m ≤ JsMap.size (sessions m))%nat →
  createSession processId now mkdir write options m
  = (m, inl (app_error (SessionLimitError (maxSessions m)))).
Proof.
  intros Hfull. unfold createSession.
  by destruct (Nat.leb_spec (maxSessions m) (JsMap.size (sessions m))); [|lia].
Qed.

(** The ways [createSession] ends. *)
Lemma createSession_cases processId now mkdir write options m :
  let m' := (createSession processId now mkdir write options m).1 in
  maxSessions m' = maxSessions m ∧ workspacesDir m' = workspacesDir m
  ∧ brokerUntouched m m'
  ∧ (sessions m' = sessions m
     ∨ ((JsMap.size (sessions m) < maxSessions m)%nat
        ∧ ∃ session, sessions m' = JsMap.set (uuidSource m (uuidsTaken m)) session
                                     (sessions m))).
Proof.
  unfold createSession.
  destruct (maxSessions m <=? JsMap.size (sessions m))%nat eqn:Hfull.
  - simpl. split; [done|]. split; [done|]. split; [apply brokerUntouched_refl|]. by left.
  - apply Nat.leb_gt in Hfull. simpl. destruct mkdir.
    + unfold createSessionWorkspace. simpl.
      destruct (bool_decide _); unfold updateLockFile, writeLockFile;
        destruct write; simpl; (split; [done|]); (split; [done|]);
        (split; [by repeat split|]); right; (split; [done|]); eauto.
    + simpl. split; [done|]. split; [done|]. split; [by repeat split|]. by left.
Qed.

End RegistrySize.

Section ManagerSteps.

Import SessionManager ManagerMethods ManagerOps BrokerInvariant RegistryFrame.

(** What the methods called on one session do to the manager. *)
Lemma step_on_session (op : Op) (m : SessionManager.t) :
  match op with
  | SendPrompt _ sid _ | SendSlashCommand _ sid _ _ | CancelPrompt _ _ sid
  | EnterPlanMode _ sid | ApprovePlan _ _ sid | ModifyPlan _ sid _
  | SetSessionMode _ _ sid _ | RuntimeMessage _ sid _ | MessageStreamFails _ sid _
  | SessionTimers _ sid =>
      brokerUntouched m (step op m)
      ∧ maxSessions (step op m) = maxSessions m
      ∧ workspacesDir (step op m) = workspacesDir m
      ∧ (sessions (step op m) = sessions m
         ∨ ∃ session session', JsMap.get sid (sessions m) = Some session
                               ∧ sessions (step op m) = JsMap.set sid session' (sessions m))
  | _ => True
  end.
Proof.
  assert (∀ now sid method,
            (∀ s, Forall (λ event, asks event = false) (method s).2) →
            brokerUntouched m (withSession now sid method m).1
            ∧ maxSessions (withSession now sid method m).1 = maxSessions m
            ∧ workspacesDir (withSession now sid method m).1 = workspacesDir m
            ∧ (sessions (withSession now sid method m).1 = sessions m
               ∨ ∃ session session', JsMap.get sid (sessions m) = Some session
                   ∧ sessions (withSession now sid method m).1
                     = JsMap.set sid session' (sessions m))) as Hplain.
  { intros now sid method Hquiet.
    destruct (withSession_frame now sid method m Hquiet)
      as (Hb & Hmax & Hdir & [[_ ->]|(session & Hget & Hs)]).
    - split; [apply brokerUntouched_refl|]. split; [done|]. split; [done|]. by left.
    - split; [done|]. split; [done|]. split; [done|]. right. eauto. }
  assert (∀ now sid method,
            (∀ s, Forall (λ event, asks event = false) (method s).1.2) →
            brokerUntouched m (withSessionSettling now sid method m).1
            ∧ maxSessions (withSessionSettling now sid method m).1 = maxSessions m
            ∧ workspacesDir (withSessionSettling now sid method m).1 = workspacesDir m
            ∧ (sessions (withSessionSettling now sid method m).1 = sessions m
               ∨ ∃ session session', JsMap.get sid (sessions m) = Some session
                   ∧ sessions (withSessionSettling now sid method m).1
                     = JsMap.set sid session' (sessions m))) as Hsettling.
  { intros now sid method Hquiet.
    destruct (withSessionSettling_frame now sid method m Hquiet)
      as (Hb & Hmax & Hdir & [[_ ->]|(session & Hget & Hs)]).
    - split; [apply brokerUntouched_refl|]. split; [done|]. split; [done|]. by left.
    - split; [done|]. split; [done|]. split; [done|]. right. eauto. }
  destruct op as [| |now sid prompt|now sid command args|interrupt now sid|now sid
                  |sdk now sid|now sid feedback|sdk now sid mode| | | | |
                  |now sid message|now sid message|time sid|]; try exact I; simpl.
  - apply Hplain. intros s. constructor.
  - apply Hplain. intros s.
    apply (session_step_never_asks (Session.OpSendSlashCommand now command args) s).
  - apply Hsettling. intros s.
    apply (session_step_never_asks (Session.OpCancel interrupt) s).
  - apply Hplain. intros s.
    apply (session_step_never_asks (Session.OpSendSlashCommand now "plan" None) s).
  - apply Hsettling. intros s.
    apply (session_step_never_asks (Session.OpSetPermissionMode sdk bypassPermissions) s).
  - unfold modifyPlan. destruct (requireSession sid m) as [e|session].
    + simpl. split; [apply brokerUntouched_refl|]. split; [done|]. split; [done|]. by left.
    + destruct (negb (Session.inPlanMode session)).
      * simpl. split; [apply brokerUntouched_refl|]. split; [done|]. split; [done|].
        by left.
      * apply Hplain. intros s. constructor.
  - apply Hsettling. intros s.
    apply (session_step_never_asks (Session.OpSetPermissionMode sdk mode) s).
  - apply Hplain. intros s.
    apply (session_step_never_asks (Session.OpMessage now message) s).
  - apply Hplain. intros s.
    apply (session_step_never_asks (Session.OpMessageLoopError message) s).
  - apply Hplain. intros s.
    apply (session_step_never_asks (Session.OpAdvance time) s).
Qed.

Lemma broker_fireTimer_registry h (m : SessionManager.t) :
  sessions (fireTimer h m) = sessions m ∧ maxSessions (fireTimer h m) = maxSessions m
  ∧ workspacesDir (fireTimer h m) = workspacesDir m.
Proof.
  unfold fireTimer, runCallback.
  destruct (Timers.lookup h (timers m)) as [tm|]; [|done].
  destruct (isCompleted _ _); [done|].
  destruct (Timers.callback tm); manager_simpl; by destruct (JsMap.get _ _).
Qed.

Lemma broker_advance_registry time (m : SessionManager.t) :
  sessions (advance time m) = sessions m ∧ maxSessions (advance time m) = maxSessions m
  ∧ workspacesDir (advance time m) = workspacesDir m.
Proof.
  unfold advance, fireAll.
  apply (fold_left_preserves _
           (λ acc, sessions acc = sessions m ∧ maxSessions acc = maxSessions m
                   ∧ workspacesDir acc = workspacesDir m)); [|done].
  intros acc h _ (Hs & Hmax & Hdir).
  destruct (broker_fireTimer_registry h acc) as (-> & -> & ->). done.
Qed.

(** Only [createSession] adds a session, one at most and only below
    capacity. *)
Lemma step_registry (op : Op) (m : SessionManager.t) :
  maxSessions (step op m) = maxSessions m
  ∧ match op with
    | CreateSession _ _ _ _ _ =>
        (JsMap.size (sessions (step op m)) ≤ JsMap.size (sessions m))%nat
        ∨ ((JsMap.size (sessions m) < maxSessions m)%nat
           ∧ (JsMap.size (sessions (step op m)) ≤ S (JsMap.size (sessions m)))%nat)
    | _ => (JsMap.size (sessions (step op m)) ≤ JsMap.size (sessions m))%nat
    end.
Proof.
  pose proof (step_on_session op m) as Hon.
  assert (∀ sid,
            brokerUntouched m (step op m) ∧ maxSessions (step op m) = maxSessions m
            ∧ workspacesDir (step op m) = workspacesDir m
            ∧ (sessions (step op m) = sessions m
               ∨ ∃ session session', JsMap.get sid (sessions m) = Some session
                   ∧ sessions (step op m) = JsMap.set sid session' (sessions m)) →
            maxSessions (step op m) = maxSessions m
            ∧ (JsMap.size (sessions (step op m)) ≤ JsMap.size (sessions m))%nat)
    as Hsession.
  { intros sid (_ & Hmax & _ & [Hs|(session & session' & Hget & Hs)]).
    - split; [done|]. by rewrite Hs.
    - split; [done|]. rewrite Hs, (size_set_present _ _ session) by done. done. }
  destruct op as [processId now mkdir write options|processId now write loopEnd sid
                  |now sid prompt|now sid command args|interrupt now sid|now sid
                  |sdk now sid|now sid feedback|sdk now sid mode|sid|sid|q answer
                  |p decision|w rm sid|now sid message|now sid message|time sid|time];
    try (by apply (Hsession sid)).
  - simpl. destruct (createSession_cases processId now mkdir write options m)
      as (Hmax & _ & _ & [Hs|(Hlt & session & Hs)]).
    + split; [done|]. left. by rewrite Hs.
    + split; [done|]. right. split; [done|]. rewrite Hs. apply size_set_le.
  - simpl. destruct (JsMap.get sid (sessions m)) as [session|] eqn:Hget.
    + destruct (terminateSession_registered processId now write loopEnd sid m session Hget)
        as (m' & -> & Hs & Hmax & _). simpl. split; [done|].
      rewrite Hs. apply size_delete_le.
    + rewrite terminateSession_unknown by done. simpl. by split.
  - simpl. unfold addMcpServer. by destruct (requireSession sid m).
  - simpl. unfold readMessageHistory. by destruct (negb _).
  - simpl. unfold answerQuestion, resolveClosure.
    destruct (JsMap.get q (pendingQuestions m)); [|done].
    by destruct (isCompleted _ _).
  - simpl. unfold respondToPermission, resolveClosure.
    destruct (JsMap.get p (pendingPermissions m)); [|done].
    by destruct (isCompleted _ _).
  - simpl. unfold deleteWorkspace. destruct (JsMap.has sid (sessions m)); [done|].
    destruct (statAt w _); [|done..]. by destruct rm.
  - simpl. destruct (broker_advance_registry time m) as (Hs & Hmax & _).
    split; [done|]. by rewrite Hs.
Qed.

(** With nothing pending, no operation makes a request pending. *)
Lemma step_nothingPending (op : Op) (m : SessionManager.t) :
  nothingPending m → nothingPending (step op m).
Proof.
  intros Hnothing. pose proof Hnothing as (Hq & Hp & Harmed & Hlog).
  pose proof (step_on_session op m) as Hon.
  assert (brokerUntouched m (step op m) → nothingPending (step op m)) as Hframe.
  { intros (Hq' & Hp' & Ht' & Hl' & _). unfold nothingPending.
    by rewrite Hq', Hp', Ht', Hl'. }
  destruct op as [processId now mkdir write options|processId now write loopEnd sid
                  |now sid prompt|now sid command args|interrupt now sid|now sid
                  |sdk now sid|now sid feedback|sdk now sid mode|sid|sid|q answer
                  |p decision|w rm sid|now sid message|now sid message|time sid|time];
    try (by apply Hframe, Hon).
  - apply Hframe. by destruct (createSession_cases processId now mkdir write options m)
      as (_ & _ & Hb & _).
  - simpl. destruct (JsMap.get sid (sessions m)) as [session|] eqn:Hget.
    + destruct (terminateSession_registered processId now write loopEnd sid m session Hget)
        as (m' & -> & _ & _ & _ & Hkeep). by apply Hkeep.
    + by rewrite terminateSession_unknown.
  - simpl. unfold addMcpServer. by destruct (requireSession sid m).
  - simpl. unfold readMessageHistory. by destruct (negb _).
  - simpl. unfold answerQuestion. by rewrite Hq.
  - simpl. unfold respondToPermission. by rewrite Hp.
  - simpl. unfold deleteWorkspace. destruct (JsMap.has sid (sessions m)); [done|].
    destruct (statAt w _); [|done..]. by destruct rm.
  - simpl. unfold advance, Timers.due. rewrite Harmed. done.
Qed.

End ManagerSteps.

Section RegistryTheorems.

Import SessionManager ManagerMethods ManagerOps BrokerInvariant RegistryFrame.

(** X9.  No operation of a session emits a [question] or a
    [permission_request] event, so a manager that is driven through its
    methods, its sessions and its timers never has a pending request: the
    two maps stay empty, no expiry timer is armed, no resolver or rejecter
    is called, and every [answerQuestion] and [respondToPermission] throws
    the not-found error. *)
Theorem no_request_is_ever_pending (ops : list Op) (m : SessionManager.t) :
  nothingPending m →
  (∀ op s, Forall (λ event, asks event = false) (Session.step op s).2)
  ∧ nothingPending (run ops m)
  ∧ (∀ q answer,
       answerQuestion q answer (run ops m) = (run ops m, inl (questionNotFound q)))
  ∧ (∀ p decision,
       respondToPermission p decision (run ops m)
       = (run ops m, inl (SessionStateError ("Permission request not found: " +:+ p)))).
Proof.
  intros Hnothing. split; [apply session_step_never_asks|].
  assert (nothingPending (run ops m)) as (Hq & Hp & Harmed & Hlog).
  { unfold run. apply (fold_left_preserves _ nothingPending); [|done].
    intros acc op _ Hacc. by apply step_nothingPending. }
  split; [done|]. split.
  - intros q answer. unfold answerQuestion. by rewrite Hq.
  - intros p decision. unfold respondToPermission. by rewrite Hp.
Qed.

Lemma no_request_is_ever_pending_witness :
  let ops :=
    [CreateSession 4242 1000 succeeds succeeds (mkOptions "/home/dev" None);
     SendPrompt 1100 Fixtures.uuid1 "Which colour?";
     RuntimeMessage 1200 Fixtures.uuid1
       (Session.sdk_assistant
          (Some [Session.tool_use_block "toolu_01" "AskUserQuestion"
                   (Session.mkToolInput "{}" None)]));
     Advance 400000] in
  pendingQuestions (run ops (Fixtures.freshManager 5)) = []
  ∧ (answerQuestion "toolu_01" "red" (run ops (Fixtures.freshManager 5))).2
    = inl (questionNotFound "toolu_01").
Proof.
  intros ops.
  destruct (no_request_is_ever_pending ops (Fixtures.freshManager 5))
    as (_ & (Hq & _) & Hanswer & _).
  { by repeat split. }
  split; [exact Hq|]. by rewrite Hanswer.
Defined.

(** X10.  [terminateSession] removes the session from the registry, so
    that a manager at capacity can create a session again; a second
    [terminateSession] for the same id throws [SessionNotFoundError] and
    changes nothing, as does one for an id that was never registered. *)
Theorem terminateSession_frees_a_slot (processId : nat) (now : Z) (write : IO)
    (loopEnd : Session.LoopEnd) (sid : string) (m : SessionManager.t) :
  (JsMap.size (sessions m) ≤ maxSessions m)%nat →
  (JsMap.get sid (sessions m) = None →
     terminateSession processId now write loopEnd sid m
     = (m, inl (app_error (SessionNotFoundError sid))))
  ∧ (∀ session, JsMap.get sid (sessions m) = Some session →
       ∃ m', terminateSession processId now write loopEnd sid m = (m', inr ())
             ∧ JsMap.get sid (sessions m') = None
             ∧ (JsMap.size (sessions m') < maxSessions m')%nat
             ∧ (∀ processId' now' write' loopEnd',
                  terminateSession processId' now' write' loopEnd' sid m'
                  = (m', inl (app_error (SessionNotFoundError sid))))
             ∧ ∀ processId' now' write' options,
                 ∃ m'' sid',
                   createSession processId' now' succeeds write' options m'
                   = (m'', inr sid')).
Proof.
  intros Hle. split; [apply terminateSession_unknown|].
  intros session Hget.
  destruct (terminateSession_registered processId now write loopEnd sid m session Hget)
    as (m' & Ht & Hs & Hmax & _).
  exists m'. split; [done|].
  assert (JsMap.get sid (sessions m') = None) as Hgone
    by (rewrite Hs; apply get_delete_eq).
  split; [done|].
  assert (JsMap.size (sessions m') < maxSessions m')%nat as Hlt.
  { rewrite Hs, Hmax. pose proof (size_delete_lt sid session (sessions m) Hget). lia. }
  split; [done|]. split.
  - intros processId' now' write' loopEnd'. by apply terminateSession_unknown.
  - intros processId' now' write' options. unfold createSession.
    destruct (maxSessions m' <=? JsMap.size (sessions m'))%nat eqn:Hfull.
    { apply Nat.leb_le in Hfull. lia. }
    simpl. unfold createSessionWorkspace. simpl. destruct (bool_decide _); eauto.
Qed.

Lemma terminateSession_frees_a_slot_witness :
  let m := Fixtures.oneSessionManager 1 succeeds in
  let m' := (terminateSession 4242 2000 succeeds Session.loop_returns Fixtures.uuid1 m).1 in
  JsMap.get Fixtures.uuid1 (sessions m') = None
  ∧ (terminateSession 4242 3000 succeeds Session.loop_returns Fixtures.uuid1 m').2
    = inl (app_error (SessionNotFoundError Fixtures.uuid1)).
Proof.
  intros m m'.
  destruct (terminateSession_frees_a_slot 4242 2000 succeeds Session.loop_returns
              Fixtures.uuid1 m)
    as [_ Hreg].
  { vm_compute. lia. }
  destruct (Hreg (Session.new Fixtures.uuid1
                    (NodePath.join Fixtures.workspaces Fixtures.uuid1) None 1000))
    as (m1 & Ht & Hgone & _ & Hagain & _).
  { reflexivity. }
  subst m'. rewrite Ht. cbn [fst]. split; [exact Hgone|]. by rewrite Hagain.
Defined.

End RegistryTheorems.

(** ** Calls that overlap *)

Section OverlappingCalls.

Import SessionManager ManagerMethods RegistryFrame Overlap.

Lemma resume_suspend env call m (st : State) :
  step (Resume (length (suspended st)) env) (suspend call m st)
  = mkState (resume env call m) (suspended st).
Proof.
  unfold suspend. simpl. rewrite (list_lookup_middle _ [] call) by done.
  f_equal. induction (suspended st) as [|c l IH]; [done|]. simpl. by rewrite IH.
Qed.

Lemma resume_nothing env (st : State) :
  step (Resume (length (suspended st)) env) st = st.
Proof. simpl. by rewrite lookup_ge_None_2. Qed.

(** The two steps of a call, taken one right after the other, are the
    call. *)
Lemma createSession_in_two_steps env options (st : State) :
  manager (step (Resume (length (suspended st)) env) (createSessionStart options st))
  = (createSession (env_processId env) (env_now env) (env_mkdir env) (env_write env)
       options (manager st)).1.
Proof.
  unfold createSessionStart, createSession.
  destruct (maxSessions (manager st) <=? JsMap.size (sessions (manager st)))%nat;
    [by rewrite resume_nothing|].
  cbn [randomUUID]. rewrite resume_suspend. cbn [manager resume].
  unfold createSessionResume. by destruct (env_mkdir env).
Qed.

Lemma handleSessionEvent_set_sessions now sid event registry (m : SessionManager.t) :
  handleSessionEvent now sid event (set_sessions registry m)
  = set_sessions registry (handleSessionEvent now sid event m).
Proof. by destruct event. Qed.

Lemma deliver_set_sessions now sid events registry (m : SessionManager.t) :
  deliver now sid events (set_sessions registry m)
  = set_sessions registry (deliver now sid events m).
Proof.
  unfold deliver. revert m. induction events as [|event events IH]; intros m; [done|].
  simpl. by rewrite handleSessionEvent_set_sessions, IH.
Qed.

Lemma deliver_app now sid events events' (m : SessionManager.t) :
  deliver now sid (events ++ events') m
  = deliver now sid events' (deliver now sid events m).
Proof. unfold deliver. by rewrite fold_left_app. Qed.

Lemma set_set {V : Type} k (v v' : V) m :
  JsMap.set k v' (JsMap.set k v m) = JsMap.set k v' m.
Proof.
  induction m as [|[k0 v0] m IH]; simpl.
  - by rewrite decide_True.
  - destruct (decide (k0 = k)) as [->|Hne]; simpl.
    + by rewrite decide_True.
    + by rewrite decide_False, IH.
Qed.

Lemma terminateSession_in_two_steps env sid (st : State) :
  manager (step (Resume (length (suspended st)) env)
             (terminateSessionStart (env_now env) sid st))
  = (terminateSession (env_processId env) (env_now env) (env_write env)
       (env_loopEnd env) sid (manager st)).1.
Proof.
  unfold terminateSessionStart, terminateSession.
  destruct (JsMap.get sid (sessions (manager st))) as [session|] eqn:Hget;
    [|by rewrite resume_nothing].
  unfold Session.terminate.
  destruct (Session.terminateStart session) as [s1 evs].
  rewrite resume_suspend. cbn [manager resume]. unfold terminateSessionResume.
  set (m := manager st) in *.
  set (started := deliver (env_now env) sid evs
                    (set_sessions (JsMap.set sid s1 (sessions m)) m)).
  assert (sessions started = JsMap.set sid s1 (sessions m)) as Hs
    by apply deliver_sameRegistry.
  rewrite Hs, get_set_eq.
  destruct (Session.awaitMessageLoop (env_loopEnd env) s1) as [s2 evs'].
  change (terminateSessionFinish (env_processId env) (env_now env) (env_write env) sid
            (deliver (env_now env) sid evs'
               (set_sessions (JsMap.set sid s2 (JsMap.set sid s1 (sessions m)))
                  started))
          = terminateSessionFinish (env_processId env) (env_now env) (env_write env) sid
              (deliver (env_now env) sid (evs ++ evs')
                 (set_sessions (JsMap.set sid s2 (sessions m)) m))).
  f_equal. rewrite set_set, deliver_app. f_equal. subst started.
  by rewrite !deliver_set_sessions.
Qed.

Lemma cancelPrompt_in_two_steps env sid (st : State) :
  manager (step (Resume (length (suspended st)) env) (cancelPromptStart sid st))
  = (cancelPrompt (env_interrupt env) (env_now env) sid (manager st)).1.
Proof.
  unfold cancelPromptStart, cancelPrompt, withSessionSettling, requireSession.
  destruct (JsMap.get sid (sessions (manager st))) as [session|] eqn:Hget;
    [|by rewrite resume_nothing].
  rewrite resume_suspend. cbn [manager resume]. unfold cancelPromptResume, Session.cancel.
  destruct (env_interrupt env); [|done].
  cbn [sessions set_sessions fst]. by rewrite get_set_eq, set_set.
Qed.

Lemma deleteWorkspace_in_two_steps env sid (st : State) :
  manager (step (Resume (length (suspended st)) env) (deleteWorkspaceStart sid st))
  = (deleteWorkspace (env_world env) (env_rm env) sid (manager st)).1.
Proof.
  unfold deleteWorkspaceStart, deleteWorkspace.
  destruct (JsMap.has sid (sessions (manager st))); [by rewrite resume_nothing|].
  rewrite resume_suspend. cbn [manager resume]. unfold deleteWorkspaceResume.
  destruct (statAt _ _); [|done..]. by destruct (env_rm env).
Qed.

(** Counting the suspended creations. *)
Lemma creations_suspend call m st :
  creations (suspend call m st)
  = (creations st + if isCreating call then 1 else 0)%nat.
Proof.
  unfold creations, suspend. simpl. rewrite filter_app, length_app. f_equal.
  rewrite filter_cons. by destruct (isCreating call); simpl.
Qed.

Lemma creations_delete index call (l : list Suspended) :
  l !! index = Some call →
  (length (filter (λ c, isCreating c = true) (delete index l))
   + (if isCreating call then 1 else 0)
   = length (filter (λ c, isCreating c = true) l))%nat.
Proof.
  revert index. induction l as [|c l IH]; intros [|index] Hl; simplify_eq/=.
  - rewrite filter_cons. destruct (isCreating call); simpl; lia.
  - specialize (IH index Hl). rewrite !filter_cons.
    destruct (decide (isCreating c = true)); simpl; lia.
Qed.

(** What each step does to the registry. *)
Lemma createSessionResume_registry env sid options (m : SessionManager.t) :
  maxSessions (createSessionResume env sid options m) = maxSessions m
  ∧ (JsMap.size (sessions (createSessionResume env sid options m))
     ≤ S (JsMap.size (sessions m)))%nat.
Proof.
  unfold createSessionResume. destruct (env_mkdir env); [|by split; [|lia]].
  unfold createSessionWorkspace. simpl.
  destruct (bool_decide _); unfold updateLockFile, writeLockFile;
    destruct (env_write env); simpl; (split; [done|apply size_set_le]).
Qed.

Lemma terminateSessionResume_registry env sid (m : SessionManager.t) :
  maxSessions (terminateSessionResume env sid m) = maxSessions m
  ∧ (JsMap.size (sessions (terminateSessionResume env sid m))
     ≤ JsMap.size (sessions m))%nat.
Proof.
  unfold terminateSessionResume, terminateSessionFinish.
  set (m1 := match JsMap.get sid (sessions m) with
             | Some session =>
                 let '(session', events) :=
                   Session.awaitMessageLoop (env_loopEnd env) session in
                 deliver (env_now env) sid events
                   (set_sessions (JsMap.set sid session' (sessions m)) m)
             | None => m
             end).
  assert (maxSessions m1 = maxSessions m
          ∧ JsMap.size (sessions m1) = JsMap.size (sessions m)) as [Hmax1 Hsize1].
  { subst m1. destruct (JsMap.get sid (sessions m)) as [session|] eqn:Hget; [|done].
    destruct (Session.awaitMessageLoop (env_loopEnd env) session) as [session' events].
    destruct (deliver_sameRegistry (env_now env) sid events
                (set_sessions (JsMap.set sid session' (sessions m)) m))
      as (-> & _ & _ & -> & _).
    simpl. split; [done|]. by apply (size_set_present _ _ session). }
  set (m2 := set_sessions (JsMap.delete sid (sessions m1)) m1).
  set (m3 := fold_left (rejectQuestion sid) (pendingQuestions m2) m2).
  set (m4 := fold_left (rejectPermission sid) (pendingPermissions m3) m3).
  destruct (rejectQuestions_sameRegistry sid (pendingQuestions m2) m2)
    as (Hs3 & _ & _ & Hmax3 & _).
  destruct (rejectPermissions_sameRegistry sid (pendingPermissions m3) m3)
    as (Hs4 & _ & _ & Hmax4 & _).
  fold m3 in Hs3, Hmax3. fold m4 in Hs4, Hmax4.
  unfold updateLockFile, writeLockFile. destruct (env_write env); simpl;
    rewrite Hs4, Hs3, Hmax4, Hmax3; simpl; rewrite Hmax1, <- Hsize1;
    (split; [done|apply size_delete_le]).
Qed.

Lemma cancelPromptResume_registry env sid (m : SessionManager.t) :
  maxSessions (cancelPromptResume env sid m) = maxSessions m
  ∧ JsMap.size (sessions (cancelPromptResume env sid m)) = JsMap.size (sessions m).
Proof.
  unfold cancelPromptResume. destruct (env_interrupt env); [|done].
  set (m1 := match JsMap.get sid (sessions m) with
             | Some session =>
                 set_sessions
                   (JsMap.set sid (Session.set_status idle session) (sessions m)) m
             | None => m
             end).
  destruct (deliver_sameRegistry (env_now env) sid [session_ended reason_cancelled] m1)
    as (-> & _ & _ & -> & _).
  subst m1. destruct (JsMap.get sid (sessions m)) as [session|] eqn:Hget; [|done].
  simpl. split; [done|]. by apply (size_set_present _ _ session).
Qed.

Lemma deleteWorkspaceResume_registry env sid (m : SessionManager.t) :
  maxSessions (deleteWorkspaceResume env sid m) = maxSessions m
  ∧ sessions (deleteWorkspaceResume env sid m) = sessions m.
Proof.
  unfold deleteWorkspaceResume. destruct (statAt _ _); [|done..].
  by destruct (env_rm env).
Qed.

(** One step: the limit stays, and the registered sessions and suspended
    creations together grow by a creation that overlaps, and not
    otherwise beyond the limit. *)
Lemma step_bound (op : Op) (st : State) (k : nat) :
  (registered st + creations st ≤ maxSessions (manager st) + k)%nat →
  maxSessions (manager (step op st)) = maxSessions (manager st)
  ∧ (registered (step op st) + creations (step op st)
     ≤ maxSessions (manager st) + k + overlapsAt op st)%nat.
Proof.
  intros Hle. unfold registered in *.
  destruct op as [op|options|now sid|sid|sid|index env]; simpl.
  - pose proof (step_registry op (manager st)) as [Hmax Hsize].
    split; [done|]. unfold creations, registered in *. simpl.
    destruct op; simpl in *; try lia.
    destruct Hsize as [Hsize|[Hbelow Hsize]]; [lia|].
    destruct (Nat.ltb_spec (JsMap.size (sessions (manager st)))
                (maxSessions (manager st))); [|lia].
    destruct (Nat.ltb_spec 0 (length
                (filter (λ call, isCreating call = true) (suspended st)))); simpl; lia.
  - unfold createSessionStart, registered.
    destruct (Nat.leb_spec (maxSessions (manager st))
                (JsMap.size (sessions (manager st)))) as [Hfull|Hbelow].
    + destruct (Nat.ltb_spec (JsMap.size (sessions (manager st)))
                  (maxSessions (manager st))); [lia|]. simpl. split; [done|lia].
    + simpl. rewrite creations_suspend. simpl. split; [done|].
      destruct (Nat.ltb_spec (JsMap.size (sessions (manager st)))
                  (maxSessions (manager st))); [|lia].
      destruct (Nat.ltb_spec 0 (creations st)); simpl; lia.
  - unfold terminateSessionStart.
    destruct (JsMap.get sid (sessions (manager st))) as [session|] eqn:Hget;
      [|split; [done|lia]].
    destruct (Session.terminateStart session) as [session' events].
    rewrite creations_suspend. simpl.
    destruct (deliver_sameRegistry now sid events
                (set_sessions (JsMap.set sid session' (sessions (manager st)))
                   (manager st))) as (-> & _ & _ & -> & _).
    simpl. rewrite (size_set_present _ _ session) by done. split; [done|lia].
  - unfold cancelPromptStart.
    destruct (JsMap.get sid (sessions (manager st))) as [session|] eqn:Hget;
      [|split; [done|lia]].
    rewrite creations_suspend. simpl.
    rewrite (size_set_present _ _ session) by done. split; [done|lia].
  - unfold deleteWorkspaceStart.
    destruct (JsMap.has sid (sessions (manager st))); [split; [done|lia]|].
    rewrite creations_suspend. simpl. split; [done|lia].
  - destruct (suspended st !! index) as [call|] eqn:Hcall; [|split; [done|lia]].
    pose proof (creations_delete index call (suspended st) Hcall) as Hcount.
    unfold creations in *. simpl.
    destruct call as [sid options|sid|sid|sid]; simpl in *.
    + destruct (createSessionResume_registry env sid options (manager st)) as [-> Hsize].
      split; [done|lia].
    + destruct (terminateSessionResume_registry env sid (manager st)) as [-> Hsize].
      split; [done|lia].
    + destruct (cancelPromptResume_registry env sid (manager st)) as [-> Hsize].
      split; [done|lia].
    + destruct (deleteWorkspaceResume_registry env sid (manager st)) as [-> ->].
      split; [done|lia].
Qed.

Lemma run_bound (ops : list Op) (st : State) (k : nat) :
  (registered st + creations st ≤ maxSessions (manager st) + k)%nat →
  maxSessions (manager (run ops st)) = maxSessions (manager st)
  ∧ (registered (run ops st) + creations (run ops st)
     ≤ maxSessions (manager st) + k + overlaps ops st)%nat.
Proof.
  revert st k. induction ops as [|op ops IH]; intros st k Hle; [simpl; split; [done|lia]|].
  destruct (step_bound op st k Hle) as [Hmax Hstep].
  destruct (IH (step op st) (k + overlapsAt op st)%nat) as [Hmax' Hrun].
  { rewrite Hmax. lia. }
  simpl. unfold run in *. split; [congruence|]. rewrite Hmax in Hrun. lia.
Qed.

(** X8.  [createSession] tests the size of the registry before it awaits
    [mkdir] and registers its session after it, so the registry can
    outgrow [maxSessions], but only through [createSession] calls that
    overlap.  Whatever methods are called ([shutdown] apart), however their
    calls overlap and whatever the sessions, the runtime and the timers do,
    the registered sessions and the creations still suspended number
    together at most [maxSessions] plus the [createSession] calls that
    passed the size test while another creation was suspended; when there
    was no such call the registry is within [maxSessions].  The limit
    itself never changes. *)
Theorem registry_outgrows_capacity_only_by_overlap (ops : list Op) (st : State) :
  (registered st + creations st ≤ maxSessions (manager st))%nat →
  maxSessions (manager (run ops st)) = maxSessions (manager st)
  ∧ (registered (run ops st) + creations (run ops st)
     ≤ maxSessions (manager st) + overlaps ops st)%nat
  ∧ (overlaps ops st = 0%nat →
     (registered (run ops st) ≤ maxSessions (manager st))%nat).
Proof.
  intros Hle. destruct (run_bound ops st 0) as [Hmax Hbound]; [lia|].
  split; [done|]. split; [lia|]. intros Hnone. lia.
Qed.

Lemma registry_outgrows_capacity_only_by_overlap_witness :
  let options := mkOptions "/home/dev" None in
  let env :=
    mkEnvironment 4242 1000 succeeds succeeds succeeds Session.loop_returns
      Session.resolves Fixtures.readableWorld in
  let st := mkState (SessionManager.new 1 Fixtures.workspaces (mkDisk [] lock_absent)
                       BrokerOps.numberedUuid) [] in
  let overlapping :=
    [CreateSessionStart options; CreateSessionStart options; Resume 0 env; Resume 0 env] in
  let serial :=
    [CreateSessionStart options; Resume 0 env; CreateSessionStart options;
     Call (ManagerOps.CreateSession 4242 1100 succeeds succeeds options)] in
  overlaps overlapping st = 1%nat
  ∧ maxSessions (manager (run overlapping st)) = 1%nat
  ∧ registered (run overlapping st) = 2%nat
  ∧ overlaps serial st = 0%nat
  ∧ (registered (run serial st) ≤ 1)%nat.
Proof.
  intros options env st overlapping serial.
  destruct (registry_outgrows_capacity_only_by_overlap overlapping st)
    as (Hmax & _ & _); [vm_compute; lia|].
  destruct (registry_outgrows_capacity_only_by_overlap serial st)
    as (_ & _ & Hserial); [vm_compute; lia|].
  split; [vm_compute; reflexivity|]. split; [exact Hmax|].
  split; [vm_compute; reflexivity|]. split; [vm_compute; reflexivity|].
  apply Hserial. vm_compute. reflexivity.
Defined.

(** With nothing pending, no step of overlapping calls makes a request
    pending. *)
Lemma untouched_nothingPending (m m' : SessionManager.t) :
  ManagerOps.brokerUntouched m m' → ManagerOps.nothingPending m →
  ManagerOps.nothingPending m'.
Proof.
  intros (Hq & Hp & Ht & Hl & _) (? & ? & ? & ?). unfold ManagerOps.nothingPending.
  by rewrite Hq, Hp, Ht, Hl.
Qed.

Lemma terminateSessionFinish_nothingPending processId now write sid
    (m : SessionManager.t) :
  ManagerOps.nothingPending m →
  ManagerOps.nothingPending (terminateSessionFinish processId now write sid m).
Proof.
  intros (Hq & Hp & Ht & Hl). unfold terminateSessionFinish. simpl. rewrite Hq. simpl.
  rewrite Hp. simpl. unfold updateLockFile, writeLockFile. by destruct write.
Qed.

Lemma overlap_step_nothingPending (op : Op) (st : State) :
  ManagerOps.nothingPending (manager st) →
  ManagerOps.nothingPending (manager (step op st)).
Proof.
  intros Hnothing.
  destruct op as [op|options|now sid|sid|sid|index env]; simpl.
  - by apply step_nothingPending.
  - unfold createSessionStart.
    by destruct (maxSessions (manager st) <=? JsMap.size (sessions (manager st)))%nat.
  - unfold terminateSessionStart.
    destruct (JsMap.get sid (sessions (manager st))) as [session|]; [|done].
    pose proof (terminateStart_never_asks session) as Hquiet.
    destruct (Session.terminateStart session) as [session' events]. simpl.
    eapply untouched_nothingPending; [by apply deliver_untouched|done].
  - unfold cancelPromptStart.
    by destruct (JsMap.get sid (sessions (manager st))) as [session|].
  - unfold deleteWorkspaceStart. by destruct (JsMap.has sid (sessions (manager st))).
  - destruct (suspended st !! index) as [call|]; [|done]. simpl.
    destruct call as [sid options|sid|sid|sid]; simpl.
    + unfold createSessionResume. destruct (env_mkdir env); [|done].
      unfold createSessionWorkspace. simpl.
      destruct (bool_decide _); unfold updateLockFile, writeLockFile;
        by destruct (env_write env).
    + unfold terminateSessionResume. apply terminateSessionFinish_nothingPending.
      destruct (JsMap.get sid (sessions (manager st))) as [session|]; [|done].
      pose proof (awaitMessageLoop_never_asks (env_loopEnd env) session) as Hquiet.
      destruct (Session.awaitMessageLoop (env_loopEnd env) session) as [session' events].
      eapply untouched_nothingPending; [by apply deliver_untouched|done].
    + unfold cancelPromptResume. destruct (env_interrupt env); [|done].
      eapply untouched_nothingPending.
      * apply deliver_untouched. by repeat constructor.
      * by destruct (JsMap.get sid (sessions (manager st))).
    + unfold deleteWorkspaceResume. destruct (statAt _ _); [|done..].
      by destruct (env_rm env).
Qed.

(** X21.  No request becomes pending when calls overlap either: however
    the calls of the manager ([shutdown] apart) are interleaved with one
    another, with the events of the sessions and with the timers, a manager
    with no pending request never has one, and every [answerQuestion] and
    [respondToPermission] throws the not-found error. *)
Theorem no_request_is_pending_when_calls_overlap (ops : list Op) (st : State) :
  ManagerOps.nothingPending (manager st) →
  ManagerOps.nothingPending (manager (run ops st))
  ∧ (∀ q answer,
       answerQuestion q answer (manager (run ops st))
       = (manager (run ops st), inl (BrokerInvariant.questionNotFound q)))
  ∧ (∀ p decision,
       respondToPermission p decision (manager (run ops st))
       = (manager (run ops st), inl (PermissionInvariant.permissionNotFound p))).
Proof.
  intros Hnothing.
  assert (ManagerOps.nothingPending (manager (run ops st))) as (Hq & Hp & Harmed & Hlog).
  { unfold run.
    apply (fold_left_preserves _ (λ acc, ManagerOps.nothingPending (manager acc)));
      [|done].
    intros acc op _ Hacc. by apply overlap_step_nothingPending. }
  split; [done|]. split.
  - intros q answer. unfold answerQuestion. by rewrite Hq.
  - intros p decision. unfold respondToPermission. by rewrite Hp.
Qed.

Lemma no_request_is_pending_when_calls_overlap_witness :
  let env :=
    mkEnvironment 4242 2000 succeeds succeeds succeeds
      (Session.loop_throws "stream closed") Session.resolves Fixtures.readableWorld in
  let sid := BrokerOps.numberedUuid 0 in
  let ops :=
    [CreateSessionStart (mkOptions "/home/dev" None); Resume 0 env;
     Call (ManagerOps.SendPrompt 2100 sid "Which colour?");
     CancelPromptStart sid; TerminateSessionStart 2200 sid;
     Call (ManagerOps.RuntimeMessage 2300 sid
             (Session.sdk_assistant
                (Some [Session.tool_use_block "toolu_01" "AskUserQuestion"
                         (Session.mkToolInput "{}" None)])));
     Resume 1 env; Resume 0 env; Call (ManagerOps.Advance 400000)] in
  let st := run ops (mkState BrokerOps.numberedManager []) in
  pendingQuestions (manager st) = []
  ∧ (answerQuestion "toolu_01" "red" (manager st)).2
    = inl (BrokerInvariant.questionNotFound "toolu_01").
Proof.
  intros env sid ops st.
  destruct (no_request_is_pending_when_calls_overlap ops
              (mkState BrokerOps.numberedManager []))
    as ((Hq & _) & Hanswer & _).
  { by repeat split. }
  split; [exact Hq|]. subst st. by rewrite Hanswer.
Defined.

End OverlappingCalls.

Section Forwarding.

Import SessionManager ManagerMethods ManagerOps Observations.

Lemma handleSessionEvent_forwarded now sid event m :
  forwarded (handleSessionEvent now sid event m)
  = forwarded m ++ annotated (uuidSource m) (uuidsTaken m) [(now, sid, event)]
  ∧ uuidSource (handleSessionEvent now sid event m) = uuidSource m
  ∧ uuidsTaken (handleSessionEvent now sid event m)
    = (if asks event then S (uuidsTaken m) else uuidsTaken m).
Proof. by destruct event. Qed.

Lemma annotated_cons uuids taken now sid event rest :
  annotated uuids taken ((now, sid, event) :: rest)
  = annotated uuids taken [(now, sid, event)]
    ++ annotated uuids (if asks event then S taken else taken) rest.
Proof. by destruct event. Qed.

Lemma handleEvents_forwarded events m :
  forwarded (handleEvents events m)
  = forwarded m ++ annotated (uuidSource m) (uuidsTaken m) events.
Proof.
  unfold handleEvents. revert m.
  induction events as [|[[now sid] event] events IH]; intros m.
  - simpl. by rewrite app_nil_r.
  - destruct (handleSessionEvent_forwarded now sid event m) as (Hf & Hsource & Htaken).
    cbn [fold_left fst snd]. rewrite IH, Hf, Hsource, Htaken, <- app_assoc.
    by rewrite <- annotated_cons.
Qed.

Lemma annotated_length uuids taken events :
  length (annotated uuids taken events) = length events.
Proof.
  revert taken. induction events as [|[[now sid] event] events IH]; intros taken; [done|].
  destruct event; simpl; by rewrite IH.
Qed.

Lemma annotated_quiet uuids taken events :
  Forall (λ ev, asks ev.2 = false) events →
  annotated uuids taken events = (λ ev, (ev.1.2, ev.2)) <$> events.
Proof.
  induction 1 as [|[[now sid] event] events Hev _ IH]; [done|].
  destruct event; try discriminate Hev; simpl; by rewrite IH.
Qed.

Lemma deliver_handleEvents now sid events m :
  deliver now sid events m = handleEvents ((λ event, (now, sid, event)) <$> events) m.
Proof.
  unfold deliver, handleEvents. revert m.
  induction events as [|event events IH]; intros m; [done|]. simpl. apply IH.
Qed.

Lemma deliver_forwarded now sid events m :
  Forall (λ event, asks event = false) events →
  forwarded (deliver now sid events m) = forwarded m ++ ((λ event, (sid, event)) <$> events).
Proof.
  intros Hquiet. rewrite deliver_handleEvents, handleEvents_forwarded.
  rewrite annotated_quiet.
  - by rewrite <- list_fmap_compose.
  - apply Forall_fmap. by eapply Forall_impl.
Qed.

(** X11.  [handleSessionEvent] passes every event on to [config.onEvent]
    exactly once and in order, under the id of its session: unchanged,
    except that a question or a permission request carries the id that
    [randomUUID] returned for it, the ids being drawn in the order of the
    events. *)
Theorem every_event_is_forwarded_once (events : list (Z * string * SessionEvent))
    (m : SessionManager.t) :
  forwarded (handleEvents events m)
  = forwarded m ++ annotated (uuidSource m) (uuidsTaken m) events
  ∧ length (forwarded (handleEvents events m)) = (length (forwarded m) + length events)%nat
  ∧ (Forall (λ ev, asks ev.2 = false) events →
     forwarded (handleEvents events m)
     = forwarded m ++ ((λ ev, (ev.1.2, ev.2)) <$> events)).
Proof.
  rewrite handleEvents_forwarded. split; [done|]. split.
  - by rewrite length_app, annotated_length.
  - intros Hquiet. by rewrite annotated_quiet.
Qed.

End Forwarding.

Section PlanMode.

Import SessionManager ManagerMethods ManagerOps.

Lemma withSession_registered now sid method m session :
  JsMap.get sid (sessions m) = Some session →
  (∀ s, Forall (λ event, asks event = false) (method s).2) →
  (withSession now sid method m).2 = inr ()
  ∧ JsMap.get sid (sessions (withSession now sid method m).1) = Some (method session).1
  ∧ forwarded (withSession now sid method m).1
    = forwarded m ++ ((λ event, (sid, event)) <$> (method session).2).
Proof.
  intros Hget Hquiet.
  destruct (withSession_frame now sid method m Hquiet)
    as (_ & _ & _ & [[Hnone _]|(session0 & Hget0 & Hs)]); [congruence|].
  assert (session0 = session) as -> by congruence.
  split; [|split].
  - unfold withSession, requireSession. rewrite Hget. by destruct (method session).
  - rewrite Hs. apply get_set_eq.
  - unfold withSession, requireSession. rewrite Hget.
    specialize (Hquiet session). destruct (method session) as [session' events].
    cbn [fst snd] in *. by rewrite deliver_forwarded.
Qed.

Lemma withSessionSettling_registered now sid method m session :
  JsMap.get sid (sessions m) = Some session →
  (∀ s, Forall (λ event, asks event = false) (method s).1.2) →
  (withSessionSettling now sid method m).2
  = match (method session).2 with
    | Session.fulfilled => inr ()
    | Session.rejected => inl (node_error "query")
    end
  ∧ JsMap.get sid (sessions (withSessionSettling now sid method m).1)
    = Some (method session).1.1
  ∧ forwarded (withSessionSettling now sid method m).1
    = forwarded m ++ ((λ event, (sid, event)) <$> (method session).1.2).
Proof.
  intros Hget Hquiet.
  destruct (withSessionSettling_frame now sid method m Hquiet)
    as (_ & _ & _ & [[Hnone _]|(session0 & Hget0 & Hs)]); [congruence|].
  assert (session0 = session) as -> by congruence.
  split; [|split].
  - unfold withSessionSettling, requireSession. rewrite Hget.
    by destruct (method session) as [[session' events] settled].
  - rewrite Hs. apply get_set_eq.
  - unfold withSessionSettling, requireSession. rewrite Hget.
    specialize (Hquiet session). destruct (method session) as [[session' events] settled].
    cbn [fst snd] in *. by rewrite deliver_forwarded.
Qed.

Lemma modifyPlan_outside_plan_mode now sid feedback m session :
  JsMap.get sid (sessions m) = Some session → Session.inPlanMode session = false →
  modifyPlan now sid feedback m = (m, inl (app_error notInPlanMode)).
Proof.
  intros Hget Hplan. unfold modifyPlan, requireSession. by rewrite Hget, Hplan.
Qed.

Lemma modifyPlan_in_plan_mode now sid feedback m session :
  JsMap.get sid (sessions m) = Some session → Session.inPlanMode session = true →
  (modifyPlan now sid feedback m).2 = inr ()
  ∧ JsMap.get sid (sessions (modifyPlan now sid feedback m).1)
    = Some (Session.sendPrompt now feedback session).
Proof.
  intros Hget Hplan. unfold modifyPlan, requireSession. rewrite Hget, Hplan. simpl.
  destruct (withSession_registered now sid
              (λ s, (Session.sendPrompt now feedback s, [])) m session Hget)
    as (Hr & Hs & _); [intros s; constructor|].
  done.
Qed.

(** X12.  The plan-mode workflow of a registered session.  [enterPlanMode]
    sends the "/plan" command, marks the session as in plan mode and
    reports the change; from then on [modifyPlan] sends its feedback as a
    prompt.  [approvePlan] switches to bypassPermissions, leaves plan mode
    and reports the change, also when the call into the runtime rejects;
    after it, as for any session not in plan mode, [modifyPlan] throws
    "Session is not in plan mode" and changes nothing.  [setSessionMode]
    to plan does not mark the session as in plan mode: [modifyPlan] keeps
    throwing after it. *)
Theorem plan_mode_workflow (now : Z) (sid : string) (m : SessionManager.t)
    (session : Session.t) :
  JsMap.get sid (sessions m) = Some session →
  let entered := enterPlanMode now sid m in
  entered.2 = inr ()
  ∧ (∃ s1, JsMap.get sid (sessions entered.1) = Some s1
           ∧ Session.inPlanMode s1 = true ∧ Session.status s1 = active
           ∧ Session.input s1 = Session.push "/plan" (Session.input session))
  ∧ forwarded entered.1 = forwarded m ++ [(sid, plan_mode_change true)]
  ∧ (∀ now' feedback, (modifyPlan now' sid feedback entered.1).2 = inr ())
  ∧ (∀ sdk now',
       let approved := approvePlan sdk now' sid entered.1 in
       approved.2 = match sdk with
                    | Session.resolves => inr ()
                    | Session.rejects => inl (node_error "query")
                    end
       ∧ (∃ s2, JsMap.get sid (sessions approved.1) = Some s2
                ∧ Session.inPlanMode s2 = false
                ∧ Session.permissionMode s2 = bypassPermissions)
       ∧ forwarded approved.1 = forwarded entered.1 ++ [(sid, plan_mode_change false)]
       ∧ ∀ now'' feedback,
           modifyPlan now'' sid feedback approved.1
           = (approved.1, inl (app_error notInPlanMode)))
  ∧ (Session.inPlanMode session = false →
     (∀ now' feedback,
        modifyPlan now' sid feedback m = (m, inl (app_error notInPlanMode)))
     ∧ ∀ sdk now' now'' feedback,
         let moded := (setSessionMode sdk now' sid plan m).1 in
         modifyPlan now'' sid feedback moded = (moded, inl (app_error notInPlanMode))).
Proof.
  intros Hget entered.
  destruct (withSession_registered now sid (Session.sendSlashCommand now "plan" None)
              m session Hget) as (Hr1 & Hs1 & Hf1).
  { intros s.
    apply (session_step_never_asks (Session.OpSendSlashCommand now "plan" None) s). }
  fold (enterPlanMode now sid m) in Hr1, Hs1, Hf1. fold entered in Hr1, Hs1, Hf1.
  set (s1 := (Session.sendSlashCommand now "plan" None session).1) in *.
  assert (Session.inPlanMode s1 = true) as Hplan1 by done.
  split; [done|]. split; [by exists s1|]. split; [done|]. split; [|split].
  - intros now' feedback.
    by destruct (modifyPlan_in_plan_mode now' sid feedback entered.1 s1 Hs1 Hplan1).
  - intros sdk now' approved.
    destruct (withSessionSettling_registered now' sid
                (Session.setPermissionMode sdk bypassPermissions) entered.1 s1 Hs1)
      as (Hr2 & Hs2 & Hf2).
    { intros s.
      apply (session_step_never_asks
               (Session.OpSetPermissionMode sdk bypassPermissions) s). }
    fold (approvePlan sdk now' sid entered.1) in Hr2, Hs2, Hf2.
    fold approved in Hr2, Hs2, Hf2.
    split; [rewrite Hr2; by destruct sdk|].
    split; [eexists; split; [exact Hs2|done]|].
    split; [exact Hf2|].
    intros now'' feedback.
    by apply (modifyPlan_outside_plan_mode now'' sid feedback approved.1 _ Hs2).
  - intros Hout. split.
    + intros now' feedback. by apply (modifyPlan_outside_plan_mode _ _ _ _ session).
    + intros sdk now' now'' feedback moded.
      destruct (withSessionSettling_registered now' sid
                  (Session.setPermissionMode sdk plan) m session Hget)
        as (_ & Hs3 & _).
      { intros s. apply (session_step_never_asks (Session.OpSetPermissionMode sdk plan) s). }
      fold (setSessionMode sdk now' sid plan m) in Hs3. fold moded in Hs3.
      apply (modifyPlan_outside_plan_mode now'' sid feedback moded _ Hs3).
      unfold Session.setPermissionMode. cbn. by rewrite Hout.
Qed.

Lemma plan_mode_workflow_witness :
  let m := Fixtures.oneSessionManager 5 succeeds in
  let entered := (enterPlanMode 2000 Fixtures.uuid1 m).1 in
  let approved := (approvePlan Session.resolves 3000 Fixtures.uuid1 entered).1 in
  (modifyPlan 2500 Fixtures.uuid1 "smaller steps" entered).2 = inr ()
  ∧ (modifyPlan 3500 Fixtures.uuid1 "smaller steps" approved).2
    = inl (app_error notInPlanMode)
  ∧ (modifyPlan 1500 Fixtures.uuid1 "smaller steps"
       (setSessionMode Session.resolves 1200 Fixtures.uuid1 plan m).1).2
    = inl (app_error notInPlanMode).
Proof.
  intros m entered approved.
  destruct (plan_mode_workflow 2000 Fixtures.uuid1 m
              (Session.new Fixtures.uuid1
                 (NodePath.join Fixtures.workspaces Fixtures.uuid1) None 1000))
    as (_ & _ & _ & Hmodify & Happrove & Hmode).
  { reflexivity. }
  split; [apply Hmodify|].
  destruct (Happrove Session.resolves 3000%Z) as (_ & _ & _ & Hafter).
  split; [fold entered in Hafter; fold approved in Hafter; by rewrite Hafter|].
  destruct (Hmode eq_refl) as [_ Hmoded]. by rewrite Hmoded.
Defined.

End PlanMode.

(** ** Workspaces after their sessions *)

Section Workspaces.

Import SessionManager ManagerMethods ManagerOps RegistryFrame.

Lemma terminateSession_keeps_workspaces processId now write loopEnd sid m m' :
  terminateSession processId now write loopEnd sid m = (m', inr ()) →
  entries (disk m') = entries (disk m) ∧ workspacesDir m' = workspacesDir m.
Proof.
  unfold terminateSession.
  destruct (JsMap.get sid (sessions m)) as [session|] eqn:Hget; [|done].
  destruct (Session.terminate loopEnd session) as [session' events].
  set (m0 := set_sessions (JsMap.set sid session' (sessions m)) m).
  set (m1 := deliver now sid events m0).
  set (m2 := set_sessions (JsMap.delete sid (sessions m1)) m1).
  set (m3 := fold_left (rejectQuestion sid) (pendingQuestions m2) m2).
  set (m4 := fold_left (rejectPermission sid) (pendingPermissions m3) m3).
  set (m5 := set_messageChunks (JsMap.delete sid (messageChunks m4)) m4).
  intros [= <-].
  destruct (deliver_sameRegistry now sid events m0) as (_ & Hd1 & _ & _ & Hw1).
  destruct (rejectQuestions_sameRegistry sid (pendingQuestions m2) m2)
    as (_ & Hd3 & _ & _ & Hw3).
  destruct (rejectPermissions_sameRegistry sid (pendingPermissions m3) m3)
    as (_ & Hd4 & _ & _ & Hw4).
  fold m1 in Hd1, Hw1. fold m3 in Hd3, Hw3. fold m4 in Hd4, Hw4.
  unfold updateLockFile, writeLockFile. destruct write; simpl;
    rewrite ?Hd4, ?Hd3, ?Hw4, ?Hw3; simpl; by rewrite ?Hd1, ?Hw1.
Qed.

(** X13.  [deleteWorkspace] refuses an id only when the id itself is a
    key of the registry, and throws [WorkspaceNotFoundError] without
    removing anything when [stat] does not find the directory.  For any
    other id it issues one recursive [rm] of the path joined from the
    workspaces directory and the id; when that succeeds exactly the entries
    at or below this path are gone, and when it throws the disk is as
    before.  The guard is on the id, the removal on the path: an id that is
    no key but whose path is the workspace of a registered session, or lies
    above it, removes that workspace while its session stays registered.
    [terminateSession] keeps the workspace, and after it [deleteWorkspace]
    is no longer refused. *)
Theorem deleteWorkspace_guards_by_key_only (w : World) (rm : IO) (sid : string)
    (m : SessionManager.t) :
  let path := NodePath.join (workspacesDir m) sid in
  (JsMap.has sid (sessions m) = true →
     deleteWorkspace w rm sid m = (m, inl (app_error (activeSessionWorkspace sid))))
  ∧ (JsMap.has sid (sessions m) = false → (∀ stats, statAt w path ≠ fs_ok stats) →
     deleteWorkspace w rm sid m = (m, inl (app_error (WorkspaceNotFoundError sid))))
  ∧ (JsMap.has sid (sessions m) = false → (∃ stats, statAt w path = fs_ok stats) →
     let result := deleteWorkspace w rm sid m in
     fsLog result.1 = fsLog m ++ [FsRm path rm]
     ∧ sessions result.1 = sessions m
     ∧ match rm with
       | succeeds =>
           result.2 = inr ()
           ∧ (∀ e, e ∈ entries (disk result.1)
                   ↔ e ∈ entries (disk m)
                     ∧ NodePath.isInside path (NodePath.join (workspacesDir m) (name e))
                       = false)
           ∧ (∀ e, e ∈ entries (disk result.1) → name e ≠ sid)
           ∧ ∀ registered,
               JsMap.has registered (sessions m) = true →
               NodePath.isInside path (NodePath.join (workspacesDir m) registered) = true →
               JsMap.has registered (sessions result.1) = true
               ∧ ∀ e, e ∈ entries (disk result.1) → name e ≠ registered
       | fails => result.2 = inl (node_error "rm") ∧ disk result.1 = disk m
       end)
  ∧ ∀ processId now write loopEnd m',
      terminateSession processId now write loopEnd sid m = (m', inr ()) →
      entries (disk m') = entries (disk m)
      ∧ ∀ rm', (∃ stats, statAt w path = fs_ok stats) →
               (deleteWorkspace w rm' sid m').2
               = match rm' with succeeds => inr () | fails => inl (node_error "rm") end.
Proof.
  intros path. split; [|split; [|split]].
  - intros Hhas. unfold deleteWorkspace. by rewrite Hhas.
  - intros Hhas Hstat. unfold deleteWorkspace. rewrite Hhas. fold path.
    destruct (statAt w path) as [stats| |] eqn:Hs; [by destruct (Hstat stats)|done..].
  - intros Hhas [stats Hstat] result. subst result. unfold deleteWorkspace.
    rewrite Hhas. fold path. rewrite Hstat. destruct rm; simpl.
    + split; [done|]. split; [done|]. split; [done|].
      assert (∀ e, e ∈ entries (rmRecursive (workspacesDir m) path (disk m))
                   ↔ e ∈ entries (disk m)
                     ∧ NodePath.isInside path (NodePath.join (workspacesDir m) (name e))
                       = false) as Hentries.
      { intros e. unfold rmRecursive. simpl. rewrite list_elem_of_filter. tauto. }
      split; [exact Hentries|]. split.
      * intros e He Hname. apply Hentries in He as [_ Hout].
        rewrite Hname in Hout. fold path in Hout. by rewrite isInside_refl in Hout.
      * intros registered Hregistered Hinside. split; [done|].
        intros e He Hname. apply Hentries in He as [_ Hout].
        rewrite Hname in Hout. congruence.
    + done.
  - intros processId now write loopEnd m' Ht.
    destruct (terminateSession_keeps_workspaces _ _ _ _ _ _ _ Ht) as [Hentries Hdir].
    split; [done|]. intros rm' [stats Hstat].
    destruct (terminateSession_completed _ _ _ _ _ _ _ Ht) as [Hs _].
    unfold deleteWorkspace.
    assert (JsMap.has sid (sessions m') = false) as ->.
    { apply has_false. rewrite Hs. apply get_delete_eq. }
    rewrite Hdir. fold path. rewrite Hstat. by destruct rm'.
Qed.

Lemma deleteWorkspace_guards_by_key_only_witness :
  let m := Fixtures.oneSessionManager 5 succeeds in
  let removed sid := deleteWorkspace Fixtures.readableWorld succeeds sid m in
  name <$> entries (disk m) = [Fixtures.uuid1]
  ∧ (removed Fixtures.uuid1).2
    = inl (app_error (activeSessionWorkspace Fixtures.uuid1))
  ∧ (removed ("./" +:+ Fixtures.uuid1)).2 = inr ()
  ∧ JsMap.has Fixtures.uuid1 (sessions (removed ("./" +:+ Fixtures.uuid1)).1) = true
  ∧ (∀ e, e ∈ entries (disk (removed ("./" +:+ Fixtures.uuid1)).1) →
          name e ≠ Fixtures.uuid1)
  ∧ (removed "").2 = inr ()
  ∧ ∀ e, e ∈ entries (disk (removed "").1) → name e ≠ Fixtures.uuid1.
Proof.
  intros m removed.
  destruct (deleteWorkspace_guards_by_key_only Fixtures.readableWorld succeeds
              Fixtures.uuid1 m) as (Hrefused & _).
  destruct (deleteWorkspace_guards_by_key_only Fixtures.readableWorld succeeds
              ("./" +:+ Fixtures.uuid1) m) as (_ & _ & Hsame & _).
  destruct (deleteWorkspace_guards_by_key_only Fixtures.readableWorld succeeds "" m)
    as (_ & _ & Habove & _).
  destruct Hsame as (_ & _ & Hdone & _ & _ & Hgone);
    [vm_compute; reflexivity|by eexists|].
  destruct Habove as (_ & _ & Hdone' & _ & _ & Hgone');
    [vm_compute; reflexivity|by eexists|].
  destruct (Hgone Fixtures.uuid1) as [Hkept Hnone];
    [vm_compute; reflexivity|vm_compute; reflexivity|].
  destruct (Hgone' Fixtures.uuid1) as [_ Hnone'];
    [vm_compute; reflexivity|vm_compute; reflexivity|].
  subst removed. cbv beta.
  split; [vm_compute; reflexivity|].
  split; [rewrite Hrefused; [reflexivity|vm_compute; reflexivity]|].
  split; [exact Hdone|]. split; [exact Hkept|]. split; [exact Hnone|].
  split; [exact Hdone'|exact Hnone'].
Defined.

Lemma omap_sublist {A B C : Type} (f : A → option B) (g : B → C) (h : A → C)
    (l : list A) :
  (∀ a b, f a = Some b → g b = h a) → g <$> omap f l `sublist_of` h <$> l.
Proof.
  intros Hfg. induction l as [|a l IH]; [done|].
  simpl. destruct (f a) as [b|] eqn:Hf.
  - simpl. rewrite (Hfg a b Hf). by apply sublist_skip.
  - by apply sublist_cons.
Qed.

(** X14.  [listStaleWorkspaces] throws when the workspaces directory cannot
    be read.  Otherwise it lists, in directory order, workspaces that are
    visible directories of no registered session, each with the path
    joined from the workspaces directory and its name; such a directory is
    left out only when its [stat] or its [readdir] fails. *)
Theorem listStaleWorkspaces_lists_unregistered_directories (w : World)
    (m : SessionManager.t) :
  ((∀ dirents, readdirAt w (workspacesDir m) ≠ fs_ok dirents) →
     listStaleWorkspaces w m = inl (node_error "readdir"))
  ∧ ∀ dirents, readdirAt w (workspacesDir m) = fs_ok dirents →
      ∃ stale,
        listStaleWorkspaces w m = inr stale
        ∧ stale_sessionId <$> stale `sublist_of` name <$> dirents
        ∧ (∀ ws, ws ∈ stale →
             JsMap.has (stale_sessionId ws) (sessions m) = false
             ∧ isHidden (stale_sessionId ws) = false
             ∧ mkDirent (stale_sessionId ws) true ∈ dirents
             ∧ stale_path ws = NodePath.join (workspacesDir m) (stale_sessionId ws))
        ∧ ∀ e stats contents,
            e ∈ dirents → isDirectory e = true → isHidden (name e) = false →
            JsMap.has (name e) (sessions m) = false →
            statAt w (NodePath.join (workspacesDir m) (name e)) = fs_ok stats →
            readdirAt w (NodePath.join (workspacesDir m) (name e)) = fs_ok contents →
            mkStale (name e) (NodePath.join (workspacesDir m) (name e)) (st_mtime stats)
              (length contents) ∈ stale.
Proof.
  split.
  - intros Hfail. unfold listStaleWorkspaces.
    destruct (readdirAt w (workspacesDir m)) as [dirents| |]; [by destruct (Hfail dirents)|done..].
  - intros dirents Hread. unfold listStaleWorkspaces. rewrite Hread.
    eexists. split; [reflexivity|]. split; [|split].
    + apply omap_sublist. intros e ws Hentry. unfold staleEntry in Hentry.
      destruct (negb (isDirectory e)); [done|].
      destruct (isHidden (name e)); [done|].
      destruct (JsMap.has (name e) (sessions m)); [done|].
      destruct (statAt w (NodePath.join _ _)); [|done..].
      destruct (readdirAt w (NodePath.join _ _)); [|done..].
      by injection Hentry as <-.
    + intros ws Hin. apply list_elem_of_omap in Hin as (e & He & Hentry).
      unfold staleEntry in Hentry.
      destruct (isDirectory e) eqn:Hdir; [|done]. simpl in Hentry.
      destruct (isHidden (name e)) eqn:Hhidden; [done|].
      destruct (JsMap.has (name e) (sessions m)) eqn:Hhas; [done|].
      destruct (statAt w (NodePath.join _ _)); [|done..].
      destruct (readdirAt w (NodePath.join _ _)); [|done..].
      injection Hentry as <-. simpl. repeat split; try done.
      destruct e as [n d]. simpl in *. by subst d.
    + intros e stats contents He Hdir Hhidden Hhas Hstat Hlist.
      apply list_elem_of_omap. exists e. split; [done|].
      unfold staleEntry. by rewrite Hdir, Hhidden, Hhas, Hstat, Hlist.
Qed.

End Workspaces.

Section WorkspaceOutlivesSession.

Import SessionManager ManagerMethods ManagerOps RegistryFrame.

Lemma createSession_registers processId now write options m m1 sid :
  createSession processId now succeeds write options m = (m1, inr sid) →
  sid = uuidSource m (uuidsTaken m)
  ∧ workspacesDir m1 = workspacesDir m
  ∧ JsMap.get sid (sessions m1)
    = Some (Session.new sid (NodePath.join (workspacesDir m) sid)
              (o_permissionMode options) now)
  ∧ ∃ e, e ∈ entries (disk m1)
         ∧ NodePath.join (workspacesDir m) (name e) = NodePath.join (workspacesDir m) sid.
Proof.
  unfold createSession.
  destruct (maxSessions m <=? JsMap.size (sessions m))%nat; [done|].
  simpl. unfold createSessionWorkspace. simpl.
  destruct (bool_decide _) eqn:Hpresent; simpl; intros [= <- <-];
    (split; [done|]); unfold updateLockFile, writeLockFile;
    destruct write; simpl; (split; [done|]); (split; [apply get_set_eq|]).
  - apply bool_decide_eq_true in Hpresent.
    apply list_elem_of_fmap in Hpresent as (e & Heq & He). eauto.
  - apply bool_decide_eq_true in Hpresent.
    apply list_elem_of_fmap in Hpresent as (e & Heq & He). eauto.
  - exists (mkDirent (uuidSource m (uuidsTaken m)) true). split; [|done].
    apply elem_of_app. right. by apply list_elem_of_singleton.
  - exists (mkDirent (uuidSource m (uuidsTaken m)) true). split; [|done].
    apply elem_of_app. right. by apply list_elem_of_singleton.
Qed.

(** X15.  The workspace outlives its session.  A session made by
    [createSession] works in the directory joined from the workspaces
    directory and its id, which [createSession] has put on the disk.
    After [terminateSession] the directory is still there, and the three
    file methods resolve the id to the same directory through one [stat]:
    as long as that [stat] succeeds they return what they returned while
    the session was registered, and when it fails they throw
    [WorkspaceNotFoundError] without reading anything. *)
Theorem workspace_outlives_its_session (w : World) (processId : nat) (now : Z) (write : IO)
    (options : CreateSessionOptions) (m m1 : SessionManager.t) (sid : string) :
  createSession processId now succeeds write options m = (m1, inr sid) →
  let root := NodePath.join (workspacesDir m) sid in
  resolveWorkspacePath w sid m1 = ([], inr root)
  ∧ (∃ e, e ∈ entries (disk m1) ∧ NodePath.join (workspacesDir m) (name e) = root)
  ∧ ∀ processId' now' write' loopEnd' m2,
      terminateSession processId' now' write' loopEnd' sid m1 = (m2, inr ()) →
      entries (disk m2) = entries (disk m1)
      ∧ ((∃ stats, statAt w root = fs_ok stats) →
         ∀ rel,
           readSessionFile w sid rel m2
           = (AccessStat root :: (readSessionFile w sid rel m1).1,
              (readSessionFile w sid rel m1).2)
           ∧ listSessionFiles w sid rel m2
             = (AccessStat root :: (listSessionFiles w sid rel m1).1,
                (listSessionFiles w sid rel m1).2)
           ∧ getSessionFileInfo w sid rel m2
             = (AccessStat root :: (getSessionFileInfo w sid rel m1).1,
                (getSessionFileInfo w sid rel m1).2))
      ∧ ((∀ stats, statAt w root ≠ fs_ok stats) →
         ∀ rel,
           readSessionFile w sid rel m2
           = ([AccessStat root], inl (WorkspaceNotFoundError sid))
           ∧ listSessionFiles w sid rel m2
             = ([AccessStat root], inl (WorkspaceNotFoundError sid))
           ∧ getSessionFileInfo w sid rel m2
             = ([AccessStat root], inl (WorkspaceNotFoundError sid))).
Proof.
  intros Hcreate root.
  destruct (createSession_registers _ _ _ _ _ _ _ Hcreate) as (_ & Hdir1 & Hget1 & Hentry).
  assert (resolveWorkspacePath w sid m1 = ([], inr root)) as Hresolve1.
  { unfold resolveWorkspacePath. by rewrite Hget1. }
  split; [done|]. split; [done|].
  intros processId' now' write' loopEnd' m2 Ht.
  destruct (terminateSession_keeps_workspaces _ _ _ _ _ _ _ Ht) as [Hentries Hdir2].
  destruct (terminateSession_completed _ _ _ _ _ _ _ Ht) as [Hs2 _].
  assert (resolveWorkspacePath w sid m2
          = ([AccessStat root],
             match statAt w root with
             | fs_ok _ => inr root
             | _ => inl (WorkspaceNotFoundError sid)
             end)) as Hresolve2.
  { unfold resolveWorkspacePath. rewrite Hs2, get_delete_eq, Hdir2, Hdir1. done. }
  split; [done|]. split.
  - intros [stats Hstat] rel. rewrite Hstat in Hresolve2.
    unfold readSessionFile, listSessionFiles, getSessionFileInfo.
    rewrite Hresolve1, Hresolve2.
    destruct (negb (NodePath.startsWith (NodePath.resolve (processCwd w) root rel) root));
      done.
  - intros Hstat rel.
    unfold readSessionFile, listSessionFiles, getSessionFileInfo. rewrite Hresolve2.
    destruct (statAt w root) as [stats| |]; [by destruct (Hstat stats)|done..].
Qed.

Lemma workspace_outlives_its_session_witness :
  let m1 := Fixtures.oneSessionManager 5 succeeds in
  let m2 := (terminateSession 4242 2000 succeeds Session.loop_returns Fixtures.uuid1 m1).1 in
  let root := NodePath.join Fixtures.workspaces Fixtures.uuid1 in
  readSessionFile Fixtures.readableWorld Fixtures.uuid1 "secret.txt" m2
  = (AccessStat root
     :: (readSessionFile Fixtures.readableWorld Fixtures.uuid1 "secret.txt" m1).1,
     (readSessionFile Fixtures.readableWorld Fixtures.uuid1 "secret.txt" m1).2).
Proof.
  intros m1 m2 root.
  destruct (workspace_outlives_its_session Fixtures.readableWorld 4242 1000 succeeds
              (mkOptions "/home/dev" None) (Fixtures.freshManager 5) m1 Fixtures.uuid1)
    as (_ & _ & Hafter).
  { reflexivity. }
  destruct (Hafter 4242%nat 2000%Z succeeds Session.loop_returns m2) as (_ & Hsame & _).
  { vm_compute. reflexivity. }
  destruct (Hsame (ex_intro _ _ eq_refl) "secret.txt") as (Hread & _). exact Hread.
Defined.

End WorkspaceOutlivesSession.

(** ** The batch handlers *)

Section BatchHandlers.

Import SessionManager ManagerMethods ManagerOps ToolHandlers.

Lemma sendPrompt_unknown now sid prompt m :
  JsMap.get sid (sessions m) = None →
  sendPrompt now sid prompt m = (m, inl (app_error (SessionNotFoundError sid))).
Proof. intros Hget. unfold sendPrompt, withSession, requireSession. by rewrite Hget. Qed.

Lemma sendPrompt_registered now sid prompt m session :
  JsMap.get sid (sessions m) = Some session →
  sendPrompt now sid prompt m
  = (set_sessions (JsMap.set sid (Session.sendPrompt now prompt session) (sessions m)) m,
     inr ()).
Proof. intros Hget. unfold sendPrompt, withSession, requireSession. by rewrite Hget. Qed.

(** The prompts of a batch reach the sessions they name, one after the
    other. *)
Lemma sendOne_run prompts m :
  let result := runAll sendOne prompts m in
  result.2
  = (λ p, (p.1.2,
           if JsMap.has p.1.2 (sessions m) then prompt_sent
           else send_error ("Session not found: " +:+ p.1.2))) <$> prompts
  ∧ JsMap.keys (sessions result.1) = JsMap.keys (sessions m)
  ∧ ∀ sid,
      JsMap.get sid (sessions result.1)
      = fold_left (λ s p, Session.sendPrompt p.1 p.2 s) (promptsFor sid prompts)
          <$> JsMap.get sid (sessions m).
Proof.
  revert m. induction prompts as [|[[now sid] prompt] prompts IH]; intros m result.
  - subst result. simpl. split; [done|]. split; [done|].
    intros sid. by destruct (JsMap.get sid (sessions m)).
  - subst result. rewrite runAll_cons.
    destruct (JsMap.get sid (sessions m)) as [session|] eqn:Hget.
    + set (m1 := set_sessions
                   (JsMap.set sid (Session.sendPrompt now prompt session) (sessions m)) m).
      assert (sendOne (now, sid, prompt) m = (m1, [(sid, prompt_sent)])) as ->.
      { unfold sendOne. cbn [fst snd].
        by rewrite (sendPrompt_registered now sid prompt m session Hget). }
      cbn [fst snd].
      destruct (IH m1) as (Hres & Hkeys & Hsessions).
      assert (JsMap.keys (sessions m1) = JsMap.keys (sessions m)) as Hkeys1
        by exact (keys_set_present _ _ _ _ Hget).
      assert (∀ k, JsMap.has k (sessions m1) = JsMap.has k (sessions m)) as Hhas.
      { intros k. unfold JsMap.has. subst m1. manager_simpl.
        destruct (decide (sid = k)) as [->|Hne].
        - by rewrite get_set_eq, Hget.
        - by rewrite get_set_ne. }
      split; [|split].
      * rewrite Hres. rewrite fmap_cons. cbn [fst snd app].
        assert (JsMap.has sid (sessions m) = true) as ->
          by (apply has_true; eauto).
        f_equal. apply list_fmap_ext. intros i p _. by rewrite Hhas.
      * by rewrite Hkeys.
      * intros k. rewrite Hsessions. subst m1. manager_simpl.
        unfold promptsFor. cbn [omap list_omap fst snd].
        destruct (decide (sid = k)) as [->|Hne].
        -- by rewrite get_set_eq, Hget.
        -- by rewrite get_set_ne.
    + assert (sendOne (now, sid, prompt) m
              = (m, [(sid, send_error ("Session not found: " +:+ sid))])) as ->.
      { unfold sendOne. cbn [fst snd].
        by rewrite (sendPrompt_unknown now sid prompt m Hget). }
      cbn [fst snd].
      destruct (IH m) as (Hres & Hkeys & Hsessions).
      split; [|split].
      * rewrite Hres, fmap_cons. cbn [fst snd app].
        assert (JsMap.has sid (sessions m) = false) as -> by by apply has_false.
        done.
      * done.
      * intros k. rewrite Hsessions.
        unfold promptsFor. cbn [omap list_omap fst snd].
        destruct (decide (sid = k)) as [->|Hne]; [|done]. by rewrite Hget.
Qed.

Lemma filter_partition_length {A : Type} (f : A → bool) (l : list A) :
  (length (filter (λ a, f a = true) l) + length (filter (λ a, f a = false) l))%nat
  = length l.
Proof.
  induction l as [|a l IH]; [done|].
  rewrite !filter_cons. destruct (f a) eqn:Hf.
  - rewrite decide_True, decide_False by done. simpl. lia.
  - rewrite decide_False, decide_True by done. simpl. lia.
Qed.

(** X16.  [batch_send_prompts] answers with one result per prompt, in the
    order of the batch: [prompt_sent] when the session is registered, the
    error "Session not found: <id>" when it is not, the numbers of the two
    adding up to the size of the batch.  A prompt for an unknown session
    affects nothing; each registered session receives the prompts
    addressed to it, in order, and nothing is added to or removed from the
    registry. *)
Theorem batch_send_prompts_reports_each_prompt (prompts : list (Z * string * string))
    (m : SessionManager.t) :
  let answer := batchSendPrompts prompts m in
  answer.2.1
  = (λ p, (p.1.2,
           if JsMap.has p.1.2 (sessions m) then prompt_sent
           else send_error ("Session not found: " +:+ p.1.2))) <$> prompts
  ∧ (successful answer.2.2 + failed answer.2.2)%nat = total answer.2.2
  ∧ total answer.2.2 = length prompts
  ∧ successful answer.2.2
    = length (filter (λ p, JsMap.has p.1.2 (sessions m) = true) prompts)
  ∧ JsMap.keys (sessions answer.1) = JsMap.keys (sessions m)
  ∧ ∀ sid,
      JsMap.get sid (sessions answer.1)
      = fold_left (λ s p, Session.sendPrompt p.1 p.2 s) (promptsFor sid prompts)
          <$> JsMap.get sid (sessions m).
Proof.
  unfold batchSendPrompts.
  destruct (sendOne_run prompts m) as (Hres & Hkeys & Hsessions).
  destruct (runAll sendOne prompts m) as [m1 results].
  cbn [fst snd successful failed total] in *.
  split; [done|]. split; [|split; [|split]]; try done.
  - rewrite (filter_partition_length (λ r, isSent r.2) results), Hres.
    by rewrite length_fmap.
  - rewrite Hres. clear. induction prompts as [|[[now sid] prompt] prompts IH]; [done|].
    rewrite fmap_cons, !filter_cons. cbn [fst snd].
    destruct (JsMap.has sid (sessions m)) eqn:Hhas.
    + rewrite !decide_True by done. simpl. by rewrite IH.
    + rewrite !decide_False by (simpl; congruence). done.
Qed.

End BatchHandlers.

Section FailedSession.

Import SessionManager ManagerMethods ManagerOps.

(** X17.  A session whose message stream fails stays in the registry with
    status terminated: the error is passed on, the session is still
    reported by [getSessionInfo] and still counts towards [maxSessions],
    and since the reaper of stale sessions only takes sessions with status
    idle, it is never reaped however long it stays. *)
Theorem failed_session_keeps_its_slot (now : Z) (sid message : string)
    (m : SessionManager.t) (session : Session.t) :
  JsMap.get sid (sessions m) = Some session → Session.loopRunning session = true →
  let m' := (withSession now sid (Session.messageLoopError message) m).1 in
  (∃ s', JsMap.get sid (sessions m') = Some s'
         ∧ getSessionInfo sid m' = Some (getInfo s')
         ∧ Session.status s' = terminated
         ∧ Session.ended (Session.input s') = true
         ∧ ∀ time sessionTimeoutMs, isStale time sessionTimeoutMs s' = false)
  ∧ forwarded m' = forwarded m ++ [(sid, error_event message)]
  ∧ JsMap.size (sessions m') = JsMap.size (sessions m)
  ∧ ((maxSessions m ≤ JsMap.size (sessions m))%nat →
     ∀ processId now' mkdir write options,
       createSession processId now' mkdir write options m'
       = (m', inl (app_error (SessionLimitError (maxSessions m'))))).
Proof.
  intros Hget Hloop m'.
  destruct (withSession_registered now sid (Session.messageLoopError message) m session
              Hget) as (_ & Hs & Hf).
  { intros s. apply (session_step_never_asks (Session.OpMessageLoopError message) s). }
  destruct (withSession_frame now sid (Session.messageLoopError message) m)
    as (_ & Hmax & _ & [[Hnone _]|(session0 & Hget0 & Hsessions)]); [|congruence|].
  { intros s. apply (session_step_never_asks (Session.OpMessageLoopError message) s). }
  fold m' in Hs, Hf, Hmax, Hsessions.
  assert ((Session.messageLoopError message session).2 = [error_event message]
          ∧ Session.status (Session.messageLoopError message session).1 = terminated
          ∧ Session.ended (Session.input (Session.messageLoopError message session).1)
            = true) as (Hevs & Hstatus & Hended).
  { unfold Session.messageLoopError. by rewrite Hloop. }
  split; [|split; [|split]].
  - eexists. split; [exact Hs|]. split; [unfold getSessionInfo; by rewrite Hs|].
    split; [done|]. split; [done|].
    intros time sessionTimeoutMs. unfold isStale. rewrite Hstatus. apply andb_false_r.
  - by rewrite Hf, Hevs.
  - rewrite Hsessions. by apply (size_set_present _ _ session0).
  - intros Hfull processId now' mkdir write options.
    apply createSession_full. rewrite Hmax, Hsessions.
    by rewrite (size_set_present _ _ session0).
Qed.

Lemma failed_session_keeps_its_slot_witness :
  let m := Fixtures.oneSessionManager 1 succeeds in
  let m' := (withSession 2000 Fixtures.uuid1 (Session.messageLoopError "stream closed") m).1 in
  forwarded m' = forwarded m ++ [(Fixtures.uuid1, error_event "stream closed")]
  ∧ createSession 4242 3000 succeeds succeeds (mkOptions "/home/dev" None) m'
    = (m', inl (app_error (SessionLimitError (maxSessions m')))).
Proof.
  intros m m'.
  destruct (failed_session_keeps_its_slot 2000 Fixtures.uuid1 "stream closed" m
              (Session.new Fixtures.uuid1
                 (NodePath.join Fixtures.workspaces Fixtures.uuid1) None 1000))
    as (_ & Hf & _ & Hfull).
  { reflexivity. }
  { reflexivity. }
  split; [exact Hf|]. apply Hfull. vm_compute. lia.
Defined.

End FailedSession.

(** ** Terminating a session with pending requests *)

Section TerminatePending.

Import SessionManager ManagerOps BrokerInvariant TimerInvariant.

Lemma awaiting_untouched q pending deadline m m' :
  brokerUntouched m m' → awaiting q pending deadline m → awaiting q pending deadline m'.
Proof.
  intros (Hq & _ & Ht & _ & Hc). unfold awaiting, isCompleted. by rewrite Hq, Ht, Hc.
Qed.

Lemma settled_untouched q m m' : brokerUntouched m m' → settled q m → settled q m'.
Proof. intros (Hq & _ & Ht & _). unfold settled. by rewrite Hq, Ht. Qed.

Lemma settlementsOf_untouched q m m' :
  brokerUntouched m m' → settlementsOf q m' = settlementsOf q m.
Proof. intros (_ & _ & _ & Hl & _). unfold settlementsOf. by rewrite Hl. Qed.

Lemma rejectQuestion_skip sid acc entry :
  q_sessionId entry.2 ≠ sid → rejectQuestion sid acc entry = acc.
Proof. intros Hne. unfold rejectQuestion. by rewrite decide_False. Qed.

Lemma rejectQuestion_eq sid acc k p :
  q_sessionId p = sid →
  rejectQuestion sid acc (k, p)
  = set_pendingQuestions (JsMap.delete k (pendingQuestions acc))
      (set_settlements (settlements acc ++ [QuestionRejected k "Session terminated"])
         (set_timers (Timers.clearTimeout (q_timeoutId p) (timers acc)) acc)).
Proof. intros Heq. unfold rejectQuestion. by rewrite decide_True. Qed.

Lemma rejectQuestion_wf sid acc k p :
  wf acc → JsMap.get k (pendingQuestions acc) = Some p →
  wf (rejectQuestion sid acc (k, p)).
Proof.
  intros Hwf Hget. destruct (decide (q_sessionId p = sid)) as [Heq|Hne].
  - rewrite rejectQuestion_eq by done. by apply (wf_remove_question acc _ k p).
  - by rewrite rejectQuestion_skip.
Qed.

Lemma filter_other_question q (log : list Settlement) k reason :
  k ≠ q →
  filter (λ settlement, questionOf settlement = Some q) (log ++ [QuestionRejected k reason])
  = filter (λ settlement, questionOf settlement = Some q) log.
Proof.
  intros Hne. rewrite filter_app, filter_cons, decide_False by (simpl; congruence).
  by rewrite filter_nil, app_nil_r.
Qed.

Lemma rejectQuestion_other sid acc k p q pending deadline :
  wf acc → JsMap.get k (pendingQuestions acc) = Some p →
  awaiting q pending deadline acc → k ≠ q →
  awaiting q pending deadline (rejectQuestion sid acc (k, p))
  ∧ settlementsOf q (rejectQuestion sid acc (k, p)) = settlementsOf q acc.
Proof.
  intros Hwf Hget Haw Hne. destruct (decide (q_sessionId p = sid)) as [Heq|Hskip];
    [|by rewrite rejectQuestion_skip].
  rewrite rejectQuestion_eq by done.
  pose proof Hwf as (_ & _ & _ & Hq2 & _).
  pose proof Haw as (Hgetq & Hlookup & Hflag & Honly).
  destruct (Hq2 k p (get_Some_elem _ _ _ Hget)) as (tm & Hl & Hcb & _).
  assert (q_timeoutId p ≠ q_timeoutId pending) as Hhandles.
  { intros Heqh. rewrite Heqh, Hlookup in Hl. injection Hl as <-. simpl in Hcb.
    congruence. }
  unfold awaiting, settlementsOf, isCompleted in *. manager_simpl.
  split; [|by apply filter_other_question].
  split; [by rewrite get_delete_ne|].
  split; [by rewrite timer_lookup_clearTimeout_ne|]. split; [done|].
  intros tm' Hin. apply elem_of_clearTimeout in Hin as [Hin _]. by apply Honly.
Qed.

Lemma rejectQuestion_settled sid acc k p q :
  settled q acc → k ≠ q →
  settled q (rejectQuestion sid acc (k, p))
  ∧ settlementsOf q (rejectQuestion sid acc (k, p)) = settlementsOf q acc.
Proof.
  intros [Hnone Hno] Hne. destruct (decide (q_sessionId p = sid)) as [Heq|Hskip];
    [|by rewrite rejectQuestion_skip].
  rewrite rejectQuestion_eq by done.
  unfold settled, settlementsOf in *. manager_simpl.
  split; [|by apply filter_other_question].
  split; [by rewrite get_delete_ne|].
  intros tm Hin. apply elem_of_clearTimeout in Hin as [Hin _]. by apply Hno.
Qed.

Lemma rejectQuestion_own sid acc q pending deadline :
  awaiting q pending deadline acc → q_sessionId pending = sid →
  settled q (rejectQuestion sid acc (q, pending))
  ∧ settlementsOf q (rejectQuestion sid acc (q, pending))
    = settlementsOf q acc ++ [QuestionRejected q "Session terminated"].
Proof.
  intros (Hget & Hlookup & Hflag & Honly) Heq.
  rewrite rejectQuestion_eq by done.
  unfold settled, settlementsOf. manager_simpl. split.
  - split; [apply get_delete_eq|].
    intros tm Hin Hcb. apply elem_of_clearTimeout in Hin as [Hin Hne].
    by apply Hne, Honly.
  - by rewrite filter_app, filter_cons, decide_True, filter_nil.
Qed.

(** The loop of [terminateSession] over the pending questions. *)
Lemma rejectQuestions_loop sid l acc q :
  wf acc → NoDup l.*1 →
  (∀ k p, (k, p) ∈ l → JsMap.get k (pendingQuestions acc) = Some p) →
  let acc' := fold_left (rejectQuestion sid) l acc in
  wf acc'
  ∧ (∀ pending deadline, awaiting q pending deadline acc →
       (q_sessionId pending = sid → (q, pending) ∈ l →
          settled q acc'
          ∧ settlementsOf q acc'
            = settlementsOf q acc ++ [QuestionRejected q "Session terminated"])
       ∧ (q_sessionId pending ≠ sid ∨ q ∉ l.*1 →
          awaiting q pending deadline acc' ∧ settlementsOf q acc' = settlementsOf q acc))
  ∧ (settled q acc → q ∉ l.*1 →
       settled q acc' ∧ settlementsOf q acc' = settlementsOf q acc).
Proof.
  revert acc. induction l as [|[k p] l IH]; intros acc Hwf Hnd Hpresent acc'.
  - subst acc'. simpl. split; [done|]. split; [|done].
    intros pending deadline Haw. split; [|done].
    intros _ Hin. by apply elem_of_nil in Hin.
  - subst acc'. cbn [fold_left].
    rewrite fmap_cons in Hnd. apply NoDup_cons in Hnd as [Hfresh Hnd].
    assert (JsMap.get k (pendingQuestions acc) = Some p) as Hget
      by (apply Hpresent; by left).
    pose proof (rejectQuestion_wf sid acc k p Hwf Hget) as Hwf1.
    assert (∀ k' p', (k', p') ∈ l →
              JsMap.get k' (pendingQuestions (rejectQuestion sid acc (k, p))) = Some p')
      as Hpresent1.
    { intros k' p' Hin.
      assert (k ≠ k') as Hne.
      { intros ->. apply Hfresh. apply list_elem_of_fmap. by exists (k', p'). }
      destruct (decide (q_sessionId p = sid)) as [Heq|Hskip].
      - rewrite rejectQuestion_eq by done. manager_simpl.
        rewrite get_delete_ne by done. apply Hpresent. by right.
      - rewrite rejectQuestion_skip by done. apply Hpresent. by right. }
    destruct (IH (rejectQuestion sid acc (k, p)) Hwf1 Hnd Hpresent1)
      as (Hwf' & Hawait' & Hsettled').
    split; [done|]. split.
    + intros pending deadline Haw. pose proof Haw as (Hgetq & _). split.
      * intros Hsid Hin. apply elem_of_cons in Hin as [Heq|Hin].
        -- injection Heq as <- <-.
           destruct (rejectQuestion_own sid acc q pending deadline Haw Hsid)
             as [Hs1 Hl1].
           destruct (Hsettled' Hs1 Hfresh) as [Hs' Hl']. split; [done|].
           by rewrite Hl', Hl1.
        -- assert (k ≠ q) as Hne.
           { intros ->. apply Hfresh. apply list_elem_of_fmap. by exists (q, pending). }
           destruct (rejectQuestion_other sid acc k p q pending deadline Hwf Hget Haw Hne)
             as [Haw1 Hl1].
           destruct (Hawait' pending deadline Haw1) as [Hown _].
           destruct (Hown Hsid Hin) as [Hs' Hl']. split; [done|]. by rewrite Hl', Hl1.
      * intros Hcase.
        assert (awaiting q pending deadline (rejectQuestion sid acc (k, p))
                ∧ settlementsOf q (rejectQuestion sid acc (k, p)) = settlementsOf q acc)
          as [Haw1 Hl1].
        { destruct (decide (k = q)) as [->|Hne].
          - assert (p = pending) as -> by congruence.
            destruct Hcase as [Hother|Hout].
            + by rewrite rejectQuestion_skip.
            + destruct Hout. rewrite fmap_cons. by left.
          - by apply rejectQuestion_other. }
        destruct (Hawait' pending deadline Haw1) as [_ Hother].
        destruct Hother as [Haw' Hl'].
        { destruct Hcase as [Hother|Hout]; [by left|]. right.
          intros Hin. apply Hout. rewrite fmap_cons. by right. }
        split; [done|]. by rewrite Hl', Hl1.
    + intros Hs Hout.
      assert (k ≠ q) as Hne by (intros ->; apply Hout; rewrite fmap_cons; by left).
      destruct (rejectQuestion_settled sid acc k p q Hs Hne) as [Hs1 Hl1].
      destruct Hsettled' as [Hs' Hl']; [done| |].
      { intros Hin. apply Hout. rewrite fmap_cons. by right. }
      split; [done|]. by rewrite Hl', Hl1.
Qed.

Lemma rejectPermission_eq sid acc k p :
  p_sessionId p = sid →
  rejectPermission sid acc (k, p)
  = set_pendingPermissions (JsMap.delete k (pendingPermissions acc))
      (set_settlements (settlements acc ++ [PermissionRejected k "Session terminated"])
         (set_timers (Timers.clearTimeout (p_timeoutId p) (timers acc)) acc)).
Proof. intros Heq. unfold rejectPermission. by rewrite decide_True. Qed.

Lemma rejectPermission_skip sid acc entry :
  p_sessionId entry.2 ≠ sid → rejectPermission sid acc entry = acc.
Proof. intros Hne. unfold rejectPermission. by rewrite decide_False. Qed.

Lemma rejectPermission_wf sid acc k p :
  wf acc → JsMap.get k (pendingPermissions acc) = Some p →
  wf (rejectPermission sid acc (k, p)).
Proof.
  intros Hwf Hget. destruct (decide (p_sessionId p = sid)) as [Heq|Hne].
  - rewrite rejectPermission_eq by done. by apply (wf_remove_permission acc _ k p).
  - by rewrite rejectPermission_skip.
Qed.

Lemma filter_permission q (log : list Settlement) k reason :
  filter (λ settlement, questionOf settlement = Some q)
    (log ++ [PermissionRejected k reason])
  = filter (λ settlement, questionOf settlement = Some q) log.
Proof.
  rewrite filter_app, filter_cons, decide_False by (simpl; congruence).
  by rewrite filter_nil, app_nil_r.
Qed.

Lemma rejectPermission_awaiting sid acc k p q pending deadline :
  wf acc → JsMap.get k (pendingPermissions acc) = Some p →
  awaiting q pending deadline acc →
  awaiting q pending deadline (rejectPermission sid acc (k, p))
  ∧ settlementsOf q (rejectPermission sid acc (k, p)) = settlementsOf q acc.
Proof.
  intros Hwf Hget Haw. destruct (decide (p_sessionId p = sid)) as [Heq|Hskip];
    [|by rewrite rejectPermission_skip].
  rewrite rejectPermission_eq by done.
  pose proof Hwf as (_ & _ & _ & _ & _ & Hp2 & _).
  pose proof Haw as (Hgetq & Hlookup & Hflag & Honly).
  destruct (Hp2 k p (get_Some_elem _ _ _ Hget)) as (tm & Hl & Hcb & _).
  assert (p_timeoutId p ≠ q_timeoutId pending) as Hhandles.
  { intros Heqh. rewrite Heqh, Hlookup in Hl. injection Hl as <-. simpl in Hcb.
    congruence. }
  unfold awaiting, settlementsOf, isCompleted in *. manager_simpl.
  split; [|by apply filter_permission].
  split; [done|]. split; [by rewrite timer_lookup_clearTimeout_ne|]. split; [done|].
  intros tm' Hin. apply elem_of_clearTimeout in Hin as [Hin _]. by apply Honly.
Qed.

Lemma rejectPermission_settled sid acc k p q :
  settled q acc →
  settled q (rejectPermission sid acc (k, p))
  ∧ settlementsOf q (rejectPermission sid acc (k, p)) = settlementsOf q acc.
Proof.
  intros [Hnone Hno]. destruct (decide (p_sessionId p = sid)) as [Heq|Hskip];
    [|by rewrite rejectPermission_skip].
  rewrite rejectPermission_eq by done.
  unfold settled, settlementsOf in *. manager_simpl.
  split; [|by apply filter_permission]. split; [done|].
  intros tm Hin. apply elem_of_clearTimeout in Hin as [Hin _]. by apply Hno.
Qed.

(** The loop of [terminateSession] over the pending permission requests
    leaves the questions alone. *)
Lemma rejectPermissions_loop sid l acc q :
  wf acc → NoDup l.*1 →
  (∀ k p, (k, p) ∈ l → JsMap.get k (pendingPermissions acc) = Some p) →
  let acc' := fold_left (rejectPermission sid) l acc in
  wf acc'
  ∧ (∀ pending deadline, awaiting q pending deadline acc →
       awaiting q pending deadline acc' ∧ settlementsOf q acc' = settlementsOf q acc)
  ∧ (settled q acc → settled q acc' ∧ settlementsOf q acc' = settlementsOf q acc).
Proof.
  revert acc. induction l as [|[k p] l IH]; intros acc Hwf Hnd Hpresent acc'.
  - subst acc'. simpl. done.
  - subst acc'. cbn [fold_left].
    rewrite fmap_cons in Hnd. apply NoDup_cons in Hnd as [Hfresh Hnd].
    assert (JsMap.get k (pendingPermissions acc) = Some p) as Hget
      by (apply Hpresent; by left).
    pose proof (rejectPermission_wf sid acc k p Hwf Hget) as Hwf1.
    assert (∀ k' p', (k', p') ∈ l →
              JsMap.get k' (pendingPermissions (rejectPermission sid acc (k, p)))
              = Some p') as Hpresent1.
    { intros k' p' Hin.
      assert (k ≠ k') as Hne.
      { intros ->. apply Hfresh. apply list_elem_of_fmap. by exists (k', p'). }
      destruct (decide (p_sessionId p = sid)) as [Heq|Hskip].
      - rewrite rejectPermission_eq by done. manager_simpl.
        rewrite get_delete_ne by done. apply Hpresent. by right.
      - rewrite rejectPermission_skip by done. apply Hpresent. by right. }
    destruct (IH (rejectPermission sid acc (k, p)) Hwf1 Hnd Hpresent1)
      as (Hwf' & Hawait' & Hsettled').
    split; [done|]. split.
    + intros pending deadline Haw.
      destruct (rejectPermission_awaiting sid acc k p q pending deadline Hwf Hget Haw)
        as [Haw1 Hl1].
      destruct (Hawait' pending deadline Haw1) as [Haw' Hl']. split; [done|].
      by rewrite Hl', Hl1.
    + intros Hs. destruct (rejectPermission_settled sid acc k p q Hs) as [Hs1 Hl1].
      destruct (Hsettled' Hs1) as [Hs' Hl']. split; [done|]. by rewrite Hl', Hl1.
Qed.

(** X18.  [terminateSession] settles the pending questions of the session
    it terminates: each is rejected once with "Session terminated", its
    expiry timer is disarmed and its entry removed, so that no expiry
    rejects it again and a later answer throws the not-found error.  The
    pending questions of the other sessions stay pending, with their
    timers, and are not settled. *)
Theorem terminateSession_rejects_pending_questions (processId : nat) (now : Z) (write : IO)
    (loopEnd : Session.LoopEnd) (sid : string) (m : SessionManager.t) (session : Session.t) :
  wf m → JsMap.get sid (sessions m) = Some session →
  ∃ m',
    terminateSession processId now write loopEnd sid m = (m', inr ())
    ∧ wf m'
    ∧ ∀ q pending deadline, awaiting q pending deadline m →
        (q_sessionId pending = sid →
           settled q m'
           ∧ settlementsOf q m'
             = settlementsOf q m ++ [QuestionRejected q "Session terminated"]
           ∧ (∀ time, settlementsOf q (advance time m') = settlementsOf q m')
           ∧ ∀ answer, answerQuestion q answer m' = (m', inl (questionNotFound q)))
        ∧ (q_sessionId pending ≠ sid →
           awaiting q pending deadline m' ∧ settlementsOf q m' = settlementsOf q m).
Proof.
  intros Hwf Hget.
  assert (∃ m', terminateSession processId now write loopEnd sid m = (m', inr ())) as [m' Ht].
  { unfold terminateSession. rewrite Hget. destruct (Session.terminate loopEnd session). eauto. }
  exists m'. split; [done|].
  unfold terminateSession in Ht. rewrite Hget in Ht.
  pose proof (session_step_never_asks (Session.OpTerminate loopEnd) session) as Hquiet.
  simpl in Hquiet.
  destruct (Session.terminate loopEnd session) as [session' events].
  set (m0 := set_sessions (JsMap.set sid session' (sessions m)) m) in *.
  set (m1 := deliver now sid events m0) in *.
  set (m2 := set_sessions (JsMap.delete sid (sessions m1)) m1) in *.
  set (m3 := fold_left (rejectQuestion sid) (pendingQuestions m2) m2) in *.
  set (m4 := fold_left (rejectPermission sid) (pendingPermissions m3) m3) in *.
  set (m5 := set_messageChunks (JsMap.delete sid (messageChunks m4)) m4) in *.
  injection Ht as <-.
  assert (wf m0) as Hwf0 by exact Hwf.
  pose proof (deliver_wf now sid events m0 Hwf0) as Hwf1. fold m1 in Hwf1.
  pose proof (deliver_untouched now sid events m0 Hquiet) as Hb1. fold m1 in Hb1.
  assert (wf m2) as Hwf2 by exact Hwf1.
  assert (brokerUntouched m m2) as Hb2 by exact Hb1.
  pose proof Hwf2 as (_ & Hndq2 & _).
  assert (∀ q, let acc' := m3 in
            wf acc'
            ∧ (∀ pending deadline, awaiting q pending deadline m2 →
                 (q_sessionId pending = sid → (q, pending) ∈ pendingQuestions m2 →
                    settled q acc'
                    ∧ settlementsOf q acc'
                      = settlementsOf q m2 ++ [QuestionRejected q "Session terminated"])
                 ∧ (q_sessionId pending ≠ sid ∨ q ∉ (pendingQuestions m2).*1 →
                    awaiting q pending deadline acc'
                    ∧ settlementsOf q acc' = settlementsOf q m2))
            ∧ (settled q m2 → q ∉ (pendingQuestions m2).*1 →
                 settled q acc' ∧ settlementsOf q acc' = settlementsOf q m2)) as Hloop3.
  { intros q. apply rejectQuestions_loop; [done|exact Hndq2|].
    intros k p Hin. by apply elem_NoDup_get. }
  assert (wf m3) as Hwf3 by apply (Hloop3 "").
  pose proof Hwf3 as (_ & _ & Hndp3 & _).
  assert (∀ q, let acc' := m4 in
            wf acc'
            ∧ (∀ pending deadline, awaiting q pending deadline m3 →
                 awaiting q pending deadline acc'
                 ∧ settlementsOf q acc' = settlementsOf q m3)
            ∧ (settled q m3 → settled q acc' ∧ settlementsOf q acc' = settlementsOf q m3))
    as Hloop4.
  { intros q. apply rejectPermissions_loop; [done|exact Hndp3|].
    intros k p Hin. by apply elem_NoDup_get. }
  assert (wf m4) as Hwf4 by apply (Hloop4 "").
  assert (brokerUntouched m4 (updateLockFile processId now write m5)) as Hb5.
  { unfold updateLockFile, writeLockFile. destruct write; by repeat split. }
  assert (wf (updateLockFile processId now write m5)) as Hwf5.
  { destruct Hb5 as (Hq5 & Hp5 & Ht5 & _ & Hc5).
    apply (wf_frame m4); try done;
      unfold updateLockFile, writeLockFile; by destruct write. }
  split; [done|].
  intros q pending deadline Haw.
  pose proof (awaiting_untouched q pending deadline m m2 Hb2 Haw) as Haw2.
  pose proof (settlementsOf_untouched q m m2 Hb2) as Hl2.
  destruct (Hloop3 q) as (_ & Hawait3 & _).
  destruct (Hawait3 pending deadline Haw2) as [Hown3 Hother3].
  destruct (Hloop4 q) as (_ & Hawait4 & Hsettled4).
  split.
  - intros Hsid.
    destruct Hown3 as [Hs3 Hl3]; [done|apply get_Some_elem; by destruct Haw2|].
    destruct (Hsettled4 Hs3) as [Hs4 Hl4].
    pose proof (settled_untouched q _ _ Hb5 Hs4) as Hs5.
    pose proof (settlementsOf_untouched q _ _ Hb5) as Hl5.
    split; [done|]. split; [by rewrite Hl5, Hl4, Hl3, Hl2|]. split.
    + intros time. by destruct (fireAll_keeps_settled q
                                  (Timers.handle <$> Timers.due time
                                     (timers (updateLockFile processId now write m5)))
                                  _ Hs5).
    + intros answer. by apply answer_settled.
  - intros Hother.
    destruct Hother3 as [Haw3 Hl3]; [by left|].
    destruct (Hawait4 pending deadline Haw3) as [Haw4 Hl4].
    split; [by apply (awaiting_untouched q pending deadline _ _ Hb5)|].
    by rewrite (settlementsOf_untouched q _ _ Hb5), Hl4, Hl3, Hl2.
Qed.

Lemma terminateSession_rejects_pending_questions_witness :
  let sid := BrokerOps.numberedUuid 0 in
  let q := BrokerOps.numberedUuid 1 in
  let created :=
    (createSession 4242 1000 succeeds succeeds (mkOptions "/home/dev" None)
       BrokerOps.numberedManager).1 in
  let m :=
    handleSessionEvent 1100 sid (question "" "Which colour?" [("red", "warm")] false)
      created in
  let m' := (terminateSession 4242 2000 succeeds Session.loop_returns sid m).1 in
  settlementsOf q m' = [QuestionRejected q "Session terminated"]
  ∧ settlementsOf q (advance 400000 m') = [QuestionRejected q "Session terminated"]
  ∧ (answerQuestion q "red" m').2 = inl (questionNotFound q).
Proof.
  intros sid q created m m'.
  assert (wf created) as Hwf.
  { apply (wf_frame BrokerOps.numberedManager);
      [apply new_broker_wf, numberedUuid_inj|reflexivity..|vm_compute; lia]. }
  destruct (question_registers 1100 sid "" "Which colour?" [("red", "warm")] false
              created Hwf) as (Hwfm & Haw & _ & Hlog).
  assert (uuidSource created (uuidsTaken created) = q) as Hq by (vm_compute; reflexivity).
  rewrite Hq in Haw.
  destruct (terminateSession_rejects_pending_questions 4242 2000 succeeds
              Session.loop_returns sid m
              (Session.new sid (NodePath.join Fixtures.workspaces sid) None 1000) Hwfm)
    as (m1 & Ht & _ & Hall).
  { vm_compute. reflexivity. }
  destruct (Hall _ _ _ Haw) as [Hown _].
  destruct (Hown eq_refl) as (_ & Hl & Hlater & Hanswer).
  subst m'. fold m in Ht. rewrite Ht. cbn [fst].
  assert (settlementsOf q m = []) as Hnone.
  { unfold settlementsOf. fold m in Hlog. rewrite Hlog. vm_compute. reflexivity. }
  fold m in Hl. rewrite Hnone in Hl.
  split; [exact Hl|]. split; [by rewrite Hlater|]. by rewrite Hanswer.
Defined.

End TerminatePending.

(** ** Pending permission requests *)

Section PendingPermissions.

Import SessionManager BrokerInvariant PermissionInvariant TimerInvariant.

Lemma decisionsOf_other (log : list Settlement) p settlement :
  permissionOf settlement ≠ Some p →
  filter (λ s, permissionOf s = Some p) (log ++ [settlement])
  = filter (λ s, permissionOf s = Some p) log.
Proof.
  intros Hne. rewrite filter_app, filter_cons, decide_False by done.
  by rewrite filter_nil, app_nil_r.
Qed.

Lemma decisionsOf_own (log : list Settlement) p settlement :
  permissionOf settlement = Some p →
  filter (λ s, permissionOf s = Some p) (log ++ [settlement])
  = filter (λ s, permissionOf s = Some p) log ++ [settlement].
Proof. intros Heq. by rewrite filter_app, filter_cons, decide_True. Qed.

(** A timer that is not the expiry timer of [p] leaves a pending [p]
    alone. *)
Lemma fireTimer_keeps_undecided p pending deadline h (m : SessionManager.t) :
  undecided p pending deadline m → h ≠ p_timeoutId pending →
  undecided p pending deadline (fireTimer h m)
  ∧ decisionsOf p (fireTimer h m) = decisionsOf p m.
Proof.
  intros (Hget & Hlookup & Hflag & Honly) Hne.
  assert (Timers.lookup (p_timeoutId pending) (timers (fireTimer h m))
          = Some (Timers.mkTimer (p_timeoutId pending) deadline (PermissionTimeout p)))
    as Hlookup' by by rewrite broker_fireTimer_lookup_ne.
  assert (∀ tm, tm ∈ Timers.armed (timers (fireTimer h m)) →
                Timers.callback tm = PermissionTimeout p →
                Timers.handle tm = p_timeoutId pending) as Honly'.
  { intros tm Hin. by apply Honly, broker_fireTimer_armed with h. }
  destruct (Timers.lookup h (timers m)) as [tm|] eqn:Hl.
  - destruct (timer_lookup_Some _ _ _ Hl) as [Hin Hh].
    destruct (Timers.callback tm) as [q'|p'] eqn:Hcb.
    + rewrite (broker_fireTimer_question h m tm q' Hl Hcb) in *. cbv zeta in *.
      destruct (isCompleted h m); [by repeat split|].
      destruct (JsMap.get q' (pendingQuestions m)); manager_simpl.
      * split; [split; [|split; [|split]]|]; manager_simpl; try done.
        -- unfold isCompleted in *. manager_simpl. by rewrite lookup_insert_ne.
        -- unfold decisionsOf. manager_simpl. by apply decisionsOf_other.
      * split; [split; [|split; [|split]]|]; manager_simpl; try done.
        unfold isCompleted in *. manager_simpl. by rewrite lookup_insert_ne.
    + assert (p' ≠ p) as Hp.
      { intros ->. apply Hne. rewrite <- Hh. by apply Honly. }
      rewrite (broker_fireTimer_permission h m tm p' Hl Hcb) in *. cbv zeta in *.
      destruct (isCompleted h m); [by repeat split|].
      destruct (JsMap.get p' (pendingPermissions m)); manager_simpl.
      * split; [split; [|split; [|split]]|]; manager_simpl; try done.
        -- by rewrite get_delete_ne.
        -- unfold isCompleted in *. manager_simpl. by rewrite lookup_insert_ne.
        -- unfold decisionsOf. manager_simpl. apply decisionsOf_other.
           simpl. congruence.
      * split; [split; [|split; [|split]]|]; manager_simpl; try done.
        unfold isCompleted in *. manager_simpl. by rewrite lookup_insert_ne.
  - rewrite (broker_fireTimer_unarmed h m Hl) in *. by repeat split.
Qed.

(** Once a permission request is decided no timer brings it back or
    settles it again. *)
Lemma fireTimer_keeps_decided p h (m : SessionManager.t) :
  decided p m →
  decided p (fireTimer h m) ∧ decisionsOf p (fireTimer h m) = decisionsOf p m.
Proof.
  intros (Hnone & Hno).
  assert (∀ tm, tm ∈ Timers.armed (timers (fireTimer h m)) →
                Timers.callback tm ≠ PermissionTimeout p) as Hno'.
  { intros tm Hin. by apply Hno, broker_fireTimer_armed with h. }
  destruct (Timers.lookup h (timers m)) as [tm|] eqn:Hl.
  - destruct (timer_lookup_Some _ _ _ Hl) as [Hin Hh].
    destruct (Timers.callback tm) as [q'|p'] eqn:Hcb.
    + rewrite (broker_fireTimer_question h m tm q' Hl Hcb) in *. cbv zeta in *.
      destruct (isCompleted h m); [by repeat split|].
      destruct (JsMap.get q' (pendingQuestions m)); manager_simpl.
      * split; [split|]; manager_simpl; try done.
        unfold decisionsOf. manager_simpl. by apply decisionsOf_other.
      * by repeat split.
    + assert (p' ≠ p) as Hp.
      { intros ->. by apply (Hno tm Hin). }
      rewrite (broker_fireTimer_permission h m tm p' Hl Hcb) in *. cbv zeta in *.
      destruct (isCompleted h m); [by repeat split|].
      destruct (JsMap.get p' (pendingPermissions m)); manager_simpl.
      * split; [split|]; manager_simpl; try done.
        -- by rewrite get_delete_ne.
        -- unfold decisionsOf. manager_simpl. apply decisionsOf_other.
           simpl. congruence.
      * by repeat split.
  - rewrite (broker_fireTimer_unarmed h m Hl) in *. by repeat split.
Qed.

Lemma fireAll_keeps_undecided p pending deadline handles (m : SessionManager.t) :
  undecided p pending deadline m → (∀ h, h ∈ handles → h ≠ p_timeoutId pending) →
  undecided p pending deadline (fireAll handles m)
  ∧ decisionsOf p (fireAll handles m) = decisionsOf p m.
Proof.
  intros Hpending Hother. unfold fireAll.
  apply (fold_left_preserves (λ acc h, fireTimer h acc)
           (λ acc, undecided p pending deadline acc
                   ∧ decisionsOf p acc = decisionsOf p m)); [|done].
  intros acc h Hin [Hacc Hlog].
  destruct (fireTimer_keeps_undecided p pending deadline h acc Hacc (Hother h Hin))
    as [Hacc' Hlog'].
  split; [done|congruence].
Qed.

Lemma fireAll_keeps_decided p handles (m : SessionManager.t) :
  decided p m →
  decided p (fireAll handles m) ∧ decisionsOf p (fireAll handles m) = decisionsOf p m.
Proof.
  intros Hdecided. unfold fireAll.
  apply (fold_left_preserves (λ acc h, fireTimer h acc)
           (λ acc, decided p acc ∧ decisionsOf p acc = decisionsOf p m)); [|done].
  intros acc h _ [Hacc Hlog].
  destruct (fireTimer_keeps_decided p h acc Hacc) as [Hacc' Hlog'].
  split; [done|congruence].
Qed.

(** Short of its deadline a pending permission request stays pending. *)
Lemma advance_keeps_undecided p pending deadline (time : Z) (m : SessionManager.t) :
  wfTable (timers m) → undecided p pending deadline m → (time < deadline)%Z →
  undecided p pending deadline (advance time m)
  ∧ decisionsOf p (advance time m) = decisionsOf p m.
Proof.
  intros Hwf Hpending Hlt. unfold advance. apply fireAll_keeps_undecided; [done|].
  intros h Hin Heq. subst h. apply list_elem_of_fmap in Hin as (tm & Hh & Hdue).
  apply elem_of_due in Hdue as [Harmed Hdeadline].
  destruct Hpending as (_ & Hlookup & _).
  apply timer_lookup_Some in Hlookup as [Hmine _].
  assert (tm = Timers.mkTimer (p_timeoutId pending) deadline (PermissionTimeout p))
    as Htm.
  { apply (handle_inj (timers m)); [done..|]. simpl. congruence. }
  rewrite Htm in Hdeadline. simpl in Hdeadline. lia.
Qed.

(** The expiry timer of a pending permission request rejects and removes
    it. *)
Lemma expiry_decides p pending deadline (m : SessionManager.t) :
  undecided p pending deadline m →
  decided p (fireTimer (p_timeoutId pending) m)
  ∧ decisionsOf p (fireTimer (p_timeoutId pending) m)
    = decisionsOf p m ++ [PermissionRejected p "Permission request timeout"].
Proof.
  intros (Hget & Hlookup & Hflag & Honly).
  rewrite (broker_fireTimer_permission _ m _ p Hlookup eq_refl). cbv zeta.
  rewrite Hflag, Hget. split; [split|]; manager_simpl.
  - apply get_delete_eq.
  - intros tm Hin Hcb. apply elem_of_clearTimeout in Hin as [Hin Hne].
    by apply Hne, Honly.
  - unfold decisionsOf. manager_simpl. by apply decisionsOf_own.
Qed.

(** Past its deadline a pending permission request has been rejected,
    once. *)
Lemma advance_rejects_permission p pending deadline (time : Z) (m : SessionManager.t) :
  wfTable (timers m) → undecided p pending deadline m → (deadline ≤ time)%Z →
  decided p (advance time m)
  ∧ decisionsOf p (advance time m)
    = decisionsOf p m ++ [PermissionRejected p "Permission request timeout"].
Proof.
  intros Hwf Hpending Hle.
  pose proof Hpending as (_ & Hlookup & _).
  pose proof (due_handles_NoDup time (timers m) Hwf) as Hnodup.
  assert (p_timeoutId pending ∈ Timers.handle <$> Timers.due time (timers m)) as Hdue.
  { apply timer_lookup_Some in Hlookup as [Harmed _]. apply list_elem_of_fmap.
    exists (Timers.mkTimer (p_timeoutId pending) deadline (PermissionTimeout p)).
    split; [done|]. by apply elem_of_due. }
  apply list_elem_of_split in Hdue as (before & after & Hsplit).
  unfold advance. rewrite Hsplit in *.
  apply NoDup_app in Hnodup as (_ & Hbefore & _).
  unfold fireAll. rewrite fold_left_app. simpl.
  destruct (fireAll_keeps_undecided p pending deadline before m Hpending)
    as [Hpending1 Hlog1].
  { intros h Hin ->. apply (Hbefore _ Hin). by left. }
  unfold fireAll in Hpending1, Hlog1.
  set (m1 := fold_left (λ acc h, fireTimer h acc) before m) in *.
  destruct (expiry_decides p pending deadline m1 Hpending1) as [Hdecided2 Hlog2].
  destruct (fireAll_keeps_decided p after _ Hdecided2) as [Hdecided3 Hlog3].
  unfold fireAll in Hdecided3, Hlog3. split; [done|]. congruence.
Qed.

(** Responding to a pending permission request. *)
Lemma respond_pending p pending deadline decision (m : SessionManager.t) :
  undecided p pending deadline m →
  ∃ m', respondToPermission p decision m = (m', inr ())
        ∧ decisionsOf p m' = decisionsOf p m ++ [PermissionResolved p decision]
        ∧ decided p m'.
Proof.
  intros (Hget & Hlookup & Hflag & Honly).
  unfold respondToPermission. rewrite Hget. eexists. split; [reflexivity|].
  unfold resolveClosure, isCompleted, decisionsOf, decided in *. manager_simpl.
  rewrite Hflag. manager_simpl. split; [by apply decisionsOf_own|]. split.
  - apply get_delete_eq.
  - intros tm Hin Hcb. apply elem_of_clearTimeout in Hin as [Hin Hne].
    apply elem_of_clearTimeout in Hin as [Hin _]. by apply Hne, Honly.
Qed.

(** Responding to a permission request that is not pending fails and
    changes nothing. *)
Lemma respond_decided p decision (m : SessionManager.t) :
  decided p m → respondToPermission p decision m = (m, inl (permissionNotFound p)).
Proof. intros [Hnone _]. unfold respondToPermission. by rewrite Hnone. Qed.

(** A permission request event registers a pending request under a fresh
    id, with an expiry timer due five minutes later. *)
Lemma permission_awaits now sid x tool toolInput options (m : SessionManager.t) :
  wf m →
  let p := uuidSource m (uuidsTaken m) in
  let m1 := handleSessionEvent now sid (permission_request x tool toolInput options) m in
  undecided p (mkPermission p sid tool toolInput options (Timers.nextHandle (timers m)))
    (now + QUESTION_TIMEOUT_MS) m1
  ∧ forwarded m1 = forwarded m ++ [(sid, permission_request p tool toolInput options)]
  ∧ settlements m1 = settlements m.
Proof.
  intros Hwfm p m1. pose proof (next_uuid_fresh m Hwfm) as [Hfreshq Hfreshp].
  pose proof Hwfm as (Hwf & Hndq & Hndp & Hq2 & Hq3 & Hp2 & Hp3 & Hids & Hinj).
  fold p in Hfreshq, Hfreshp.
  subst m1. rewrite handleSessionEvent_permission_eq. cbv zeta. fold p.
  set (h := Timers.nextHandle (timers m)).
  assert (Timers.lookup h
            (Timers.setTimeout (PermissionTimeout p) now QUESTION_TIMEOUT_MS
               (timers m)).2
          = Some (Timers.mkTimer h (now + QUESTION_TIMEOUT_MS) (PermissionTimeout p)))
    as Hnew by by apply timer_lookup_setTimeout_new.
  split; [|done].
  unfold undecided, isCompleted. manager_simpl. rewrite get_set_eq.
  split; [done|]. split; [exact Hnew|]. split; [by rewrite lookup_insert_eq|].
  intros tm Hin Hcb. apply elem_of_setTimeout in Hin as [Hin| ->]; [|done].
  destruct (Hp3 tm p Hin Hcb) as (pending & Hget & _). congruence.
Qed.

(** X19.  A [permission_request] event registers a pending request under
    a fresh id, forwarded with that id, and arms its expiry five minutes
    ahead.  The request is settled exactly once: a response resolves it
    with the decision, after which neither the expiry nor a second response
    settles it again; left alone it stays pending until the deadline and is
    rejected once with "Permission request timeout" from then on, after
    which a response throws the not-found error. *)
Theorem pending_permission_settles_once (now : Z) (sid x tool toolInput : string)
    (options : list (string * string)) (m : SessionManager.t) :
  wf m →
  let p := uuidSource m (uuidsTaken m) in
  let asked := handleSessionEvent now sid (permission_request x tool toolInput options) m in
  let deadline := (now + QUESTION_TIMEOUT_MS)%Z in
  forwarded asked = forwarded m ++ [(sid, permission_request p tool toolInput options)]
  ∧ decisionsOf p asked = decisionsOf p m
  ∧ (∀ decision, ∃ m',
       respondToPermission p decision asked = (m', inr ())
       ∧ decisionsOf p m' = decisionsOf p m ++ [PermissionResolved p decision]
       ∧ ∀ time,
           decisionsOf p (advance time m') = decisionsOf p m'
           ∧ ∀ again, respondToPermission p again (advance time m')
                      = (advance time m', inl (permissionNotFound p)))
  ∧ (∀ time, (time < deadline)%Z →
       (∃ pending, JsMap.get p (pendingPermissions (advance time asked)) = Some pending)
       ∧ decisionsOf p (advance time asked) = decisionsOf p m)
  ∧ (∀ time, (deadline ≤ time)%Z →
       decisionsOf p (advance time asked)
       = decisionsOf p m ++ [PermissionRejected p "Permission request timeout"]
       ∧ ∀ decision, respondToPermission p decision (advance time asked)
                     = (advance time asked, inl (permissionNotFound p))).
Proof.
  intros Hwfm p asked deadline.
  pose proof (permission_registers now sid x tool toolInput options m Hwfm) as Hwf1.
  destruct (permission_awaits now sid x tool toolInput options m Hwfm)
    as (Hpending & Hforwarded & Hlog).
  fold p asked deadline in Hwf1, Hpending, Hforwarded, Hlog.
  assert (decisionsOf p asked = decisionsOf p m) as Hsame
    by (unfold decisionsOf; by rewrite Hlog).
  pose proof Hwf1 as [Htable _].
  split; [done|]. split; [done|]. split; [|split].
  - intros decision.
    destruct (respond_pending p _ deadline decision asked Hpending)
      as (m' & Hrespond & Hlog' & Hdecided).
    exists m'. split; [done|]. split; [by rewrite Hlog', Hsame|].
    intros time.
    destruct (fireAll_keeps_decided p (Timers.handle <$> Timers.due time (timers m')) m'
                Hdecided) as [Hlater Hlog''].
    split; [done|]. intros again. by apply respond_decided.
  - intros time Hlt.
    destruct (advance_keeps_undecided p _ deadline time asked Htable Hpending Hlt)
      as [(Hget & _) Hlog'].
    split; [eauto|]. by rewrite Hlog', Hsame.
  - intros time Hle.
    destruct (advance_rejects_permission p _ deadline time asked Htable Hpending Hle)
      as [Hdecided Hlog'].
    split; [by rewrite Hlog', Hsame|]. intros decision. by apply respond_decided.
Qed.

Lemma pending_permission_settles_once_witness :
  let p := BrokerOps.numberedUuid 0 in
  let asked :=
    handleSessionEvent 0 "s1" (permission_request "" "Bash" "rm -rf build" [] )
      BrokerOps.numberedManager in
  decisionsOf p (respondToPermission p allow asked).1 = [PermissionResolved p allow]
  ∧ decisionsOf p (advance 299999 asked) = []
  ∧ decisionsOf p (advance 300000 asked)
    = [PermissionRejected p "Permission request timeout"]
  ∧ (respondToPermission p allow (advance 300000 asked)).2
    = inl (permissionNotFound p).
Proof.
  intros p asked.
  destruct (pending_permission_settles_once 0 "s1" "" "Bash" "rm -rf build" []
              BrokerOps.numberedManager
              (new_broker_wf _ _ _ _ numberedUuid_inj))
    as (_ & _ & Hrespond & Hshort & Hexpire).
  change (uuidSource BrokerOps.numberedManager (uuidsTaken BrokerOps.numberedManager))
    with p in Hrespond, Hshort, Hexpire.
  fold asked in Hrespond, Hshort, Hexpire.
  destruct (Hrespond allow) as (m' & Heq & Hlog & _).
  destruct (Hshort 299999%Z) as [_ Hlog1]; [done|].
  destruct (Hexpire 300000%Z) as [Hlog2 Hfail]; [done|].
  rewrite Heq, Hfail. cbn [fst snd].
  split; [exact Hlog|]. split; [exact Hlog1|]. split; [exact Hlog2|reflexivity].
Defined.

End PendingPermissions.
